(** * VinuChain lists: the input-validation and injection-defence pipeline

    A shallow embedding of the validators under [scripts/utils] and
    [scripts/validators] (safe-json.js, file-utils.js, url-validator.js,
    address-validator.js, abi-validator.js, solidity-validator.js and
    constants.js), followed by the properties the specification states
    about them.

    Conventions.
    - A JavaScript string is the list of its UTF-16 code units ([jsstring]).
    - A JavaScript value that the validators inspect with [typeof],
      truthiness or property reads is a [JSValue]: a primitive, an array
      or a plain object that holds data only.
    - A call that may throw comes back as a [Thrown] value.
    - A result object is a [Result] record whose optional fields are
      [option]s: [None] is an absent property.
    - A regular expression literal is a [RegExp]: its anchors and a [regex]
      syntax tree; [test] is the language membership the engine decides.
    - What the platform provides is modelled next to the code that calls
      it: [JSON.parse] ([Json]), the POSIX [path] module ([Path]) and the
      [getAddress] of ethers with its Keccak-256 ([Ethers], [Keccak]) are
      written out, and so are the reading and the printing of numbers as
      doubles ([Double]); [process.cwd()] and [new URL] are parameters
      of the functions that use them, and so is [new RegExp] for the
      pattern sources that the model does not read itself. *)

From Stdlib Require Import List Bool NArith ZArith Ascii String Lia.
Import ListNotations.

Set Warnings "-register-all".

Local Open Scope string_scope.
Local Open Scope N_scope.
Local Open Scope list_scope.

(* ================================================================== *)
(** ** JavaScript strings *)

Definition jsstring : Type := list N.

(** A source literal, as code units. *)
Definition str (s : string) : jsstring :=
  map N_of_ascii (list_ascii_of_string s).

Coercion str : string >-> jsstring.

Module Str.

Fixpoint eqb (a b : jsstring) : bool :=
  match a, b with
  | [], [] => true
  | x :: a', y :: b' => N.eqb x y && eqb a' b'
  | _, _ => false
  end.

(** [s.startsWith(p)] *)
Fixpoint startsWith (s p : jsstring) : bool :=
  match p, s with
  | [], _ => true
  | y :: p', x :: s' => N.eqb x y && startsWith s' p'
  | _ :: _, [] => false
  end.

(** [s.includes(sub)] *)
Fixpoint includes (s sub : jsstring) : bool :=
  startsWith s sub ||
  match s with
  | [] => false
  | _ :: s' => includes s' sub
  end.

(** [arr.includes(s)] for an array of strings. *)
Definition mem (s : jsstring) (l : list jsstring) : bool :=
  existsb (eqb s) l.

(** White space and line terminators: what [\s] matches and what
    [trim] strips. *)
Definition white_ranges : list (N * N) :=
  [(9, 13); (32, 32); (160, 160); (5760, 5760); (8192, 8202);
   (8232, 8233); (8239, 8239); (8287, 8287); (12288, 12288);
   (65279, 65279)].

Definition in_ranges (c : N) (rs : list (N * N)) : bool :=
  existsb (fun r => (fst r <=? c) && (c <=? snd r)) rs.

Definition is_white (c : N) : bool := in_ranges c white_ranges.

Fixpoint trimStart (s : jsstring) : jsstring :=
  match s with
  | c :: s' => if is_white c then trimStart s' else s
  | [] => []
  end.

Definition trimEnd (s : jsstring) : jsstring := rev (trimStart (rev s)).

Definition trim (s : jsstring) : jsstring := trimEnd (trimStart s).

(** Case mapping of one code unit.  The mapping is the Unicode one on
    Basic Latin and Latin-1 Supplement; code units above U+00FF are left
    as they are. *)
Definition lower_unit (c : N) : N :=
  if ((65 <=? c) && (c <=? 90)) ||
     ((192 <=? c) && (c <=? 222) && negb (c =? 215))
  then c + 32 else c.

Definition upper_unit (c : N) : N :=
  if (97 <=? c) && (c <=? 122) then c - 32 else c.

Definition toLowerCase (s : jsstring) : jsstring := map lower_unit s.

(** Decimal rendering of a number, as template literals print it. *)
Fixpoint digits_fuel (fuel : nat) (n : N) (acc : jsstring) : jsstring :=
  match fuel with
  | O => acc
  | S fuel' =>
      let acc' := (48 + n mod 10) :: acc in
      if n / 10 =? 0 then acc' else digits_fuel fuel' (n / 10) acc'
  end.

Definition of_N (n : N) : jsstring := digits_fuel (S (N.to_nat (N.log2 n))) n [].

Definition of_nat (n : nat) : jsstring := of_N (N.of_nat n).

(** [parts.join(sep)] *)
Fixpoint join (sep : jsstring) (l : list jsstring) : jsstring :=
  match l with
  | [] => []
  | [x] => x
  | x :: l' => x ++ sep ++ join sep l'
  end.

End Str.

(* ================================================================== *)
(** ** JavaScript values *)

(** How a call comes back: with a value, or with an error thrown,
    given by its message. *)
Inductive Thrown (A : Type) : Type :=
| Returns (a : A)
| Throws (message : jsstring).
Arguments Returns {A} a.
Arguments Throws {A} message.

(** A number is kept as the decimal [mantissa * 10 ^ exponent] its text
    spells; its value is the double nearest to that decimal. *)
Record Number : Type := mkNumber { mantissa : Z; exponent : Z }.

(** IEEE 754 binary64, as far as the validators see it: which double a
    decimal is read as, and which text a double prints as. *)
Module Double.
Local Open Scope Z_scope.

(** The magnitude of a double: zero, [f * 2 ^ q] with [0 < f < 2 ^ 53]
    and [-1074 <= q <= 971] (and [2 ^ 52 <= f] unless [q] is [-1074]),
    or infinity. *)
Inductive t : Type :=
| Zero
| Finite (f q : Z)
| Infinity.

Definition eqb (x y : t) : bool :=
  match x, y with
  | Zero, Zero | Infinity, Infinity => true
  | Finite f q, Finite f' q' => (f =? f') && (q =? q')
  | _, _ => false
  end.

(** The integer nearest to [num / den], the even one when two are
    as near. *)
Definition round_div (num den : Z) : Z :=
  let d := num / den in
  let r := num mod den in
  if 2 * r <? den then d
  else if den <? 2 * r then d + 1
  else if Z.even d then d else d + 1.

(** [num / den] divided by [b ^ k], as a fraction. *)
Definition scaled (b num den k : Z) : Z * Z :=
  if 0 <=? k then (num, den * b ^ k) else (num * b ^ (- k), den).

(** The floor of the binary logarithm of [num / den]. *)
Definition log2_floor (num den : Z) : Z :=
  let k := Z.log2 num - Z.log2 den in
  let '(a, b) := scaled 2 num den k in
  if b <=? a then k else k - 1.

(** The double nearest to [num / den], for positive [num] and [den]
    (round to nearest, ties to even; past the largest double, infinity). *)
Definition nearest (num den : Z) : t :=
  let q := Z.max (log2_floor num den - 52) (-1074) in
  let '(a, b) := scaled 2 num den q in
  let f := round_div a b in
  let '(f, q) := if f =? 2 ^ 53 then (2 ^ 52, q + 1) else (f, q) in
  if f =? 0 then Zero
  else if 971 <? q then Infinity
  else Finite f q.

Definition decimal_length (m : Z) : Z :=
  Z.of_nat (List.length (Str.of_N (Z.to_N m))).

(** The double nearest to [m * 10 ^ e], for [0 <= m].  Far outside the
    range of the doubles the answer is known without the division. *)
Definition of_decimal (m e : Z) : t :=
  if m =? 0 then Zero
  else if 310 <? e + decimal_length m then Infinity
  else if e + decimal_length m <? -330 then Zero
  else if 0 <=? e then nearest (m * 10 ^ e) 1
  else nearest m (10 ^ (- e)).

(** The [n] with [10 ^ (n - 1) <= num / den < 10 ^ n]. *)
Definition magnitude (num den : Z) : Z :=
  let est := log2_floor num den * 1233 / 4096 in
  let below (n : Z) : bool :=
    let '(a, b) := scaled 10 num den n in a <? b in
  if below (est - 1) then est - 1
  else if below est then est
  else if below (est + 1) then est + 1
  else est + 2.

(** The digits of [Number::toString]: the least [k] and an [s] of [k]
    digits such that [s * 10 ^ (n - k)] is read back as the same double,
    the [s] nearest to the double when there are two; [n] is one more
    when [s] has been rounded up to [10 ^ k]. *)
Fixpoint shortest (fuel : nat) (k : Z) (x : t) (num den n : Z) : Z * Z :=
  let '(a, b) := scaled 10 num den (n - k) in
  let lo := a / b in
  let hi := lo + 1 in
  match fuel with
  | O => (lo, n)
  | S fuel' =>
      let ok_lo := eqb (of_decimal lo (n - k)) x in
      let ok_hi := eqb (of_decimal hi (n - k)) x in
      let r := a mod b in
      let s :=
        if ok_lo && ok_hi
        then Some (if (2 * r <? b) || ((2 * r =? b) && Z.even lo)
                   then lo else hi)
        else if ok_lo then Some lo
        else if ok_hi then Some hi
        else None in
      match s with
      | Some s => if s =? 10 ^ k then (1, n + 1) else (s, n)
      | None => shortest fuel' (k + 1) x num den n
      end
  end.

Definition exponent_part (e : Z) : jsstring :=
  (str "e" ++ (if e <? 0 then str "-" else str "+")
   ++ Str.of_N (Z.abs_N e))%list.

(** The text of [Number::toString] for the digits [s] and the
    position [n] of the decimal point. *)
Definition layout (s n : Z) : jsstring :=
  let digits := Str.of_N (Z.to_N s) in
  let k := Z.of_nat (List.length digits) in
  (if (k <=? n) && (n <=? 21)
   then digits ++ repeat 48%N (Z.to_nat (n - k))
   else if (0 <? n) && (n <=? 21)
   then firstn (Z.to_nat n) digits ++ str "." ++ skipn (Z.to_nat n) digits
   else if (-6 <? n) && (n <=? 0)
   then str "0." ++ repeat 48%N (Z.to_nat (- n)) ++ digits
   else if k =? 1
   then digits ++ exponent_part (n - 1)
   else firstn 1 digits ++ str "." ++ skipn 1 digits
        ++ exponent_part (n - 1))%list.

Definition to_text (x : t) : jsstring :=
  match x with
  | Zero => str "0"
  | Infinity => str "Infinity"
  | Finite f q =>
      let '(num, den) := scaled 2 f 1 (- q) in
      let '(s, n) := shortest 17 1 x num den (magnitude num den) in
      layout s n
  end.

End Double.

Module Num.

(** The double that [JSON.parse] makes of the number, without its
    sign. *)
Definition value (n : Number) : Double.t :=
  Double.of_decimal (Z.abs (mantissa n)) (exponent n).

(** The number is [0] or [-0]: its decimal is zero, or so small that
    it is read as zero. *)
Definition is_zero (n : Number) : bool :=
  match value n with Double.Zero => true | _ => false end.

(** [Number::toString] *)
Definition toString (n : Number) : jsstring :=
  match value n with
  | Double.Zero => str "0"
  | x => (if (mantissa n <? 0)%Z then str "-" else []) ++ Double.to_text x
  end.

End Num.

Inductive JSValue : Type :=
| JUndefined
| JNull
| JBool (b : bool)
| JNum (n : Number)
| JStr (s : jsstring)
| JArr (elems : list JSValue)
| JObj (props : list (jsstring * JSValue)).

Module Value.

(** [ToBoolean] *)
Definition truthy (v : JSValue) : bool :=
  match v with
  | JUndefined | JNull => false
  | JBool b => b
  | JNum n => negb (Num.is_zero n)
  | JStr s => match s with [] => false | _ => true end
  | JArr _ | JObj _ => true
  end.

(** [typeof v === 'object'] (true of [null], arrays and objects). *)
Definition typeof_object (v : JSValue) : bool :=
  match v with
  | JNull | JArr _ | JObj _ => true
  | _ => false
  end.

Definition typeof_string (v : JSValue) : bool :=
  match v with JStr _ => true | _ => false end.

Fixpoint lookup (k : jsstring) (props : list (jsstring * JSValue))
  : option JSValue :=
  match props with
  | [] => None
  | (k', v) :: rest => if Str.eqb k k' then Some v else lookup k rest
  end.

(** Property read [v.k] for the plain data properties the validators
    read ([type], [name], [inputs], ...): an own property of an object,
    [undefined] otherwise. *)
Definition get (v : JSValue) (k : jsstring) : JSValue :=
  match v with
  | JObj props => match lookup k props with Some x => x | None => JUndefined end
  | _ => JUndefined
  end.

(** [v === 'literal'] *)
Definition eq_str (v : JSValue) (s : jsstring) : bool :=
  match v with JStr t => Str.eqb t s | _ => false end.

(** [arr.includes(v)] for an array of string constants. *)
Definition in_strings (v : JSValue) (l : list jsstring) : bool :=
  match v with JStr t => Str.mem t l | _ => false end.

(** The code units of a value that is a string: what the code reads
    once [typeof] has told that the value is a string. *)
Definition text (v : JSValue) : jsstring :=
  match v with JStr s => s | _ => [] end.

(** The names every plain object inherits from [Object.prototype]
    (built-in functions, and [__proto__], which reads as the prototype
    itself), on an engine whose [Object.prototype] holds its built-in
    members only. *)
Definition OBJECT_PROTOTYPE : list jsstring :=
  [ str "constructor"; str "__defineGetter__"; str "__defineSetter__";
    str "hasOwnProperty"; str "__lookupGetter__"; str "__lookupSetter__";
    str "isPrototypeOf"; str "propertyIsEnumerable"; str "toString";
    str "valueOf"; str "__proto__"; str "toLocaleString" ].

(** The message of the [TypeError] of [OrdinaryToPrimitive]. *)
Definition NOT_PRIMITIVE : jsstring :=
  str "Cannot convert object to primitive value".

(** [ToString], as [String(v)] and a template literal [`${v}`] apply
    it.  A plain object prints through [Object.prototype.toString]
    unless it has a [toString] of its own: the values here hold data
    only, so that an own [toString] is not callable, [valueOf] gives no
    primitive either, and the conversion throws a [TypeError].  An array
    prints its elements joined by commas, [undefined] and [null] as
    nothing, and throws what an element throws. *)
Fixpoint ToString (v : JSValue) : Thrown jsstring :=
  match v with
  | JStr s => Returns s
  | JUndefined => Returns (str "undefined")
  | JNull => Returns (str "null")
  | JBool true => Returns (str "true")
  | JBool false => Returns (str "false")
  | JNum n => Returns (Num.toString n)
  | JArr l =>
      (fix join (l : list JSValue) : Thrown jsstring :=
         match l with
         | [] => Returns []
         | e :: rest =>
             match (match e with
                    | JUndefined | JNull => Returns []
                    | _ => ToString e
                    end) with
             | Throws m => Throws m
             | Returns s =>
                 match rest with
                 | [] => Returns s
                 | _ =>
                     match join rest with
                     | Throws m => Throws m
                     | Returns t => Returns (s ++ str "," ++ t)
                     end
                 end
             end
         end) l
  | JObj props =>
      match lookup (str "toString") props with
      | Some _ => Throws NOT_PRIMITIVE
      | None => Returns (str "[object Object]")
      end
  end.

End Value.

(* ================================================================== *)
(** ** Regular expressions *)

Module RegExp.

(** The syntax of the patterns the validators use: character classes,
    sequence, alternative and the greedy star.  [Set_ neg ranges] is a
    bracket class [[...]] (negated, [[^...]], when [neg]); [Fail] only
    arises as a derivative. *)
Inductive regex : Type :=
| Fail
| Eps
| Set_ (negated : bool) (ranges : list (N * N))
| Cat (r1 r2 : regex)
| Alt (r1 r2 : regex)
| Star (r : regex).

Definition in_set (negated : bool) (ranges : list (N * N)) (c : N) : bool :=
  xorb negated (Str.in_ranges c ranges).

(** One literal character, a literal string, [r+], [r{n}]. *)
Definition Chr (a : ascii) : regex :=
  Set_ false [(N_of_ascii a, N_of_ascii a)].

Fixpoint Lit_units (s : jsstring) : regex :=
  match s with
  | [] => Eps
  | c :: s' => Cat (Set_ false [(c, c)]) (Lit_units s')
  end.

Definition Lit (s : string) : regex := Lit_units (str s).

Definition Plus (r : regex) : regex := Cat r (Star r).

Fixpoint Times (n : nat) (r : regex) : regex :=
  match n with
  | O => Eps
  | S n' => Cat r (Times n' r)
  end.

(** [\s], and [.] (anything but a line terminator). *)
Definition White : regex := Set_ false Str.white_ranges.
Definition Dot : regex := Set_ true [(10, 10); (13, 13); (8232, 8233)].

Fixpoint seq (l : list regex) : regex :=
  match l with
  | [] => Eps
  | [r] => r
  | r :: l' => Cat r (seq l')
  end.

Fixpoint nullable (r : regex) : bool :=
  match r with
  | Fail => false
  | Eps => true
  | Set_ _ _ => false
  | Cat r1 r2 => nullable r1 && nullable r2
  | Alt r1 r2 => nullable r1 || nullable r2
  | Star _ => true
  end.

Definition cat (r1 r2 : regex) : regex :=
  match r1 with
  | Fail => Fail
  | Eps => r2
  | _ => Cat r1 r2
  end.

Definition alt (r1 r2 : regex) : regex :=
  match r1, r2 with
  | Fail, _ => r2
  | _, Fail => r1
  | _, _ => Alt r1 r2
  end.

(** Brzozowski derivative: what remains to be matched after [c]. *)
Fixpoint deriv (c : N) (r : regex) : regex :=
  match r with
  | Fail => Fail
  | Eps => Fail
  | Set_ neg rs => if in_set neg rs c then Eps else Fail
  | Cat r1 r2 =>
      if nullable r1
      then alt (cat (deriv c r1) r2) (deriv c r2)
      else cat (deriv c r1) r2
  | Alt r1 r2 => alt (deriv c r1) (deriv c r2)
  | Star r1 => cat (deriv c r1) (Star r1)
  end.

(** The whole of [s] matches [r]. *)
Fixpoint accepts (r : regex) (s : jsstring) : bool :=
  match s with
  | [] => nullable r
  | c :: s' => accepts (deriv c r) s'
  end.

(** Some prefix of [s] matches [r]. *)
Fixpoint accepts_prefix (r : regex) (s : jsstring) : bool :=
  nullable r ||
  match s with
  | [] => false
  | c :: s' => accepts_prefix (deriv c r) s'
  end.

(** The match may start at any position of [s]. *)
Fixpoint anywhere (f : jsstring -> bool) (s : jsstring) : bool :=
  f s ||
  match s with
  | [] => false
  | _ :: s' => anywhere f s'
  end.

(** A pattern literal [/^...$/]: the body and whether [^] and [$]
    (without the [m] flag) anchor it. *)
Record RegExp : Type := mkRegExp {
  anchored_start : bool;
  body : regex;
  anchored_end : bool
}.

(** [pattern.test(s)] *)
Definition test (re : RegExp) (s : jsstring) : bool :=
  match anchored_start re, anchored_end re with
  | true, true => accepts (body re) s
  | true, false => accepts_prefix (body re) s
  | false, true => anywhere (accepts (body re)) s
  | false, false => anywhere (accepts_prefix (body re)) s
  end.

(** The language of a pattern. *)
Inductive Matches : regex -> jsstring -> Prop :=
| MEps : Matches Eps []
| MSet neg rs c : in_set neg rs c = true -> Matches (Set_ neg rs) [c]
| MCat r1 r2 s1 s2 :
    Matches r1 s1 -> Matches r2 s2 -> Matches (Cat r1 r2) (s1 ++ s2)
| MAltL r1 r2 s : Matches r1 s -> Matches (Alt r1 r2) s
| MAltR r1 r2 s : Matches r2 s -> Matches (Alt r1 r2) s
| MStar0 r : Matches (Star r) []
| MStarS r s1 s2 :
    Matches r s1 -> Matches (Star r) s2 -> Matches (Star r) (s1 ++ s2).

End RegExp.

(* ================================================================== *)
(** ** constants.js *)

Module Constants.
Import RegExp.

Definition range (a b : ascii) : N * N := (N_of_ascii a, N_of_ascii b).
Definition one (a : ascii) : N * N := range a a.

Definition MAX_FILE_SIZE : N := 100 * 1024.
Definition MAX_SOLIDITY_FILE_SIZE : N := 500 * 1024.

Definition ADDRESS_LENGTH : N := 42.

(** [/^0x[a-fA-F0-9]{40}$/] *)
Definition ADDRESS_PATTERN : RegExp :=
  mkRegExp true
    (Cat (Lit "0x")
         (Times 40 (Set_ false [range "a" "f"; range "A" "F"; range "0" "9"])))
    true.

Definition MAX_URL_LENGTH : N := 500.

(** [/^https:\/\/[^\s]+$/] *)
Definition URL_HTTPS_PATTERN : RegExp :=
  mkRegExp true
    (Cat (Lit "https://") (Plus (Set_ true Str.white_ranges)))
    true.

Definition BLOCKED_HOSTS : list jsstring :=
  [ str "localhost";
    str "127.0.0.1";
    str "0.0.0.0";
    str "::1";
    str "169.254.169.254";
    str "metadata.google.internal";
    str "metadata";
    str "169.254.169.253" ].

Definition BLOCKED_IP_PATTERNS : list RegExp :=
  [ (* /^10\./ *)
    mkRegExp true (Lit "10.") false;
    (* /^172\.(1[6-9]|2[0-9]|3[0-1])\./ *)
    mkRegExp true
      (seq [Lit "172.";
            Alt (Cat (Chr "1") (Set_ false [range "6" "9"]))
                (Alt (Cat (Chr "2") (Set_ false [range "0" "9"]))
                     (Cat (Chr "3") (Set_ false [range "0" "1"])));
            Chr "."])
      false;
    (* /^192\.168\./ *)
    mkRegExp true (Lit "192.168.") false;
    (* /^127\./ *)
    mkRegExp true (Lit "127.") false;
    (* /^0\./ *)
    mkRegExp true (Lit "0.") false;
    (* /^169\.254\./ *)
    mkRegExp true (Lit "169.254.") false;
    (* /^::1$/ *)
    mkRegExp true (Lit "::1") true;
    (* /^fe80:/ *)
    mkRegExp true (Lit "fe80:") false;
    (* /^fc00:/ *)
    mkRegExp true (Lit "fc00:") false;
    (* /^fd00:/ *)
    mkRegExp true (Lit "fd00:") false ].

(** [/^[A-Z][a-zA-Z0-9]*$/] *)
Definition SAFE_CONTRACT_NAME_PATTERN : RegExp :=
  mkRegExp true
    (Cat (Set_ false [range "A" "Z"])
         (Star (Set_ false [range "a" "z"; range "A" "Z"; range "0" "9"])))
    true.

(** [\s*\(] after a keyword. *)
Definition call_of (name : string) : RegExp :=
  mkRegExp false (seq [Lit name; Star White; Chr "("]) false.

(** The table of dangerous patterns, in the order [Object.entries]
    enumerates it. *)
Definition DANGEROUS_SOLIDITY_PATTERNS : list (jsstring * RegExp) :=
  [ (str "selfdestruct", call_of "selfdestruct");
    (str "suicide", call_of "suicide");
    (str "delegatecall", call_of "delegatecall");
    (str "txOrigin", mkRegExp false (Lit "tx.origin") false);
    (str "blockhash", call_of "blockhash");
    (str "callcode", call_of "callcode") ].

Definition VALID_ABI_TYPES : list jsstring :=
  [ str "function"; str "constructor"; str "event";
    str "fallback"; str "receive"; str "error" ].

Definition VALID_STATE_MUTABILITY : list jsstring :=
  [ str "pure"; str "view"; str "nonpayable"; str "payable" ].

(** [/^[a-zA-Z_][a-zA-Z0-9_]*$/] *)
Definition ABI_FUNCTION_NAME_PATTERN : RegExp :=
  mkRegExp true
    (Cat (Set_ false [range "a" "z"; range "A" "Z"; one "_"])
         (Star (Set_ false [range "a" "z"; range "A" "Z"; range "0" "9"; one "_"])))
    true.

Definition DISPOSABLE_EMAIL_DOMAINS : list jsstring :=
  [ str "tempmail.com";
    str "guerrillamail.com";
    str "10minutemail.com";
    str "mailinator.com";
    str "throwaway.email";
    str "temp-mail.org";
    str "sharklasers.com";
    str "guerrillamail.info";
    str "grr.la";
    str "maildrop.cc" ].

Definition RESERVED_EMAIL_DOMAINS : list jsstring :=
  [ str "localhost";
    str "example.com";
    str "example.org";
    str "example.net";
    str "test.com";
    str "invalid" ].

(** [EXIT_CODES.FATAL_ERROR] *)
Definition FATAL_ERROR : N := 2.

End Constants.

(* ================================================================== *)
(** ** Result objects *)

(** [{ valid, error?, errors?, warnings?, checksummed?, path? }] *)
Record Result : Type := mkResult {
  valid : bool;
  error : option jsstring;
  errors : option (list jsstring);
  warnings : option (list jsstring);
  checksummed : option jsstring;
  path : option jsstring
}.

(** [{ valid: true }] and [{ valid: false, error }] *)
Definition ok : Result := mkResult true None None None None None.
Definition fail (msg : jsstring) : Result :=
  mkResult false (Some msg) None None None None.
Definition ok_warnings (w : list jsstring) : Result :=
  mkResult true None None (Some w) None None.

(* ================================================================== *)
(** ** The platform's [path] module (POSIX flavour, [path.sep] is [/]) *)

Module Path.

Definition slash : N := 47.
Definition sep : jsstring := [slash].

Definition isAbsolute (p : jsstring) : bool :=
  match p with
  | c :: _ => c =? slash
  | [] => false
  end.

Definition trailingSeparator (p : jsstring) : bool :=
  match rev p with
  | c :: _ => c =? slash
  | [] => false
  end.

(** The pieces of [p] between separators. *)
Fixpoint segments (p : jsstring) : list jsstring :=
  match p with
  | [] => [[]]
  | c :: p' =>
      if c =? slash then [] :: segments p'
      else match segments p' with
           | seg :: rest => (c :: seg) :: rest
           | [] => [[c]]
           end
  end.

Definition dot : jsstring := str ".".
Definition dotdot : jsstring := str "..".

(** A segment that [normalizeString] drops: empty or [.]. *)
Definition skipped (seg : jsstring) : bool :=
  match seg with [] => true | _ => Str.eqb seg dot end.

(** One segment processed by [normalizeString]; [stack] is the
    result so far, last segment first. *)
Definition step (allowAboveRoot : bool) (stack : list jsstring)
           (seg : jsstring) : list jsstring :=
  if skipped seg then stack
  else if Str.eqb seg dotdot then
    match stack with
    | top :: rest =>
        if Str.eqb top dotdot
        then (if allowAboveRoot then dotdot :: stack else stack)
        else rest
    | [] => if allowAboveRoot then [dotdot] else []
    end
  else seg :: stack.

Definition normalizeStack (allowAboveRoot : bool) (p : jsstring)
  : list jsstring :=
  fold_left (step allowAboveRoot) (segments p) [].

(** [normalizeString(path, allowAboveRoot, '/', isPosixPathSeparator)]:
    resolves [.] and [..] segments and doubled separators. *)
Definition normalizeString (p : jsstring) (allowAboveRoot : bool)
  : jsstring :=
  Str.join sep (rev (normalizeStack allowAboveRoot p)).

(** [path.normalize(p)] *)
Definition normalize (p : jsstring) : jsstring :=
  match p with
  | [] => dot
  | _ =>
      let abs := isAbsolute p in
      let trailing := trailingSeparator p in
      let q := normalizeString p (negb abs) in
      match q with
      | [] => if abs then sep else if trailing then str "./" else dot
      | _ =>
          let q' := if trailing then q ++ sep else q in
          if abs then sep ++ q' else q'
      end
  end.

(** The arguments of [join] glued with separators, empty ones left
    out; [None] when there is nothing to glue. *)
Fixpoint joined (args : list jsstring) : option jsstring :=
  match args with
  | [] => None
  | arg :: rest =>
      match arg, joined rest with
      | [], j => j
      | _, None => Some arg
      | _, Some j => Some (arg ++ sep ++ j)
      end
  end.

(** [path.join(...args)] *)
Definition join (args : list jsstring) : jsstring :=
  match joined args with
  | None => dot
  | Some j => normalize j
  end.

Section Resolve.
(** [process.cwd()] *)
Variable cwd : jsstring.

(** The loop of [resolve] run on the arguments from the last to the
    first and then on [cwd], until an absolute one has been taken:
    the accumulated path and whether it is absolute. *)
Fixpoint resolve_loop (rargs : list jsstring) (acc : jsstring)
  : jsstring * bool :=
  match rargs with
  | [] =>
      match cwd with
      | [] => (acc, false)
      | _ => (cwd ++ sep ++ acc, isAbsolute cwd)
      end
  | p :: rest =>
      match p with
      | [] => resolve_loop rest acc
      | _ =>
          if isAbsolute p then (p ++ sep ++ acc, true)
          else resolve_loop rest (p ++ sep ++ acc)
      end
  end.

(** [path.resolve(...args)] *)
Definition resolve (args : list jsstring) : jsstring :=
  let '(resolvedPath, resolvedAbsolute) := resolve_loop (rev args) [] in
  let n := normalizeString resolvedPath (negb resolvedAbsolute) in
  if resolvedAbsolute then sep ++ n
  else match n with [] => dot | _ => n end.

End Resolve.

(** The scan of [basename], which runs from the end of the path: the
    separators met first are passed over, then the characters up to the
    next separator are taken.  Both work on the reversed path. *)
Fixpoint dropSeparators (s : jsstring) : jsstring :=
  match s with
  | c :: s' => if c =? slash then dropSeparators s' else s
  | [] => []
  end.

Fixpoint untilSeparator (s : jsstring) : jsstring :=
  match s with
  | c :: s' => if c =? slash then [] else c :: untilSeparator s'
  | [] => []
  end.

(** [path.basename(p)] *)
Definition basename (p : jsstring) : jsstring :=
  rev (untilSeparator (dropSeparators (rev p))).

End Path.

(* ================================================================== *)
(** ** The platform's [fs] module *)

(** An error thrown by a file-system call: its [code] ([ENOENT],
    [EACCES], ...) and its [message]. *)
Record FsError : Type := mkFsError {
  code : jsstring;
  message : jsstring
}.

(** The file system as the synchronous calls of one run see it.  Each
    call is answered on its own, so that a file may vanish between two
    calls: nothing ties [existsSync] to [readFileSync]. *)
Record FileSystem : Type := mkFileSystem {
  (** [fs.existsSync(p)] *)
  existsSync : jsstring -> bool;
  (** [fs.statSync(p).size] *)
  statSync_size : jsstring -> FsError + N;
  (** [fs.readFileSync(p, encoding)], decoded *)
  readFileSync : jsstring -> jsstring -> FsError + jsstring;
  (** [fs.readdirSync(p)] *)
  readdirSync : jsstring -> FsError + list jsstring
}.

(** [{ success, content?, entries?, error? }], what a guarded read
    hands back. *)
Module ReadResult.
Record t : Type := mk {
  success : bool;
  content : option jsstring;
  entries : option (list jsstring);
  error : option jsstring
}.
End ReadResult.

(* ================================================================== *)
(** ** scripts/utils/file-utils.js *)

Module FileUtils.
Import RegExp Constants.

(** [/[\x00-\x1F\x7F]/] *)
Definition CONTROL_CHARACTERS : RegExp :=
  mkRegExp false (Set_ false [(0, 31); (127, 127)]) false.

Definition validateSafeFilename (filename : JSValue) : Result :=
  match filename with
  | JStr name =>
      (* Check for path traversal *)
      if Str.includes name (str "..") || Str.includes name (str "/")
         || Str.includes name (str "\")
      then fail (str "Path traversal detected in filename: " ++ name)
      (* Check for null bytes *)
      else if Str.includes name [0]
      then fail "Filename contains null byte"
      (* Check for control characters *)
      else if test CONTROL_CHARACTERS name
      then fail "Filename contains control characters"
      else ok
  | _ => fail "Filename must be a string"
  end.

Definition validateContractName (contractName : JSValue) : Result :=
  match contractName with
  | JStr name =>
      if negb (test SAFE_CONTRACT_NAME_PATTERN name)
      then fail (str "Invalid contract name: " ++ name
                 ++ str ". Must be PascalCase alphanumeric.")
      else ok
  | _ => fail "Contract name must be a string"
  end.

(** The loop over [parts]: the first failed validation, if any. *)
Fixpoint first_invalid (parts : list JSValue) : option Result :=
  match parts with
  | [] => None
  | part :: rest =>
      let validation := validateSafeFilename part in
      if negb (valid validation) then Some validation
      else first_invalid rest
  end.

(** The parts as strings (they are strings once validated). *)
Definition strings_of (parts : list JSValue) : list jsstring :=
  map Value.text parts.

Section WithCwd.
Variable cwd : jsstring.

(** [safePathJoin(baseDir, ...parts)].  [baseDir] is a string, so
    that neither [path.join] nor [path.resolve] throws and the
    [catch] branch is not entered. *)
Definition safePathJoin (baseDir : jsstring) (parts : list JSValue)
  : Result :=
  match first_invalid parts with
  | Some validation => validation
  | None =>
      (* Construct path *)
      let fullPath := Path.join (baseDir :: strings_of parts) in
      (* Resolve to absolute paths *)
      let resolvedPath := Path.resolve cwd [fullPath] in
      let resolvedBase := Path.resolve cwd [baseDir] in
      (* Verify path is within base directory *)
      if negb (Str.startsWith resolvedPath (resolvedBase ++ Path.sep))
         && negb (Str.eqb resolvedPath resolvedBase)
      then fail (str "Path escapes base directory: "
                 ++ Str.join (str "/") (strings_of parts))
      else mkResult true None None None None (Some fullPath)
  end.
End WithCwd.

Section WithFs.
Variable fs : FileSystem.

(** [safeReadFile(filePath, encoding)] *)
Definition safeReadFile (filePath encoding : jsstring) : ReadResult.t :=
  match readFileSync fs filePath encoding with
  | inr content => ReadResult.mk true (Some content) None None
  | inl e =>
      ReadResult.mk false None None
        (Some
           (if Str.eqb (code e) (str "ENOENT")
            then str "File not found: " ++ Path.basename filePath
            else if Str.eqb (code e) (str "EACCES")
            then str "Permission denied: " ++ Path.basename filePath
            else str "Error reading file: " ++ message e))
  end.

(** [safeReadDir(dirPath)] *)
Definition safeReadDir (dirPath : jsstring) : ReadResult.t :=
  match readdirSync fs dirPath with
  | inr entries => ReadResult.mk true None (Some entries) None
  | inl e =>
      ReadResult.mk false None None
        (Some
           (if Str.eqb (code e) (str "ENOENT")
            then str "Directory not found: " ++ Path.basename dirPath
            else if Str.eqb (code e) (str "EACCES")
            then str "Permission denied: " ++ Path.basename dirPath
            else str "Error reading directory: " ++ message e))
  end.
End WithFs.

End FileUtils.

(* ================================================================== *)
(** ** scripts/utils/url-validator.js *)

(** What the validator reads of a parsed [URL] object. *)
Record URL : Type := mkURL {
  protocol : jsstring;
  hostname : jsstring;
  port : jsstring
}.

Module UrlValidator.
Import RegExp Constants.

(** [/[\n\r]/] and [/\s/] *)
Definition NEWLINES : RegExp :=
  mkRegExp false (Set_ false [(10, 10); (13, 13)]) false.
Definition WHITESPACE : RegExp := mkRegExp false White false.

Definition validateURLFormat (urlString : JSValue) : Result :=
  match urlString with
  | JStr url =>
      (* Check length *)
      if MAX_URL_LENGTH <? N.of_nat (List.length url)
      then fail (str "URL too long: " ++ Str.of_nat (List.length url)
                 ++ str " chars (max: " ++ Str.of_N MAX_URL_LENGTH ++ str ")")
      (* Check for newlines *)
      else if test NEWLINES url
      then fail "URL contains newline characters"
      (* Check for whitespace *)
      else if test WHITESPACE url
      then fail "URL contains whitespace"
      (* Validate HTTPS pattern *)
      else if negb (test URL_HTTPS_PATTERN url)
      then fail "URL must start with https:// and be properly formatted"
      else ok
  | _ => fail "URL must be a string"
  end.

Definition isBlockedHost (hostname : jsstring) : bool :=
  let lowerHostname := Str.toLowerCase hostname in
  (* Check exact matches *)
  if Str.mem lowerHostname BLOCKED_HOSTS then true
  (* Check IP pattern matches *)
  else existsb (fun pattern => test pattern lowerHostname) BLOCKED_IP_PATTERNS.

Section WithURL.
(** [new URL(s)], the platform's parser: [None] when it throws (the
    [TypeError] whose message is [Invalid URL]). *)
Variable newURL : jsstring -> option URL.

Definition validateURL (urlString : JSValue) (fieldName : jsstring)
  : Result :=
  (* Basic format validation *)
  let formatCheck := validateURLFormat urlString in
  if negb (valid formatCheck)
  then fail (fieldName ++ str ": "
             ++ match error formatCheck with Some e => e | None => [] end)
  else
    match newURL (Value.text urlString) with
    | Some url =>
        (* Protocol must be HTTPS *)
        if negb (Str.eqb (protocol url) (str "https:"))
        then fail (fieldName ++ str " must use HTTPS protocol")
        (* Check for blocked hosts *)
        else if isBlockedHost (hostname url)
        then fail (fieldName ++ str " hostname is blocked (potential SSRF): "
                   ++ hostname url)
        (* Check for unusual ports (potential port scanning) *)
        else if match port url with [] => false | _ => true end
                && negb (Str.eqb (port url) (str "443"))
        then fail (fieldName ++ str " uses non-standard HTTPS port: "
                   ++ port url)
        else ok
    | None =>
        fail (fieldName ++ str " is not a valid URL: " ++ str "Invalid URL")
    end.

(** [obj[field]] for a plain object given by its own properties and
    any field name: the own property, else the member inherited from
    [Object.prototype] (a built-in function, or the prototype itself for
    [__proto__]), else [undefined]. *)
Inductive Member : Type :=
| Own (value : JSValue)
| Builtin
| Missing.

Definition member (obj : list (jsstring * JSValue)) (field : jsstring)
  : Member :=
  match Value.lookup field obj with
  | Some value => Own value
  | None => if Str.mem field Value.OBJECT_PROTOTYPE then Builtin else Missing
  end.

(** [validateURL(value, field)] for the [value] that [obj[field]]
    gave, unless it is [undefined] or [null].  A built-in member is not
    a string: the format check refuses it as such. *)
Definition check_member (m : Member) (field : jsstring) : option Result :=
  match m with
  | Missing | Own JUndefined | Own JNull => None
  | Own value => Some (validateURL value field)
  | Builtin => Some (fail (field ++ str ": " ++ str "URL must be a string"))
  end.

(** The loop of [validateURLs]: the messages of the failing fields,
    in order.  [obj] is an object, given by its properties. *)
Fixpoint collect_errors (obj : list (jsstring * JSValue))
         (urlFields : list jsstring) : list jsstring :=
  match urlFields with
  | [] => []
  | field :: rest =>
      match check_member (member obj field) field with
      (* Skip if field is not present (it may be optional) *)
      | None => collect_errors obj rest
      (* Validate the URL *)
      | Some result =>
          if negb (valid result)
          then match error result with
               | Some e => e :: collect_errors obj rest
               | None => str "undefined" :: collect_errors obj rest
               end
          else collect_errors obj rest
      end
  end.

Definition validateURLs (obj : list (jsstring * JSValue))
           (urlFields : list jsstring) : Result :=
  let errs := collect_errors obj urlFields in
  mkResult (match errs with [] => true | _ => false end)
           None (Some errs) None None None.

End WithURL.

(** A reference reading of [new URL] on the simple form
    [https://host[:port][/...]], where the host is made of letters,
    digits, dots and hyphens, its last label starts with a letter (so it
    is a name, not an address) and it has no punycode label: the host is
    lower-cased and the port is the empty string when it is absent or
    the scheme's default, 443.  Outside that form it answers [None]; it
    stands for the platform only on that form. *)
Definition is_host_unit (c : N) : bool :=
  Str.in_ranges c [range "a" "z"; range "A" "Z"; range "0" "9";
                   one "-"; one "."].
Definition is_digit (c : N) : bool := Str.in_ranges c [range "0" "9"].

Fixpoint span (p : N -> bool) (s : jsstring) : jsstring * jsstring :=
  match s with
  | c :: s' =>
      if p c then let '(a, b) := span p s' in (c :: a, b) else ([], s)
  | [] => ([], [])
  end.

Fixpoint decimal_value (s : jsstring) (acc : N) : N :=
  match s with
  | c :: s' => decimal_value s' (10 * acc + (c - 48))
  | [] => acc
  end.

Definition is_letter (c : N) : bool :=
  Str.in_ranges c [range "a" "z"; range "A" "Z"].

(** The last label of the host starts with a letter. *)
Definition is_name (host : jsstring) : bool :=
  match rev (fst (span (fun c => negb (c =? 46)) (rev host))) with
  | c :: _ => is_letter c
  | [] => false
  end.

Definition ends_authority (rest : jsstring) : bool :=
  match rest with
  | [] => true
  | c :: _ => Str.in_ranges c [one "/"; one "?"; one "#"]
  end.

Definition simpleURL (s : jsstring) : option URL :=
  if negb (Str.startsWith s (str "https://")) then None
  else
    let '(host, rest) := span is_host_unit (skipn 8 s) in
    if negb (is_name host)
       || Str.includes (Str.toLowerCase host) (str "xn--")
    then None
    else
        let done (p : jsstring) :=
          Some (mkURL (str "https:") (Str.toLowerCase host) p) in
        match rest with
        | 58 :: rest' =>
            let '(digits, rest'') := span is_digit rest' in
            if negb (ends_authority rest'') then None
            else match digits with
                 | [] => done []
                 | _ =>
                     let n := decimal_value digits 0 in
                     if 65535 <? n then None
                     else if n =? 443 then done []
                     else done (Str.of_N n)
                 end
        | _ => if ends_authority rest then done [] else None
        end.

End UrlValidator.

(* ================================================================== *)
(** ** Keccak-256, the hash behind the EIP-55 checksum *)

Module Keccak.

Definition mask64 : N := 0xFFFFFFFFFFFFFFFF.

Definition rotl64 (x n : N) : N :=
  N.land (N.lor (N.shiftl x n) (N.shiftr x (64 - n))) mask64.

Definition not64 (x : N) : N := N.lxor x mask64.

(** The state: 25 lanes of 64 bits, lane [(x, y)] at index [x + 5 * y]. *)
Definition lane (a : list N) (x y : nat) : N :=
  nth ((x mod 5) + 5 * (y mod 5)) a 0.

Definition coords : list (nat * nat) :=
  flat_map (fun y => map (fun x => (x, y)) (seq 0 5)) (seq 0 5).

Definition RC : list N :=
  [ 0x0000000000000001; 0x0000000000008082; 0x800000000000808A;
    0x8000000080008000; 0x000000000000808B; 0x0000000080000001;
    0x8000000080008081; 0x8000000000008009; 0x000000000000008A;
    0x0000000000000088; 0x0000000080008009; 0x000000008000000A;
    0x000000008000808B; 0x800000000000008B; 0x8000000000008089;
    0x8000000000008003; 0x8000000000008002; 0x8000000000000080;
    0x000000000000800A; 0x800000008000000A; 0x8000000080008081;
    0x8000000000008080; 0x0000000080000001; 0x8000000080008008 ].

(** Rotation offsets, indexed like the state. *)
Definition RHO : list N :=
  [  0;  1; 62; 28; 27;
    36; 44;  6; 55; 20;
     3; 10; 43; 25; 39;
    41; 45; 15; 21;  8;
    18;  2; 61; 56; 14 ].

Definition theta (a : list N) : list N :=
  let c x := fold_left N.lxor (map (fun y => lane a x y) (seq 0 5)) 0 in
  let d x := N.lxor (c (x + 4)%nat) (rotl64 (c (x + 1)%nat) 1) in
  map (fun xy => N.lxor (lane a (fst xy) (snd xy)) (d (fst xy))) coords.

(** [B[y, 2x + 3y] = rot(A[x, y], r[x, y])], read from the target:
    the lane at [(X, Y)] comes from [x = X + 3Y], [y = X]. *)
Definition rho_pi (a : list N) : list N :=
  map (fun XY =>
         let x := ((fst XY + 3 * snd XY) mod 5)%nat in
         let y := fst XY in
         rotl64 (lane a x y) (nth (x + 5 * y) RHO 0))
      coords.

Definition chi (b : list N) : list N :=
  map (fun xy =>
         let x := fst xy in
         let y := snd xy in
         N.lxor (lane b x y)
                (N.land (not64 (lane b (x + 1) y)) (lane b (x + 2) y)))
      coords.

Definition iota (rc : N) (a : list N) : list N :=
  match a with
  | l0 :: rest => N.lxor l0 rc :: rest
  | [] => []
  end.

Definition round (a : list N) (rc : N) : list N :=
  iota rc (chi (rho_pi (theta a))).

Definition keccak_f (a : list N) : list N := fold_left round RC a.

(** Little-endian lanes. *)
Fixpoint lane_of_bytes (bs : list N) : N :=
  match bs with
  | [] => 0
  | b :: bs' => b + 256 * lane_of_bytes bs'
  end.

Fixpoint bytes_of_lane (n : nat) (l : N) : list N :=
  match n with
  | O => []
  | S n' => (l mod 256) :: bytes_of_lane n' (l / 256)
  end.

Fixpoint chunks (fuel size : nat) (bs : list N) : list (list N) :=
  match fuel, bs with
  | _, [] => []
  | O, _ => []
  | S fuel', _ => firstn size bs :: chunks fuel' size (skipn size bs)
  end.

(** The rate of Keccak-256, in bytes. *)
Definition rate : nat := 136.

(** [pad10*1] with the original Keccak domain byte. *)
Definition pad (msg : list N) : list N :=
  let q := (rate - (List.length msg mod rate))%nat in
  match q with
  | 1%nat => msg ++ [0x81]
  | _ => msg ++ [0x01] ++ repeat 0 (q - 2) ++ [0x80]
  end.

Fixpoint xor_lanes (a b : list N) : list N :=
  match a, b with
  | x :: a', y :: b' => N.lxor x y :: xor_lanes a' b'
  | _, [] => a
  | [], _ => []
  end.

Definition absorb (a : list N) (block : list N) : list N :=
  keccak_f (xor_lanes a (map lane_of_bytes (chunks rate 8 block))).

Definition keccak256 (msg : list N) : list N :=
  let padded := pad msg in
  let final :=
    fold_left absorb (chunks (List.length padded) rate padded) (repeat 0 25) in
  firstn 32 (flat_map (bytes_of_lane 8) final).

End Keccak.

(* ================================================================== *)
(** ** The [getAddress] of the ethers library *)

Module Ethers.
Import RegExp Constants.

Definition hex_class : regex :=
  Set_ false [range "0" "9"; range "a" "f"; range "A" "F"].

(** [/^(0x)?[0-9a-fA-F]{40}$/] *)
Definition HEX_ADDRESS : RegExp :=
  mkRegExp true (Cat (Alt (Lit "0x") Eps) (Times 40 hex_class)) true.

(** [/([A-F].*[a-f])|([a-f].*[A-F])/] *)
Definition MIXED_CASE : RegExp :=
  mkRegExp false
    (Alt (seq [Set_ false [range "A" "F"]; Star Dot; Set_ false [range "a" "f"]])
         (seq [Set_ false [range "a" "f"]; Star Dot; Set_ false [range "A" "F"]]))
    false.

(** The hex digits [chars[i]], [chars[i + 1]] cased after the two
    nibbles of each hash byte. *)
Fixpoint apply_case (chars : jsstring) (hashed : list N) : jsstring :=
  match chars, hashed with
  | c1 :: c2 :: chars', h :: hashed' =>
      (if 8 <=? N.shiftr h 4 then Str.upper_unit c1 else c1)
      :: (if 8 <=? N.land h 15 then Str.upper_unit c2 else c2)
      :: apply_case chars' hashed'
  | _, _ => chars
  end.

(** [getChecksumAddress]: the EIP-55 rendering of a [0x]-prefixed
    address of 40 hex digits. *)
Definition getChecksumAddress (address : jsstring) : jsstring :=
  let chars := skipn 2 (Str.toLowerCase address) in
  let hashed := Keccak.keccak256 chars in
  str "0x" ++ apply_case chars hashed.

Definition quote : jsstring := [34].

(** The message of the error [assertArgument] raises; its last field
    is the version of the installed release. *)
Definition argument_error (message value : jsstring) : jsstring :=
  message ++ str " (argument=" ++ quote ++ str "address" ++ quote
  ++ str ", value=" ++ quote ++ value ++ quote
  ++ str ", code=INVALID_ARGUMENT, version=6.13.4)".

(** [getAddress(address)] on a string.  A mixed-case input whose
    checksum is wrong is refused; an input in one case is returned
    checksummed.  (The branch for ICAP addresses, which start with [XE],
    is not reproduced: such a string is answered [invalid address].) *)
Definition getAddress (address : jsstring) : Thrown jsstring :=
  if test HEX_ADDRESS address then
    (* Missing the 0x prefix *)
    let address :=
      if negb (Str.startsWith address (str "0x"))
      then str "0x" ++ address else address in
    let result := getChecksumAddress address in
    (* It is a checksummed address with a bad checksum *)
    if negb (test MIXED_CASE address) || Str.eqb result address
    then Returns result
    else Throws (argument_error (str "bad address checksum") address)
  else Throws (argument_error (str "invalid address") address).

End Ethers.

(* ================================================================== *)
(** ** unnamed/part_000: address-validator.js *)

Module AddressValidator.
Import RegExp Constants.

Definition isValidAddressFormat (address : JSValue) : bool :=
  match address with
  | JStr a =>
      if negb (N.of_nat (List.length a) =? ADDRESS_LENGTH) then false
      else test ADDRESS_PATTERN a
  | _ => false
  end.

Definition ZERO_ADDRESS : jsstring :=
  str "0x0000000000000000000000000000000000000000".

Definition validateEIP55Checksum (address : JSValue) (context : jsstring)
  : Result :=
  (* First check basic format *)
  if negb (isValidAddressFormat address)
  then fail (str "Invalid address format for " ++ context
             ++ str ": must be 0x + 40 hex characters")
  else
    let a := Value.text address in
    (* Reject zero address *)
    if Str.eqb a ZERO_ADDRESS
    then fail (str "Zero address not allowed for " ++ context)
    else
      (* Use ethers.js to get properly checksummed address *)
      match Ethers.getAddress a with
      | Returns checksummed =>
          (* Compare with original *)
          if negb (Str.eqb a checksummed)
          then mkResult false
                 (Some (str "Invalid EIP-55 checksum for " ++ context
                        ++ str ": should be " ++ checksummed))
                 None None (Some checksummed) None
          else mkResult true None None None (Some checksummed) None
      | Throws message =>
          fail (str "Invalid address for " ++ context ++ str ": " ++ message)
      end.

Definition validateAddressMatchesDirectory (address dirName : jsstring)
  : Result :=
  if negb (Str.eqb address dirName)
  then fail (str "Address mismatch: directory is " ++ dirName
             ++ str ", but address field is " ++ address)
  else ok.

Section WithCwd.
Variable cwd : jsstring.

(** [validateAddressDirectory(dirName, parentPath)]; [Throws] is the
    error of the template literal, which converts a [dirName] that is
    not a string, leaving the function uncaught. *)
Definition validateAddressDirectory (dirName : JSValue)
           (parentPath : jsstring) : Thrown Result :=
  (* Must be valid address format *)
  if negb (isValidAddressFormat dirName)
  then
    match Value.ToString dirName with
    | Throws e => Throws e
    | Returns printed =>
        Returns (fail (str "Invalid address format in directory name: "
                       ++ printed))
    end
  else
    let name := Value.text dirName in
    (* Check for path traversal characters *)
    if Str.includes name (str "..") || Str.includes name (str "/")
       || Str.includes name (str "\")
    then Returns
           (fail (str "Path traversal detected in directory name: " ++ name))
    else
      (* Verify resolved path stays within parent directory *)
      let fullPath := Path.join [parentPath; name] in
      let resolvedPath := Path.resolve cwd [fullPath] in
      let resolvedParent := Path.resolve cwd [parentPath] in
      if negb (Str.startsWith resolvedPath (resolvedParent ++ Path.sep))
      then Returns (fail (str "Directory escapes parent path: " ++ name))
      else Returns ok.

(** [path.dirname(path.dirname(__filename))], the directory the
    pipeline binds token directories to. *)
Variable scripts_dir : jsstring.

Definition validateTokenAddress (address dirName : JSValue)
           (context : jsstring) : Thrown Result :=
  (* 1. Validate directory name is safe *)
  match validateAddressDirectory dirName scripts_dir with
  | Throws e => Throws e
  | Returns dirValidation =>
      if negb (valid dirValidation) then Returns dirValidation
      else
        (* 2. Validate EIP-55 checksum *)
        let checksumValidation := validateEIP55Checksum address context in
        if negb (valid checksumValidation) then Returns checksumValidation
        else
          (* 3. Validate address matches directory *)
          let matchValidation :=
            validateAddressMatchesDirectory (Value.text address)
                                            (Value.text dirName) in
          if negb (valid matchValidation) then Returns matchValidation
          else Returns (mkResult true None None None
                                 (checksummed checksumValidation) None)
  end.
End WithCwd.

End AddressValidator.

(* ================================================================== *)
(** ** The platform's [JSON.parse] *)

Inductive Parsed (A : Type) : Type :=
| Parse (a : A) (rest : jsstring)
| SyntaxError
| OutOfFuel.
Arguments Parse {A} a rest.
Arguments SyntaxError {A}.
Arguments OutOfFuel {A}.

Module Json.

Definition is_ws (c : N) : bool :=
  (c =? 32) || (c =? 9) || (c =? 10) || (c =? 13).

Fixpoint skip_ws (s : jsstring) : jsstring :=
  match s with
  | c :: s' => if is_ws c then skip_ws s' else s
  | [] => []
  end.

Definition is_digit (c : N) : bool := (48 <=? c) && (c <=? 57).

Definition hex_value (c : N) : option N :=
  if (48 <=? c) && (c <=? 57) then Some (c - 48)
  else if (97 <=? c) && (c <=? 102) then Some (c - 87)
  else if (65 <=? c) && (c <=? 70) then Some (c - 55)
  else None.

Definition hex4 (a b c d : N) : option N :=
  match hex_value a, hex_value b, hex_value c, hex_value d with
  | Some x, Some y, Some z, Some w => Some (((x * 16 + y) * 16 + z) * 16 + w)
  | _, _, _, _ => None
  end.

(** The character a one-letter escape stands for. *)
Definition unescape (e : N) : option N :=
  if e =? 34 then Some 34            (* quote *)
  else if e =? 92 then Some 92       (* backslash *)
  else if e =? 47 then Some 47       (* slash *)
  else if e =? 98 then Some 8        (* b: backspace *)
  else if e =? 102 then Some 12      (* f: form feed *)
  else if e =? 110 then Some 10      (* n: line feed *)
  else if e =? 114 then Some 13      (* r: carriage return *)
  else if e =? 116 then Some 9       (* t: tab *)
  else None.

Definition push (c : N) (r : option (jsstring * jsstring))
  : option (jsstring * jsstring) :=
  match r with
  | Some (decoded, rest) => Some (c :: decoded, rest)
  | None => None
  end.

(** The characters of a string after its opening quote: the decoded
    string and what follows the closing quote. *)
Fixpoint parse_chars (s : jsstring) : option (jsstring * jsstring) :=
  match s with
  | [] => None
  | c :: s' =>
      if c =? 34 then Some ([], s')
      else if c =? 92 then
        match s' with
        | e :: s'' =>
            if e =? 117 then
              match s'' with
              | h1 :: h2 :: h3 :: h4 :: s3 =>
                  match hex4 h1 h2 h3 h4 with
                  | Some u => push u (parse_chars s3)
                  | None => None
                  end
              | _ => None
              end
            else
              match unescape e with
              | Some u => push u (parse_chars s'')
              | None => None
              end
        | [] => None
        end
      else if c <? 32 then None
      else push c (parse_chars s')
  end.

Fixpoint span (p : N -> bool) (s : jsstring) : jsstring * jsstring :=
  match s with
  | c :: s' =>
      if p c then let '(a, b) := span p s' in (c :: a, b) else ([], s)
  | [] => ([], [])
  end.

Fixpoint decimal_value (s : jsstring) (acc : N) : N :=
  match s with
  | c :: s' => decimal_value s' (10 * acc + (c - 48))
  | [] => acc
  end.

(** A number: an optional minus sign, an integer part without leading
    zero, an optional fraction, an optional exponent. *)
Definition parse_sign (s : jsstring) : bool * jsstring :=
  match s with
  | 45 :: s' => (true, s')
  | _ => (false, s)
  end.

Definition parse_int (s : jsstring) : option (jsstring * jsstring) :=
  match s with
  | c :: s' =>
      if c =? 48 then Some ([48], s')
      else if is_digit c then Some (span is_digit s)
      else None
  | [] => None
  end.

Definition parse_frac (s : jsstring) : option (jsstring * jsstring) :=
  match s with
  | 46 :: s' =>
      match span is_digit s' with
      | ([], _) => None
      | (ds, rest) => Some (ds, rest)
      end
  | _ => Some ([], s)
  end.

Definition parse_exp_sign (s : jsstring) : bool * jsstring :=
  match s with
  | 45 :: s' => (true, s')
  | 43 :: s' => (false, s')
  | _ => (false, s)
  end.

Definition parse_exp (s : jsstring) : option (Z * jsstring) :=
  match s with
  | e :: s' =>
      if (e =? 101) || (e =? 69) then
        let '(negative, s'') := parse_exp_sign s' in
        match span is_digit s'' with
        | ([], _) => None
        | (ds, rest) =>
            let v := Z.of_N (decimal_value ds 0) in
            Some ((if negative then - v else v)%Z, rest)
        end
      else Some (0%Z, s)
  | [] => Some (0%Z, s)
  end.

Definition parse_number (s : jsstring) : option (Number * jsstring) :=
  let '(negative, s1) := parse_sign s in
  match parse_int s1 with
  | None => None
  | Some (int_digits, s2) =>
      match parse_frac s2 with
      | None => None
      | Some (frac_digits, s3) =>
          match parse_exp s3 with
          | None => None
          | Some (e, rest) =>
              let m := Z.of_N (decimal_value (int_digits ++ frac_digits) 0) in
              Some (mkNumber (if negative then - m else m)%Z
                             (e - Z.of_nat (List.length frac_digits))%Z,
                    rest)
          end
      end
  end.

(** [CreateDataProperty(obj, k, v)]: a repeated key keeps its place
    and takes the new value.  Keys are kept in the order of their first
    appearance (an engine lists integer-like keys first; no validator
    depends on the order). *)
Fixpoint set_prop (k : jsstring) (v : JSValue)
         (props : list (jsstring * JSValue)) : list (jsstring * JSValue) :=
  match props with
  | [] => [(k, v)]
  | (k', v') :: rest =>
      if Str.eqb k k' then (k, v) :: rest
      else (k', v') :: set_prop k v rest
  end.

(** The JSON grammar by recursive descent.  Between two calls at least
    one character is consumed every second call, so twice the length of
    the text bounds the calls ([parse_text_finishes] below). *)
Fixpoint parse_value (fuel : nat) (s : jsstring) : Parsed JSValue :=
  match fuel with
  | O => OutOfFuel
  | S fuel' =>
      match skip_ws s with
      | [] => SyntaxError
      | c :: s' =>
          if c =? 123 then                       (* { *)
            match skip_ws s' with
            | 125 :: rest => Parse (JObj []) rest
            | _ => parse_members fuel' s' []
            end
          else if c =? 91 then                   (* [ *)
            match skip_ws s' with
            | 93 :: rest => Parse (JArr []) rest
            | _ => parse_elements fuel' s' []
            end
          else if c =? 34 then                   (* string *)
            match parse_chars s' with
            | Some (decoded, rest) => Parse (JStr decoded) rest
            | None => SyntaxError
            end
          else if Str.startsWith (c :: s') (str "true")
          then Parse (JBool true) (skipn 4 (c :: s'))
          else if Str.startsWith (c :: s') (str "false")
          then Parse (JBool false) (skipn 5 (c :: s'))
          else if Str.startsWith (c :: s') (str "null")
          then Parse JNull (skipn 4 (c :: s'))
          else
            match parse_number (c :: s') with
            | Some (n, rest) => Parse (JNum n) rest
            | None => SyntaxError
            end
      end
  end

(** The elements of an array after [[] or a comma; [acc] holds the
    elements read so far, last first. *)
with parse_elements (fuel : nat) (s : jsstring) (acc : list JSValue)
  : Parsed JSValue :=
  match fuel with
  | O => OutOfFuel
  | S fuel' =>
      match parse_value fuel' s with
      | Parse v rest =>
          match skip_ws rest with
          | 44 :: rest' => parse_elements fuel' rest' (v :: acc)
          | 93 :: rest' => Parse (JArr (rev (v :: acc))) rest'
          | _ => SyntaxError
          end
      | SyntaxError => SyntaxError
      | OutOfFuel => OutOfFuel
      end
  end

(** The members of an object after [{] or a comma. *)
with parse_members (fuel : nat) (s : jsstring)
                   (acc : list (jsstring * JSValue)) : Parsed JSValue :=
  match fuel with
  | O => OutOfFuel
  | S fuel' =>
      match skip_ws s with
      | 34 :: s1 =>
          match parse_chars s1 with
          | Some (key, s2) =>
              match skip_ws s2 with
              | 58 :: s3 =>
                  match parse_value fuel' s3 with
                  | Parse v rest =>
                      match skip_ws rest with
                      | 44 :: rest' =>
                          parse_members fuel' rest' (set_prop key v acc)
                      | 125 :: rest' =>
                          Parse (JObj (set_prop key v acc)) rest'
                      | _ => SyntaxError
                      end
                  | SyntaxError => SyntaxError
                  | OutOfFuel => OutOfFuel
                  end
              | _ => SyntaxError
              end
          | None => SyntaxError
          end
      | _ => SyntaxError
      end
  end.

(** The unrevived tree of a text. *)
Definition parse_text (text : jsstring) : Parsed JSValue :=
  match parse_value (2 * List.length text + 2) text with
  | Parse v rest =>
      match skip_ws rest with
      | [] => Parse v []
      | _ => SyntaxError
      end
  | r => r
  end.

Fixpoint map_indexed {A B} (f : nat -> A -> B) (i : nat) (l : list A)
  : list B :=
  match l with
  | [] => []
  | x :: l' => f i x :: map_indexed f (S i) l'
  end.

Section Reviver.
Variable reviver : jsstring -> JSValue -> JSValue.

(** [InternalizeJSONProperty(holder, name)], where [val] is
    [holder[name]]: the children are revived first, a child revived to
    [undefined] is deleted from an object (in an array it leaves a
    hole, which reads as [undefined]), then the reviver is applied to
    the node itself. *)
Fixpoint internalize (name : jsstring) (val : JSValue) : JSValue :=
  reviver name
    match val with
    | JArr elems =>
        JArr (map_indexed (fun i e => internalize (Str.of_nat i) e) 0 elems)
    | JObj props =>
        JObj (flat_map
                (fun kv =>
                   match internalize (fst kv) (snd kv) with
                   | JUndefined => []
                   | v' => [(fst kv, v')]
                   end)
                props)
    | _ => val
    end.

(** [JSON.parse(text, reviver)] *)
Definition parse (text : jsstring) : Parsed JSValue :=
  match parse_text text with
  | Parse v rest => Parse (internalize [] v) rest
  | r => r
  end.
End Reviver.

End Json.

(* ================================================================== *)
(** ** scripts/utils/safe-json.js *)

(** The part of the global state a pollution would reach: the own
    properties of [Object.prototype], which every plain object inherits. *)
Record Realm : Type := mkRealm {
  ObjectPrototype : list (jsstring * JSValue)
}.

Module SafeJson.

(** The reviver: block prototype pollution keys. *)
Definition reviver (key : jsstring) (value : JSValue) : JSValue :=
  if Str.eqb key (str "__proto__") || Str.eqb key (str "constructor")
     || Str.eqb key (str "prototype")
  then JUndefined
  else value.

(** [delete obj.k]: removes an own property, if there is one. *)
Definition delete (k : jsstring) (obj : JSValue) : JSValue :=
  match obj with
  | JObj props => JObj (filter (fun kv => negb (Str.eqb (fst kv) k)) props)
  | _ => obj
  end.

Definition is_null (v : JSValue) : bool :=
  match v with JNull => true | _ => false end.

(** [safeParse(text)].  [JSON.parse] defines own data properties and
    [delete] removes own properties: neither writes to
    [Object.prototype], so the realm is handed back as it was. *)
Definition safeParse (text : jsstring) (realm : Realm)
  : Parsed JSValue * Realm :=
  match Json.parse reviver text with
  | Parse obj rest =>
      let obj :=
        if Value.typeof_object obj && negb (is_null obj)
        then delete (str "prototype")
               (delete (str "constructor") (delete (str "__proto__") obj))
        else obj in
      (Parse obj rest, realm)
  | r => (r, realm)
  end.

(** [o.k] on a plain object: an own property, else the one inherited
    from [Object.prototype], else [undefined]. *)
Definition Get (realm : Realm) (o : JSValue) (k : jsstring) : JSValue :=
  match o with
  | JObj props =>
      match Value.lookup k props with
      | Some v => v
      | None =>
          match Value.lookup k (ObjectPrototype realm) with
          | Some v => v
          | None => JUndefined
          end
      end
  | _ => JUndefined
  end.

(** A freshly constructed empty object, [{}]. *)
Definition fresh_object : JSValue := JObj [].

(** The key [k] occurs in the tree, at some nesting level. *)
Inductive KeyIn (k : jsstring) : JSValue -> Prop :=
| KeyHere props v : In (k, v) props -> KeyIn k (JObj props)
| KeyInMember props k' v :
    In (k', v) props -> KeyIn k v -> KeyIn k (JObj props)
| KeyInElement elems v :
    In v elems -> KeyIn k v -> KeyIn k (JArr elems).

Definition dangerous (k : jsstring) : bool :=
  Str.mem k [str "__proto__"; str "constructor"; str "prototype"].

(** How a function that may end the process comes back: with a value,
    or with the exit status and the lines written to [console.error]. *)
Inductive OrExit (A : Type) : Type :=
| Done (a : A)
| Exit (status : N) (stderr : list jsstring).
Arguments Done {A} a.
Arguments Exit {A} status stderr.

Section WithFs.
Variable fs : FileSystem.
(** The message of the [SyntaxError] that [JSON.parse] raises on a
    text; the engine words it. *)
Variable syntax_message : jsstring -> jsstring.

(** [safeReadJSON(filePath, maxSize)].  An error of [statSync] or
    [readFileSync] leaves the function as it is. *)
Definition safeReadJSON (filePath : jsstring) (maxSize : N) (realm : Realm)
  : Thrown JSValue * Realm :=
  (* Check file exists *)
  if negb (existsSync fs filePath)
  then (Throws (str "File not found: " ++ filePath), realm)
  else
    (* Check file size before reading *)
    match statSync_size fs filePath with
    | inl e => (Throws (message e), realm)
    | inr size =>
        if maxSize <? size
        then (Throws (str "File too large: " ++ Str.of_N size
                      ++ str " bytes (max: " ++ Str.of_N maxSize
                      ++ str " bytes). File: " ++ filePath), realm)
        else
          (* Read file *)
          match readFileSync fs filePath (str "utf8") with
          | inl e => (Throws (message e), realm)
          | inr content =>
              (* Additional check: content length *)
              if maxSize <? N.of_nat (List.length content)
              then (Throws (str "Content too large: "
                            ++ Str.of_nat (List.length content)
                            ++ str " bytes (max: " ++ Str.of_N maxSize
                            ++ str ")"), realm)
              else
                (* Parse safely with prototype pollution protection *)
                match safeParse content realm with
                | (Parse obj _, realm') => (Returns obj, realm')
                | (_, realm') =>
                    (Throws (str "Invalid JSON in " ++ Path.basename filePath
                             ++ str ": " ++ syntax_message content), realm')
                end
          end
    end.

(** [loadSchema(schemaPath, schemaName)]: whatever is thrown inside is
    caught, reported on [console.error] and ends the process. *)
Definition loadSchema (schemaPath schemaName : jsstring) (realm : Realm)
  : OrExit JSValue * Realm :=
  let fatal (e_message : jsstring) : OrExit JSValue :=
    Exit Constants.FATAL_ERROR
      [ [27] ++ str "[31mFATAL: Failed to load " ++ schemaName
        ++ [27] ++ str "[0m";
        str "Path: " ++ schemaPath;
        str "Error: " ++ e_message ] in
  if negb (existsSync fs schemaPath)
  then (fatal (str "Schema file not found: " ++ schemaPath), realm)
  else
    match readFileSync fs schemaPath (str "utf8") with
    | inl e => (fatal (message e), realm)
    | inr content =>
        match safeParse content realm with
        | (Parse schema _, realm') =>
            (* Validate it's actually a schema object *)
            if negb (Value.typeof_object schema) || is_null schema
            then (fatal (str "Schema must be an object"), realm')
            else (Done schema, realm')
        | (_, realm') => (fatal (syntax_message content), realm')
        end
    end.
End WithFs.

(** [/\x1b\[[0-9;]*m/], an ANSI colour code. *)
Definition ANSI_CODE : RegExp.RegExp :=
  RegExp.mkRegExp false
    (RegExp.seq [RegExp.Set_ false [(27, 27)]; RegExp.Chr "[";
                 RegExp.Star (RegExp.Set_ false [(48, 57); (59, 59)]);
                 RegExp.Chr "m"])
    false.

Definition in_code (c : N) : bool := Str.in_ranges c [(48, 57); (59, 59)].

(** The length of the match of [ANSI_CODE] that starts at the head of
    [s], if there is one.  The class is greedy and does not hold [m]:
    the match ends with the first unit outside the class, which has to
    be [m]. *)
Definition code_length (s : jsstring) : option nat :=
  match s with
  | 27 :: 91 :: s' =>
      let '(parameters, rest) := Json.span in_code s' in
      match rest with
      | 109 :: _ => Some (3 + List.length parameters)%nat
      | _ => None
      end
  | _ => None
  end.

(** [s.replace(/\x1b\[[0-9;]*m/g, '')]: the text is scanned from the
    left; a code is left out whole and the scan goes on behind it.
    [skip] counts the units of the current code still to be left out. *)
Fixpoint remove_codes (skip : nat) (s : jsstring) : jsstring :=
  match s with
  | [] => []
  | c :: s' =>
      match skip with
      | S k => remove_codes k s'
      | O =>
          match code_length s with
          | Some (S k) => remove_codes k s'
          | _ => c :: remove_codes O s'
          end
      end
  end.

(** [/[\x00-\x1F\x7F-\x9F]/] *)
Definition is_control (c : N) : bool := Str.in_ranges c [(0, 31); (127, 159)].

(** [sanitizeForTerminal(str)]; what is not a string is handed to
    [String], whose error leaves the function uncaught. *)
Definition sanitizeForTerminal (v : JSValue) : Thrown jsstring :=
  match v with
  | JStr s =>
      (* Remove ANSI color codes, then other control characters *)
      Returns (filter (fun c => negb (is_control c)) (remove_codes 0 s))
  | _ => Value.ToString v
  end.

End SafeJson.

(* ================================================================== *)
(** ** scripts/validators/abi-validator.js *)

Module AbiValidator.
Import RegExp Constants.

(** [/^[a-zA-Z0-9[\](),\s]+$/] *)
Definition PARAMETER_TYPE_PATTERN : RegExp :=
  mkRegExp true
    (Plus (Set_ false
             ([range "a" "z"; range "A" "Z"; range "0" "9";
               one "["; one "]"; one "("; one ")"; one ","]
              ++ Str.white_ranges)))
    true.

Definition dangerousNames : list jsstring :=
  [str "__proto__"; str "constructor"; str "prototype"].

(** A loop [for (let i = 0; i < arr.length; i++)] that returns the
    first invalid result. *)
Definition each_indexed (f : JSValue -> nat -> Result)
  : list JSValue -> nat -> Result :=
  fix loop (l : list JSValue) (i : nat) : Result :=
    match l with
    | [] => ok
    | x :: l' =>
        let r := f x i in
        if negb (valid r) then r else loop l' (S i)
    end.

(** The own property [k] handed to [present], or [absent]. *)
Definition with_prop {A} (k : jsstring) (props : list (jsstring * JSValue))
           (absent : A) (present : JSValue -> A) : A :=
  (fix find (ps : list (jsstring * JSValue)) : A :=
     match ps with
     | [] => absent
     | kv :: rest => if Str.eqb k (fst kv) then present (snd kv) else find rest
     end) props.

Definition is_undefined (v : JSValue) : bool :=
  match v with JUndefined => true | _ => false end.

Definition is_null (v : JSValue) : bool :=
  match v with JNull => true | _ => false end.

Fixpoint validateABIParameter (param : JSValue) (context : jsstring)
  : Result :=
  if negb (Value.typeof_object param) || is_null param
  then fail (context ++ str ": parameter must be an object")
  else
    let type := Value.get param (str "type") in
    let name := Value.get param (str "name") in
    (* Must have type *)
    if negb (Value.truthy type) || negb (Value.typeof_string type)
    then fail (context ++ str ": parameter missing 'type' field")
    (* Name is optional for outputs in Solidity ABIs *)
    else if negb (is_undefined name) && negb (Value.eq_str name [])
            && negb (Value.typeof_string name)
    then fail (context ++ str ": parameter name must be a string")
    (* Validate parameter name if present *)
    else if (Value.truthy name && negb (Value.eq_str name []))
            && negb (test ABI_FUNCTION_NAME_PATTERN (Value.text name))
    then fail (context ++ str ": parameter name '" ++ Value.text name
               ++ str "' is invalid (must be valid identifier)")
    (* Check for dangerous parameter names *)
    else if (Value.truthy name && negb (Value.eq_str name []))
            && Value.in_strings name dangerousNames
    then fail (context ++ str ": parameter name '" ++ Value.text name
               ++ str "' is not allowed (security risk)")
    (* Validate type format (basic check) *)
    else if negb (test PARAMETER_TYPE_PATTERN (Value.text type))
    then fail (context ++ str ": parameter type '" ++ Value.text type
               ++ str "' contains invalid characters")
    (* For tuple types, validate components *)
    else if Str.startsWith (Value.text type) (str "tuple")
    then
      match param with
      | JObj props =>
          with_prop (str "components") props ok
            (fun components =>
               if Value.truthy components then
                 match components with
                 | JArr comps =>
                     each_indexed
                       (fun c i =>
                          validateABIParameter c
                            (context ++ str ".components[" ++ Str.of_nat i
                             ++ str "]"))
                       comps 0
                 | _ => fail (context
                              ++ str ": tuple components must be an array")
                 end
               else ok)
      | _ => ok
      end
    else ok.

Definition validateABIParameters (params : JSValue) (context : jsstring)
  : Result :=
  match params with
  | JArr ps =>
      each_indexed
        (fun p i =>
           validateABIParameter p
             (context ++ str "[" ++ Str.of_nat i ++ str "]"))
        ps 0
  | _ => fail (context ++ str " must be an array")
  end.

(** One of the blocks [if (!item.k) warn else validate]: the warnings
    with the new one added, or the failed result. *)
Definition check_params (item : JSValue) (k : jsstring) (index : nat)
           (missing : jsstring) (ws : list jsstring)
  : Result + list jsstring :=
  let params := Value.get item k in
  if negb (Value.truthy params) then inr (ws ++ [missing])
  else
    let r := validateABIParameters params
               (str "ABI item " ++ Str.of_nat index ++ str "." ++ k) in
    if negb (valid r) then inl r else inr ws.

(** [validateABIItem(item, index)]; [Throws] is the error of the
    template literal that prints a [stateMutability] which is not one of
    the four names, leaving the function uncaught. *)
Definition validateABIItem (item : JSValue) (index : nat) : Thrown Result :=
  let idx := Str.of_nat index in
  let type := Value.get item (str "type") in
  let name := Value.get item (str "name") in
  let stateMutability := Value.get item (str "stateMutability") in
  let tstr := Value.text type in
  (* Must be an object *)
  if negb (Value.typeof_object item) || is_null item
  then Returns (fail (str "ABI item " ++ idx ++ str " must be an object"))
  (* Must have type field *)
  else if negb (Value.truthy type) || negb (Value.typeof_string type)
  then Returns (fail (str "ABI item " ++ idx ++ str " missing 'type' field"))
  (* Validate type *)
  else if negb (Value.in_strings type VALID_ABI_TYPES)
  then Returns
         (fail (str "ABI item " ++ idx ++ str " has invalid type: " ++ tstr))
  (* Functions, events, and errors must have a name *)
  else if Value.in_strings type [str "function"; str "event"; str "error"]
          && (negb (Value.truthy name) || negb (Value.typeof_string name))
  then Returns (fail (str "ABI item " ++ idx ++ str " (" ++ tstr
                      ++ str ") missing 'name' field"))
  (* Validate name format *)
  else if Value.in_strings type [str "function"; str "event"; str "error"]
          && negb (test ABI_FUNCTION_NAME_PATTERN (Value.text name))
  then Returns (fail (str "ABI item " ++ idx ++ str " has invalid name: "
                      ++ Value.text name))
  else
    (* Functions and constructors should have inputs *)
    match
      (if Value.in_strings type [str "function"; str "constructor"]
       then check_params item (str "inputs") index
              (str "ABI item " ++ idx ++ str " (" ++ tstr
               ++ str ") missing 'inputs' field") []
       else inr [])
    with
    | inl inputsResult => Returns inputsResult
    | inr warnings1 =>
        (* Functions should have outputs *)
        match
          (if Value.eq_str type (str "function")
           then check_params item (str "outputs") index
                  (str "ABI item " ++ idx ++ str " (function "
                   ++ Value.text name ++ str ") missing 'outputs' field")
                  warnings1
           else inr warnings1)
        with
        | inl outputsResult => Returns outputsResult
        | inr warnings2 =>
            (* Validate stateMutability if present *)
            if Value.truthy stateMutability
               && negb (Value.in_strings stateMutability VALID_STATE_MUTABILITY)
            then
              match Value.ToString stateMutability with
              | Throws e => Throws e
              | Returns printed =>
                  Returns (fail (str "ABI item " ++ idx
                                 ++ str " has invalid stateMutability: "
                                 ++ printed))
              end
            else
              (* Events should have inputs *)
              match
                (if Value.eq_str type (str "event")
                 then check_params item (str "inputs") index
                        (str "ABI item " ++ idx ++ str " (event "
                         ++ Value.text name
                         ++ str ") missing 'inputs' field")
                        warnings2
                 else inr warnings2)
              with
              | inl inputsResult => Returns inputsResult
              | inr warnings3 => Returns (ok_warnings warnings3)
              end
        end
    end.

(** The loop of [validateABI] over the items: the first failure, or
    the warnings gathered. *)
Fixpoint validate_items (contractName : jsstring) (items : list JSValue)
         (i : nat) (allWarnings : list jsstring)
  : Thrown (Result + list jsstring) :=
  match items with
  | [] => Returns (inr allWarnings)
  | item :: rest =>
      match validateABIItem item i with
      | Throws e => Throws e
      | Returns result =>
          if negb (valid result)
          then Returns
                 (inl (fail (contractName ++ str ": "
                             ++ match error result with
                                | Some e => e
                                | None => str "undefined"
                                end)))
          else
            validate_items contractName rest (S i)
              (allWarnings
               ++ map (fun w => contractName ++ str ": " ++ w)
                      (match warnings result with
                       | Some ws => ws
                       | None => []
                       end))
      end
  end.

Definition validateABI (abi : JSValue) (contractName : jsstring)
  : Thrown Result :=
  match abi with
  | JArr items =>
      (* Should not be empty *)
      match items with
      | [] => Returns (fail (str "ABI for " ++ contractName ++ str " is empty"))
      | _ =>
          (* Validate each item *)
          match validate_items contractName items 0 [] with
          | Throws e => Throws e
          | Returns (inl failure) => Returns failure
          | Returns (inr allWarnings) =>
              (* Check for basic completeness *)
              let hasConstructor :=
                existsb (fun item =>
                           Value.eq_str (Value.get item (str "type"))
                                        (str "constructor")) items in
              let hasFunctions :=
                existsb (fun item =>
                           Value.eq_str (Value.get item (str "type"))
                                        (str "function")) items in
              if negb hasConstructor && negb hasFunctions
              then Returns
                     (ok_warnings
                        (allWarnings
                         ++ [contractName
                             ++ str ": ABI has no constructor or functions (may be interface/library)"]))
              else Returns (ok_warnings allWarnings)
          end
      end
  (* Must be an array *)
  | _ => Returns (fail (str "ABI for " ++ contractName
                        ++ str " must be a JSON array"))
  end.

End AbiValidator.

(* ================================================================== *)
(** ** unnamed/part_003: solidity-validator.js *)

Module SolidityValidator.
Import RegExp Constants.

(** The message kept for each entry of the table. *)
Definition messages : list (jsstring * jsstring) :=
  [ (str "selfdestruct",
     str "Contains selfdestruct - verify this is intentional and safe");
    (str "suicide",
     str "Contains suicide (deprecated) - use selfdestruct if needed");
    (str "delegatecall",
     str "Contains delegatecall - potential proxy vulnerability, ensure target is trusted");
    (str "txOrigin",
     str "Uses tx.origin - authentication bypass risk, use msg.sender instead");
    (str "blockhash",
     str "Uses blockhash - can be manipulated by miners");
    (str "callcode",
     str "Contains callcode (deprecated) - use delegatecall if needed") ].

Fixpoint message_of (name : jsstring) (table : list (jsstring * jsstring))
  : option jsstring :=
  match table with
  | [] => None
  | (k, m) :: rest => if Str.eqb name k then Some m else message_of name rest
  end.

Definition checkDangerousPatterns (content : jsstring) : list jsstring :=
  flat_map
    (fun entry =>
       if test (snd entry) content
       then [match message_of (fst entry) messages with
             | Some m => m
             | None => str "Contains " ++ fst entry ++ str " pattern"
             end]
       else [])
    DANGEROUS_SOLIDITY_PATTERNS.

(** [/pragma\s+solidity\s+[^;]+;/] *)
Definition PRAGMA : RegExp :=
  mkRegExp false
    (seq [Lit "pragma"; Plus White; Lit "solidity"; Plus White;
          Plus (Set_ true [one ";"]); Chr ";"])
    false.

Fixpoint strip_prefix (p s : jsstring) : option jsstring :=
  match p, s with
  | [], _ => Some s
  | y :: p', x :: s' => if x =? y then strip_prefix p' s' else None
  | _ :: _, [] => None
  end.

Fixpoint span (p : N -> bool) (s : jsstring) : jsstring * jsstring :=
  match s with
  | c :: s' =>
      if p c then let '(a, b) := span p s' in (c :: a, b) else ([], s)
  | [] => ([], [])
  end.

(** The first capture group of [/pragma\s+solidity\s+([^;]+);/] for a
    match that starts at the head of [s]: both [\s+] are greedy, the
    group takes everything up to the next semicolon, and when the
    semicolon follows the white space at once the engine backtracks and
    hands the last white space character over to the group. *)
Definition pragma_group_here (s : jsstring) : option jsstring :=
  match strip_prefix (str "pragma") s with
  | None => None
  | Some s1 =>
      match span Str.is_white s1 with
      | ([], _) => None
      | (_, s2) =>
          match strip_prefix (str "solidity") s2 with
          | None => None
          | Some s3 =>
              match span Str.is_white s3 with
              | ([], _) => None
              | (w, s4) =>
                  match span (fun c => negb (c =? 59)) s4 with
                  | (_, []) => None
                  | (c :: t, _ :: _) => Some (c :: t)
                  | ([], _ :: _) =>
                      match rev w with
                      | last :: _ :: _ => Some [last]
                      | _ => None
                      end
                  end
              end
          end
      end
  end.

(** [content.match(/pragma\s+solidity\s+([^;]+);/)[1]], at the
    leftmost position that matches. *)
Fixpoint pragma_group (content : jsstring) : option jsstring :=
  match pragma_group_here content with
  | Some version => Some version
  | None =>
      match content with
      | [] => None
      | _ :: rest => pragma_group rest
      end
  end.

Definition pragma_warnings (content : jsstring) : list jsstring :=
  match pragma_group content with
  | Some group =>
      let version := Str.trim group in
      (* Warn about specific versions (should use range) *)
      (if test (mkRegExp true (Set_ false [range "0" "9"]) false) version
          && negb (Str.includes version (str "^"))
          && negb (Str.includes version (str ">"))
       then [str "Pragma uses exact version (" ++ version
             ++ str ") - consider using range (e.g., ^0.8.0)"]
       else [])
      (* Warn about old versions *)
      ++ (if Str.includes version (str "0.4.")
             || Str.includes version (str "0.5.")
             || Str.includes version (str "0.6.")
          then [str "Pragma uses old Solidity version (" ++ version
                ++ str ") - consider upgrading"]
          else [])
  | None => []
  end.

(** The source texts handed to [new RegExp]: the four declaration
    forms with [contractName] spliced in. *)
Definition pattern_sources (contractName : jsstring) : list jsstring :=
  [ str "contract\s+" ++ contractName ++ str "\s*[{]";
    str "interface\s+" ++ contractName ++ str "\s*[{]";
    str "library\s+" ++ contractName ++ str "\s*[{]";
    str "abstract\s+contract\s+" ++ contractName ++ str "\s*[{]" ].

(** The characters of a name that the model reads as the pattern
    syntax reads them: a letter, a digit or an underscore stands for
    itself, and a dot for any character but a line terminator. *)
Definition is_word (c : N) : bool :=
  Str.in_ranges c [range "a" "z"; range "A" "Z"; range "0" "9"; one "_"].

Definition is_atom (c : N) : bool := is_word c || (c =? 46).

Definition atom (c : N) : regex :=
  if c =? 46 then Dot else Set_ false [(c, c)].

Fixpoint atoms (s : jsstring) : regex :=
  match s with
  | [] => Eps
  | c :: s' => Cat (atom c) (atoms s')
  end.

(** What a source denotes when [contractName] is made of such
    characters: the keyword, [\s+], the atoms of the name, [\s*] and
    the class [[{]]. *)
Definition pattern_of (keyword : list regex) (contractName : jsstring)
  : RegExp :=
  mkRegExp false
    (seq (keyword ++ [Plus White; atoms contractName; Star White;
                      Set_ false [one "{"]]))
    false.

(** The same with the name matched literally, which is what it denotes
    when the name has no dot. *)
Definition declaration (keyword : list regex) (contractName : jsstring)
  : RegExp :=
  mkRegExp false
    (seq (keyword ++ [Plus White; Lit_units contractName; Star White;
                      Set_ false [one "{"]]))
    false.

Definition keywords : list (list regex) :=
  [ [Lit "contract"];
    [Lit "interface"];
    [Lit "library"];
    [Lit "abstract"; Plus White; Lit "contract"] ].

Definition literal_patterns (contractName : jsstring) : list RegExp :=
  map (fun keyword => declaration keyword contractName) keywords.

(** Additional security checks. *)
Definition ASSEMBLY : RegExp :=
  mkRegExp false (seq [Lit "assembly"; Star White; Chr "{"]) false.
Definition LOW_LEVEL_CALL : RegExp :=
  mkRegExp false (seq [Lit ".call"; Star White; Chr "("]) false.
Definition LOW_LEVEL_CALLCODE : RegExp :=
  mkRegExp false (seq [Lit ".callcode"; Star White; Chr "("]) false.

Definition security_warnings (content : jsstring) : list jsstring :=
  (if test ASSEMBLY content
   then [str "Contains inline assembly - ensure it's necessary and reviewed"]
   else [])
  ++ (if test LOW_LEVEL_CALL content || test LOW_LEVEL_CALLCODE content
      then [str "Contains low-level call - ensure proper error handling and reentrancy protection"]
      else [])
  ++ (if test (call_of "ecrecover") content
      then [str "Uses ecrecover - ensure signature malleability is handled"]
      else [])
  ++ (if test (call_of "transfer") content
      then [str "Uses transfer() - consider using call() with value for better gas handling"]
      else []).

Section WithRegExp.
(** [new RegExp(source)] as the platform has it, for the sources the
    model does not read itself; it throws a [SyntaxError] on a source
    that is not a pattern. *)
Variable RegExp_new : jsstring -> Thrown RegExp.

(** [new RegExp(source)] for the source of one declaration form with
    [contractName] spliced in. *)
Definition new_RegExp (contractName : jsstring)
           (form : jsstring * list regex) : Thrown RegExp :=
  if forallb is_atom contractName
  then Returns (pattern_of (snd form) contractName)
  else RegExp_new (fst form).

(** The array literal of the four patterns, built left to right. *)
Fixpoint construct (contractName : jsstring)
         (forms : list (jsstring * list regex)) : Thrown (list RegExp) :=
  match forms with
  | [] => Returns []
  | form :: rest =>
      match new_RegExp contractName form with
      | Throws m => Throws m
      | Returns pattern =>
          match construct contractName rest with
          | Throws m => Throws m
          | Returns patterns => Returns (pattern :: patterns)
          end
      end
  end.

(** The four sources, each with what its keyword part denotes. *)
Definition forms (contractName : jsstring) : list (jsstring * list regex) :=
  combine (pattern_sources contractName) keywords.

(** [validateSolidityStructure(content, contractName)]; [Throws] is
    the error of the constructor leaving the function uncaught. *)
Definition validateSolidityStructure (content contractName : jsstring)
  : Thrown Result :=
  (* Check minimum content *)
  if match content with [] => true | _ => false end
     || (List.length (Str.trim content) =? 0)%nat
  then Returns (fail "Solidity file is empty")
  (* Check file size *)
  else if MAX_SOLIDITY_FILE_SIZE <? N.of_nat (List.length content)
  then Returns
         (fail (str "Solidity file too large: "
                ++ Str.of_nat (List.length content) ++ str " bytes (max: "
                ++ Str.of_N MAX_SOLIDITY_FILE_SIZE ++ str ")"))
  else
    (* Check for SPDX license *)
    let warnings0 :=
      if negb (Str.includes content (str "// SPDX-License-Identifier:"))
      then [str "Missing SPDX license identifier"] else [] in
    (* Check for pragma directive *)
    if negb (test PRAGMA content)
    then Returns (fail "Missing pragma solidity directive")
    else
      (* Extract pragma version *)
      let warnings1 := warnings0 ++ pragma_warnings content in
      (* Check for contract declaration with the expected name *)
      match construct contractName (forms contractName) with
      | Throws m => Throws m
      | Returns contractPatterns =>
          let hasDeclaration :=
            existsb (fun pattern => test pattern content) contractPatterns in
          if negb hasDeclaration
          then Returns
                 (fail (str "No declaration found for " ++ contractName
                        ++ str " (expected contract, interface, library, or abstract contract)"))
          else
            (* Check for dangerous patterns, additional checks *)
            Returns
              (ok_warnings
                 (warnings1 ++ checkDangerousPatterns content
                  ++ security_warnings content))
      end.

Definition validateSolidityFile (content contractName : jsstring)
  : Thrown Result :=
  validateSolidityStructure content contractName.

(** The keys of the object [patterns] of [extractContractType], in the
    order [Object.entries] lists them. *)
Definition contract_types : list jsstring :=
  [str "contract"; str "interface"; str "library"; str "abstract"].

(** The loop over the entries: the key of the first pattern that
    matches. *)
Fixpoint first_type (entries : list (jsstring * RegExp)) (content : jsstring)
  : option jsstring :=
  match entries with
  | [] => None
  | (type, pattern) :: rest =>
      if test pattern content then Some type else first_type rest content
  end.

(** [extractContractType(content, contractName)]; [None] is [null].
    The four patterns are built from the same sources as in
    [validateSolidityStructure], before any is tried. *)
Definition extractContractType (content contractName : jsstring)
  : Thrown (option jsstring) :=
  match construct contractName (forms contractName) with
  | Throws m => Throws m
  | Returns patterns =>
      Returns (first_type (combine contract_types patterns) content)
  end.

End WithRegExp.

End SolidityValidator.

(* ================================================================== *)
(** ** unnamed/part_002: email-validator.js *)

Module EmailValidator.
Import RegExp Constants.

(** [r?] and [r{0,n}] *)
Definition Opt (r : regex) : regex := Alt r Eps.

Fixpoint UpTo (n : nat) (r : regex) : regex :=
  match n with
  | O => Eps
  | S n' => Opt (Cat r (UpTo n' r))
  end.

(** The class of the local part, [[a-zA-Z0-9-]] and [[a-zA-Z0-9]]. *)
Definition local_class : regex :=
  Set_ false
    [range "a" "z"; range "A" "Z"; range "0" "9"; one "."; one "!";
     one "#"; one "$"; one "%"; one "&"; one "'"; one "*"; one "+";
     one "/"; one "="; one "?"; one "^"; one "_"; one "`"; one "{";
     one "|"; one "}"; one "~"; one "-"].
Definition alnum_hyphen : regex :=
  Set_ false [range "a" "z"; range "A" "Z"; range "0" "9"; one "-"].
Definition alnum : regex :=
  Set_ false [range "a" "z"; range "A" "Z"; range "0" "9"].

(** One label of the domain:
    [[a-zA-Z0-9](?:[a-zA-Z0-9-]{0,61}[a-zA-Z0-9])?] *)
Definition label : regex :=
  Cat alnum (Opt (Cat (UpTo 61 alnum_hyphen) alnum)).

(** The basic email pattern: the local part, [@], a label, and any
    number of further labels, each after a dot; anchored at both ends. *)
Definition emailRegex : RegExp :=
  mkRegExp true
    (seq [Plus local_class; Chr "@"; label; Star (Cat (Chr ".") label)])
    true.

Definition isValidEmailFormat (email : JSValue) : bool :=
  match email with
  | JStr e => test emailRegex e
  | _ => false
  end.

(** [s.split('@')] *)
Fixpoint split (separator : N) (s : jsstring) : list jsstring :=
  match s with
  | [] => [[]]
  | c :: s' =>
      if c =? separator then [] :: split separator s'
      else match split separator s' with
           | part :: rest => (c :: part) :: rest
           | [] => [[c]]
           end
  end.

(** [extractDomain(email)]; [None] is [null]. *)
Definition extractDomain (email : JSValue) : option jsstring :=
  if negb (isValidEmailFormat email) then None
  else
    let parts := split 64 (Value.text email) in
    match parts with
    | [_; domain] => Some (Str.toLowerCase domain)
    | _ => None
    end.

(** [!domain] is true of [null] and of the empty string. *)
Definition isDisposableEmail (email : JSValue) : bool :=
  match extractDomain email with
  | None | Some [] => false
  | Some domain => Str.mem domain DISPOSABLE_EMAIL_DOMAINS
  end.

Definition isReservedEmail (email : JSValue) : bool :=
  match extractDomain email with
  | None | Some [] => false
  | Some domain => Str.mem domain RESERVED_EMAIL_DOMAINS
  end.

Definition commonTypos : list (jsstring * jsstring) :=
  [ (str "gmail.co", str "gmail.com");
    (str "gmial.com", str "gmail.com");
    (str "gmai.com", str "gmail.com");
    (str "outlook.co", str "outlook.com");
    (str "hotmail.co", str "hotmail.com");
    (str "yahoo.co", str "yahoo.com") ].

(** The object literal [commonTypos] inherits from [Object.prototype],
    and [commonTypos[domain]] finds the inherited members too.  They are
    built-in functions, which a template literal prints as their source
    text; [__proto__] reads as [Object.prototype] itself.  (The table is
    that of an engine whose [Object.prototype] holds its built-in
    members only.) *)
Definition native (name : string) : jsstring :=
  str "function " ++ str name ++ str "() { [native code] }".

Definition inherited : list (jsstring * jsstring) :=
  [ (str "constructor", native "Object");
    (str "__defineGetter__", native "__defineGetter__");
    (str "__defineSetter__", native "__defineSetter__");
    (str "hasOwnProperty", native "hasOwnProperty");
    (str "__lookupGetter__", native "__lookupGetter__");
    (str "__lookupSetter__", native "__lookupSetter__");
    (str "isPrototypeOf", native "isPrototypeOf");
    (str "propertyIsEnumerable", native "propertyIsEnumerable");
    (str "toString", native "toString");
    (str "valueOf", native "valueOf");
    (str "__proto__", str "[object Object]");
    (str "toLocaleString", native "toLocaleString") ].

Fixpoint assoc (k : jsstring) (table : list (jsstring * jsstring))
  : option jsstring :=
  match table with
  | [] => None
  | (k', v) :: rest => if Str.eqb k k' then Some v else assoc k rest
  end.

(** [commonTypos[domain]], printed, when it is truthy; every value that
    can be found is.  A [null] domain reads the key [null]. *)
Definition suggestion (domain : option jsstring) : option jsstring :=
  let key := match domain with Some d => d | None => str "null" end in
  match assoc key commonTypos with
  | Some typo => Some typo
  | None => assoc key inherited
  end.

Definition validateEmail (email : JSValue) (fieldName : jsstring) : Result :=
  (* Check format *)
  if negb (isValidEmailFormat email)
  then fail (fieldName ++ str " has invalid format")
  (* Check for disposable email *)
  else if isDisposableEmail email
  then fail (fieldName
             ++ str " uses disposable email service (not allowed)")
  (* Check for reserved domain *)
  else if isReservedEmail email
  then fail (fieldName ++ str " uses reserved/test domain (not allowed)")
  else
    (* Extract domain for additional checks *)
    let domain := extractDomain email in
    (* Warn about common typos in popular domains *)
    ok_warnings
      (match suggestion domain with
       | Some typo =>
           [str "Possible typo in domain: did you mean " ++ typo ++ str "?"]
       | None => []
       end).

End EmailValidator.

(* ================================================================== *)
(** ** scripts/utils/logger.js *)

Module Logger.

(** [LOG_LEVELS]; [log] is private to the module and is only called
    with one of them. *)
Inductive Level : Type := ERROR | WARN | INFO | SUCCESS | DEBUG.

Definition level_name (level : Level) : jsstring :=
  match level with
  | ERROR => str "error"
  | WARN => str "warn"
  | INFO => str "info"
  | SUCCESS => str "success"
  | DEBUG => str "debug"
  end.

(** [COLORS], each [\x1b[] followed by its parameters and [m]. *)
Definition colour (parameters : string) : jsstring :=
  [27; 91] ++ str parameters ++ [109].
Definition RESET : jsstring := colour "0".
Definition RED : jsstring := colour "31".
Definition YELLOW : jsstring := colour "33".
Definition GREEN : jsstring := colour "32".
Definition BLUE : jsstring := colour "34".
Definition CYAN : jsstring := colour "36".
Definition MAGENTA : jsstring := colour "35".

(** [COLORS[levelToColor(level)]] *)
Definition levelToColor (level : Level) : jsstring :=
  match level with
  | ERROR => RED
  | WARN => YELLOW
  | INFO => BLUE
  | SUCCESS => GREEN
  | DEBUG => CYAN
  end.

(** [ICONS[level]], as UTF-16 code units: a cross mark; a warning sign,
    a variation selector and a space; an information source, a variation
    selector and a space; a check mark; a magnifying glass. *)
Definition ICONS (level : Level) : jsstring :=
  match level with
  | ERROR => [10060]
  | WARN => [9888; 65039; 32]
  | INFO => [8505; 65039; 32]
  | SUCCESS => [9989]
  | DEBUG => [55357; 56589]
  end.

(** The counters of the module, the lines written with [console.log]
    (the oldest first) and the number of times the clock was read. *)
Record State : Type := mkState {
  errorCount : N;
  warningCount : N;
  infoCount : N;
  console : list jsstring;
  clock : nat
}.

Definition write (line : jsstring) (st : State) : State :=
  mkState (errorCount st) (warningCount st) (infoCount st)
          (console st ++ [line]) (clock st).

(** [{ errors, warnings, info }] *)
Module Counters.
Record t : Type := mk {
  errors : N;
  warnings : N;
  info : N
}.
End Counters.

Section WithPlatform.
(** [process.env.LOG_FORMAT || 'human'], read when the module loads. *)
Variable logFormat : jsstring.
(** [process.env.DEBUG] *)
Variable env_DEBUG : JSValue.
(** [JSON.stringify] *)
Variable stringify : JSValue -> jsstring.
(** [new Date().toISOString()] at the n-th reading of the clock. *)
Variable toISOString : nat -> jsstring.

(** [{ ...entry, ...metadata }]: the properties of [metadata] are
    defined on the entry in their order. *)
Definition spread (entry metadata : list (jsstring * JSValue))
  : list (jsstring * JSValue) :=
  fold_left (fun acc kv => Json.set_prop (fst kv) (snd kv) acc) metadata entry.

(** What a call of the module leaves behind: the state, and the error
    it threw, if it threw one. *)
Definition Outcome : Type := State * option jsstring.

Definition log (level : Level) (message : JSValue)
           (metadata : list (jsstring * JSValue)) (st : State) : Outcome :=
  (* Sanitize message for terminal output *)
  match SafeJson.sanitizeForTerminal message with
  | Throws e => (st, Some e)
  | Returns sanitizedMessage =>
      if Str.eqb logFormat (str "json") then
        (* JSON output for machine parsing *)
        let logEntry :=
          spread [ (str "timestamp", JStr (toISOString (clock st)));
                   (str "level", JStr (level_name level));
                   (str "message", JStr sanitizedMessage) ]
                 metadata in
        (mkState (errorCount st) (warningCount st) (infoCount st)
                 (console st ++ [stringify (JObj logEntry)]) (S (clock st)),
         None)
      else
        (* Human-readable output *)
        let st1 :=
          write (levelToColor level ++ ICONS level ++ str " "
                 ++ sanitizedMessage ++ RESET) st in
        (* Log metadata if present *)
        match metadata with
        | [] => (st1, None)
        | _ =>
            (write (CYAN ++ str "  Metadata: " ++ stringify (JObj metadata)
                    ++ RESET) st1,
             None)
        end
  end.

(** Log error message and increment counter *)
Definition error (message : JSValue) (metadata : list (jsstring * JSValue))
           (st : State) : Outcome :=
  match log ERROR message metadata st with
  | (st, Some e) => (st, Some e)
  | (st, None) =>
      (mkState (errorCount st + 1) (warningCount st) (infoCount st)
               (console st) (clock st),
       None)
  end.

Definition warn (message : JSValue) (metadata : list (jsstring * JSValue))
           (st : State) : Outcome :=
  match log WARN message metadata st with
  | (st, Some e) => (st, Some e)
  | (st, None) =>
      (mkState (errorCount st) (warningCount st + 1) (infoCount st)
               (console st) (clock st),
       None)
  end.

Definition info (message : JSValue) (metadata : list (jsstring * JSValue))
           (st : State) : Outcome :=
  match log INFO message metadata st with
  | (st, Some e) => (st, Some e)
  | (st, None) =>
      (mkState (errorCount st) (warningCount st) (infoCount st + 1)
               (console st) (clock st),
       None)
  end.

Definition success (message : JSValue) (metadata : list (jsstring * JSValue))
           (st : State) : Outcome :=
  log SUCCESS message metadata st.

Definition debug (message : JSValue) (metadata : list (jsstring * JSValue))
           (st : State) : Outcome :=
  if Value.truthy env_DEBUG then log DEBUG message metadata st
  else (st, None).

(** ['='.repeat(60)] *)
Definition rule : jsstring := repeat 61 60%nat.

Definition section (title : JSValue) (st : State) : Outcome :=
  match SafeJson.sanitizeForTerminal title with
  | Throws e => (st, Some e)
  | Returns sanitized =>
      if Str.eqb logFormat (str "json")
      then log INFO (JStr sanitized) [(str "type", JStr (str "section"))] st
      else
        (write (MAGENTA ++ rule ++ RESET ++ [10])
           (write (MAGENTA ++ sanitized ++ RESET)
              (write ([10] ++ MAGENTA ++ rule ++ RESET) st)),
         None)
  end.

Definition number (n : N) : JSValue := JNum (mkNumber (Z.of_N n) 0).

Definition summary (st : State) : Outcome :=
  match section (JStr (str "Validation Summary")) st with
  | (st, Some e) => (st, Some e)
  | (st, None) =>
      let total := errorCount st + warningCount st in
      if Str.eqb logFormat (str "json")
      then log INFO (JStr (str "Validation complete"))
             [ (str "errors", number (errorCount st));
               (str "warnings", number (warningCount st));
               (str "info", number (infoCount st));
               (str "total", number total) ] st
      else
        (write (str "  " ++ CYAN ++ str "Info: " ++ Str.of_N (infoCount st)
                ++ RESET)
           (write (str "  " ++ YELLOW ++ str "Warnings: "
                   ++ Str.of_N (warningCount st) ++ RESET)
              (write (str "  " ++ RED ++ str "Errors: "
                      ++ Str.of_N (errorCount st) ++ RESET)
                 (write (BLUE ++ str "Total issues: " ++ Str.of_N total
                         ++ RESET)
                    st))),
         None)
  end.

Definition getCounters (st : State) : Counters.t :=
  Counters.mk (errorCount st) (warningCount st) (infoCount st).

Definition resetCounters (st : State) : State :=
  mkState 0 0 0 (console st) (clock st).

(** A call of one of the exported functions that write. *)
Inductive Call : Type :=
| CallError (message : JSValue) (metadata : list (jsstring * JSValue))
| CallWarn (message : JSValue) (metadata : list (jsstring * JSValue))
| CallInfo (message : JSValue) (metadata : list (jsstring * JSValue))
| CallSuccess (message : JSValue) (metadata : list (jsstring * JSValue))
| CallDebug (message : JSValue) (metadata : list (jsstring * JSValue))
| CallSection (title : JSValue)
| CallSummary.

Definition call (c : Call) (st : State) : Outcome :=
  match c with
  | CallError message metadata => error message metadata st
  | CallWarn message metadata => warn message metadata st
  | CallInfo message metadata => info message metadata st
  | CallSuccess message metadata => success message metadata st
  | CallDebug message metadata => debug message metadata st
  | CallSection title => section title st
  | CallSummary => summary st
  end.

(** The calls of a run, in order, made by a caller that catches what
    a call throws and goes on. *)
Definition run (calls : list Call) (st : State) : State :=
  fold_left (fun st c => fst (call c st)) calls st.

End WithPlatform.

End Logger.

(* ================================================================== *)
(** ** Inputs taken from the specification and the test suites *)

Module Examples.

Definition quoted (s : string) : jsstring := [34] ++ str s ++ [34].

(** The text [{"__proto__":{"polluted":true}}]. *)
Definition pollution_payload : jsstring :=
  str "{" ++ quoted "__proto__" ++ str ":{" ++ quoted "polluted"
  ++ str ":true}}".

(** The text [{"data":{"__proto__":{"polluted":true},"kept":1}}]. *)
Definition nested_payload : jsstring :=
  str "{" ++ quoted "data" ++ str ":{" ++ quoted "__proto__" ++ str ":{"
  ++ quoted "polluted" ++ str ":true}," ++ quoted "kept" ++ str ":1}}".

  (** Solidity sources: a bare declaration of another contract, the same
      after a pragma, and a declaration of the expected contract. *)
Definition bare_other : jsstring := str "contract Other {}".
Definition pragma_other : jsstring :=
    str "pragma solidity ^0.8.0; contract Other {}".
Definition pragma_expected : jsstring :=
    str "pragma solidity ^0.8.0; contract Expected {}".
(** A declaration of the expected contract with an inheritance list,
    and a declaration of a contract [AxB]. *)
Definition pragma_expected_is : jsstring :=
    str "pragma solidity ^0.8.0; contract Expected is Ownable {}".
Definition pragma_axb : jsstring :=
    str "pragma solidity ^0.8.0; contract AxB {}".

(** ABI items: [{"type":"function","name":"f","inputs":[{"name":
    "__proto__","type":"uint256"}]}] and the same with type [error]. *)
Definition proto_parameter : JSValue :=
  JObj [(str "name", JStr (str "__proto__")); (str "type", JStr (str "uint256"))].
Definition function_item : JSValue :=
  JObj [(str "type", JStr (str "function")); (str "name", JStr (str "f"));
        (str "inputs", JArr [proto_parameter])].
Definition error_item : JSValue :=
  JObj [(str "type", JStr (str "error")); (str "name", JStr (str "f"));
        (str "inputs", JArr [proto_parameter])].

(** A value that cannot be printed, [{"toString":1}], and the item
    [{"type":"fallback","stateMutability":{"toString":1}}]. *)
Definition unprintable : JSValue :=
  JObj [(str "toString", JNum (mkNumber 1 0))].
Definition unprintable_item : JSValue :=
  JObj [(str "type", JStr (str "fallback"));
        (str "stateMutability", unprintable)].

(*EXAMPLES*)
End Examples.

(* ================================================================== *)
(** * Properties *)

(** ** Numbers *)

(** How some decimals are printed, as [String] prints the numbers they
    are read as: the shortest digits that read back as the same double,
    laid out with or without an exponent. *)
Lemma toString_examples :
  map (fun n => Num.toString (mkNumber (fst n) (snd n)))
      [ (15, -1); (100, 0); (1, 21); (1, 20); (1, -6); (1, -7);
        (435, -2); (9007199254740993, 0); (1000000000000000128, 0);
        (123456789012345678901234, 0); (30000000000000004, -17);
        (5, -324); (1, -400); (-1, -400); (1, 400); (-15, -1) ]%Z
  = [ str "1.5"; str "100"; str "1e+21"; str "100000000000000000000";
      str "0.000001"; str "1e-7"; str "4.35"; str "9007199254740992";
      str "1000000000000000100"; str "1.2345678901234569e+23";
      str "0.30000000000000004"; str "5e-324"; str "0"; str "0";
      str "Infinity"; str "-1.5" ].
Proof. vm_compute. reflexivity. Qed.

(** A number is falsy when it is read as zero: the decimal [0] and
    one that underflows, but not the least double. *)
Lemma truthy_examples :
  map (fun n => Value.truthy (JNum (mkNumber (fst n) (snd n))))
      [ (0, 0); (0, 5); (1, -400); (24703282292062327, -340);
        (24703282292062328, -340); (5, -324); (1, 0); (-1, 0);
        (1, 400) ]%Z
  = [ false; false; false; false; true; true; true; true; true ].
Proof. vm_compute. reflexivity. Qed.

(** What [String] makes of arrays and objects. *)
Lemma ToString_examples :
  Value.ToString (JArr [JNum (mkNumber 1 0); JNull;
                        JArr [JStr (str "a"); JUndefined; JBool true];
                        JObj [(str "k", JNull)]])
  = Returns (str "1,,a,,true,[object Object]")
  /\ Value.ToString (JArr []) = Returns []
  /\ Value.ToString Examples.unprintable = Throws Value.NOT_PRIMITIVE
  /\ Value.ToString (JArr [JStr (str "a"); Examples.unprintable])
     = Throws Value.NOT_PRIMITIVE.
Proof. vm_compute. repeat split. Qed.

(** ** Strings *)

Lemma Str_eqb_eq (a b : jsstring) : Str.eqb a b = true <-> a = b.
Proof.
  revert b; induction a as [|x a IH]; intros [|y b]; simpl; split;
    try discriminate; try reflexivity.
  - intros H. apply andb_true_iff in H as [Hx Hab].
    apply N.eqb_eq in Hx. apply IH in Hab. congruence.
  - intros H. injection H as -> ->.
    rewrite N.eqb_refl. simpl. now apply IH.
Qed.

Lemma Str_eqb_refl (a : jsstring) : Str.eqb a a = true.
Proof. now apply Str_eqb_eq. Qed.

Lemma Str_eqb_neq (a b : jsstring) : Str.eqb a b = false <-> a <> b.
Proof.
  split.
  - intros H E. apply Str_eqb_eq in E. congruence.
  - intros H. destruct (Str.eqb a b) eqn:E; [|reflexivity].
    apply Str_eqb_eq in E. contradiction.
Qed.

Lemma startsWith_iff (s p : jsstring) :
  Str.startsWith s p = true <-> exists rest, s = p ++ rest.
Proof.
  revert s; induction p as [|y p IH]; intros s.
  - split; [intros _; now exists s | now destruct s].
  - destruct s as [|x s]; simpl.
    + split; [discriminate | intros [rest H]; discriminate].
    + rewrite andb_true_iff, N.eqb_eq, IH. split.
      * intros [-> [rest ->]]. now exists rest.
      * intros [rest H]. injection H as -> ->. split; [reflexivity | now exists rest].
Qed.

Lemma startsWith_app (p rest : jsstring) : Str.startsWith (p ++ rest) p = true.
Proof. apply startsWith_iff. now exists rest. Qed.

Lemma includes_iff (s sub : jsstring) :
  Str.includes s sub = true <-> exists pre post, s = pre ++ sub ++ post.
Proof.
  induction s as [|x s IH].
  - change (Str.includes [] sub) with (Str.startsWith [] sub || false).
    rewrite orb_false_r, startsWith_iff. split.
    + intros [rest H]. exists [], rest. exact H.
    + intros [pre [post H]]. destruct pre; [now exists post | discriminate].
  - change (Str.includes (x :: s) sub)
      with (Str.startsWith (x :: s) sub || Str.includes s sub).
    rewrite orb_true_iff, startsWith_iff, IH. split.
    + intros [[rest H] | [pre [post H]]].
      * exists [], rest. exact H.
      * exists (x :: pre), post. simpl. now rewrite H.
    + intros [[|y pre] [post H]].
      * left. now exists post.
      * right. injection H as -> H. now exists pre, post.
Qed.

(** ** Regular expressions: the engine decides the language *)

Module RegExpFacts.
Import RegExp.

Lemma Matches_Fail s : ~ Matches Fail s.
Proof. intros H. inversion H. Qed.

Lemma Matches_Eps s : Matches Eps s <-> s = [].
Proof. split; intros H; [now inversion H | subst; constructor]. Qed.

Lemma Matches_Set neg rs s :
  Matches (Set_ neg rs) s <-> exists c, s = [c] /\ in_set neg rs c = true.
Proof.
  split.
  - intros H. inversion H; subst. eauto.
  - intros [c [-> H]]. now constructor.
Qed.

Lemma Matches_Cat r1 r2 s :
  Matches (Cat r1 r2) s <->
  exists s1 s2, s = s1 ++ s2 /\ Matches r1 s1 /\ Matches r2 s2.
Proof.
  split.
  - intros H. inversion H; subst. eauto.
  - intros [s1 [s2 [-> [H1 H2]]]]. now constructor.
Qed.

Lemma Matches_Alt r1 r2 s :
  Matches (Alt r1 r2) s <-> Matches r1 s \/ Matches r2 s.
Proof.
  split.
  - intros H. inversion H; subst; auto.
  - intros [H | H]; [now apply MAltL | now apply MAltR].
Qed.

Lemma nullable_iff r : nullable r = true <-> Matches r [].
Proof.
  induction r; simpl.
  - split; [discriminate | intros H; inversion H].
  - split; [constructor | reflexivity].
  - split; [discriminate | intros H; inversion H].
  - rewrite andb_true_iff, IHr1, IHr2, Matches_Cat. split.
    + intros [H1 H2]. exists [], []. auto.
    + intros [s1 [s2 [E [H1 H2]]]]. symmetry in E.
      apply app_eq_nil in E as [-> ->]. auto.
  - now rewrite orb_true_iff, IHr1, IHr2, Matches_Alt.
  - split; [constructor | reflexivity].
Qed.

Lemma cat_iff r1 r2 s : Matches (cat r1 r2) s <-> Matches (Cat r1 r2) s.
Proof.
  destruct r1; simpl; try reflexivity.
  - split; intros H; [now apply Matches_Fail in H|].
    apply Matches_Cat in H as [s1 [s2 [_ [H _]]]]. now apply Matches_Fail in H.
  - rewrite Matches_Cat. split.
    + intros H. exists [], s. repeat split; [constructor | exact H].
    + intros [s1 [s2 [-> [H1 H2]]]]. apply Matches_Eps in H1. now subst.
Qed.

Lemma alt_iff r1 r2 s : Matches (alt r1 r2) s <-> Matches (Alt r1 r2) s.
Proof.
  rewrite Matches_Alt.
  destruct r1, r2; simpl; rewrite ?Matches_Alt;
    try reflexivity;
    split; intros H; auto;
    try (destruct H as [H | H]; auto; now apply Matches_Fail in H).
Qed.

(** A non-empty word of a starred pattern starts with a non-empty
    word of the pattern. *)
Lemma Matches_Star_cons r c s :
  Matches (Star r) (c :: s) ->
  exists s1 s2, s = s1 ++ s2 /\ Matches r (c :: s1) /\ Matches (Star r) s2.
Proof.
  intros H. remember (Star r) as r' eqn:Er. remember (c :: s) as w eqn:Ew.
  revert c s Er Ew.
  induction H; intros c0 s0 Er Ew; try discriminate.
  injection Er as ->.
  destruct s1 as [|x s1].
  - simpl in Ew. now apply IHMatches2.
  - injection Ew as -> <-. exists s1, s2. auto.
Qed.

Lemma deriv_iff c r s : Matches (deriv c r) s <-> Matches r (c :: s).
Proof.
  revert s; induction r; intros s; simpl.
  - split; intros H; inversion H.
  - split; intros H; inversion H.
  - destruct (in_set negated ranges c) eqn:E.
    + rewrite Matches_Eps, Matches_Set. split.
      * intros ->. eauto.
      * intros [c' [H _]]. now injection H.
    + split; intros H; [inversion H|].
      apply Matches_Set in H as [c' [H1 H2]]. injection H1 as -> _. congruence.
  - assert (Hcat : Matches (cat (deriv c r1) r2) s <->
                   exists s1 s2, s = s1 ++ s2 /\ Matches r1 (c :: s1)
                                 /\ Matches r2 s2).
    { rewrite cat_iff, Matches_Cat. split; intros [s1 [s2 [E [H1 H2]]]];
        exists s1, s2; repeat split; auto; now apply IHr1. }
    rewrite Matches_Cat.
    destruct (nullable r1) eqn:En.
    + rewrite alt_iff, Matches_Alt, Hcat, IHr2. split.
      * intros [[s1 [s2 [-> [H1 H2]]]] | H].
        -- exists (c :: s1), s2. auto.
        -- exists [], (c :: s). repeat split; auto. now apply nullable_iff.
      * intros [[|x s1] [s2 [E [H1 H2]]]].
        -- right. simpl in E. now subst.
        -- left. injection E as -> ->. eauto.
    + rewrite Hcat. split.
      * intros [s1 [s2 [-> [H1 H2]]]]. exists (c :: s1), s2. auto.
      * intros [[|x s1] [s2 [E [H1 H2]]]].
        -- apply nullable_iff in H1. congruence.
        -- injection E as -> ->. eauto.
  - now rewrite alt_iff, !Matches_Alt, IHr1, IHr2.
  - rewrite cat_iff, Matches_Cat. split.
    + intros [s1 [s2 [-> [H1 H2]]]]. apply IHr in H1.
      change (c :: s1 ++ s2) with ((c :: s1) ++ s2). now constructor.
    + intros H. apply Matches_Star_cons in H as [s1 [s2 [-> [H1 H2]]]].
      exists s1, s2. repeat split; auto. now apply IHr.
Qed.

Theorem accepts_iff r s : accepts r s = true <-> Matches r s.
Proof.
  revert r; induction s as [|c s IH]; intros r; simpl.
  - apply nullable_iff.
  - now rewrite IH, deriv_iff.
Qed.

Theorem accepts_prefix_iff r s :
  accepts_prefix r s = true <->
  exists s1 s2, s = s1 ++ s2 /\ Matches r s1.
Proof.
  revert r; induction s as [|c s IH]; intros r; simpl.
  - rewrite orb_false_r, nullable_iff. split.
    + intros H. exists [], []. auto.
    + intros [s1 [s2 [E H]]]. symmetry in E.
      apply app_eq_nil in E as [-> _]. exact H.
  - rewrite orb_true_iff, nullable_iff, IH. split.
    + intros [H | [s1 [s2 [-> H]]]].
      * exists [], (c :: s). auto.
      * exists (c :: s1), s2. split; [reflexivity | now apply deriv_iff].
    + intros [[|x s1] [s2 [E H]]].
      * now left.
      * right. injection E as -> ->. exists s1, s2.
        split; [reflexivity | now apply deriv_iff].
Qed.

Theorem anywhere_iff f s :
  anywhere f s = true <-> exists pre post, s = pre ++ post /\ f post = true.
Proof.
  induction s as [|c s IH]; simpl.
  - rewrite orb_false_r. split.
    + intros H. exists [], []. auto.
    + intros [pre [post [E H]]]. symmetry in E.
      apply app_eq_nil in E as [_ ->]. exact H.
  - rewrite orb_true_iff, IH. split.
    + intros [H | [pre [post [-> H]]]].
      * exists [], (c :: s). auto.
      * exists (c :: pre), post. auto.
    + intros [[|x pre] [post [E H]]].
      * left. simpl in E. now subst.
      * right. injection E as -> ->. eauto.
Qed.

(** An unanchored pattern: some part of the string is in the language. *)
Theorem search_iff r s :
  test (mkRegExp false r false) s = true <->
  exists pre mid post, s = pre ++ mid ++ post /\ Matches r mid.
Proof.
  unfold test; simpl. rewrite anywhere_iff. split.
  - intros [pre [rest [-> H]]]. apply accepts_prefix_iff in H as [mid [post [-> H]]].
    now exists pre, mid, post.
  - intros [pre [mid [post [-> H]]]]. exists pre, (mid ++ post).
    split; [reflexivity|]. apply accepts_prefix_iff. now exists mid, post.
Qed.

Lemma Matches_Lit_units p s : Matches (Lit_units p) s <-> s = p.
Proof.
  revert s; induction p as [|y p IH]; intros s; simpl.
  - apply Matches_Eps.
  - rewrite Matches_Cat. split.
    + intros [s1 [s2 [-> [H1 H2]]]]. apply Matches_Set in H1 as [c [-> H1]].
      apply IH in H2 as ->. unfold in_set, Str.in_ranges in H1. simpl in H1.
      rewrite orb_false_r, andb_true_iff, !N.leb_le in H1.
      assert (c = y) by lia. now subst.
    + intros ->. exists [y], p. repeat split.
      * apply Matches_Set. exists y. split; [reflexivity|].
        unfold in_set, Str.in_ranges. simpl. now rewrite N.leb_refl.
      * now apply IH.
Qed.

Lemma Matches_seq_cons r l s :
  Matches (seq (r :: l)) s <->
  exists s1 s2, s = s1 ++ s2 /\ Matches r s1 /\ Matches (seq l) s2.
Proof.
  destruct l as [|r' l].
  - simpl. split.
    + intros H. exists s, []. rewrite app_nil_r. repeat split; auto. constructor.
    + intros [s1 [s2 [-> [H1 H2]]]]. apply Matches_Eps in H2 as ->.
      now rewrite app_nil_r.
  - change (seq (r :: r' :: l)) with (Cat r (seq (r' :: l))).
    apply Matches_Cat.
Qed.

Lemma Matches_seq_app l1 l2 s :
  Matches (seq (l1 ++ l2)) s <->
  exists s1 s2, s = s1 ++ s2 /\ Matches (seq l1) s1 /\ Matches (seq l2) s2.
Proof.
  revert s; induction l1 as [|r l1 IH]; intros s.
  - simpl. split.
    + intros H. exists [], s. repeat split; auto. constructor.
    + intros [s1 [s2 [-> [H1 H2]]]]. apply Matches_Eps in H1 as ->. exact H2.
  - change ((r :: l1) ++ l2) with (r :: (l1 ++ l2)).
    rewrite Matches_seq_cons. split.
    + intros [s1 [s2 [-> [H1 H2]]]]. apply IH in H2 as [t1 [t2 [-> [H2 H3]]]].
      exists (s1 ++ t1), t2. rewrite app_assoc. repeat split; auto.
      apply Matches_seq_cons. eauto.
    + intros [s1 [s2 [-> [H1 H2]]]].
      apply Matches_seq_cons in H1 as [t1 [t2 [-> [H1 H3]]]].
      exists t1, (t2 ++ s2). rewrite app_assoc. repeat split; auto.
      apply IH. eauto.
Qed.

(** Words of a starred class are the strings over the class. *)
Lemma Matches_Star_Set neg rs s :
  Matches (Star (Set_ neg rs)) s <-> forallb (in_set neg rs) s = true.
Proof.
  split.
  - intros H. remember (Star (Set_ neg rs)) as r eqn:Er.
    induction H; try discriminate; [reflexivity|].
    injection Er as ->. apply Matches_Set in H as [c [-> Hc]].
    simpl. rewrite Hc. now apply IHMatches2.
  - induction s as [|c s IH]; simpl; intros H; [constructor|].
    apply andb_true_iff in H as [Hc Hs].
    change (c :: s) with ([c] ++ s). constructor; [now constructor | auto].
Qed.

Lemma Matches_Plus_Set neg rs s :
  Matches (Plus (Set_ neg rs)) s <->
  s <> [] /\ forallb (in_set neg rs) s = true.
Proof.
  unfold Plus. rewrite Matches_Cat. split.
  - intros [s1 [s2 [-> [H1 H2]]]]. apply Matches_Set in H1 as [c [-> Hc]].
    apply Matches_Star_Set in H2. simpl. rewrite Hc, H2. split; [discriminate | reflexivity].
  - intros [Hne H]. destruct s as [|c s]; [contradiction|].
    simpl in H. apply andb_true_iff in H as [Hc Hs].
    exists [c], s. repeat split; [now constructor | now apply Matches_Star_Set].
Qed.

End RegExpFacts.

(** ** Safe-Parse *)

Section JSValue_induction.
Variable P : JSValue -> Prop.
Hypothesis Hundefined : P JUndefined.
Hypothesis Hnull : P JNull.
Hypothesis Hbool : forall b, P (JBool b).
Hypothesis Hnum : forall n, P (JNum n).
Hypothesis Hstr : forall s, P (JStr s).
Hypothesis Harr : forall elems, Forall P elems -> P (JArr elems).
Hypothesis Hobj :
  forall props, Forall (fun kv => P (snd kv)) props -> P (JObj props).

Fixpoint JSValue_nested_ind (v : JSValue) : P v :=
  match v with
  | JUndefined => Hundefined
  | JNull => Hnull
  | JBool b => Hbool b
  | JNum n => Hnum n
  | JStr s => Hstr s
  | JArr elems =>
      Harr elems
        ((fix all (l : list JSValue) : Forall P l :=
            match l with
            | [] => Forall_nil P
            | x :: l' => Forall_cons x (JSValue_nested_ind x) (all l')
            end) elems)
  | JObj props =>
      Hobj props
        ((fix all (l : list (jsstring * JSValue))
            : Forall (fun kv => P (snd kv)) l :=
            match l with
            | [] => Forall_nil _
            | kv :: l' =>
                Forall_cons kv (JSValue_nested_ind (snd kv)) (all l')
            end) props)
  end.
End JSValue_induction.

Lemma internalize_unfold rv name val :
  Json.internalize rv name val =
  rv name
    match val with
    | JArr elems =>
        JArr (Json.map_indexed
                (fun i e => Json.internalize rv (Str.of_nat i) e) 0 elems)
    | JObj props =>
        JObj (flat_map
                (fun kv =>
                   match Json.internalize rv (fst kv) (snd kv) with
                   | JUndefined => []
                   | v' => [(fst kv, v')]
                   end)
                props)
    | _ => val
    end.
Proof. destruct val; reflexivity. Qed.

Lemma reviver_cases key value :
  (SafeJson.dangerous key = true /\ SafeJson.reviver key value = JUndefined)
  \/ (SafeJson.dangerous key = false /\ SafeJson.reviver key value = value).
Proof.
  unfold SafeJson.reviver, SafeJson.dangerous, Str.mem. simpl.
  rewrite orb_false_r, orb_assoc.
  destruct (Str.eqb key (str "__proto__") || Str.eqb key (str "constructor")
            || Str.eqb key (str "prototype")); auto.
Qed.

Lemma In_map_indexed {A B} (f : nat -> A -> B) i l y :
  In y (Json.map_indexed f i l) -> exists j x, In x l /\ y = f j x.
Proof.
  revert i; induction l as [|x l IH]; intros i; simpl; [contradiction|].
  intros [<- | H].
  - exists i, x. auto.
  - apply IH in H as [j [x' [Hin ->]]]. exists j, x'. auto.
Qed.

Lemma KeyIn_undefined k : ~ SafeJson.KeyIn k JUndefined.
Proof. intros H. inversion H. Qed.

(** Whatever the tree and the key it is filed under, no dangerous key
    survives the revival. *)
Lemma internalize_clean v :
  forall name k,
    SafeJson.KeyIn k (Json.internalize SafeJson.reviver name v) ->
    SafeJson.dangerous k = false.
Proof.
  induction v using JSValue_nested_ind; intros name k;
    rewrite internalize_unfold;
    match goal with
    | |- SafeJson.KeyIn _ (SafeJson.reviver ?a ?b) -> _ =>
        destruct (reviver_cases a b) as [[_ ->] | [_ ->]]
    end;
    intros HK; try (now apply KeyIn_undefined in HK); try (now inversion HK).
  - (* arrays *)
    inversion HK as [| | elems' v' Hin Hsub]; subst.
    apply In_map_indexed in Hin as [j [e [Hin ->]]].
    rewrite Forall_forall in H. exact (H e Hin _ _ Hsub).
  - (* objects *)
    rewrite Forall_forall in H.
    inversion HK as [props' v' Hin | props' k' v' Hin Hsub |]; subst;
      apply in_flat_map in Hin as [kv [Hkv Hin]];
      destruct (Json.internalize SafeJson.reviver (fst kv) (snd kv)) eqn:E;
      simpl in Hin; try contradiction;
      destruct Hin as [Hin | []]; injection Hin as <- <-.
    all: try (rewrite internalize_unfold in E;
              match type of E with
              | SafeJson.reviver ?a ?b = _ =>
                  destruct (reviver_cases a b) as [[_ E'] | [Hd _]];
                  [rewrite E' in E; discriminate | exact Hd]
              end).
    all: rewrite <- E in Hsub; exact (H kv Hkv _ _ Hsub).
Qed.

Lemma delete_KeyIn x k obj :
  SafeJson.KeyIn k (SafeJson.delete x obj) -> SafeJson.KeyIn k obj.
Proof.
  destruct obj; simpl; auto.
  intros H. inversion H as [props' v Hin | props' k' v Hin Hsub |]; subst;
    apply filter_In in Hin as [Hin _].
  - now apply SafeJson.KeyHere with v.
  - now apply SafeJson.KeyInMember with k' v.
Qed.

(** *** The parser has fuel enough *)

Lemma skip_ws_length s :
  (List.length (Json.skip_ws s) <= List.length s)%nat.
Proof.
  induction s as [|c s IH]; simpl; [lia|].
  destruct (Json.is_ws c); simpl; lia.
Qed.

Lemma span_length p s a b :
  Json.span p s = (a, b) -> (List.length b <= List.length s)%nat.
Proof.
  revert a b; induction s as [|c s IH]; intros a b; simpl.
  - intros H. injection H as <- <-. simpl; lia.
  - destruct (p c).
    + destruct (Json.span p s) as [a' b'] eqn:E. intros H. injection H as <- <-.
      specialize (IH _ _ eq_refl). lia.
    + intros H. injection H as <- <-. simpl; lia.
Qed.

Lemma parse_chars_length s :
  forall decoded rest,
    Json.parse_chars s = Some (decoded, rest) ->
    (List.length rest < List.length s)%nat.
Proof.
  remember (List.length s) as n eqn:En. revert s En.
  induction n as [n IH] using lt_wf_ind. intros s -> decoded rest.
  assert (Hpush : forall c t, (List.length t < List.length s)%nat ->
            Json.push c (Json.parse_chars t) = Some (decoded, rest) ->
            (List.length rest < List.length s)%nat).
  { intros c t Ht. unfold Json.push.
    destruct (Json.parse_chars t) as [[d' r']|] eqn:E; [|discriminate].
    intros H. injection H as _ <-.
    specialize (IH _ Ht t eq_refl _ _ E). lia. }
  destruct s as [|c s']; simpl; [discriminate|].
  destruct (c =? 34).
  { intros H. injection H as _ <-. simpl; lia. }
  destruct (c =? 92).
  - destruct s' as [|e s'']; [discriminate|].
    destruct (e =? 117).
    + destruct s'' as [|h1 [|h2 [|h3 [|h4 s3]]]]; try discriminate.
      destruct (Json.hex4 h1 h2 h3 h4); [|discriminate].
      apply Hpush. simpl; lia.
    + destruct (Json.unescape e); [|discriminate].
      apply Hpush. simpl; lia.
  - destruct (c <? 32); [discriminate|]. apply Hpush. simpl; lia.
Qed.

Lemma parse_number_length s n rest :
  Json.parse_number s = Some (n, rest) ->
  (List.length rest < List.length s)%nat.
Proof.
  unfold Json.parse_number.
  destruct (Json.parse_sign s) as [negative s1] eqn:Es.
  assert (Hs : (List.length s1 <= List.length s)%nat).
  { unfold Json.parse_sign in Es.
    destruct s as [|c s']; [injection Es as _ <-; lia|].
    destruct (N.eq_dec c 45) as [->|Hc].
    - injection Es as _ <-. simpl; lia.
    - assert (s1 = c :: s') as ->; [|lia].
      destruct c as [|q]; [now injection Es|].
      repeat (destruct q as [q|q|]; try (now injection Es)); contradiction. }
  destruct (Json.parse_int s1) as [[int_digits s2]|] eqn:Ei; [|discriminate].
  assert (Hi : (List.length s2 < List.length s1)%nat).
  { unfold Json.parse_int in Ei. destruct s1 as [|c s1']; [discriminate|].
    destruct (c =? 48).
    - injection Ei as _ <-. simpl; lia.
    - destruct (Json.is_digit c) eqn:Ed; [|discriminate].
      injection Ei as Ei. simpl in Ei. rewrite Ed in Ei.
      destruct (Json.span Json.is_digit s1') as [a b] eqn:E.
      injection Ei as _ <-. apply span_length in E. simpl; lia. }
  destruct (Json.parse_frac s2) as [[frac_digits s3]|] eqn:Ef; [|discriminate].
  assert (Hf : (List.length s3 <= List.length s2)%nat).
  { unfold Json.parse_frac in Ef. destruct s2 as [|c s2']; [injection Ef as _ <-; lia|].
    destruct (N.eq_dec c 46) as [->|Hc].
    - destruct (Json.span Json.is_digit s2') as [[|d ds] b] eqn:E; [discriminate|].
      injection Ef as _ <-. apply span_length in E. simpl; lia.
    - assert (Some ([] : jsstring, c :: s2') = Some (frac_digits, s3)) as H.
      { destruct c as [|q]; [exact Ef|].
        repeat (destruct q as [q|q|]; try exact Ef); contradiction. }
      injection H as _ <-. lia. }
  destruct (Json.parse_exp s3) as [[e rest']|] eqn:Ee; [|discriminate].
  assert (He : (List.length rest' <= List.length s3)%nat).
  { unfold Json.parse_exp in Ee. destruct s3 as [|c s3']; [injection Ee as _ <-; lia|].
    destruct ((c =? 101) || (c =? 69)); [|injection Ee as _ <-; lia].
    destruct (Json.parse_exp_sign s3') as [neg s4] eqn:Ex.
    assert ((List.length s4 <= List.length s3')%nat).
    { unfold Json.parse_exp_sign in Ex.
      destruct s3' as [|x t]; [injection Ex as _ <-; lia|].
      destruct (N.eq_dec x 45) as [->|H45]; [injection Ex as _ <-; simpl; lia|].
      destruct (N.eq_dec x 43) as [->|H43]; [injection Ex as _ <-; simpl; lia|].
      assert (s4 = x :: t) as ->; [|lia].
      destruct x as [|q]; [now injection Ex|].
      repeat (destruct q as [q|q|]; try (now injection Ex)); contradiction. }
    destruct (Json.span Json.is_digit s4) as [[|d ds] b] eqn:E; [discriminate|].
    injection Ee as _ <-. apply span_length in E. simpl; lia. }
  intros H. injection H as _ <-. lia.
Qed.

(** A result that is not out of fuel and, when it is a parse, has
    consumed input. *)
Definition finishes {A} (r : Parsed A) (s : jsstring) : Prop :=
  match r with
  | Parse _ rest => (List.length rest < List.length s)%nat
  | SyntaxError => True
  | OutOfFuel => False
  end.

Lemma skipn_length_lt {A} n (l : list A) :
  (0 < n)%nat -> l <> [] -> (List.length (skipn n l) < List.length l)%nat.
Proof.
  intros Hn Hl. rewrite length_skipn. destruct l; [contradiction|].
  cbn [List.length]. lia.
Qed.

Lemma parse_fuel_enough fuel :
  (forall s, (2 * List.length s < fuel)%nat ->
             finishes (Json.parse_value fuel s) s)
  /\ (forall s acc, (2 * List.length s + 1 < fuel)%nat ->
                    finishes (Json.parse_elements fuel s acc) s)
  /\ (forall s acc, (2 * List.length s + 1 < fuel)%nat ->
                    finishes (Json.parse_members fuel s acc) s).
Proof.
  induction fuel as [|fuel [IHv [IHe IHm]]]; [repeat split; intros; lia|].
  split; [|split].
  - intros s Hs. cbn [Json.parse_value].
    pose proof (skip_ws_length s) as Hws.
    destruct (Json.skip_ws s) as [|c s'] eqn:E; [exact I|]. simpl in Hws.
    destruct (c =? 123).
    { pose proof (skip_ws_length s') as Hws'.
      assert (Hm : finishes (Json.parse_members fuel s' []) s).
      { specialize (IHm s' []). 
        destruct (Json.parse_members fuel s' []); simpl in *; try exact I;
          [specialize (IHm ltac:(lia)); lia | apply IHm; lia]. }
      destruct (Json.skip_ws s') as [|x t]; [exact Hm|].
      destruct (N.eq_dec x 125) as [->|Hx]; [simpl in *; lia|].
      destruct x as [|q]; [exact Hm|].
      repeat (destruct q as [q|q|]; try exact Hm); contradiction. }
    destruct (c =? 91).
    { pose proof (skip_ws_length s') as Hws'.
      assert (He : finishes (Json.parse_elements fuel s' []) s).
      { specialize (IHe s' []).
        destruct (Json.parse_elements fuel s' []); simpl in *; try exact I;
          [specialize (IHe ltac:(lia)); lia | apply IHe; lia]. }
      destruct (Json.skip_ws s') as [|x t]; [exact He|].
      destruct (N.eq_dec x 93) as [->|Hx]; [simpl in *; lia|].
      destruct x as [|q]; [exact He|].
      repeat (destruct q as [q|q|]; try exact He); contradiction. }
    destruct (c =? 34).
    { destruct (Json.parse_chars s') as [[d r]|] eqn:Ec; [|exact I].
      apply parse_chars_length in Ec. simpl; lia. }
    assert (Hskip : forall n, (0 < n)%nat ->
              (List.length (skipn n (c :: s')) < List.length s)%nat).
    { intros n Hn. pose proof (skipn_length_lt n (c :: s') Hn ltac:(discriminate)).
      simpl in *; lia. }
    destruct (Str.startsWith (c :: s') (str "true")); [apply Hskip; lia|].
    destruct (Str.startsWith (c :: s') (str "false")); [apply Hskip; lia|].
    destruct (Str.startsWith (c :: s') (str "null")); [apply Hskip; lia|].
    destruct (Json.parse_number (c :: s')) as [[n r]|] eqn:En; [|exact I].
    apply parse_number_length in En. simpl in *; lia.
  - intros s acc Hs. cbn [Json.parse_elements].
    specialize (IHv s ltac:(lia)).
    destruct (Json.parse_value fuel s) as [v rest| |]; simpl in IHv;
      [|exact I|contradiction].
    pose proof (skip_ws_length rest) as Hws.
    destruct (Json.skip_ws rest) as [|x t]; [exact I|]. simpl in Hws.
    destruct (N.eq_dec x 44) as [->|H44].
    { specialize (IHe t (v :: acc) ltac:(lia)).
      destruct (Json.parse_elements fuel t (v :: acc)); simpl in *;
        [lia | exact I | contradiction]. }
    destruct (N.eq_dec x 93) as [->|H93]; [simpl; lia|].
    destruct x as [|q]; [exact I|].
    repeat (destruct q as [q|q|]; try exact I); contradiction.
  - intros s acc Hs. cbn [Json.parse_members].
    pose proof (skip_ws_length s) as Hws.
    destruct (Json.skip_ws s) as [|x s1]; [exact I|]. simpl in Hws.
    destruct (N.eq_dec x 34) as [->|H34];
      [|destruct x as [|q]; [exact I|];
        repeat (destruct q as [q|q|]; try exact I); contradiction].
    destruct (Json.parse_chars s1) as [[key s2]|] eqn:Ec; [|exact I].
    apply parse_chars_length in Ec.
    pose proof (skip_ws_length s2) as Hws2.
    destruct (Json.skip_ws s2) as [|y s3]; [exact I|]. simpl in Hws2.
    destruct (N.eq_dec y 58) as [->|H58];
      [|destruct y as [|q]; [exact I|];
        repeat (destruct q as [q|q|]; try exact I); contradiction].
    specialize (IHv s3 ltac:(lia)).
    destruct (Json.parse_value fuel s3) as [v rest| |]; simpl in IHv;
      [|exact I|contradiction].
    pose proof (skip_ws_length rest) as Hws3.
    destruct (Json.skip_ws rest) as [|z t]; [exact I|]. simpl in Hws3.
    destruct (N.eq_dec z 44) as [->|H44].
    { specialize (IHm t (Json.set_prop key v acc) ltac:(lia)).
      destruct (Json.parse_members fuel t (Json.set_prop key v acc)); simpl in *;
        [lia | exact I | contradiction]. }
    destruct (N.eq_dec z 125) as [->|H125]; [simpl; lia|].
    destruct z as [|q]; [exact I|].
    repeat (destruct q as [q|q|]; try exact I); contradiction.
Qed.

(** [JSON.parse] always comes to an answer: a tree or a [SyntaxError]. *)
Theorem parse_text_finishes text : Json.parse_text text <> OutOfFuel.
Proof.
  unfold Json.parse_text.
  pose proof (proj1 (parse_fuel_enough (2 * List.length text + 2)%nat) text
                ltac:(lia)) as H.
  destruct (Json.parse_value _ text) as [v rest| |]; simpl in H;
    [|discriminate|contradiction].
  destruct (Json.skip_ws rest); discriminate.
Qed.

Theorem safeParse_finishes text realm :
  fst (SafeJson.safeParse text realm) <> OutOfFuel.
Proof.
  unfold SafeJson.safeParse, Json.parse.
  pose proof (parse_text_finishes text) as H.
  destruct (Json.parse_text text); simpl; try discriminate. contradiction.
Qed.

(** C1.  Whatever text [safeParse] accepts, the tree it returns has no
    key [__proto__], [constructor] or [prototype] at any nesting level;
    the payload [{"__proto__":{"polluted":true}}] parses to the empty
    object; and after any parse a freshly constructed empty object shows
    no property that [Object.prototype] did not already have (so
    [{}.polluted] stays [undefined]). *)
Theorem C1_safeParse_drops_dangerous_keys :
  (forall text realm tree rest,
      fst (SafeJson.safeParse text realm) = Parse tree rest ->
      forall k, SafeJson.KeyIn k tree ->
                k <> str "__proto__" /\ k <> str "constructor"
                /\ k <> str "prototype")
  /\ (forall realm,
        SafeJson.safeParse Examples.pollution_payload realm
        = (Parse (JObj []) [], realm))
  /\ (forall text realm key,
        Value.lookup key (ObjectPrototype realm) = None ->
        SafeJson.Get (snd (SafeJson.safeParse text realm))
                     SafeJson.fresh_object key = JUndefined).
Proof.
  split; [|split].
  - intros text realm tree rest Hparse k HK.
    assert (Hd : SafeJson.dangerous k = false).
    { unfold SafeJson.safeParse, Json.parse in Hparse.
      destruct (Json.parse_text text) as [v rest'| |]; simpl in Hparse;
        try discriminate.
      injection Hparse as <- <-.
      destruct (Value.typeof_object _ && negb _).
      - do 3 apply delete_KeyIn in HK. now apply internalize_clean in HK.
      - now apply internalize_clean in HK. }
    unfold SafeJson.dangerous, Str.mem in Hd. simpl in Hd.
    rewrite orb_false_r in Hd.
    apply orb_false_iff in Hd as [H1 Hd]. apply orb_false_iff in Hd as [H2 H3].
    now rewrite !Str_eqb_neq in *.
  - intros realm. reflexivity.
  - intros text realm key Hkey.
    assert (Hrealm : snd (SafeJson.safeParse text realm) = realm).
    { unfold SafeJson.safeParse. now destruct (Json.parse SafeJson.reviver text). }
    rewrite Hrealm. unfold SafeJson.Get, SafeJson.fresh_object. simpl.
    now rewrite Hkey.
Qed.

(** C1 at the nested payload: the surviving key [kept] is none of the
    three, and [{}.polluted] is [undefined] after the parse. *)
Lemma C1_witness :
  (str "kept" <> str "__proto__" /\ str "kept" <> str "constructor"
   /\ str "kept" <> str "prototype")
  /\ SafeJson.Get (snd (SafeJson.safeParse Examples.pollution_payload
                                           (mkRealm [])))
                  SafeJson.fresh_object (str "polluted") = JUndefined.
Proof.
  split.
  - apply (proj1 C1_safeParse_drops_dangerous_keys
             Examples.nested_payload (mkRealm [])
             (JObj [(str "data",
                     JObj [(str "kept", JNum (mkNumber 1 0))])]) []).
    + reflexivity.
    + apply SafeJson.KeyInMember
        with (k' := str "data") (v := JObj [(str "kept", JNum (mkNumber 1 0))]).
      * now left.
      * apply SafeJson.KeyHere with (v := JNum (mkNumber 1 0)). now left.
  - apply (proj2 (proj2 C1_safeParse_drops_dangerous_keys)). reflexivity.
Defined.

(** ** Path-Safety: the algebra of [path.normalize] and [path.resolve] *)

Module PathFacts.
Import Path.

Definition slash_free (s : jsstring) : bool :=
  forallb (fun c => negb (c =? slash)) s.

(** A segment that [step] pushes. *)
Definition pushed (s : jsstring) : Prop :=
  skipped s = false /\ Str.eqb s dotdot = false.

Lemma segments_nonempty p : segments p <> [].
Proof.
  destruct p as [|c p]; simpl; [discriminate|].
  destruct (c =? slash); [discriminate|]. destruct (segments p); discriminate.
Qed.

Lemma segments_slash_free p :
  Forall (fun s => slash_free s = true) (segments p).
Proof.
  induction p as [|c p IH]; simpl; [repeat constructor|].
  destruct (c =? slash) eqn:E; [constructor; auto|].
  destruct (segments p) as [|seg rest].
  - repeat constructor. simpl. now rewrite E.
  - inversion IH; subst. constructor; auto. simpl. now rewrite E.
Qed.

Lemma segments_of_slash_free s : slash_free s = true -> segments s = [s].
Proof.
  induction s as [|c s IH]; simpl; [reflexivity|].
  intros H. apply andb_true_iff in H as [Hc Hs].
  apply negb_true_iff in Hc. rewrite Hc, (IH Hs). reflexivity.
Qed.

Lemma segments_cons c p :
  segments (c :: p) =
  if c =? slash then [] :: segments p
  else match segments p with
       | seg :: rest => (c :: seg) :: rest
       | [] => [[c]]
       end.
Proof. reflexivity. Qed.

Lemma segments_app a b : segments (a ++ sep ++ b) = segments a ++ segments b.
Proof.
  induction a as [|c a IH]; [reflexivity|].
  change ((c :: a) ++ sep ++ b) with (c :: (a ++ sep ++ b)).
  rewrite !segments_cons, IH.
  destruct (c =? slash); [reflexivity|].
  pose proof (segments_nonempty a) as Hne.
  destruct (segments a); [contradiction | reflexivity].
Qed.

Lemma segments_join l :
  l <> [] -> Forall (fun s => slash_free s = true) l ->
  segments (Str.join sep l) = l.
Proof.
  induction l as [|x l IH]; [contradiction|]. intros _ H.
  inversion H as [|? ? Hx Hl]; subst.
  destruct l as [|y l].
  - simpl. now apply segments_of_slash_free.
  - change (Str.join sep (x :: y :: l)) with (x ++ sep ++ Str.join sep (y :: l)).
    rewrite segments_app, (segments_of_slash_free x Hx), IH; auto. discriminate.
Qed.

Lemma fold_step_skipped a l S :
  Forall (fun s => skipped s = true) l -> fold_left (step a) l S = S.
Proof.
  induction 1 as [|x l Hx _ IH]; [reflexivity|].
  simpl. unfold step at 2. now rewrite Hx.
Qed.

Lemma step_pushed a S seg : pushed seg -> step a S seg = seg :: S.
Proof. intros [H1 H2]. unfold step. now rewrite H1, H2. Qed.

Lemma dotdot_not_skipped : skipped dotdot = false.
Proof. reflexivity. Qed.

(** What [step] leaves on the stack was never a skipped segment. *)
Lemma step_kept a st seg :
  Forall (fun e => skipped e = false) st ->
  Forall (fun e => skipped e = false) (step a st seg).
Proof.
  intros H. unfold step.
  destruct (skipped seg) eqn:Es; [exact H|].
  destruct (Str.eqb seg dotdot) eqn:Ed; [|now constructor].
  destruct st as [|top rest].
  - destruct a; repeat constructor.
  - inversion H; subst.
    destruct (Str.eqb top dotdot); [|assumption].
    destruct a; [constructor; auto|]; assumption.
Qed.

Lemma fold_kept a segs st :
  Forall (fun e => skipped e = false) st ->
  Forall (fun e => skipped e = false) (fold_left (step a) segs st).
Proof.
  revert st; induction segs as [|x segs IH]; intros st H; simpl; [exact H|].
  apply IH. now apply step_kept.
Qed.

Lemma step_slash_free a st seg :
  Forall (fun e => slash_free e = true) st -> slash_free seg = true ->
  Forall (fun e => slash_free e = true) (step a st seg).
Proof.
  intros H Hseg. unfold step.
  destruct (skipped seg); [exact H|].
  destruct (Str.eqb seg dotdot); [|now constructor].
  destruct st as [|top rest].
  - destruct a; repeat constructor.
  - inversion H; subst.
    destruct (Str.eqb top dotdot); [|assumption].
    destruct a; [constructor; auto|]; assumption.
Qed.

Lemma fold_slash_free a segs st :
  Forall (fun e => slash_free e = true) st ->
  Forall (fun e => slash_free e = true) segs ->
  Forall (fun e => slash_free e = true) (fold_left (step a) segs st).
Proof.
  revert st; induction segs as [|x segs IH]; intros st H Hs; simpl; [exact H|].
  inversion Hs; subst. apply IH; auto. now apply step_slash_free.
Qed.

Lemma step_skipped a S seg : skipped seg = true -> step a S seg = S.
Proof. intros H. unfold step. now rewrite H. Qed.

Lemma step_dotdot a S :
  step a S dotdot =
  match S with
  | top :: rest =>
      if Str.eqb top dotdot
      then (if a then dotdot :: S else S)
      else rest
  | [] => if a then [dotdot] else []
  end.
Proof. reflexivity. Qed.

(** Normalizing with [..] kept, then resolving against any base, is
    resolving against that base at once. *)
Lemma renormalize_relative segs :
  forall a S,
    fold_left (step a) (rev (fold_left (step true) segs [])) S
    = fold_left (step a) segs S.
Proof.
  induction segs as [|x segs IH] using rev_ind; intros a S; [reflexivity|].
  rewrite !fold_left_app. cbn [fold_left].
  rewrite <- (IH a S).
  assert (HT : Forall (fun e => skipped e = false)
                      (fold_left (step true) segs []))
    by (apply fold_kept; constructor).
  destruct (fold_left (step true) segs []) as [|top rest].
  - destruct (skipped x) eqn:Es.
    + now rewrite !(step_skipped _ _ x Es).
    + destruct (Str.eqb x dotdot) eqn:Ed.
      * apply Str_eqb_eq in Ed. subst x. reflexivity.
      * rewrite (step_pushed true [] x) by (split; assumption). reflexivity.
  - inversion HT as [|? ? Htop Hrest]; subst.
    destruct (skipped x) eqn:Es.
    + now rewrite !(step_skipped _ _ x Es).
    + destruct (Str.eqb x dotdot) eqn:Ed.
      * apply Str_eqb_eq in Ed. subst x. rewrite (step_dotdot true).
        destruct (Str.eqb top dotdot) eqn:Etop.
        -- cbn [rev]. rewrite !fold_left_app. reflexivity.
        -- cbn [rev]. rewrite fold_left_app. cbn [fold_left].
           rewrite (step_pushed a _ top) by (split; assumption).
           rewrite step_dotdot. now rewrite Etop.
      * rewrite (step_pushed true _ x) by (split; assumption).
        cbn [rev]. rewrite !fold_left_app. reflexivity.
Qed.

Lemma fold_pushed a T :
  forall S, Forall pushed T -> fold_left (step a) (rev T) S = T ++ S.
Proof.
  induction T as [|t T IH]; intros S H; [reflexivity|].
  inversion H; subst. simpl rev. rewrite fold_left_app. simpl.
  rewrite IH by assumption. now apply step_pushed.
Qed.

Lemma step_false_pushed st seg :
  Forall pushed st -> Forall pushed (step false st seg).
Proof.
  intros H. unfold step.
  destruct (skipped seg) eqn:Es; [exact H|].
  destruct (Str.eqb seg dotdot) eqn:Ed; [|constructor; [split|]; assumption].
  destruct st as [|top rest]; [constructor|].
  inversion H; subst. now destruct (Str.eqb top dotdot).
Qed.

Lemma fold_false_pushed segs st :
  Forall pushed st -> Forall pushed (fold_left (step false) segs st).
Proof.
  revert st; induction segs as [|x segs IH]; intros st H; simpl; [exact H|].
  apply IH. now apply step_false_pushed.
Qed.

Lemma renormalize_absolute segs :
  fold_left (step false) (rev (fold_left (step false) segs [])) []
  = fold_left (step false) segs [].
Proof.
  rewrite fold_pushed, app_nil_r; [reflexivity|].
  apply fold_false_pushed. constructor.
Qed.

Lemma normalizeStack_app a p q :
  normalizeStack a (p ++ sep ++ q)
  = fold_left (step a) (segments q) (normalizeStack a p).
Proof. unfold normalizeStack. now rewrite segments_app, fold_left_app. Qed.

Lemma normalizeStack_trailing a p :
  normalizeStack a (p ++ sep ++ []) = normalizeStack a p.
Proof. now rewrite normalizeStack_app. Qed.

(** The stack [resolve] ends with, for one argument. *)
Definition resolved_stack (cwd x : jsstring) : list jsstring :=
  if isAbsolute x then fold_left (step false) (segments x) []
  else fold_left (step (negb (isAbsolute cwd))) (segments x)
                 (normalizeStack (negb (isAbsolute cwd)) cwd).

Lemma resolve_single cwd x :
  resolve cwd [x] =
  let n := Str.join sep (rev (resolved_stack cwd x)) in
  if isAbsolute x || isAbsolute cwd then sep ++ n
  else match n with [] => dot | _ => n end.
Proof.
  unfold resolve, resolved_stack, normalizeString. cbn [rev app].
  destruct x as [|c x'].
  - cbn [resolve_loop isAbsolute orb].
    destruct cwd as [|d cwd']; [reflexivity|].
    rewrite normalizeStack_trailing.
    now destruct (isAbsolute (d :: cwd')).
  - cbn [resolve_loop].
    destruct (isAbsolute (c :: x')) eqn:Ea.
    + rewrite normalizeStack_trailing. reflexivity.
    + cbn [resolve_loop orb].
      destruct cwd as [|d cwd'].
      * rewrite normalizeStack_trailing. reflexivity.
      * rewrite normalizeStack_app, segments_app, fold_left_app.
        change (segments []) with [@nil N].
        cbn [fold_left]. rewrite (step_skipped _ _ [] eq_refl).
        now destruct (isAbsolute (d :: cwd')).
Qed.

Lemma join_nil l :
  Forall (fun e => skipped e = false) l -> Str.join sep l = [] -> l = [].
Proof.
  intros H. destruct l as [|x l]; [reflexivity|].
  inversion H as [|? ? Hx _]; subst.
  destruct x as [|c x]; [discriminate|].
  destruct l; discriminate.
Qed.

Lemma join_head l c rest :
  Forall (fun e => skipped e = false) l ->
  Forall (fun e => slash_free e = true) l ->
  Str.join sep l = c :: rest -> c <> slash.
Proof.
  intros Hk Hs. destruct l as [|x l]; [discriminate|].
  inversion Hk as [|? ? Hx _]; inversion Hs as [|? ? Hx' _]; subst.
  destruct x as [|d x]; [discriminate|].
  simpl in Hx'. apply andb_true_iff in Hx' as [Hd _].
  apply negb_true_iff, N.eqb_neq in Hd.
  destruct l; intros E; injection E as <- _; exact Hd.
Qed.

Lemma stack_kept a p :
  Forall (fun e => skipped e = false) (rev (normalizeStack a p)).
Proof. apply Forall_rev, fold_kept. constructor. Qed.

Lemma stack_slash_free a p :
  Forall (fun e => slash_free e = true) (rev (normalizeStack a p)).
Proof.
  apply Forall_rev, fold_slash_free; [constructor | apply segments_slash_free].
Qed.

(** Reading a normalized path back gives the stack it was printed from. *)
Lemma normalize_fold p :
  forall a S,
    fold_left (step a) (segments (normalize p)) S
    = fold_left (step a) (rev (normalizeStack (negb (isAbsolute p)) p)) S.
Proof.
  intros a S. destruct p as [|c p']; [reflexivity|].
  unfold normalize, normalizeString.
  set (p := c :: p').
  set (st := normalizeStack (negb (isAbsolute p)) p).
  pose proof (stack_kept (negb (isAbsolute p)) p) as Hk.
  pose proof (stack_slash_free (negb (isAbsolute p)) p) as Hs.
  fold st in Hk, Hs.
  destruct (Str.join sep (rev st)) as [|x q] eqn:Eq.
  - apply join_nil in Eq; [|exact Hk]. rewrite Eq.
    destruct (isAbsolute p); [reflexivity|].
    now destruct (trailingSeparator p).
  - assert (Hseg : segments (x :: q) = rev st).
    { rewrite <- Eq. apply segments_join; [|exact Hs].
      intros E. rewrite E in Eq. discriminate. }
    assert (Htrail : forall t,
              fold_left (step a)
                (segments (if trailingSeparator p then (x :: q) ++ sep
                           else x :: q)) t
              = fold_left (step a) (rev st) t).
    { intros t. destruct (trailingSeparator p); [|now rewrite Hseg].
      change ((x :: q) ++ sep) with ((x :: q) ++ sep ++ []).
      rewrite segments_app, fold_left_app, Hseg.
      change (segments []) with [@nil N]. cbn [fold_left].
      now rewrite (step_skipped _ _ [] eq_refl). }
    destruct (isAbsolute p); [|apply Htrail].
    change (sep ++ ?t) with ([] ++ sep ++ t).
    rewrite segments_app, fold_left_app.
    change (segments []) with [@nil N]. cbn [fold_left].
    rewrite (step_skipped _ _ [] eq_refl). apply Htrail.
Qed.

Lemma isAbsolute_normalize p : isAbsolute (normalize p) = isAbsolute p.
Proof.
  destruct p as [|c p']; [reflexivity|].
  unfold normalize, normalizeString.
  set (p := c :: p').
  pose proof (stack_kept (negb (isAbsolute p)) p) as Hk.
  pose proof (stack_slash_free (negb (isAbsolute p)) p) as Hs.
  destruct (Str.join sep (rev (normalizeStack (negb (isAbsolute p)) p)))
    as [|x q] eqn:Eq.
  - destruct (isAbsolute p); [reflexivity|].
    now destruct (trailingSeparator p).
  - destruct (isAbsolute p); [reflexivity|].
    apply join_head in Eq; auto. apply N.eqb_neq in Eq.
    destruct (trailingSeparator p); simpl; exact Eq.
Qed.

(** Resolving a normalized path is resolving the path. *)
Theorem resolve_normalize cwd p :
  resolve cwd [normalize p] = resolve cwd [p].
Proof.
  rewrite !resolve_single. cbv zeta.
  rewrite isAbsolute_normalize.
  assert (E : resolved_stack cwd (normalize p) = resolved_stack cwd p).
  { unfold resolved_stack. rewrite isAbsolute_normalize.
    destruct (isAbsolute p) eqn:Ea; rewrite normalize_fold, Ea; simpl negb.
    - apply renormalize_absolute.
    - apply renormalize_relative. }
  now rewrite E.
Qed.

End PathFacts.

(** ** Path-Safety: [safePathJoin] *)

Lemma validateSafeFilename_shape part :
  let r := FileUtils.validateSafeFilename part in
  path r = None /\ (valid r = true -> r = ok).
Proof.
  unfold FileUtils.validateSafeFilename.
  destruct part; simpl; try (split; [reflexivity | discriminate]).
  repeat match goal with
         | |- context [if ?b then _ else _] => destruct b
         end; simpl; split; try reflexivity; discriminate.
Qed.

Lemma first_invalid_is_invalid parts validation :
  FileUtils.first_invalid parts = Some validation ->
  valid validation = false /\ path validation = None.
Proof.
  induction parts as [|part parts IH]; simpl; [discriminate|].
  destruct (valid (FileUtils.validateSafeFilename part)) eqn:E; simpl; auto.
  intros H. injection H as <-. split; [exact E|].
  apply validateSafeFilename_shape.
Qed.

Lemma strings_of_strings parts :
  FileUtils.strings_of (map JStr parts) = parts.
Proof.
  unfold FileUtils.strings_of. rewrite map_map. simpl. apply map_id.
Qed.

(** C6.  [safePathJoin] fails whenever the resolved joined path neither
    equals the resolved base nor starts with the resolved base followed by
    the separator; [safePathJoin('/base', '../x')] fails, and
    [safePathJoin('/base', 'sub', 'f.txt')] succeeds with a path that
    contains both [sub] and [f.txt]. *)
Theorem C6_safePathJoin_confines :
  (forall cwd baseDir parts,
      let resolvedPath := Path.resolve cwd [Path.join (baseDir :: parts)] in
      let resolvedBase := Path.resolve cwd [baseDir] in
      resolvedPath <> resolvedBase ->
      Str.startsWith resolvedPath (resolvedBase ++ Path.sep) = false ->
      let result := FileUtils.safePathJoin cwd baseDir (map JStr parts) in
      valid result = false /\ path result = None)
  /\ (forall cwd,
        valid (FileUtils.safePathJoin cwd (str "/base") [JStr (str "../x")])
        = false)
  /\ (forall cwd,
        FileUtils.safePathJoin cwd (str "/base")
                               [JStr (str "sub"); JStr (str "f.txt")]
        = mkResult true None None None None (Some (str "/base/sub/f.txt"))
        /\ Str.includes (str "/base/sub/f.txt") (str "sub") = true
        /\ Str.includes (str "/base/sub/f.txt") (str "f.txt") = true).
Proof.
  split; [|split].
  - intros cwd baseDir parts resolvedPath resolvedBase Hne Hprefix result.
    subst result. unfold FileUtils.safePathJoin.
    destruct (FileUtils.first_invalid (map JStr parts)) as [validation|] eqn:E.
    + now apply first_invalid_is_invalid in E.
    + rewrite strings_of_strings.
      fold resolvedPath resolvedBase. rewrite Hprefix.
      apply Str_eqb_neq in Hne. rewrite Hne. split; reflexivity.
  - intros cwd. reflexivity.
  - intros cwd. repeat split; reflexivity.
Qed.

(** C6 at the root directory: [/x] does not start with [//]. *)
Lemma C6_witness :
  valid (FileUtils.safePathJoin (str "/") (str "/") (map JStr [str "x"]))
  = false
  /\ path (FileUtils.safePathJoin (str "/") (str "/") (map JStr [str "x"]))
     = None.
Proof.
  apply (proj1 C6_safePathJoin_confines (str "/") (str "/") [str "x"]).
  - vm_compute. discriminate.
  - reflexivity.
Defined.

(** C10.  The empty string is a valid filename, and joining the empty
    part to a base directory succeeds and returns the base directory
    itself: the path handed back is the normal form of [baseDir] and
    resolves to the same absolute path ([/base] for [/base]). *)
Theorem C10_empty_part_gives_base :
  FileUtils.validateSafeFilename (JStr []) = ok
  /\ (forall cwd baseDir,
        FileUtils.safePathJoin cwd baseDir [JStr []]
        = mkResult true None None None None (Some (Path.normalize baseDir))
        /\ Path.resolve cwd [Path.normalize baseDir]
           = Path.resolve cwd [baseDir])
  /\ (forall cwd,
        FileUtils.safePathJoin cwd (str "/base") [JStr []]
        = mkResult true None None None None (Some (str "/base"))).
Proof.
  split; [reflexivity|]. split.
  - intros cwd baseDir.
    pose proof (PathFacts.resolve_normalize cwd baseDir) as Hres.
    split; [|exact Hres].
    unfold FileUtils.safePathJoin.
    change (FileUtils.first_invalid [JStr []]) with (@None Result).
    assert (Hjoin : Path.join (baseDir :: FileUtils.strings_of [JStr []])
                    = Path.normalize baseDir).
    { unfold Path.join. simpl. now destruct baseDir. }
    rewrite Hjoin, Hres, Str_eqb_refl, andb_false_r. reflexivity.
  - intros cwd. reflexivity.
Qed.

(** ** URL-Validator: blocked hosts *)

Module HostFacts.
Import RegExp RegExpFacts Constants.

(** Every range lies outside the letters that [toLowerCase] moves. *)
Definition fixed_ranges (rs : list (N * N)) : bool :=
  forallb (fun r => (snd r <? 65) || ((91 <=? fst r) && (snd r <? 192))) rs.

Fixpoint lower_stable (r : regex) : bool :=
  match r with
  | Fail | Eps => true
  | Set_ neg rs => negb neg && fixed_ranges rs
  | Cat r1 r2 | Alt r1 r2 => lower_stable r1 && lower_stable r2
  | Star r1 => lower_stable r1
  end.

Lemma fixed_ranges_lower rs c :
  fixed_ranges rs = true -> Str.in_ranges c rs = true ->
  Str.lower_unit c = c.
Proof.
  unfold fixed_ranges, Str.in_ranges.
  rewrite forallb_forall, existsb_exists.
  intros Hall [[lo hi] [Hin Hc]]. specialize (Hall _ Hin). simpl in *.
  unfold Str.lower_unit.
  destruct (((65 <=? c) && (c <=? 90))
            || ((192 <=? c) && (c <=? 222) && negb (c =? 215))) eqn:E;
    [|reflexivity].
  exfalso.
  apply andb_true_iff in Hc as [H1 H2].
  apply N.leb_le in H1, H2.
  apply orb_true_iff in Hall.
  apply orb_true_iff in E.
  destruct E as [E | E].
  - apply andb_true_iff in E as [E1 E2]. apply N.leb_le in E1, E2.
    destruct Hall as [Hall | Hall].
    + apply N.ltb_lt in Hall. lia.
    + apply andb_true_iff in Hall as [Ha Hb].
      apply N.leb_le in Ha. apply N.ltb_lt in Hb. lia.
  - apply andb_true_iff in E as [E _]. apply andb_true_iff in E as [E1 E2].
    apply N.leb_le in E1, E2.
    destruct Hall as [Hall | Hall].
    + apply N.ltb_lt in Hall. lia.
    + apply andb_true_iff in Hall as [Ha Hb].
      apply N.leb_le in Ha. apply N.ltb_lt in Hb. lia.
Qed.

Lemma Matches_lower r s :
  lower_stable r = true -> Matches r s -> Matches r (Str.toLowerCase s).
Proof.
  intros Hst HM. induction HM; simpl in Hst;
    try (apply andb_true_iff in Hst as [Hst1 Hst2]).
  - constructor.
  - apply negb_true_iff in Hst1. subst neg. unfold in_set in H. simpl in H.
    simpl. rewrite (fixed_ranges_lower rs c Hst2 H). now constructor.
  - unfold Str.toLowerCase. rewrite map_app. constructor; auto.
  - apply MAltL; auto.
  - apply MAltR; auto.
  - constructor.
  - unfold Str.toLowerCase. rewrite map_app. constructor; auto.
Qed.

Lemma test_lower p s :
  lower_stable (body p) = true ->
  test p s = true -> test p (Str.toLowerCase s) = true.
Proof.
  intros Hst. unfold test.
  assert (Hacc : forall t, accepts (body p) t = true ->
                           accepts (body p) (Str.toLowerCase t) = true).
  { intros t H. apply accepts_iff. apply accepts_iff in H.
    now apply Matches_lower. }
  assert (Hpre : forall t, accepts_prefix (body p) t = true ->
                           accepts_prefix (body p) (Str.toLowerCase t) = true).
  { intros t H. apply accepts_prefix_iff in H as [s1 [s2 [-> H]]].
    apply accepts_prefix_iff.
    exists (Str.toLowerCase s1), (Str.toLowerCase s2).
    split; [apply map_app | now apply Matches_lower]. }
  assert (Hany : forall f,
            (forall t, f t = true -> f (Str.toLowerCase t) = true) ->
            forall t, anywhere f t = true ->
                      anywhere f (Str.toLowerCase t) = true).
  { intros f Hf t H. apply anywhere_iff in H as [pre [post [-> H]]].
    apply anywhere_iff.
    exists (Str.toLowerCase pre), (Str.toLowerCase post).
    split; [apply map_app | now apply Hf]. }
  destruct (anchored_start p), (anchored_end p); auto.
Qed.

Lemma patterns_lower_stable :
  forallb (fun p => lower_stable (body p)) BLOCKED_IP_PATTERNS = true.
Proof. reflexivity. Qed.

(** A host that one of the range patterns matches is blocked. *)
Lemma pattern_blocks h pattern :
  In pattern BLOCKED_IP_PATTERNS -> test pattern h = true ->
  UrlValidator.isBlockedHost h = true.
Proof.
  intros Hin Ht. unfold UrlValidator.isBlockedHost.
  destruct (Str.mem (Str.toLowerCase h) BLOCKED_HOSTS); [reflexivity|].
  apply existsb_exists. exists pattern. split; [exact Hin|].
  apply test_lower; [|exact Ht].
  pose proof patterns_lower_stable as H.
  rewrite forallb_forall in H. now apply H.
Qed.

(** A host that starts with a word of a pattern anchored at the start
    is matched by it. *)
Lemma prefix_tested r h word :
  accepts r word = true -> Str.startsWith h word = true ->
  test (mkRegExp true r false) h = true.
Proof.
  intros Hw Hs. apply startsWith_iff in Hs as [rest ->].
  unfold test. simpl. apply accepts_prefix_iff.
  exists word, rest. split; [reflexivity | now apply accepts_iff].
Qed.

End HostFacts.

(** The blocked ranges, spelled as prefixes: [10.*], [172.16-31.*],
    [192.168.*], [127.*], [0.*], [169.254.*], [fe80:*], [fc00:*],
    [fd00:*], and the host [::1]. *)
Definition in_blocked_range (h : jsstring) : Prop :=
  Str.startsWith h (str "10.") = true
  \/ (exists n, 16 <= n <= 31
                /\ Str.startsWith h (str "172." ++ Str.of_N n ++ str ".") = true)
  \/ Str.startsWith h (str "192.168.") = true
  \/ Str.startsWith h (str "127.") = true
  \/ Str.startsWith h (str "0.") = true
  \/ Str.startsWith h (str "169.254.") = true
  \/ Str.startsWith h (str "fe80:") = true
  \/ Str.startsWith h (str "fc00:") = true
  \/ Str.startsWith h (str "fd00:") = true
  \/ h = str "::1".

(** C5.  [isBlockedHost] is true of [localhost], [127.0.0.1],
    [169.254.169.254] and [metadata.google.internal] in any letter case,
    of every host in one of the ranges [10.*], [172.16-31.*], [192.168.*],
    [127.*], [0.*], [169.254.*], [fe80:*], [fc00:*], [fd00:*] and of
    [::1]; it is false of [example.com] and [github.com]. *)
Theorem C5_isBlockedHost :
  (forall h,
      In (Str.toLowerCase h)
         [str "localhost"; str "127.0.0.1"; str "169.254.169.254";
          str "metadata.google.internal"] ->
      UrlValidator.isBlockedHost h = true)
  /\ (forall h, in_blocked_range h -> UrlValidator.isBlockedHost h = true)
  /\ (forall h pattern,
        In pattern Constants.BLOCKED_IP_PATTERNS ->
        RegExp.test pattern h = true ->
        UrlValidator.isBlockedHost h = true)
  /\ UrlValidator.isBlockedHost (str "example.com") = false
  /\ UrlValidator.isBlockedHost (str "github.com") = false.
Proof.
  split; [|split; [|split; [|split]]].
  - intros h Hin. unfold UrlValidator.isBlockedHost.
    simpl in Hin.
    destruct Hin as [<- | [<- | [<- | [<- | []]]]]; reflexivity.
  - intros h Hr.
    assert (Hnth : forall i r word,
              nth_error Constants.BLOCKED_IP_PATTERNS i
              = Some (RegExp.mkRegExp true r false) ->
              RegExp.accepts r word = true ->
              Str.startsWith h word = true ->
              UrlValidator.isBlockedHost h = true).
    { intros i r word Hi Hw Hs.
      apply (HostFacts.pattern_blocks h (RegExp.mkRegExp true r false)).
      - now apply nth_error_In in Hi.
      - now apply HostFacts.prefix_tested with word. }
    destruct Hr as [H | [[n [Hn H]] | [H | [H | [H | [H | [H | [H | [H | ->]]]]]]]]].
    + exact (Hnth 0%nat _ (str "10.") eq_refl eq_refl H).
    + assert (Hcases : n = 16 \/ n = 17 \/ n = 18 \/ n = 19 \/ n = 20
                       \/ n = 21 \/ n = 22 \/ n = 23 \/ n = 24 \/ n = 25
                       \/ n = 26 \/ n = 27 \/ n = 28 \/ n = 29 \/ n = 30
                       \/ n = 31) by lia.
      destruct Hcases as
        [-> | [-> | [-> | [-> | [-> | [-> | [-> | [-> | [-> | [-> | [->
         | [-> | [-> | [-> | [-> | ->]]]]]]]]]]]]]]];
        (eapply (Hnth 1%nat); [reflexivity | | exact H]; reflexivity).
    + exact (Hnth 2%nat _ (str "192.168.") eq_refl eq_refl H).
    + exact (Hnth 3%nat _ (str "127.") eq_refl eq_refl H).
    + exact (Hnth 4%nat _ (str "0.") eq_refl eq_refl H).
    + exact (Hnth 5%nat _ (str "169.254.") eq_refl eq_refl H).
    + exact (Hnth 7%nat _ (str "fe80:") eq_refl eq_refl H).
    + exact (Hnth 8%nat _ (str "fc00:") eq_refl eq_refl H).
    + exact (Hnth 9%nat _ (str "fd00:") eq_refl eq_refl H).
    + reflexivity.
  - intros h pattern. apply HostFacts.pattern_blocks.
  - reflexivity.
  - reflexivity.
Qed.

(** C5 at [LocalHost], [172.31.255.255] and [fe80::1]. *)
Lemma C5_witness :
  UrlValidator.isBlockedHost (str "LocalHost") = true
  /\ UrlValidator.isBlockedHost (str "172.31.255.255") = true
  /\ UrlValidator.isBlockedHost (str "fe80::1") = true.
Proof.
  split; [|split].
  - apply (proj1 C5_isBlockedHost). simpl. now left.
  - apply (proj1 (proj2 C5_isBlockedHost)).
    right; left. exists 31. split; [lia | reflexivity].
  - apply (proj1 (proj2 (proj2 C5_isBlockedHost)) (str "fe80::1")
             (RegExp.mkRegExp true (RegExp.Lit "fe80:") false)).
    + simpl. tauto.
    + reflexivity.
Defined.

(** ** URL-Validator: ports *)

(** C7 fails as stated: a blocked host with a port is rejected with the
    blocked-host message, not the port message. *)
Lemma C7_counterexample :
  valid (UrlValidator.validateURLFormat (JStr (str "https://localhost:8080/")))
  = true
  /\ UrlValidator.simpleURL (str "https://localhost:8080/")
     = Some (mkURL (str "https:") (str "localhost") (str "8080"))
  /\ UrlValidator.validateURL UrlValidator.simpleURL
       (JStr (str "https://localhost:8080/")) (str "URL")
     = fail (str "URL hostname is blocked (potential SSRF): localhost")
  /\ error (UrlValidator.validateURL UrlValidator.simpleURL
              (JStr (str "https://localhost:8080/")) (str "URL"))
     <> Some (str "URL uses non-standard HTTPS port: 8080").
Proof.
  repeat split; try reflexivity.
  vm_compute. discriminate.
Qed.

(** C7, amended.  A URL that passed format validation and whose parsed
    port is present and not 443 is always rejected; the message is the
    non-standard-port one when the scheme is [https:] and the host is not
    blocked (a blocked host is reported first).
    [validate('https://example.com:8080/')] fails with the
    non-standard-port message and [validate('https://example.com/')]
    succeeds. *)
Theorem C7_validateURL_ports :
  (forall newURL url fieldName u,
      valid (UrlValidator.validateURLFormat (JStr url)) = true ->
      newURL url = Some u ->
      port u <> [] -> port u <> str "443" ->
      let r := UrlValidator.validateURL newURL (JStr url) fieldName in
      valid r = false
      /\ (protocol u = str "https:" ->
          UrlValidator.isBlockedHost (hostname u) = false ->
          error r = Some (fieldName ++ str " uses non-standard HTTPS port: "
                          ++ port u)))
  /\ UrlValidator.validateURL UrlValidator.simpleURL
       (JStr (str "https://example.com:8080/")) (str "URL")
     = fail (str "URL uses non-standard HTTPS port: 8080")
  /\ UrlValidator.validateURL UrlValidator.simpleURL
       (JStr (str "https://example.com/")) (str "URL")
     = ok.
Proof.
  split; [|split; reflexivity].
  intros newURL url fieldName u Hformat Hparse Hport H443 r. subst r.
  unfold UrlValidator.validateURL. rewrite Hformat. simpl negb. cbv iota.
  change (Value.text (JStr url)) with url. rewrite Hparse.
  assert (Hcheck : match port u with [] => false | _ :: _ => true end
                   && negb (Str.eqb (port u) (str "443")) = true).
  { apply Str_eqb_neq in H443. rewrite H443.
    destruct (port u); [contradiction | reflexivity]. }
  rewrite Hcheck.
  destruct (Str.eqb (protocol u) (str "https:")) eqn:Eproto; simpl.
  - destruct (UrlValidator.isBlockedHost (hostname u)) eqn:Eblocked; simpl.
    + split; [reflexivity|]. intros _ H. discriminate.
    + split; [reflexivity|]. reflexivity.
  - split; [reflexivity|]. intros H. apply Str_eqb_eq in H. congruence.
Qed.

(** C7 at [https://example.com:8080/]. *)
Lemma C7_witness :
  valid (UrlValidator.validateURL UrlValidator.simpleURL
           (JStr (str "https://example.com:8080/")) (str "website")) = false
  /\ error (UrlValidator.validateURL UrlValidator.simpleURL
              (JStr (str "https://example.com:8080/")) (str "website"))
     = Some (str "website" ++ str " uses non-standard HTTPS port: "
             ++ str "8080").
Proof.
  pose proof (proj1 C7_validateURL_ports UrlValidator.simpleURL
                (str "https://example.com:8080/") (str "website")
                (mkURL (str "https:") (str "example.com") (str "8080"))
                eq_refl eq_refl) as H.
  simpl in H.
  assert (H1 : str "8080" <> []) by (vm_compute; discriminate).
  assert (H2 : str "8080" <> str "443") by (vm_compute; discriminate).
  destruct (H H1 H2) as [Hv He].
  split; [exact Hv | exact (He eq_refl eq_refl)].
Defined.

(** ** Address-Validator *)

Module AddressFacts.
Import RegExp RegExpFacts Constants.

Lemma Matches_Times_ext n neg rs neg' rs' s :
  (forall c, in_set neg rs c = in_set neg' rs' c) ->
  Matches (Times n (Set_ neg rs)) s -> Matches (Times n (Set_ neg' rs')) s.
Proof.
  intros Hext. revert s; induction n as [|n IH]; intros s; simpl; [auto|].
  rewrite !Matches_Cat. intros [s1 [s2 [-> [H1 H2]]]].
  exists s1, s2. repeat split; auto.
  apply Matches_Set in H1 as [c [-> Hc]]. constructor. now rewrite <- Hext.
Qed.

Lemma hex_classes_agree c :
  in_set false [range "a" "f"; range "A" "F"; range "0" "9"] c
  = in_set false [range "0" "9"; range "a" "f"; range "A" "F"] c.
Proof.
  unfold in_set, Str.in_ranges, range. simpl.
  repeat match goal with
         | |- context [?a <=? ?b] => destruct (a <=? b)
         end; reflexivity.
Qed.

(** What passes the format check is what [getAddress] reads as a
    prefixed hex address. *)
Lemma valid_format_is_hex a :
  AddressValidator.isValidAddressFormat (JStr a) = true ->
  test Ethers.HEX_ADDRESS a = true /\ Str.startsWith a (str "0x") = true.
Proof.
  unfold AddressValidator.isValidAddressFormat.
  destruct (negb _); [discriminate|].
  unfold test, ADDRESS_PATTERN, Ethers.HEX_ADDRESS, Ethers.hex_class, Lit.
  cbn [anchored_start anchored_end body]. rewrite !accepts_iff.
  intros H. apply Matches_Cat in H as [s1 [s2 [-> [H1 H2]]]].
  apply Matches_Lit_units in H1. subst s1. split.
  - apply Matches_Cat. exists (str "0x"), s2. repeat split.
    + apply MAltL. now apply Matches_Lit_units.
    + exact (Matches_Times_ext 40 _ _ _ _ s2 hex_classes_agree H2).
  - apply startsWith_app.
Qed.

Lemma getAddress_valid_format a :
  AddressValidator.isValidAddressFormat (JStr a) = true ->
  Ethers.getAddress a =
  if negb (test Ethers.MIXED_CASE a) || Str.eqb (Ethers.getChecksumAddress a) a
  then Returns (Ethers.getChecksumAddress a)
  else Throws (Ethers.argument_error (str "bad address checksum") a).
Proof.
  intros H. apply valid_format_is_hex in H as [Hhex Hprefix].
  unfold Ethers.getAddress. now rewrite Hhex, Hprefix.
Qed.

End AddressFacts.

(** C3 fails as stated: the all-zero address has valid format and is its
    own EIP-55 rendering, yet it is invalid. *)
Lemma C3_counterexample :
  AddressValidator.isValidAddressFormat (JStr AddressValidator.ZERO_ADDRESS)
  = true
  /\ AddressValidator.ZERO_ADDRESS
     = Ethers.getChecksumAddress AddressValidator.ZERO_ADDRESS
  /\ valid (AddressValidator.validateEIP55Checksum
              (JStr AddressValidator.ZERO_ADDRESS) (str "address")) = false.
Proof. repeat split; vm_compute; reflexivity. Qed.

(** C3, amended.  For every address of valid format other than the
    all-zero one, [validateEIP55Checksum] is valid if and only if the
    address equals its own EIP-55 rendering; for the all-zero address the
    result is always invalid, with the zero-address message. *)
Theorem C3_checksum_iff_canonical :
  (forall a context,
      AddressValidator.isValidAddressFormat (JStr a) = true ->
      a <> AddressValidator.ZERO_ADDRESS ->
      (valid (AddressValidator.validateEIP55Checksum (JStr a) context) = true
       <-> a = Ethers.getChecksumAddress a))
  /\ (forall context,
        AddressValidator.validateEIP55Checksum
          (JStr AddressValidator.ZERO_ADDRESS) context
        = fail (str "Zero address not allowed for " ++ context)).
Proof.
  split; [|reflexivity].
  intros a context Hformat Hzero.
  unfold AddressValidator.validateEIP55Checksum.
  rewrite Hformat. simpl negb. cbv iota.
  change (Value.text (JStr a)) with a.
  apply Str_eqb_neq in Hzero. rewrite Hzero.
  rewrite (AddressFacts.getAddress_valid_format a Hformat).
  set (c := Ethers.getChecksumAddress a).
  destruct (Str.eqb c a) eqn:E.
  - apply Str_eqb_eq in E. rewrite orb_true_r.
    rewrite (proj2 (Str_eqb_eq a c) (eq_sym E)). simpl.
    split; auto.
  - apply Str_eqb_neq in E. rewrite orb_false_r.
    assert (E' : Str.eqb a c = false) by (apply Str_eqb_neq; congruence).
    destruct (negb (RegExp.test Ethers.MIXED_CASE a)); simpl.
    + rewrite E'. simpl. split; [discriminate | congruence].
    + split; [discriminate | congruence].
Qed.

(** C3 at the address of the test suite. *)
Lemma C3_witness :
  valid (AddressValidator.validateEIP55Checksum
           (JStr (str "0x00c1E515EA9579856304198EFb15f525A0bb50f6"))
           (str "address")) = true
  <-> str "0x00c1E515EA9579856304198EFb15f525A0bb50f6"
      = Ethers.getChecksumAddress
          (str "0x00c1E515EA9579856304198EFb15f525A0bb50f6").
Proof.
  apply (proj1 C3_checksum_iff_canonical).
  - reflexivity.
  - vm_compute. discriminate.
Defined.

(** C4 fails as stated: for a mixed-case address with a wrong checksum
    the error is the one of the library and does not name the expected
    rendering. *)
Lemma C4_counterexample :
  let a := str "0x5aAeb6053f3E94C9b9A09f33669435E7Ef1BeAed" in
  let r := AddressValidator.validateEIP55Checksum (JStr a) (str "address") in
  AddressValidator.isValidAddressFormat (JStr a) = true
  /\ a <> AddressValidator.ZERO_ADDRESS
  /\ Ethers.getChecksumAddress a
     = str "0x5aAeb6053F3E94C9b9A09f33669435E7Ef1BeAed"
  /\ a <> Ethers.getChecksumAddress a
  /\ r = fail (str "Invalid address for address: "
               ++ Ethers.argument_error (str "bad address checksum") a)
  /\ checksummed r = None
  /\ (forall e, error r = Some e ->
                Str.includes e (Ethers.getChecksumAddress a) = false).
Proof.
  cbv zeta. repeat split; try (vm_compute; reflexivity);
    try (vm_compute; discriminate).
  intros e He. vm_compute in He. injection He as <-. vm_compute. reflexivity.
Qed.

(** C4, amended.  An address of valid format, not all-zero, that differs
    from its EIP-55 rendering is never accepted.  When it is written in one
    letter case, the error is the checksum error, which names the expected
    rendering (also returned in [checksummed]); when it mixes upper-case
    and lower-case hex letters, [getAddress] refuses it and the error is
    [Invalid address for ...] followed by the library's message. *)
Theorem C4_mismatch_rejected :
  forall a context,
    AddressValidator.isValidAddressFormat (JStr a) = true ->
    a <> AddressValidator.ZERO_ADDRESS ->
    a <> Ethers.getChecksumAddress a ->
    let r := AddressValidator.validateEIP55Checksum (JStr a) context in
    valid r = false
    /\ (RegExp.test Ethers.MIXED_CASE a = false ->
        r = mkResult false
              (Some (str "Invalid EIP-55 checksum for " ++ context
                     ++ str ": should be " ++ Ethers.getChecksumAddress a))
              None None (Some (Ethers.getChecksumAddress a)) None
        /\ exists e, error r = Some e
                     /\ Str.includes e (Ethers.getChecksumAddress a) = true)
    /\ (RegExp.test Ethers.MIXED_CASE a = true ->
        r = fail (str "Invalid address for " ++ context ++ str ": "
                  ++ Ethers.argument_error (str "bad address checksum") a)).
Proof.
  intros a context Hformat Hzero Hdiff r. subst r.
  unfold AddressValidator.validateEIP55Checksum.
  rewrite Hformat. simpl negb. cbv iota.
  change (Value.text (JStr a)) with a.
  apply Str_eqb_neq in Hzero. rewrite Hzero.
  rewrite (AddressFacts.getAddress_valid_format a Hformat).
  set (c := Ethers.getChecksumAddress a) in *.
  assert (E : Str.eqb c a = false) by (apply Str_eqb_neq; congruence).
  assert (E' : Str.eqb a c = false) by (apply Str_eqb_neq; congruence).
  rewrite E, orb_false_r.
  destruct (RegExp.test Ethers.MIXED_CASE a); simpl.
  - split; [reflexivity|]. split; [discriminate|]. intros _. reflexivity.
  - rewrite E'. simpl. split; [reflexivity|]. split; [|discriminate].
    intros _. split; [reflexivity|].
    eexists. split; [reflexivity|].
    apply includes_iff.
    exists (str "Invalid EIP-55 checksum for " ++ context ++ str ": should be "), [].
    now rewrite app_nil_r, <- !app_assoc.
Qed.

(** C4 at an all-lower-case address. *)
Lemma C4_witness :
  let a := str "0x00c1e515ea9579856304198efb15f525a0bb50f6" in
  valid (AddressValidator.validateEIP55Checksum (JStr a) (str "address"))
  = false.
Proof.
  apply (C4_mismatch_rejected
           (str "0x00c1e515ea9579856304198efb15f525a0bb50f6") (str "address")).
  - reflexivity.
  - vm_compute. discriminate.
  - vm_compute. discriminate.
Defined.

(** ** Structural-Validator: Solidity declarations *)

Definition all_white (w : jsstring) : Prop := forallb Str.is_white w = true.

(** The keyword part of a declaration: [contract], [interface],
    [library], or [abstract], white space, [contract]. *)
Inductive Keyword : jsstring -> Prop :=
| KwContract : Keyword (str "contract")
| KwInterface : Keyword (str "interface")
| KwLibrary : Keyword (str "library")
| KwAbstract w :
    w <> [] -> all_white w ->
    Keyword (str "abstract" ++ w ++ str "contract").

(** The source holds a declaration of [name] in one of the four forms:
    the keyword, white space, the name itself, optional white space and
    the opening brace. *)
Definition declares (content name : jsstring) : Prop :=
  exists pre kw w1 w2 post,
    Keyword kw /\ w1 <> [] /\ all_white w1 /\ all_white w2
    /\ content = pre ++ kw ++ w1 ++ name ++ w2 ++ str "{" ++ post.

(** The checks that come before the declaration check let the source
    through: it is not blank, not too large, and has a pragma. *)
Definition reaches_declaration_check (content : jsstring) : bool :=
  negb (match content with [] => true | _ => false end
        || (List.length (Str.trim content) =? 0)%nat)
  && negb (Constants.MAX_SOLIDITY_FILE_SIZE <? N.of_nat (List.length content))
  && RegExp.test SolidityValidator.PRAGMA content.

Definition no_declaration_error (contractName : jsstring) : jsstring :=
  str "No declaration found for " ++ contractName
  ++ str " (expected contract, interface, library, or abstract contract)".

Module SolidityFacts.
Import RegExp RegExpFacts Constants SolidityValidator.

Lemma Matches_Star_White w : Matches (Star White) w <-> all_white w.
Proof. unfold White. rewrite Matches_Star_Set. reflexivity. Qed.

Lemma Matches_Plus_White w : Matches (Plus White) w <-> w <> [] /\ all_white w.
Proof. unfold White. rewrite Matches_Plus_Set. reflexivity. Qed.

Lemma Matches_Lit p s : Matches (Lit p) s <-> s = str p.
Proof. apply Matches_Lit_units. Qed.

Lemma Matches_brace s : Matches (Set_ false [one "{"]) s <-> s = str "{".
Proof.
  rewrite Matches_Set. unfold in_set, Str.in_ranges. simpl. split.
  - intros [c [-> H]].
    rewrite orb_false_r, andb_true_iff, !N.leb_le in H.
    assert (c = 123) by lia. now subst.
  - intros ->. now exists 123.
Qed.

(** The words of the common tail of the four patterns. *)
Lemma Matches_tail name s :
  Matches (seq [Plus White; Lit_units name; Star White; Set_ false [one "{"]]) s
  <-> exists w1 w2, w1 <> [] /\ all_white w1 /\ all_white w2
                    /\ s = w1 ++ name ++ w2 ++ str "{".
Proof.
  rewrite Matches_seq_cons. split.
  - intros [w1 [s1 [-> [H1 H]]]]. apply Matches_Plus_White in H1 as [Hne Hw1].
    apply Matches_seq_cons in H as [n [s2 [-> [Hn H]]]].
    apply Matches_Lit_units in Hn as ->.
    apply Matches_seq_cons in H as [w2 [s3 [-> [Hw2 H]]]].
    apply Matches_Star_White in Hw2. simpl in H. apply Matches_brace in H as ->.
    now exists w1, w2.
  - intros [w1 [w2 [Hne [Hw1 [Hw2 ->]]]]].
    exists w1, (name ++ w2 ++ str "{"). repeat split.
    + now apply Matches_Plus_White.
    + apply Matches_seq_cons. exists name, (w2 ++ str "{"). repeat split.
      * now apply Matches_Lit_units.
      * apply Matches_seq_cons. exists w2, (str "{"). repeat split.
        -- now apply Matches_Star_White.
        -- simpl. now apply Matches_brace.
Qed.

Lemma Matches_keyword kw :
  (exists keyword, In keyword keywords /\ Matches (seq keyword) kw)
  <-> Keyword kw.
Proof.
  split.
  - intros [keyword [Hin H]]. simpl in Hin.
    destruct Hin as [<- | [<- | [<- | [<- | []]]]].
    + simpl in H. apply Matches_Lit in H as ->. constructor.
    + simpl in H. apply Matches_Lit in H as ->. constructor.
    + simpl in H. apply Matches_Lit in H as ->. constructor.
    + apply Matches_seq_cons in H as [a [s1 [-> [Ha H]]]].
      apply Matches_Lit in Ha as ->.
      apply Matches_seq_cons in H as [w [s2 [-> [Hw H]]]].
      apply Matches_Plus_White in Hw as [Hne Hw].
      simpl in H. apply Matches_Lit in H as ->. now constructor.
  - intros H. destruct H as [| | |w Hne Hw].
    + exists [Lit "contract"]. split; [simpl; tauto | now apply Matches_Lit].
    + exists [Lit "interface"]. split; [simpl; tauto | now apply Matches_Lit].
    + exists [Lit "library"]. split; [simpl; tauto | now apply Matches_Lit].
    + exists [Lit "abstract"; Plus White; Lit "contract"].
      split; [simpl; tauto|].
      apply Matches_seq_cons. exists (str "abstract"), (w ++ str "contract").
      repeat split; [now apply Matches_Lit|].
      apply Matches_seq_cons. exists w, (str "contract").
      repeat split; [now apply Matches_Plus_White | now apply Matches_Lit].
Qed.

(** The four literal patterns find exactly the declarations. *)
Theorem hasDeclaration_iff content name :
  existsb (fun pattern => test pattern content) (literal_patterns name) = true
  <-> declares content name.
Proof.
  rewrite existsb_exists. unfold literal_patterns, declares. split.
  - intros [pattern [Hin Ht]]. apply in_map_iff in Hin as [keyword [<- Hin]].
    unfold declaration in Ht. apply search_iff in Ht as [pre [mid [post [-> H]]]].
    apply Matches_seq_app in H as [kw [tail [-> [Hkw Htail]]]].
    apply Matches_tail in Htail as [w1 [w2 [Hne [Hw1 [Hw2 ->]]]]].
    exists pre, kw, w1, w2, post. repeat split; auto.
    + apply Matches_keyword. now exists keyword.
    + now rewrite <- !app_assoc.
  - intros [pre [kw [w1 [w2 [post [Hkw [Hne [Hw1 [Hw2 ->]]]]]]]]].
    apply Matches_keyword in Hkw as [keyword [Hin Hkw]].
    exists (declaration keyword name).
    split; [exact (in_map (fun k => declaration k name) _ _ Hin)|].
    unfold declaration. apply search_iff.
    exists pre, (kw ++ w1 ++ name ++ w2 ++ str "{"), post. split.
    + now rewrite <- !app_assoc.
    + apply Matches_seq_app. exists kw, (w1 ++ name ++ w2 ++ str "{").
      repeat split; auto. apply Matches_tail. now exists w1, w2.
Qed.

(** A name of letters, digits and underscores is matched literally. *)
Lemma word_is_atom name :
  forallb is_word name = true -> forallb is_atom name = true.
Proof.
  intros H. apply forallb_forall. intros c Hc.
  unfold is_atom. rewrite forallb_forall in H. now rewrite (H c Hc).
Qed.

Lemma atoms_literal name :
  forallb is_word name = true -> atoms name = Lit_units name.
Proof.
  induction name as [|c name IH]; [reflexivity|].
  cbn [forallb atoms Lit_units]. intros H.
  apply andb_true_iff in H as [Hc Hname]. rewrite (IH Hname).
  unfold atom. destruct (c =? 46) eqn:E; [|reflexivity].
  apply N.eqb_eq in E. subst c. discriminate Hc.
Qed.

Lemma construct_literal RegExp_new name :
  forallb is_word name = true ->
  construct RegExp_new name (forms name) = Returns (literal_patterns name).
Proof.
  intros H. unfold forms, pattern_sources, literal_patterns, keywords.
  cbn [combine construct map]. unfold new_RegExp.
  rewrite (word_is_atom name H). cbn [snd]. unfold pattern_of, declaration.
  rewrite (atoms_literal name H). reflexivity.
Qed.

(** *** The pragma: the group is extracted exactly where the pattern
    matches *)

Lemma strip_prefix_iff p s rest :
  strip_prefix p s = Some rest <-> s = p ++ rest.
Proof.
  revert s; induction p as [|y p IH]; intros s.
  - destruct s; simpl; split; intros H; congruence.
  - destruct s as [|x s]; simpl; [split; discriminate|].
    destruct (x =? y) eqn:E.
    + apply N.eqb_eq in E. subst. rewrite IH. split; intros H; congruence.
    + apply N.eqb_neq in E. split; [discriminate | intros H; congruence].
Qed.

Lemma span_split p s a b :
  span p s = (a, b) ->
  s = a ++ b /\ forallb p a = true
  /\ match b with [] => True | c :: _ => p c = false end.
Proof.
  revert a b; induction s as [|c s IH]; intros a b; simpl.
  - intros H. injection H as <- <-. auto.
  - destruct (p c) eqn:E.
    + destruct (span p s) as [a' b'] eqn:Es. intros H. injection H as <- <-.
      destruct (IH _ _ eq_refl) as [-> [Ha Hb]]. simpl. rewrite E. auto.
    + intros H. injection H as <- <-. simpl. auto.
Qed.

Lemma span_app p a b :
  forallb p a = true ->
  span p (a ++ b) = (a ++ fst (span p b), snd (span p b)).
Proof.
  induction a as [|c a IH]; simpl; intros H.
  - now destruct (span p b).
  - apply andb_true_iff in H as [Hc Ha]. rewrite Hc, (IH Ha). reflexivity.
Qed.

Lemma span_stop p b :
  match b with [] => True | c :: _ => p c = false end -> span p b = ([], b).
Proof. destruct b as [|c b]; simpl; [reflexivity|]. now intros ->. Qed.

Lemma forallb_pointwise {A} (f g : A -> bool) l :
  (forall x, f x = g x) -> forallb f l = forallb g l.
Proof.
  intros H. induction l as [|x l IH]; cbn [forallb]; [reflexivity|].
  now rewrite H, IH.
Qed.

Definition no_semicolon (t : jsstring) : Prop :=
  forallb (fun c => negb (c =? 59)) t = true.

Lemma Matches_not_semicolon t :
  Matches (Plus (Set_ true [one ";"])) t <-> t <> [] /\ no_semicolon t.
Proof.
  rewrite Matches_Plus_Set. unfold no_semicolon.
  assert (E : forall c, in_set true [one ";"] c = negb (c =? 59)).
  { intros c. unfold in_set, Str.in_ranges. simpl. rewrite orb_false_r.
    destruct (N.eqb_spec c 59) as [->|Hc]; [reflexivity|].
    assert (H : (59 <=? c) && (c <=? 59) = false).
    { apply andb_false_iff. rewrite !N.leb_gt. lia. }
    now rewrite H. }
  now rewrite (forallb_pointwise _ _ t E).
Qed.

Lemma Matches_semicolon s : Matches (Chr ";") s <-> s = [59].
Proof.
  unfold Chr. rewrite Matches_Set. unfold in_set, Str.in_ranges. simpl. split.
  - intros [c [-> H]].
    rewrite orb_false_r, andb_true_iff, !N.leb_le in H.
    assert (c = 59) by lia. now subst.
  - intros ->. now exists 59.
Qed.

(** The words of the pragma pattern. *)
Lemma Matches_pragma m :
  Matches (body PRAGMA) m <->
  exists w1 w2 t,
    w1 <> [] /\ all_white w1 /\ w2 <> [] /\ all_white w2
    /\ t <> [] /\ no_semicolon t
    /\ m = str "pragma" ++ w1 ++ str "solidity" ++ w2 ++ t ++ [59].
Proof.
  unfold PRAGMA. cbn [body]. split.
  - intros H.
    apply Matches_seq_cons in H as [a [m1 [-> [Ha H]]]].
    apply Matches_Lit in Ha as ->.
    apply Matches_seq_cons in H as [w1 [m2 [-> [Hw1 H]]]].
    apply Matches_Plus_White in Hw1 as [Hne1 Hw1].
    apply Matches_seq_cons in H as [b [m3 [-> [Hb H]]]].
    apply Matches_Lit in Hb as ->.
    apply Matches_seq_cons in H as [w2 [m4 [-> [Hw2 H]]]].
    apply Matches_Plus_White in Hw2 as [Hne2 Hw2].
    apply Matches_seq_cons in H as [t [m5 [-> [Ht H]]]].
    apply Matches_not_semicolon in Ht as [Hnet Ht].
    simpl in H. apply Matches_semicolon in H as ->.
    exists w1, w2, t. repeat split; auto.
  - intros [w1 [w2 [t [Hne1 [Hw1 [Hne2 [Hw2 [Hnet [Ht ->]]]]]]]]].
    apply Matches_seq_cons. exists (str "pragma"), (w1 ++ str "solidity" ++ w2 ++ t ++ [59]).
    repeat split; [now apply Matches_Lit|].
    apply Matches_seq_cons. exists w1, (str "solidity" ++ w2 ++ t ++ [59]).
    repeat split; [now apply Matches_Plus_White|].
    apply Matches_seq_cons. exists (str "solidity"), (w2 ++ t ++ [59]).
    repeat split; [now apply Matches_Lit|].
    apply Matches_seq_cons. exists w2, (t ++ [59]).
    repeat split; [now apply Matches_Plus_White|].
    apply Matches_seq_cons. exists t, [59].
    repeat split; [now apply Matches_not_semicolon|].
    simpl. now apply Matches_semicolon.
Qed.

Lemma white_not_semicolon c : Str.is_white c = true -> negb (c =? 59) = true.
Proof.
  intros H. destruct (N.eqb_spec c 59) as [->|]; [discriminate H | reflexivity].
Qed.

Lemma all_white_no_semicolon w : all_white w -> no_semicolon w.
Proof.
  unfold all_white, no_semicolon. rewrite !forallb_forall.
  intros H c Hc. apply white_not_semicolon. now apply H.
Qed.

(** A group is extracted at the head of [s] exactly when a prefix of
    [s] matches the pattern. *)
Lemma pragma_group_here_iff s :
  (exists group, pragma_group_here s = Some group)
  <-> accepts_prefix (body PRAGMA) s = true.
Proof.
  rewrite accepts_prefix_iff. split.
  - intros [group H]. unfold pragma_group_here in H.
    destruct (strip_prefix (str "pragma") s) as [s1|] eqn:E1; [|discriminate].
    apply strip_prefix_iff in E1 as ->.
    destruct (span Str.is_white s1) as [w1 s2] eqn:E2.
    apply span_split in E2 as [-> [Hw1 _]].
    destruct w1 as [|c1 w1]; [discriminate|].
    destruct (strip_prefix (str "solidity") s2) as [s3|] eqn:E3; [|discriminate].
    apply strip_prefix_iff in E3 as ->.
    destruct (span Str.is_white s3) as [w s4] eqn:E4.
    apply span_split in E4 as [-> [Hw _]].
    destruct w as [|c2 w]; [discriminate|].
    destruct (span (fun c => negb (c =? 59)) s4) as [t s5] eqn:E5.
    apply span_split in E5 as [-> [Ht Hstop]].
    destruct s5 as [|semi s5]; [destruct t; discriminate|].
    apply negb_false_iff, N.eqb_eq in Hstop. subst semi.
    destruct t as [|c3 t].
    + (* the semicolon follows the white space at once *)
      destruct (rev (c2 :: w)) as [|last [|x r]] eqn:Er; try discriminate.
      assert (Hw' : c2 :: w = rev (x :: r) ++ [last]).
      { rewrite <- (rev_involutive (c2 :: w)), Er. reflexivity. }
      rewrite Hw' in *. unfold all_white in *.
      rewrite forallb_app in Hw. apply andb_true_iff in Hw as [Hr Hlast].
      exists (str "pragma" ++ (c1 :: w1) ++ str "solidity"
              ++ rev (x :: r) ++ [last] ++ [59]), s5.
      split; [now rewrite <- !app_assoc|].
      apply Matches_pragma.
      exists (c1 :: w1), (rev (x :: r)), [last].
      repeat split; auto; try discriminate.
      * intros E. apply (f_equal (@List.length N)) in E.
        rewrite length_rev in E. discriminate.
      * now apply all_white_no_semicolon.
    + exists (str "pragma" ++ (c1 :: w1) ++ str "solidity"
              ++ (c2 :: w) ++ (c3 :: t) ++ [59]), s5.
      split; [now rewrite <- !app_assoc|].
      apply Matches_pragma.
      exists (c1 :: w1), (c2 :: w), (c3 :: t).
      repeat split; auto; discriminate.
  - intros [m [rest [-> Hm]]].
    apply Matches_pragma in Hm
      as [w1 [w2 [t [Hne1 [Hw1 [Hne2 [Hw2 [Hnet [Ht ->]]]]]]]]].
    unfold pragma_group_here.
    rewrite <- !app_assoc.
    rewrite (proj2 (strip_prefix_iff (str "pragma") _ _) eq_refl).
    rewrite (span_app _ w1 _ Hw1), span_stop by reflexivity.
    cbn [fst snd]. rewrite app_nil_r.
    destruct w1 as [|c1 w1]; [contradiction|].
    rewrite (proj2 (strip_prefix_iff (str "solidity") _ _) eq_refl).
    rewrite (span_app _ w2 _ Hw2).
    destruct (span Str.is_white (t ++ [59] ++ rest)) as [x y] eqn:Ex.
    cbn [fst snd].
    destruct (w2 ++ x) as [|c2 w] eqn:Ew;
      [apply app_eq_nil in Ew as [-> _]; contradiction|].
    apply span_split in Ex as [Exy [Hx Hstop]].
    (* [y] is what is left of [t], then the semicolon *)
    assert (Hy : exists t', t = x ++ t' /\ y = t' ++ [59] ++ rest).
    { clear - Exy Hx Ht. revert x Exy Hx. unfold no_semicolon in Ht.
      induction t as [|c t IH]; intros x Exy Hx.
      - destruct x as [|c x]; [exists []; auto|].
        injection Exy as <- _. discriminate Hx.
      - destruct x as [|c' x]; [exists (c :: t); auto|].
        injection Exy as <- Exy. simpl in Hx, Ht.
        apply andb_true_iff in Hx as [_ Hx].
        apply andb_true_iff in Ht as [_ Ht].
        destruct (IH Ht x Exy Hx) as [t' [-> ->]]. now exists t'. }
    destruct Hy as [t' [-> ->]].
    assert (Ht' : no_semicolon t').
    { unfold no_semicolon in *. rewrite forallb_app in Ht.
      now apply andb_true_iff in Ht as [_ Ht]. }
    rewrite (span_app _ t' _ Ht'), span_stop by reflexivity.
    cbn [fst snd]. rewrite app_nil_r.
    destruct t' as [|c3 t']; [|eexists; reflexivity].
    rewrite app_nil_r in Hnet.
    rewrite <- Ew, rev_app_distr.
    destruct (rev x) as [|lx rx] eqn:Erx.
    { apply (f_equal (@rev N)) in Erx. rewrite rev_involutive in Erx.
      contradiction. }
    destruct (rev w2) as [|lw rw] eqn:Erw.
    { apply (f_equal (@rev N)) in Erw. rewrite rev_involutive in Erw.
      contradiction. }
    simpl. destruct rx; eexists; reflexivity.
Qed.

(** [content.match] finds a group exactly when [test] succeeds: the
    branch without a match in [pragma_warnings] is never taken after the
    pragma check. *)
Theorem pragma_group_iff content :
  (exists group, pragma_group content = Some group)
  <-> test PRAGMA content = true.
Proof.
  unfold test, PRAGMA. cbn [anchored_start anchored_end].
  change (body {| anchored_start := false; body := ?b; anchored_end := false |})
    with b.
  fold (body PRAGMA).
  induction content as [|c content IH].
  - cbn [pragma_group anywhere]. rewrite orb_false_r, <- pragma_group_here_iff.
    destruct (pragma_group_here []) as [g|]; split; intros [g' H];
      try discriminate; eauto.
  - cbn [pragma_group anywhere]. rewrite orb_true_iff, <- IH.
    rewrite <- pragma_group_here_iff.
    destruct (pragma_group_here (c :: content)) as [g|]; split.
    + intros _. left. eauto.
    + intros _. eauto.
    + intros H. now right.
    + intros [[g H] | H]; [discriminate | exact H].
Qed.

End SolidityFacts.




(** ** The uniform result contract *)

(** [valid == true] implies that [error] is absent; [valid == false]
    implies that [error] is present and not empty. *)
Definition well_formed (r : Result) : Prop :=
  (valid r = true -> error r = None)
  /\ (valid r = false -> exists e, error r = Some e /\ e <> []).

Module ContractFacts.

Lemma app_ne_l (a b : jsstring) : a <> [] -> a ++ b <> [].
Proof. destruct a; [contradiction | discriminate]. Qed.

Lemma app_ne_r (a b : jsstring) : b <> [] -> a ++ b <> [].
Proof. intros Hb H. apply app_eq_nil in H as [_ H]. contradiction. Qed.

Lemma str_ne c s : str (String c s) <> [].
Proof. discriminate. Qed.

Ltac nonempty :=
  solve [ apply str_ne
        | discriminate
        | apply app_ne_l; nonempty
        | apply app_ne_r; nonempty ].

Lemma wf_fail msg : msg <> [] -> well_formed (fail msg).
Proof.
  intros H. split; [discriminate|]. intros _. now exists msg.
Qed.

Lemma wf_accept r : valid r = true -> error r = None -> well_formed r.
Proof. intros Hv He. split; [auto | congruence]. Qed.

Lemma wf_reject r msg :
  valid r = false -> error r = Some msg -> msg <> [] -> well_formed r.
Proof. intros Hv He Hm. split; [congruence | intros _; now exists msg]. Qed.

(** Settles a result that is written out. *)
Ltac settle :=
  first [ apply wf_fail; nonempty
        | apply wf_accept; reflexivity
        | eapply wf_reject; [reflexivity | reflexivity | nonempty] ].

Ltac branches :=
  repeat match goal with
         | |- context [if ?b then _ else _] => destruct b
         end.

Lemma wf_validateSafeFilename v :
  well_formed (FileUtils.validateSafeFilename v).
Proof.
  unfold FileUtils.validateSafeFilename. destruct v; try settle.
  branches; settle.
Qed.

Lemma wf_validateContractName v :
  well_formed (FileUtils.validateContractName v).
Proof.
  unfold FileUtils.validateContractName. destruct v; try settle.
  branches; settle.
Qed.

Lemma wf_first_invalid parts r :
  FileUtils.first_invalid parts = Some r -> well_formed r.
Proof.
  induction parts as [|part parts IH]; simpl; [discriminate|].
  destruct (negb (valid (FileUtils.validateSafeFilename part))); auto.
  intros H. injection H as <-. apply wf_validateSafeFilename.
Qed.

Lemma wf_safePathJoin cwd baseDir parts :
  well_formed (FileUtils.safePathJoin cwd baseDir parts).
Proof.
  unfold FileUtils.safePathJoin.
  destruct (FileUtils.first_invalid parts) eqn:E;
    [now apply wf_first_invalid in E|].
  branches; settle.
Qed.

Lemma wf_validateURLFormat v :
  well_formed (UrlValidator.validateURLFormat v).
Proof.
  unfold UrlValidator.validateURLFormat. destruct v; try settle.
  branches; settle.
Qed.

Lemma wf_validateURL newURL v fieldName :
  well_formed (UrlValidator.validateURL newURL v fieldName).
Proof.
  unfold UrlValidator.validateURL.
  destruct (negb (valid (UrlValidator.validateURLFormat v))); [settle|].
  destruct (newURL (Value.text v)); [|settle].
  branches; settle.
Qed.

Lemma wf_check_member newURL m field r :
  UrlValidator.check_member newURL m field = Some r -> well_formed r.
Proof.
  destruct m as [value| |]; cbn [UrlValidator.check_member];
    [| intros H; injection H as <-; settle | discriminate].
  destruct value; try discriminate;
    intros H; injection H as <-; apply wf_validateURL.
Qed.

Lemma collect_errors_nonempty newURL obj urlFields :
  Forall (fun e => e <> []) (UrlValidator.collect_errors newURL obj urlFields).
Proof.
  induction urlFields as [|field rest IH]; [constructor|].
  cbn [UrlValidator.collect_errors].
  destruct (UrlValidator.check_member newURL (UrlValidator.member obj field)
              field) as [result|] eqn:E; [|exact IH].
  apply wf_check_member in E as [_ Hbad].
  destruct (valid result); simpl; [exact IH|].
  destruct (Hbad eq_refl) as [e [-> He]]. now constructor.
Qed.

Lemma wf_validateEIP55Checksum address context :
  well_formed (AddressValidator.validateEIP55Checksum address context).
Proof.
  unfold AddressValidator.validateEIP55Checksum.
  destruct (negb (AddressValidator.isValidAddressFormat address)); [settle|].
  destruct (Str.eqb _ AddressValidator.ZERO_ADDRESS); [settle|].
  destruct (Ethers.getAddress _); [|settle].
  branches; settle.
Qed.

Lemma wf_validateAddressMatchesDirectory address dirName :
  well_formed (AddressValidator.validateAddressMatchesDirectory address dirName).
Proof.
  unfold AddressValidator.validateAddressMatchesDirectory. branches; settle.
Qed.

(** A result that is handed back is well formed. *)
Ltac returned :=
  let H := fresh "H" in
  intros H; injection H as <-; settle.

Lemma wf_validateAddressDirectory cwd dirName parentPath r :
  AddressValidator.validateAddressDirectory cwd dirName parentPath = Returns r ->
  well_formed r.
Proof.
  unfold AddressValidator.validateAddressDirectory.
  destruct (negb (AddressValidator.isValidAddressFormat dirName)).
  - destruct (Value.ToString dirName); [returned | discriminate].
  - branches; returned.
Qed.

(** A string is converted to itself; what is thrown is thrown on an
    array or an object. *)
Lemma ToString_throws v e :
  Value.ToString v = Throws e -> Value.typeof_string v = false.
Proof. destruct v; try discriminate; reflexivity. Qed.

Lemma format_is_string v :
  AddressValidator.isValidAddressFormat v = true ->
  Value.typeof_string v = true.
Proof. destruct v; try discriminate; reflexivity. Qed.

Lemma validateAddressDirectory_throws cwd dirName parentPath e :
  AddressValidator.validateAddressDirectory cwd dirName parentPath = Throws e
  <-> Value.ToString dirName = Throws e.
Proof.
  unfold AddressValidator.validateAddressDirectory.
  destruct (AddressValidator.isValidAddressFormat dirName) eqn:Ef;
    cbn [negb].
  - apply format_is_string in Ef. split.
    + branches; discriminate.
    + intros H. apply ToString_throws in H. congruence.
  - destruct (Value.ToString dirName); split; intros H;
      try discriminate; congruence.
Qed.

Lemma wf_validateTokenAddress cwd scripts_dir address dirName context r :
  AddressValidator.validateTokenAddress cwd scripts_dir address dirName context
  = Returns r ->
  well_formed r.
Proof.
  unfold AddressValidator.validateTokenAddress.
  destruct (AddressValidator.validateAddressDirectory cwd dirName scripts_dir)
    as [d|] eqn:Ed; [|discriminate].
  apply wf_validateAddressDirectory in Ed.
  destruct (negb (valid d)); [intros H; injection H as <-; exact Ed|].
  destruct (negb (valid (AddressValidator.validateEIP55Checksum _ _)));
    [intros H; injection H as <-; apply wf_validateEIP55Checksum|].
  destruct (negb (valid (AddressValidator.validateAddressMatchesDirectory _ _)));
    [intros H; injection H as <-; apply wf_validateAddressMatchesDirectory|].
  returned.
Qed.

Lemma validateTokenAddress_throws cwd scripts_dir address dirName context e :
  AddressValidator.validateTokenAddress cwd scripts_dir address dirName context
  = Throws e
  <-> Value.ToString dirName = Throws e.
Proof.
  rewrite <- (validateAddressDirectory_throws cwd dirName scripts_dir e).
  unfold AddressValidator.validateTokenAddress.
  destruct (AddressValidator.validateAddressDirectory cwd dirName scripts_dir)
    as [d|]; [|tauto].
  split; [|discriminate]. branches; discriminate.
Qed.

Lemma wf_each_indexed f l :
  (forall x, In x l -> forall j, well_formed (f x j)) ->
  forall i, well_formed (AbiValidator.each_indexed f l i).
Proof.
  induction l as [|x l IH]; intros Hf i; simpl; [settle|].
  destruct (negb (valid (f x i))).
  - apply Hf. now left.
  - apply IH. intros y Hy. apply Hf. now right.
Qed.

Lemma wf_with_prop k props absent present :
  well_formed absent ->
  (forall kv, In kv props -> well_formed (present (snd kv))) ->
  well_formed (AbiValidator.with_prop k props absent present).
Proof.
  intros Ha Hp. unfold AbiValidator.with_prop.
  induction props as [|kv props IH]; [exact Ha|].
  destruct (Str.eqb k (fst kv)).
  - apply Hp. now left.
  - apply IH. intros kv' Hin. apply Hp. now right.
Qed.

Lemma validateABIParameter_unfold param context :
  AbiValidator.validateABIParameter param context =
  if negb (Value.typeof_object param) || AbiValidator.is_null param
  then fail (context ++ str ": parameter must be an object")
  else
    let type := Value.get param (str "type") in
    let name := Value.get param (str "name") in
    if negb (Value.truthy type) || negb (Value.typeof_string type)
    then fail (context ++ str ": parameter missing 'type' field")
    else if negb (AbiValidator.is_undefined name)
            && negb (Value.eq_str name [])
            && negb (Value.typeof_string name)
    then fail (context ++ str ": parameter name must be a string")
    else if (Value.truthy name && negb (Value.eq_str name []))
            && negb (RegExp.test Constants.ABI_FUNCTION_NAME_PATTERN
                                 (Value.text name))
    then fail (context ++ str ": parameter name '" ++ Value.text name
               ++ str "' is invalid (must be valid identifier)")
    else if (Value.truthy name && negb (Value.eq_str name []))
            && Value.in_strings name AbiValidator.dangerousNames
    then fail (context ++ str ": parameter name '" ++ Value.text name
               ++ str "' is not allowed (security risk)")
    else if negb (RegExp.test AbiValidator.PARAMETER_TYPE_PATTERN
                              (Value.text type))
    then fail (context ++ str ": parameter type '" ++ Value.text type
               ++ str "' contains invalid characters")
    else if Str.startsWith (Value.text type) (str "tuple")
    then
      match param with
      | JObj props =>
          AbiValidator.with_prop (str "components") props ok
            (fun components =>
               if Value.truthy components then
                 match components with
                 | JArr comps =>
                     AbiValidator.each_indexed
                       (fun c i =>
                          AbiValidator.validateABIParameter c
                            (context ++ str ".components[" ++ Str.of_nat i
                             ++ str "]"))
                       comps 0
                 | _ => fail (context
                              ++ str ": tuple components must be an array")
                 end
               else ok)
      | _ => ok
      end
    else ok.
Proof. destruct param; reflexivity. Qed.

Lemma wf_validateABIParameter_nested param :
  (forall context,
      well_formed (AbiValidator.validateABIParameter param context))
  /\ (forall comps,
        param = JArr comps ->
        Forall (fun c => forall context,
                    well_formed (AbiValidator.validateABIParameter c context))
               comps).
Proof.
  induction param using JSValue_nested_ind;
    (split; [|try discriminate]); try (intros context; settle).
  - intros comps E. injection E as <-.
    eapply Forall_impl; [|exact H]. intros c Hc. apply Hc.
  - intros context. rewrite validateABIParameter_unfold. cbv zeta.
    branches; try settle.
    apply wf_with_prop; [settle|].
    intros kv Hin. rewrite Forall_forall in H.
    destruct (H kv Hin) as [_ Hcomps].
    destruct (Value.truthy (snd kv)); [|settle].
    destruct (snd kv) as [| | | | |comps|]; try settle.
    apply wf_each_indexed. intros c Hc j.
    specialize (Hcomps comps eq_refl). rewrite Forall_forall in Hcomps.
    now apply Hcomps.
Qed.

Lemma wf_validateABIParameter param context :
  well_formed (AbiValidator.validateABIParameter param context).
Proof. apply wf_validateABIParameter_nested. Qed.

Lemma wf_validateABIParameters params context :
  well_formed (AbiValidator.validateABIParameters params context).
Proof.
  unfold AbiValidator.validateABIParameters. destruct params; try settle.
  apply wf_each_indexed. intros. apply wf_validateABIParameter.
Qed.

Lemma wf_check_params item k index missing ws r :
  AbiValidator.check_params item k index missing ws = inl r -> well_formed r.
Proof.
  unfold AbiValidator.check_params.
  destruct (negb (Value.truthy (Value.get item k))); [discriminate|].
  destruct (negb (valid _)); [|discriminate].
  intros H. injection H as <-. apply wf_validateABIParameters.
Qed.

Lemma wf_step (x : Result + list jsstring) (k : list jsstring -> Result) :
  (forall r, x = inl r -> well_formed r) ->
  (forall ws, well_formed (k ws)) ->
  well_formed match x with inl r => r | inr ws => k ws end.
Proof. intros Hl Hr. destruct x; auto. Qed.

Lemma wf_optional_check (b : bool) item k index missing ws r :
  (if b then AbiValidator.check_params item k index missing ws else inr ws)
  = inl r ->
  well_formed r.
Proof. destruct b; [apply wf_check_params | discriminate]. Qed.

Ltac scrutinee E :=
  match goal with
  | |- match ?x with inl _ => _ | inr _ => _ end = _ -> _ =>
      destruct x eqn:E
  end.

Lemma wf_validateABIItem item index r :
  AbiValidator.validateABIItem item index = Returns r -> well_formed r.
Proof.
  unfold AbiValidator.validateABIItem. cbv zeta.
  repeat match goal with
         | |- (if ?b then Returns _ else _) = _ -> _ =>
             destruct b; [returned|]
         end.
  scrutinee E1.
  { apply wf_optional_check in E1. intros H. injection H as <-. exact E1. }
  scrutinee E2.
  { apply wf_optional_check in E2. intros H. injection H as <-. exact E2. }
  destruct (_ && _).
  { destruct (Value.ToString _); [returned | discriminate]. }
  scrutinee E3.
  { apply wf_optional_check in E3. intros H. injection H as <-. exact E3. }
  returned.
Qed.

(** The one fault of [validateABIItem]: the conversion of the
    [stateMutability] it is about to print. *)
Lemma validateABIItem_throws item index e :
  AbiValidator.validateABIItem item index = Throws e ->
  Value.ToString (Value.get item (str "stateMutability")) = Throws e.
Proof.
  unfold AbiValidator.validateABIItem. cbv zeta.
  repeat match goal with
         | |- (if ?b then Returns _ else _) = _ -> _ =>
             destruct b; [discriminate|]
         end.
  scrutinee E1; [discriminate|].
  scrutinee E2; [discriminate|].
  destruct (_ && _).
  { destruct (Value.ToString _); [discriminate|].
    intros H. injection H as <-. reflexivity. }
  scrutinee E3; discriminate.
Qed.

Lemma wf_validate_items contractName items i ws failure :
  AbiValidator.validate_items contractName items i ws = Returns (inl failure) ->
  well_formed failure.
Proof.
  revert i ws; induction items as [|item items IH]; intros i ws; simpl;
    [discriminate|].
  destruct (AbiValidator.validateABIItem item i) as [result|];
    [|discriminate].
  destruct (negb (valid result)); [|apply IH].
  intros H. injection H as <-. settle.
Qed.

Lemma validate_items_throws contractName items i ws e :
  AbiValidator.validate_items contractName items i ws = Throws e ->
  exists item,
    In item items
    /\ Value.ToString (Value.get item (str "stateMutability")) = Throws e.
Proof.
  revert i ws; induction items as [|item items IH]; intros i ws; simpl;
    [discriminate|].
  destruct (AbiValidator.validateABIItem item i) as [result|] eqn:E.
  - destruct (negb (valid result)); [discriminate|].
    intros H. destruct (IH _ _ H) as [item' [Hin H']].
    exists item'. auto.
  - intros H. injection H as <-. exists item. split; [now left|].
    exact (validateABIItem_throws _ _ _ E).
Qed.

Lemma wf_validateABI abi contractName r :
  AbiValidator.validateABI abi contractName = Returns r -> well_formed r.
Proof.
  unfold AbiValidator.validateABI.
  destruct abi as [| | | | |items|]; try returned.
  destruct items as [|item items]; [returned|].
  destruct (AbiValidator.validate_items _ _ _ _) as [[failure|ws]|] eqn:E;
    [|branches; returned | discriminate].
  apply wf_validate_items in E. intros H. injection H as <-. exact E.
Qed.

Lemma validateABI_throws abi contractName e :
  AbiValidator.validateABI abi contractName = Throws e ->
  exists items item,
    abi = JArr items /\ In item items
    /\ Value.ToString (Value.get item (str "stateMutability")) = Throws e.
Proof.
  unfold AbiValidator.validateABI.
  destruct abi as [| | | | |items|]; try discriminate.
  destruct items as [|item items]; [discriminate|].
  destruct (AbiValidator.validate_items _ _ _ _) as [[failure|ws]|] eqn:E;
    [discriminate | branches; discriminate |].
  intros H. injection H as <-.
  apply validate_items_throws in E as [item' [Hin H]].
  now exists (item :: items), item'.
Qed.

Lemma wf_validateSolidityStructure RegExp_new content contractName r :
  SolidityValidator.validateSolidityStructure RegExp_new content contractName
  = Returns r ->
  well_formed r.
Proof.
  unfold SolidityValidator.validateSolidityStructure.
  repeat match goal with
         | |- (if ?b then Returns _ else _) = _ -> _ =>
             destruct b; [intros H; injection H as <-; settle|]
         end.
  destruct (SolidityValidator.construct _ _ _); [|discriminate].
  destruct (negb _); intros H; injection H as <-; settle.
Qed.

(** The patterns of a name made of letters, digits, underscores and
    dots are built by the model itself. *)
Lemma construct_atoms RegExp_new name forms :
  forallb SolidityValidator.is_atom name = true ->
  exists patterns,
    SolidityValidator.construct RegExp_new name forms = Returns patterns.
Proof.
  intros H. induction forms as [|form forms [patterns IH]];
    [now exists []|].
  cbn [SolidityValidator.construct]. unfold SolidityValidator.new_RegExp.
  rewrite H, IH. eauto.
Qed.

(** What [construct] throws, the platform's constructor threw on one
    of the sources. *)
Lemma construct_throws RegExp_new name forms e :
  SolidityValidator.construct RegExp_new name forms = Throws e ->
  forallb SolidityValidator.is_atom name = false
  /\ exists source, In source (map fst forms) /\ RegExp_new source = Throws e.
Proof.
  induction forms as [|form forms IH]; [discriminate|].
  cbn [SolidityValidator.construct]. unfold SolidityValidator.new_RegExp.
  destruct (forallb SolidityValidator.is_atom name) eqn:Ea.
  - destruct (SolidityValidator.construct RegExp_new name forms);
      [discriminate|].
    intros H. destruct (IH H) as [Hf _]. discriminate Hf.
  - destruct (RegExp_new (fst form)) as [pattern|m] eqn:En.
    + destruct (SolidityValidator.construct RegExp_new name forms);
        [discriminate|].
      intros H. destruct (IH H) as [_ [source [Hin Hs]]].
      split; [reflexivity|]. exists source. split; [now right | exact Hs].
    + intros H. injection H as <-. split; [reflexivity|].
      exists (fst form). split; [now left | exact En].
Qed.

Lemma validateSolidityStructure_returns RegExp_new content contractName :
  forallb SolidityValidator.is_atom contractName = true ->
  exists r,
    SolidityValidator.validateSolidityStructure RegExp_new content contractName
    = Returns r.
Proof.
  intros H. unfold SolidityValidator.validateSolidityStructure.
  destruct (construct_atoms RegExp_new contractName
              (SolidityValidator.forms contractName) H) as [patterns ->].
  branches; eauto.
Qed.

Lemma validateSolidityStructure_throws RegExp_new content contractName e :
  SolidityValidator.validateSolidityStructure RegExp_new content contractName
  = Throws e ->
  forallb SolidityValidator.is_atom contractName = false
  /\ exists source,
       In source (SolidityValidator.pattern_sources contractName)
       /\ RegExp_new source = Throws e.
Proof.
  unfold SolidityValidator.validateSolidityStructure.
  repeat match goal with
         | |- (if ?b then Returns _ else _) = _ -> _ =>
             destruct b; [discriminate|]
         end.
  destruct (SolidityValidator.construct _ _ _) as [patterns|m] eqn:E.
  - destruct (negb _); discriminate.
  - intros H. injection H as <-.
    apply construct_throws in E as [Ha [source [Hin Hs]]].
    split; [exact Ha|]. exists source. split; [|exact Hs].
    unfold SolidityValidator.forms, SolidityValidator.pattern_sources,
      SolidityValidator.keywords in *.
    cbn [combine map fst] in Hin. exact Hin.
Qed.

End ContractFacts.




(** ** Structural-Validator: reserved parameter names *)

(** A parameter object whose name is one of the reserved names. *)
Definition dangerous_parameter (p : JSValue) : Prop :=
  exists name, Value.get p (str "name") = JStr name
               /\ In name AbiValidator.dangerousNames.

(** [p] is the parameter [q] or sits in the components of [q], at any
    depth, under tuple-typed parameters. *)
Inductive Holds (p : JSValue) : JSValue -> Prop :=
| HoldsSelf : Holds p p
| HoldsComponent q t comps c :
    Value.get q (str "type") = JStr t ->
    Str.startsWith t (str "tuple") = true ->
    Value.get q (str "components") = JArr comps ->
    In c comps -> Holds p c -> Holds p q.

(** The parameter lists that [validateABIItem] walks: the inputs of a
    function, constructor or event and the outputs of a function. *)
Inductive Checked (item q : JSValue) : Prop :=
| CheckedInputs ps :
    Value.in_strings (Value.get item (str "type"))
                     [str "function"; str "constructor"; str "event"] = true ->
    Value.get item (str "inputs") = JArr ps -> In q ps -> Checked item q
| CheckedOutputs ps :
    Value.eq_str (Value.get item (str "type")) (str "function") = true ->
    Value.get item (str "outputs") = JArr ps -> In q ps -> Checked item q.

Module AbiFacts.
Import ContractFacts.

Lemma dangerous_cases name :
  In name AbiValidator.dangerousNames ->
  name = str "__proto__" \/ name = str "constructor" \/ name = str "prototype".
Proof. simpl. intuition. Qed.

(** A reserved name is refused, and with the [not allowed] message
    when the parameter has a type. *)
Lemma reserved_name_refused p name context :
  Value.get p (str "name") = JStr name ->
  In name AbiValidator.dangerousNames ->
  valid (AbiValidator.validateABIParameter p context) = false
  /\ (forall t, Value.get p (str "type") = JStr t -> t <> [] ->
                AbiValidator.validateABIParameter p context
                = fail (context ++ str ": parameter name '" ++ name
                        ++ str "' is not allowed (security risk)")).
Proof.
  intros Hname Hin. rewrite validateABIParameter_unfold. cbv zeta.
  rewrite Hname.
  assert (Hobj : negb (Value.typeof_object p) || AbiValidator.is_null p = false).
  { destruct p; try discriminate Hname. reflexivity. }
  rewrite Hobj.
  assert (Hchecks :
            negb (AbiValidator.is_undefined (JStr name))
            && negb (Value.eq_str (JStr name) [])
            && negb (Value.typeof_string (JStr name)) = false
            /\ (Value.truthy (JStr name) && negb (Value.eq_str (JStr name) []))
               && negb (RegExp.test Constants.ABI_FUNCTION_NAME_PATTERN
                                    (Value.text (JStr name))) = false
            /\ (Value.truthy (JStr name) && negb (Value.eq_str (JStr name) []))
               && Value.in_strings (JStr name) AbiValidator.dangerousNames
               = true).
  { apply dangerous_cases in Hin as [-> | [-> | ->]]; repeat split; reflexivity. }
  destruct Hchecks as [H1 [H2 H3]]. rewrite H1, H2, H3.
  split.
  - now destruct (negb _ || negb _).
  - intros t Ht Hne. rewrite Ht.
    destruct t; [contradiction | reflexivity].
Qed.

Lemma each_indexed_invalid f l :
  (exists x, In x l /\ forall j, valid (f x j) = false) ->
  forall i, valid (AbiValidator.each_indexed f l i) = false.
Proof.
  intros [x [Hin Hx]]. induction l as [|y l IH]; [contradiction|].
  intros i. simpl. destruct (valid (f y i)) eqn:E; simpl; [|exact E].
  destruct Hin as [-> | Hin]; [rewrite Hx in E; discriminate | now apply IH].
Qed.

Lemma with_prop_lookup {A} k props (absent : A) present :
  AbiValidator.with_prop k props absent present
  = match Value.lookup k props with
    | Some v => present v
    | None => absent
    end.
Proof.
  unfold AbiValidator.with_prop.
  induction props as [|[k' v] props IH]; [reflexivity|].
  simpl. now destruct (Str.eqb k k').
Qed.

Lemma get_lookup props k v :
  Value.get (JObj props) k = v -> v <> JUndefined ->
  Value.lookup k props = Some v.
Proof.
  simpl. destruct (Value.lookup k props); intros <- H; [reflexivity|].
  now contradiction H.
Qed.

(** A parameter that holds a reserved name anywhere is refused. *)
Lemma holder_refused p q :
  dangerous_parameter p -> Holds p q ->
  forall context, valid (AbiValidator.validateABIParameter q context) = false.
Proof.
  intros [name [Hname Hin]] H.
  induction H as [|q t comps c Ht Htuple Hcomps Hc _ IH]; intros context.
  - now apply (reserved_name_refused p name context).
  - rewrite validateABIParameter_unfold. cbv zeta. rewrite Ht.
    change (Value.text (JStr t)) with t. rewrite Htuple.
    repeat match goal with
           | |- valid (if ?b then fail _ else _) = false =>
               destruct b; [reflexivity|]
           end.
    destruct q as [| | | | | |props]; try discriminate Ht.
    rewrite with_prop_lookup.
    rewrite (get_lookup props _ _ Hcomps) by discriminate.
    cbn [Value.truthy]. apply each_indexed_invalid.
    exists c. split; [exact Hc|]. intros j. apply IH.
Qed.

Lemma parameters_refused ps q :
  In q ps ->
  (forall context, valid (AbiValidator.validateABIParameter q context) = false) ->
  forall context,
    valid (AbiValidator.validateABIParameters (JArr ps) context) = false.
Proof.
  intros Hin Hq context. simpl. apply each_indexed_invalid.
  exists q. split; [exact Hin|]. intros j. apply Hq.
Qed.

Lemma check_params_inl item k index missing ws r :
  AbiValidator.check_params item k index missing ws = inl r ->
  valid r = false.
Proof.
  unfold AbiValidator.check_params.
  destruct (negb (Value.truthy (Value.get item k))); [discriminate|].
  destruct (valid _) eqn:E; simpl; [discriminate|].
  intros H. injection H as <-. exact E.
Qed.

Lemma check_params_refuses item k index missing ws ps q :
  Value.get item k = JArr ps -> In q ps ->
  (forall context, valid (AbiValidator.validateABIParameter q context) = false) ->
  exists r, AbiValidator.check_params item k index missing ws = inl r
            /\ valid r = false.
Proof.
  intros Hget Hin Hq. unfold AbiValidator.check_params. rewrite Hget.
  cbn [Value.truthy negb].
  rewrite (parameters_refused ps q Hin Hq). cbn [negb].
  eexists. split; [reflexivity|].
  apply (parameters_refused ps q Hin Hq).
Qed.

Lemma invalid_step (x : Result + list jsstring) (k : list jsstring -> Result) :
  (forall r, x = inl r -> valid r = false) ->
  (forall ws, x = inr ws -> valid (k ws) = false) ->
  valid match x with inl r => r | inr ws => k ws end = false.
Proof. intros Hl Hr. destruct x; auto. Qed.

Lemma optional_check_inl (b : bool) item k index missing ws r :
  (if b then AbiValidator.check_params item k index missing ws else inr ws)
  = inl r ->
  valid r = false.
Proof. destruct b; [apply check_params_inl | discriminate]. Qed.

Lemma optional_check_refuses (b : bool) item k index missing ws ps q ws' :
  b = true -> Value.get item k = JArr ps -> In q ps ->
  (forall context, valid (AbiValidator.validateABIParameter q context) = false) ->
  (if b then AbiValidator.check_params item k index missing ws else inr ws)
  <> inr ws'.
Proof.
  intros -> Hget Hin Hq E.
  destruct (check_params_refuses item k index missing ws ps q Hget Hin Hq)
    as [r [Hr _]].
  rewrite Hr in E. discriminate.
Qed.

Lemma in_three v a b c :
  Value.in_strings v [a; b; c] = true ->
  Value.in_strings v [a; b] = true \/ Value.eq_str v c = true.
Proof.
  destruct v; try discriminate. simpl.
  destruct (Str.eqb s a), (Str.eqb s b), (Str.eqb s c); simpl; auto.
Qed.

(** An item with a refused parameter in a list it walks is never
    accepted. *)
Lemma item_refused item q :
  Checked item q ->
  (forall context, valid (AbiValidator.validateABIParameter q context) = false) ->
  forall index r,
    AbiValidator.validateABIItem item index = Returns r -> valid r = false.
Proof.
  intros Hchecked Hq index r.
  unfold AbiValidator.validateABIItem. cbv zeta.
  repeat match goal with
         | |- (if ?b then Returns (fail _) else _) = _ -> _ =>
             destruct b; [intros H; injection H as <-; reflexivity|]
         end.
  match goal with
  | |- match ?x with inl _ => _ | inr _ => _ end = _ -> _ =>
      destruct x as [r1|ws1] eqn:E1
  end.
  { apply optional_check_inl in E1. intros H. injection H as <-. exact E1. }
  match goal with
  | |- match ?x with inl _ => _ | inr _ => _ end = _ -> _ =>
      destruct x as [r2|ws2] eqn:E2
  end.
  { apply optional_check_inl in E2. intros H. injection H as <-. exact E2. }
  destruct (_ && _).
  { destruct (Value.ToString _); [|discriminate].
    intros H. injection H as <-. reflexivity. }
  match goal with
  | |- match ?x with inl _ => _ | inr _ => _ end = _ -> _ =>
      destruct x as [r3|ws3] eqn:E3
  end.
  { apply optional_check_inl in E3. intros H. injection H as <-. exact E3. }
  exfalso.
  destruct Hchecked as [ps Htype Hget Hin | ps Htype Hget Hin].
  - apply in_three in Htype as [Htype | Htype].
    + revert E1. now apply optional_check_refuses with ps q.
    + revert E3. now apply optional_check_refuses with ps q.
  - revert E2. now apply optional_check_refuses with ps q.
Qed.

Lemma items_refused contractName items item :
  In item items ->
  (forall index r,
      AbiValidator.validateABIItem item index = Returns r ->
      valid r = false) ->
  forall i ws out,
    AbiValidator.validate_items contractName items i ws = Returns out ->
    exists failure, out = inl failure /\ valid failure = false.
Proof.
  intros Hin Hitem. induction items as [|x items IH]; [contradiction|].
  intros i ws out. simpl.
  destruct (AbiValidator.validateABIItem x i) as [result|] eqn:Ex;
    [|discriminate].
  destruct (valid result) eqn:E; simpl.
  - destruct Hin as [-> | Hin].
    + rewrite (Hitem i result Ex) in E. discriminate.
    + now apply IH.
  - intros H. injection H as <-. eexists. split; reflexivity.
Qed.

(** An ABI whose items all have a [stateMutability] that can be
    printed is answered. *)
Lemma printable_returns items contractName :
  (forall item,
      In item items ->
      exists s,
        Value.ToString (Value.get item (str "stateMutability")) = Returns s) ->
  exists r, AbiValidator.validateABI (JArr items) contractName = Returns r.
Proof.
  intros Hprint.
  destruct (AbiValidator.validateABI (JArr items) contractName) as [r|e]
    eqn:E; [now exists r|].
  apply ContractFacts.validateABI_throws in E
    as [items' [item [Ei [Hin Hthrows]]]].
  injection Ei as <-. destruct (Hprint item Hin) as [s Hs].
  rewrite Hs in Hthrows. discriminate.
Qed.

(** [validateABI] accepts no ABI that has, in a list it walks, a
    parameter holding a reserved name. *)
Theorem reserved_name_rejected items item q p contractName :
  In item items -> Checked item q -> Holds p q -> dangerous_parameter p ->
  forall r,
    AbiValidator.validateABI (JArr items) contractName = Returns r ->
    valid r = false.
Proof.
  intros Hin Hchecked Hholds Hp r.
  pose proof (holder_refused p q Hp Hholds) as Hq.
  pose proof (item_refused item q Hchecked Hq) as Hitem.
  unfold AbiValidator.validateABI.
  destruct items as [|x items]; [intros H; injection H as <-; reflexivity|].
  destruct (AbiValidator.validate_items contractName (x :: items) 0 [])
    as [out|] eqn:E; [|discriminate].
  destruct (items_refused contractName (x :: items) item Hin Hitem
              0%nat [] out E) as [failure [-> Hf]].
  intros H. injection H as <-. exact Hf.
Qed.

End AbiFacts.

(** C8.  A parameter named [__proto__], [constructor] or [prototype]
    (and having a type) is refused by [validateABIParameter] with the
    [not allowed] error, and [validateABI] accepts no ABI that holds
    such a parameter in a list it walks (inputs of functions, constructors
    and events, outputs of functions, and their tuple components at any
    depth): whenever it returns the ABI is refused, and it returns
    unless the [stateMutability] of an item cannot be printed.  The
    function item of the specification is refused with [not allowed].
    The inputs of an [error] item are not walked: the same parameter
    there is accepted. *)
Theorem C8_reserved_names :
  (forall p name t context,
      Value.get p (str "name") = JStr name ->
      In name AbiValidator.dangerousNames ->
      Value.get p (str "type") = JStr t -> t <> [] ->
      AbiValidator.validateABIParameter p context
      = fail (context ++ str ": parameter name '" ++ name
              ++ str "' is not allowed (security risk)"))
  /\ (forall items item q p contractName,
        In item items -> Checked item q -> Holds p q ->
        dangerous_parameter p ->
        (forall r,
            AbiValidator.validateABI (JArr items) contractName = Returns r ->
            valid r = false)
        /\ ((forall item',
                In item' items ->
                exists s,
                  Value.ToString (Value.get item' (str "stateMutability"))
                  = Returns s) ->
            exists r,
              AbiValidator.validateABI (JArr items) contractName = Returns r
              /\ valid r = false))
  /\ AbiValidator.validateABI (JArr [Examples.function_item]) (str "contract")
     = Returns
         (fail (str "contract: ABI item 0.inputs[0]: parameter name '__proto__' is not allowed (security risk)"))
  /\ AbiValidator.validateABI (JArr [Examples.error_item]) (str "contract")
     = Returns
         (ok_warnings
            [str "contract: ABI has no constructor or functions (may be interface/library)"]).
Proof.
  split; [|split; [|split; reflexivity]].
  - intros p name t context Hname Hin Ht Hne.
    exact (proj2 (AbiFacts.reserved_name_refused p name context Hname Hin)
                 t Ht Hne).
  - intros items item q p contractName Hin Hchecked Hholds Hp.
    pose proof (AbiFacts.reserved_name_rejected
                  items item q p contractName Hin Hchecked Hholds Hp) as Hno.
    split; [exact Hno|]. intros Hprint.
    destruct (AbiFacts.printable_returns items contractName Hprint) as [r Hr].
    exists r. split; [exact Hr | exact (Hno r Hr)].
Qed.

(** C8 at the parameter and the function item of the specification. *)
Lemma C8_witness :
  AbiValidator.validateABIParameter Examples.proto_parameter (str "test")
  = fail (str "test" ++ str ": parameter name '" ++ str "__proto__"
          ++ str "' is not allowed (security risk)")
  /\ exists r,
       AbiValidator.validateABI (JArr [Examples.function_item])
                                (str "contract") = Returns r
       /\ valid r = false.
Proof.
  split.
  - apply (proj1 C8_reserved_names Examples.proto_parameter
             (str "__proto__") (str "uint256") (str "test")).
    + reflexivity.
    + simpl. tauto.
    + reflexivity.
    + discriminate.
  - apply (proj1 (proj2 C8_reserved_names)
             [Examples.function_item] Examples.function_item
             Examples.proto_parameter Examples.proto_parameter).
    + now left.
    + apply CheckedInputs with (ps := [Examples.proto_parameter]).
      * reflexivity.
      * reflexivity.
      * now left.
    + constructor.
    + exists (str "__proto__"). split; [reflexivity | simpl; tauto].
    + intros item' [<- | []]. eexists. reflexivity.
Defined.

(** * Further properties of the validators and of the utilities *)

(** ** Shared facts *)

Module CommonFacts.
Import RegExp RegExpFacts.

(** The words of a single character. *)
Lemma Matches_Chr a s : Matches (Chr a) s <-> s = [N_of_ascii a].
Proof.
  unfold Chr. rewrite Matches_Set. unfold in_set, Str.in_ranges. simpl. split.
  - intros [c [-> H]].
    rewrite orb_false_r, andb_true_iff, !N.leb_le in H.
    assert (c = N_of_ascii a) by lia. now subst.
  - intros ->. exists (N_of_ascii a).
    now rewrite orb_false_r, andb_true_iff, !N.leb_le.
Qed.

(** Membership in a list of strings. *)
Lemma mem_iff m l : Str.mem m l = true <-> In m l.
Proof.
  unfold Str.mem. rewrite existsb_exists. split.
  - intros [x [Hin H]]. apply Str_eqb_eq in H. now subst.
  - intros H. exists m. split; [exact H | apply Str_eqb_refl].
Qed.

End CommonFacts.

(** ** Structural-Validator: the kind of a declaration *)

Module ContractTypeFacts.
Import RegExp RegExpFacts Constants SolidityValidator SolidityFacts.

(** A match of the [abstract contract] pattern holds a match of the
    [contract] pattern. *)
Lemma abstract_is_contract content name :
  test (declaration [Lit "abstract"; Plus White; Lit "contract"] name) content
  = true ->
  test (declaration [Lit "contract"] name) content = true.
Proof.
  unfold declaration. rewrite !search_iff.
  intros [pre [mid [post [-> H]]]].
  apply (Matches_seq_app [Lit "abstract"; Plus White; Lit "contract"]) in H
    as [kw [tail [-> [Hkw Htail]]]].
  apply Matches_seq_cons in Hkw as [a [k1 [-> [Ha Hkw]]]].
  apply Matches_seq_cons in Hkw as [w [k2 [-> [Hw Hkw]]]].
  simpl in Hkw.
  exists (pre ++ a ++ w), (k2 ++ tail), post. split.
  - now rewrite <- !app_assoc.
  - apply (Matches_seq_app [Lit "contract"]). exists k2, tail.
    repeat split; auto.
Qed.

Lemma first_type_literal content name :
  first_type (combine contract_types (literal_patterns name)) content
  = if test (declaration [Lit "contract"] name) content
    then Some (str "contract")
    else if test (declaration [Lit "interface"] name) content
    then Some (str "interface")
    else if test (declaration [Lit "library"] name) content
    then Some (str "library")
    else if test (declaration [Lit "abstract"; Plus White; Lit "contract"]
                              name) content
    then Some (str "abstract")
    else None.
Proof. reflexivity. Qed.

End ContractTypeFacts.

(** For a name made of letters, digits and underscores,
    [extractContractType] answers [null] exactly when the source holds
    no declaration text of the name, in which case
    [validateSolidityStructure] does not accept the source either; its
    answer is never [abstract]: the unanchored [contract] pattern is
    tried first and matches inside every [abstract contract]
    declaration. *)
Theorem extractContractType_never_abstract RegExp_new content name :
  forallb SolidityValidator.is_word name = true ->
  exists t,
    SolidityValidator.extractContractType RegExp_new content name = Returns t
    /\ (t = None <-> ~ declares content name)
    /\ In t [None; Some (str "contract"); Some (str "interface");
             Some (str "library")]
    /\ (forall pre w1 w2 w3 post,
           w1 <> [] -> all_white w1 -> w2 <> [] -> all_white w2 ->
           all_white w3 ->
           content = pre ++ str "abstract" ++ w1 ++ str "contract" ++ w2
                     ++ name ++ w3 ++ str "{" ++ post ->
           t = Some (str "contract")).
Proof.
  intros Hnew. unfold SolidityValidator.extractContractType.
  rewrite (SolidityFacts.construct_literal _ _ Hnew).
  eexists. split; [reflexivity|].
  rewrite ContractTypeFacts.first_type_literal.
  pose proof (SolidityFacts.hasDeclaration_iff content name) as Hdecl.
  pose proof (ContractTypeFacts.abstract_is_contract content name) as Habs.
  assert (Hform : forall pre w1 w2 w3 post,
             w2 <> [] -> all_white w2 -> all_white w3 ->
             content = pre ++ str "abstract" ++ w1 ++ str "contract" ++ w2
                       ++ name ++ w3 ++ str "{" ++ post ->
             RegExp.test
               (SolidityValidator.declaration [RegExp.Lit "contract"] name)
               content = true).
  { intros pre w1 w2 w3 post Hn2 Hw2 Hw3 ->.
    unfold SolidityValidator.declaration. apply RegExpFacts.search_iff.
    exists (pre ++ str "abstract" ++ w1),
           (str "contract" ++ w2 ++ name ++ w3 ++ str "{"), post.
    split; [now rewrite <- !app_assoc|].
    apply (RegExpFacts.Matches_seq_app [RegExp.Lit "contract"]).
    exists (str "contract"), (w2 ++ name ++ w3 ++ str "{").
    repeat split; [now apply SolidityFacts.Matches_Lit|].
    apply SolidityFacts.Matches_tail. now exists w2, w3. }
  unfold SolidityValidator.literal_patterns, SolidityValidator.keywords in Hdecl.
  cbn [map existsb] in Hdecl.
  set (c := RegExp.test
              (SolidityValidator.declaration [RegExp.Lit "contract"] name)
              content) in *.
  set (i := RegExp.test
              (SolidityValidator.declaration [RegExp.Lit "interface"] name)
              content) in *.
  set (l := RegExp.test
              (SolidityValidator.declaration [RegExp.Lit "library"] name)
              content) in *.
  set (a := RegExp.test
              (SolidityValidator.declaration
                 [RegExp.Lit "abstract"; RegExp.Plus RegExp.White;
                  RegExp.Lit "contract"] name) content) in *.
  assert (Hc : forall pre w1 w2 w3 post,
             w1 <> [] -> all_white w1 -> w2 <> [] -> all_white w2 ->
             all_white w3 ->
             content = pre ++ str "abstract" ++ w1 ++ str "contract" ++ w2
                       ++ name ++ w3 ++ str "{" ++ post ->
             c = true) by eauto.
  clearbody c i l a. clear Hform.
  destruct c.
  - simpl in Hdecl. split; [|split].
    + split; [discriminate|]. intros H. exfalso. now apply H, Hdecl.
    + simpl. tauto.
    + reflexivity.
  - assert (a = false) as ->
        by (destruct a; [specialize (Habs eq_refl); discriminate | reflexivity]).
    split; [|split].
    + destruct i, l; simpl in *; split; try discriminate; try tauto;
        try (intros H; exfalso; apply H, Hdecl; reflexivity).
      intros _ H. apply Hdecl in H. discriminate.
    + destruct i, l; simpl; tauto.
    + intros pre w1 w2 w3 post H1 H2 H3 H4 H5 H6.
      specialize (Hc pre w1 w2 w3 post H1 H2 H3 H4 H5 H6). discriminate.
Qed.

(** At an abstract contract [Vault]. *)
Lemma extractContractType_never_abstract_witness :
  exists t,
    SolidityValidator.extractContractType
      (fun _ => Throws [])
      (str "abstract contract Vault {") (str "Vault") = Returns t
    /\ (t = None <-> ~ declares (str "abstract contract Vault {") (str "Vault"))
    /\ In t [None; Some (str "contract"); Some (str "interface");
             Some (str "library")]
    /\ (forall pre w1 w2 w3 post,
           w1 <> [] -> all_white w1 -> w2 <> [] -> all_white w2 ->
           all_white w3 ->
           str "abstract contract Vault {"
           = pre ++ str "abstract" ++ w1 ++ str "contract" ++ w2
             ++ str "Vault" ++ w3 ++ str "{" ++ post ->
           t = Some (str "contract")).
Proof.
  apply (extractContractType_never_abstract
           (fun _ => Throws [])
           (str "abstract contract Vault {") (str "Vault")).
  reflexivity.
Defined.

(** ** Structural-Validator: dangerous constructs *)

(** The source holds [word], optional white space and an opening
    parenthesis. *)
Definition calls (content : jsstring) (word : string) : Prop :=
  exists pre w post,
    all_white w /\ content = pre ++ str word ++ w ++ str "(" ++ post.

Module DangerFacts.
Import RegExp RegExpFacts Constants SolidityValidator SolidityFacts.
Import CommonFacts.

Lemma call_of_iff word content :
  test (call_of word) content = true <-> calls content word.
Proof.
  unfold call_of. rewrite search_iff. unfold calls. split.
  - intros [pre [mid [post [-> H]]]].
    apply Matches_seq_cons in H as [k [m1 [-> [Hk H]]]].
    apply Matches_Lit in Hk as ->.
    apply Matches_seq_cons in H as [w [m2 [-> [Hw H]]]].
    apply Matches_Star_White in Hw. simpl in H. apply Matches_Chr in H as ->.
    exists pre, w, post. split; [exact Hw|]. now rewrite <- !app_assoc.
  - intros [pre [w [post [Hw ->]]]].
    exists pre, (str word ++ w ++ str "("), post. split.
    + now rewrite <- !app_assoc.
    + apply Matches_seq_cons. exists (str word), (w ++ str "(").
      repeat split; [now apply Matches_Lit|].
      apply Matches_seq_cons. exists w, (str "(").
      repeat split; [now apply Matches_Star_White|].
      simpl. now apply Matches_Chr.
Qed.

Lemma literal_iff word content :
  test (mkRegExp false (Lit word) false) content = true
  <-> exists pre post, content = pre ++ str word ++ post.
Proof.
  rewrite search_iff. split.
  - intros [pre [mid [post [-> H]]]]. apply Matches_Lit in H as ->.
    now exists pre, post.
  - intros [pre [post ->]]. exists pre, (str word), post.
    split; [reflexivity | now apply Matches_Lit].
Qed.

End DangerFacts.

(** [checkDangerousPatterns] reports a construct exactly when the source
    holds it: the name followed by optional white space and an opening
    parenthesis ([tx.origin]: the text itself), wherever it stands, a
    comment or a string included.  Every warning is one of the six
    messages of the table (the fallback message is never used), each at
    most once. *)
Theorem checkDangerousPatterns_iff content :
  let ws := SolidityValidator.checkDangerousPatterns content in
  (In (str "Contains selfdestruct - verify this is intentional and safe") ws
   <-> calls content "selfdestruct")
  /\ (In (str "Contains suicide (deprecated) - use selfdestruct if needed") ws
      <-> calls content "suicide")
  /\ (In (str "Contains delegatecall - potential proxy vulnerability, ensure target is trusted") ws
      <-> calls content "delegatecall")
  /\ (In (str "Uses tx.origin - authentication bypass risk, use msg.sender instead") ws
      <-> exists pre post, content = pre ++ str "tx.origin" ++ post)
  /\ (In (str "Uses blockhash - can be manipulated by miners") ws
      <-> calls content "blockhash")
  /\ (In (str "Contains callcode (deprecated) - use delegatecall if needed") ws
      <-> calls content "callcode")
  /\ (forall m, In m ws -> In m (map snd SolidityValidator.messages))
  /\ NoDup ws.
Proof.
  intros ws. subst ws.
  rewrite <- !DangerFacts.call_of_iff, <- DangerFacts.literal_iff.
  unfold SolidityValidator.checkDangerousPatterns,
    Constants.DANGEROUS_SOLIDITY_PATTERNS.
  cbn [flat_map fst snd].
  generalize (RegExp.test (Constants.call_of "selfdestruct") content).
  generalize (RegExp.test (Constants.call_of "suicide") content).
  generalize (RegExp.test (Constants.call_of "delegatecall") content).
  generalize (RegExp.test (RegExp.mkRegExp false (RegExp.Lit "tx.origin") false)
                          content).
  generalize (RegExp.test (Constants.call_of "blockhash") content).
  generalize (RegExp.test (Constants.call_of "callcode") content).
  intros b6 b5 b4 b3 b2 b1.
  assert (Hmem : forall m l b, (Str.mem m l = true <-> b = true) ->
                               (In m l <-> b = true)).
  { intros m l b H. now rewrite <- CommonFacts.mem_iff. }
  repeat match goal with
         | |- (In _ _ <-> _) /\ _ =>
             split; [apply Hmem; destruct b1, b2, b3, b4, b5, b6;
                     vm_compute; split; auto; discriminate|]
         end.
  clear Hmem. split.
  - intros m H.
    assert (Hsub : forall (b : bool) (x : jsstring) l,
               In m ((if b then [x] else []) ++ l) -> m = x \/ In m l).
    { intros [] x l; simpl; [intros [E|E]; auto | auto]. }
    repeat (apply Hsub in H; destruct H as [-> | H]; [simpl; tauto|]).
    destruct H.
  - destruct b1, b2, b3, b4, b5, b6; cbn [app];
      repeat (constructor; [rewrite <- CommonFacts.mem_iff; vm_compute;
                            discriminate|]);
      constructor.
Qed.

(** ** Structural-Validator: what is checked first *)

Module BlankFacts.

Lemma trimStart_nil s : Str.trimStart s = [] <-> all_white s.
Proof.
  unfold all_white. induction s as [|c s IH]; simpl; [tauto|].
  destruct (Str.is_white c); simpl; [exact IH|]. split; discriminate.
Qed.

Lemma all_white_app a b : all_white (a ++ b) <-> all_white a /\ all_white b.
Proof. unfold all_white. rewrite forallb_app. apply andb_true_iff. Qed.

Lemma all_white_rev s : all_white (rev s) <-> all_white s.
Proof.
  unfold all_white. rewrite !forallb_forall. split; intros H x Hx; apply H.
  - apply in_rev in Hx. exact Hx.
  - apply in_rev. exact Hx.
Qed.

Lemma trimStart_white s : all_white (Str.trimStart s) <-> all_white s.
Proof.
  unfold all_white. induction s as [|c s IH]; simpl; [tauto|].
  destruct (Str.is_white c) eqn:E; simpl; [exact IH|].
  rewrite E. simpl. tauto.
Qed.

(** [s.trim()] is empty exactly when [s] is white space throughout. *)
Lemma trim_nil s : Str.trim s = [] <-> all_white s.
Proof.
  unfold Str.trim, Str.trimEnd. split.
  - intros H. apply (f_equal (@rev N)) in H. rewrite rev_involutive in H.
    simpl in H.
    apply (proj1 (trimStart_white s)), (proj1 (all_white_rev _)),
      (proj1 (trimStart_nil _)), H.
  - intros H. apply trimStart_nil in H. now rewrite H.
Qed.

Lemma blank_iff content :
  (match content with [] => true | _ => false end
   || (List.length (Str.trim content) =? 0)%nat) = true
  <-> all_white content.
Proof.
  rewrite <- trim_nil, orb_true_iff, Nat.eqb_eq, length_zero_iff_nil.
  destruct content; [split; auto|]. split; [intros [H|H]; [discriminate|auto] | auto].
Qed.

End BlankFacts.

(** [validateSolidityStructure] answers [Solidity file is empty]
    exactly when the source is white space throughout (the empty source
    included), whatever the contract name; a source that is not, and
    that has more than 512000 code units, is answered [Solidity file too
    large] with its length.  Neither answer needs the patterns of the
    contract name to be built. *)
Theorem validateSolidityStructure_first_checks RegExp_new content name :
  let result :=
    SolidityValidator.validateSolidityStructure RegExp_new content name in
  (result = Returns (fail (str "Solidity file is empty"))
   <-> all_white content)
  /\ (~ all_white content ->
      512000 < N.of_nat (List.length content) ->
      result = Returns (fail (str "Solidity file too large: "
                              ++ Str.of_nat (List.length content)
                              ++ str " bytes (max: 512000)"))).
Proof.
  intros result. subst result.
  unfold SolidityValidator.validateSolidityStructure.
  pose proof (BlankFacts.blank_iff content) as Hblank.
  destruct (match content with [] => true | _ => false end
            || (List.length (Str.trim content) =? 0)%nat).
  { split; [tauto|]. intros H. exfalso. apply H, Hblank. reflexivity. }
  assert (Hnot : ~ all_white content)
    by (intros H; apply Hblank in H; discriminate).
  split.
  - split; [|contradiction]. intros H. exfalso.
    destruct (Constants.MAX_SOLIDITY_FILE_SIZE <? N.of_nat (List.length content)).
    { discriminate. }
    destruct (negb (RegExp.test SolidityValidator.PRAGMA content)).
    { injection H as H. discriminate. }
    destruct (SolidityValidator.construct RegExp_new name
                (SolidityValidator.forms name)); [|discriminate].
    destruct (negb (existsb _ a)).
    + injection H as H. discriminate.
    + discriminate.
  - intros _ Hlen.
    assert (E : (Constants.MAX_SOLIDITY_FILE_SIZE
                 <? N.of_nat (List.length content)) = true).
    { apply N.ltb_lt. exact Hlen. }
    rewrite E. reflexivity.
Qed.

(** ** Terminal output: [sanitizeForTerminal] *)

(** A piece of terminal output: text, or a colour code with its
    parameters. *)
Inductive Piece : Type :=
| Text (t : jsstring)
| Colour (parameters : jsstring).

Definition render (p : Piece) : jsstring :=
  match p with
  | Text t => t
  | Colour parameters => [27; 91] ++ parameters ++ [109]
  end.

Definition plain (p : Piece) : jsstring :=
  match p with
  | Text t => t
  | Colour _ => []
  end.

(** The text holds no control character; the parameters are digits and
    semicolons. *)
Definition proper (p : Piece) : Prop :=
  match p with
  | Text t => forallb (fun c => negb (SafeJson.is_control c)) t = true
  | Colour parameters => forallb SafeJson.in_code parameters = true
  end.

Module SanitizeFacts.
Import SafeJson.

Lemma span_all p a b :
  forallb p a = true ->
  match b with c :: _ => p c = false | [] => True end ->
  Json.span p (a ++ b) = (a, b).
Proof.
  intros Ha Hb. induction a as [|x a IH]; simpl.
  - destruct b as [|c b]; simpl; [reflexivity|]. now rewrite Hb.
  - simpl in Ha. apply andb_true_iff in Ha as [Hx Ha].
    now rewrite Hx, (IH Ha).
Qed.

Lemma span_parts p s a b :
  Json.span p s = (a, b) ->
  s = a ++ b /\ forallb p a = true
  /\ match b with c :: _ => p c = false | [] => True end.
Proof.
  revert a b. induction s as [|x s IH]; simpl; intros a b H.
  - injection H as <- <-. auto.
  - destruct (p x) eqn:Ex.
    + destruct (Json.span p s) as [a' b'] eqn:Es. injection H as <- <-.
      destruct (IH a' b' eq_refl) as [-> [Ha Hb]].
      simpl. rewrite Ex. auto.
    + injection H as <- <-. simpl. auto.
Qed.

(** [code_length] finds the match of the pattern at the head of the
    text. *)
Lemma code_length_iff s n :
  code_length s = Some n
  <-> exists parameters rest,
        forallb in_code parameters = true
        /\ s = [27; 91] ++ parameters ++ [109] ++ rest
        /\ n = (3 + List.length parameters)%nat.
Proof.
  unfold code_length. split.
  - destruct s as [|c0 s]; [discriminate|].
    destruct (N.eq_dec c0 27) as [->|Hc0].
    2:{ destruct c0 as [|p]; [discriminate|].
        do 5 (destruct p; try discriminate). contradiction. }
    destruct s as [|c1 s]; [discriminate|].
    destruct (N.eq_dec c1 91) as [->|Hc1].
    2:{ destruct c1 as [|p]; [discriminate|].
        do 7 (destruct p; try discriminate). contradiction. }
    destruct (Json.span in_code s) as [ds rest] eqn:Es.
    apply span_parts in Es as [-> [Hds _]].
    destruct rest as [|c2 rest]; [discriminate|].
    destruct (N.eq_dec c2 109) as [->|Hc2].
    2:{ destruct c2 as [|p]; [discriminate|].
        do 7 (destruct p; try discriminate). contradiction. }
    intros H. injection H as <-. now exists ds, rest.
  - intros [ds [rest [Hds [-> ->]]]]. cbn [app].
    change (ds ++ 109 :: rest) with (ds ++ [109] ++ rest).
    rewrite (span_all in_code ds ([109] ++ rest) Hds eq_refl). reflexivity.
Qed.

Lemma Matches_unit c s :
  RegExp.Matches (RegExp.Set_ false [(c, c)]) s <-> s = [c].
Proof.
  rewrite RegExpFacts.Matches_Set. unfold RegExp.in_set, Str.in_ranges.
  simpl. split.
  - intros [x [-> H]].
    rewrite orb_false_r, andb_true_iff, !N.leb_le in H.
    assert (x = c) by lia. now subst.
  - intros ->. exists c. now rewrite orb_false_r, andb_true_iff, !N.leb_le.
Qed.

(** The words of the pattern. *)
Lemma Matches_code m :
  RegExp.Matches (RegExp.body ANSI_CODE) m
  <-> exists parameters,
        forallb in_code parameters = true
        /\ m = [27; 91] ++ parameters ++ [109].
Proof.
  unfold ANSI_CODE. cbn [RegExp.body]. split.
  - intros H.
    apply RegExpFacts.Matches_seq_cons in H as [a [m1 [-> [Ha H]]]].
    apply Matches_unit in Ha as ->.
    apply RegExpFacts.Matches_seq_cons in H as [b [m2 [-> [Hb H]]]].
    apply Matches_unit in Hb as ->.
    apply RegExpFacts.Matches_seq_cons in H as [ds [m3 [-> [Hds H]]]].
    apply RegExpFacts.Matches_Star_Set in Hds.
    simpl in H. apply Matches_unit in H as ->.
    now exists ds.
  - intros [ds [Hds ->]].
    apply RegExpFacts.Matches_seq_cons. exists [27], ([91] ++ ds ++ [109]).
    repeat split; [now apply Matches_unit|].
    apply RegExpFacts.Matches_seq_cons. exists [91], (ds ++ [109]).
    repeat split; [now apply Matches_unit|].
    apply RegExpFacts.Matches_seq_cons. exists ds, [109].
    repeat split; [now apply RegExpFacts.Matches_Star_Set|].
    simpl. now apply Matches_unit.
Qed.

Lemma remove_codes_skip s :
  forall k, remove_codes k s = remove_codes 0 (skipn k s).
Proof.
  induction s as [|c s IH]; intros [|k]; try reflexivity.
  simpl skipn. rewrite <- IH. reflexivity.
Qed.

Lemma remove_codes_cons c s :
  remove_codes 0 (c :: s)
  = match code_length (c :: s) with
    | Some n => remove_codes 0 (skipn n (c :: s))
    | None => c :: remove_codes 0 s
    end.
Proof.
  cbn [remove_codes].
  destruct (code_length (c :: s)) as [[|k]|] eqn:E; try reflexivity.
  - apply code_length_iff in E as [ds [rest [_ [_ E]]]]. discriminate.
  - simpl skipn. apply remove_codes_skip.
Qed.

(** A code at the head of the text is left out. *)
Lemma remove_codes_code parameters rest :
  forallb in_code parameters = true ->
  remove_codes 0 ([27; 91] ++ parameters ++ [109] ++ rest)
  = remove_codes 0 rest.
Proof.
  intros H.
  assert (E : code_length ([27; 91] ++ parameters ++ [109] ++ rest)
              = Some (3 + List.length parameters)%nat).
  { apply code_length_iff. now exists parameters, rest. }
  assert (Hskip : forall a b : jsstring, skipn (List.length a) (a ++ b) = b).
  { intros a b. rewrite skipn_app, skipn_all, Nat.sub_diag. reflexivity. }
  cbn [app] in *. rewrite remove_codes_cons, E. f_equal.
  replace (3 + List.length parameters)%nat
    with (List.length ([27; 91] ++ parameters ++ [109]))
    by (rewrite !length_app; simpl; lia).
  replace (27 :: 91 :: parameters ++ 109 :: rest)
    with (([27; 91] ++ parameters ++ [109]) ++ rest)
    by (now rewrite <- !app_assoc).
  apply Hskip.
Qed.

Lemma control_escape : is_control 27 = true.
Proof. reflexivity. Qed.

(** Text without a control character is passed over. *)
Lemma remove_codes_text t rest :
  forallb (fun c => negb (is_control c)) t = true ->
  remove_codes 0 (t ++ rest) = t ++ remove_codes 0 rest.
Proof.
  induction t as [|c t IH]; intros H; [reflexivity|].
  simpl in H. apply andb_true_iff in H as [Hc Ht].
  cbn [app]. rewrite remove_codes_cons.
  destruct (code_length (c :: t ++ rest)) as [n|] eqn:E.
  - apply code_length_iff in E as [ds [r [_ [E _]]]].
    injection E as -> _. discriminate.
  - now rewrite (IH Ht).
Qed.

Lemma filter_clean t :
  forallb (fun c => negb (is_control c)) t = true ->
  filter (fun c => negb (is_control c)) t = t.
Proof.
  induction t as [|c t IH]; simpl; [reflexivity|].
  intros H. apply andb_true_iff in H as [Hc Ht]. now rewrite Hc, (IH Ht).
Qed.

Lemma filter_is_clean s :
  forallb (fun c => negb (is_control c))
          (filter (fun c => negb (is_control c)) s) = true.
Proof.
  apply forallb_forall. intros x Hx. now apply filter_In in Hx.
Qed.

Lemma remove_codes_length s :
  forall k, (List.length (remove_codes k s) <= List.length s)%nat.
Proof.
  induction s as [|c s IH]; intros k; [destruct k; simpl; lia|].
  cbn [remove_codes]. destruct k as [|k].
  - destruct (code_length (c :: s)) as [[|n]|]; simpl.
    + specialize (IH 0%nat). lia.
    + specialize (IH n). lia.
    + specialize (IH 0%nat). lia.
  - specialize (IH k). simpl. lia.
Qed.

(** Each code is left out whole and the text between the codes is
    kept. *)
Lemma sanitize_pieces pieces :
  Forall proper pieces ->
  sanitizeForTerminal (JStr (List.concat (map render pieces)))
  = Returns (List.concat (map plain pieces)).
Proof.
  intros H. unfold sanitizeForTerminal. f_equal.
  induction H as [|p pieces Hp _ IH]; [reflexivity|].
  cbn [map List.concat]. destruct p as [t|parameters]; cbn [render plain proper] in *.
  - rewrite (remove_codes_text _ _ Hp), filter_app, IH.
    now rewrite (filter_clean _ Hp).
  - rewrite <- !app_assoc.
    rewrite (remove_codes_code _ _ Hp). exact IH.
Qed.

End SanitizeFacts.

(** The result of [sanitizeForTerminal] on a string holds no control
    character (none of U+0000 to U+001F and U+007F to U+009F, so no
    escape character either) and is no longer than the string;
    sanitizing it again changes nothing, and a string without control
    characters comes back as it is. *)
Theorem sanitizeForTerminal_clean s :
  exists out,
    SafeJson.sanitizeForTerminal (JStr s) = Returns out
    /\ (forall c, In c out -> ~ (c <= 31 \/ 127 <= c <= 159))
    /\ (List.length out <= List.length s)%nat
    /\ SafeJson.sanitizeForTerminal (JStr out) = Returns out
    /\ ((forall c, In c s -> ~ (c <= 31 \/ 127 <= c <= 159)) -> out = s).
Proof.
  unfold SafeJson.sanitizeForTerminal. eexists. split; [reflexivity|].
  assert (Hctl : forall c, SafeJson.is_control c = false
                           <-> ~ (c <= 31 \/ 127 <= c <= 159)).
  { intros c. unfold SafeJson.is_control, Str.in_ranges. simpl.
    rewrite orb_false_r. split.
    - intros H. apply orb_false_iff in H as [H1 H2].
      apply andb_false_iff in H1, H2.
      rewrite !N.leb_gt in H1, H2. lia.
    - intros H. apply orb_false_iff. split; apply andb_false_iff;
        rewrite !N.leb_gt; lia. }
  assert (Hplain : forall t,
             forallb (fun c => negb (SafeJson.is_control c)) t = true ->
             filter (fun c => negb (SafeJson.is_control c))
                    (SafeJson.remove_codes 0 t) = t).
  { intros t Ht.
    pose proof (SanitizeFacts.remove_codes_text t [] Ht) as E.
    rewrite app_nil_r in E. simpl in E. rewrite app_nil_r in E.
    rewrite E. now apply SanitizeFacts.filter_clean. }
  split; [|split; [|split]].
  - intros c Hc. apply filter_In in Hc as [_ Hc].
    apply negb_true_iff in Hc. now apply Hctl.
  - etransitivity; [apply filter_length_le|].
    apply SanitizeFacts.remove_codes_length.
  - rewrite Hplain by apply SanitizeFacts.filter_is_clean. reflexivity.
  - intros H. apply Hplain. apply forallb_forall. intros c Hc.
    apply negb_true_iff, Hctl. now apply H.
Qed.

(** Output made of text and colour codes is brought back to its text:
    every code is left out whole and the text is kept as it is. *)
Theorem sanitizeForTerminal_strips_colours pieces :
  Forall proper pieces ->
  SafeJson.sanitizeForTerminal (JStr (List.concat (map render pieces)))
  = Returns (List.concat (map plain pieces)).
Proof.
  exact (SanitizeFacts.sanitize_pieces pieces).
Qed.

(** The coloured line [Red] in red, [Green] in green. *)
Lemma sanitizeForTerminal_strips_colours_witness :
  SafeJson.sanitizeForTerminal
    (JStr (List.concat (map render
                       [Colour (str "31"); Text (str "Red"); Colour (str "0");
                        Colour (str "1;32"); Text (str "Green");
                        Colour (str "0")])))
  = Returns
      (List.concat
         (map plain
              [Colour (str "31"); Text (str "Red"); Colour (str "0");
               Colour (str "1;32"); Text (str "Green"); Colour (str "0")])).
Proof.
  apply (sanitizeForTerminal_strips_colours
           [Colour (str "31"); Text (str "Red"); Colour (str "0");
            Colour (str "1;32"); Text (str "Green"); Colour (str "0")]).
  repeat constructor.
Defined.

(** ** URL-Validator: the format check *)

Module UrlFacts.
Import RegExp RegExpFacts Constants UrlValidator.

(** An unanchored class finds a unit of the class. *)
Lemma test_class neg rs s :
  test (mkRegExp false (Set_ neg rs) false) s = true
  <-> exists c, In c s /\ in_set neg rs c = true.
Proof.
  rewrite search_iff. split.
  - intros [pre [mid [post [-> H]]]].
    apply Matches_Set in H as [c [-> H]].
    exists c. split; [|exact H]. apply in_or_app. right. now left.
  - intros [c [Hin H]]. apply in_split in Hin as [pre [post ->]].
    exists pre, [c], post. split; [reflexivity|].
    apply Matches_Set. now exists c.
Qed.

Lemma test_class_false neg rs s :
  test (mkRegExp false (Set_ neg rs) false) s = false
  <-> forall c, In c s -> in_set neg rs c = false.
Proof.
  split.
  - intros H c Hc. destruct (in_set neg rs c) eqn:E; [|reflexivity].
    assert (Ht : test (mkRegExp false (Set_ neg rs) false) s = true)
      by (apply test_class; now exists c).
    congruence.
  - intros H. destruct (test _ s) eqn:E; [|reflexivity].
    apply test_class in E as [c [Hin Hc]]. rewrite (H c Hin) in Hc.
    discriminate.
Qed.

Lemma https_pattern url :
  test URL_HTTPS_PATTERN url = true
  <-> exists rest, url = str "https://" ++ rest /\ rest <> []
                   /\ forall c, In c rest -> Str.is_white c = false.
Proof.
  unfold URL_HTTPS_PATTERN, test. cbn [anchored_start anchored_end body].
  rewrite accepts_iff, Matches_Cat. split.
  - intros [p [rest [-> [Hp Hrest]]]].
    apply Matches_Lit_units in Hp as ->.
    apply Matches_Plus_Set in Hrest as [Hne Hall].
    exists rest. repeat split; auto.
    intros c Hc. rewrite forallb_forall in Hall. specialize (Hall c Hc).
    unfold in_set in Hall. simpl in Hall. now apply negb_true_iff in Hall.
  - intros [rest [-> [Hne Hall]]].
    exists (str "https://"), rest. repeat split.
    + now apply Matches_Lit_units.
    + apply Matches_Plus_Set. split; [exact Hne|].
      apply forallb_forall. intros c Hc. unfold in_set. simpl.
      apply negb_true_iff. now apply Hall.
Qed.

End UrlFacts.

(** [validateURLFormat] accepts exactly the strings of at most 500
    code units that start with [https://], go on with at least one more
    character and hold no white space anywhere; nothing that is not a
    string is accepted. *)
Theorem validateURLFormat_valid_iff v :
  valid (UrlValidator.validateURLFormat v) = true
  <-> exists rest,
        v = JStr (str "https://" ++ rest)
        /\ rest <> []
        /\ (List.length rest <= 492)%nat
        /\ forall c, In c rest -> Str.is_white c = false.
Proof.
  unfold UrlValidator.validateURLFormat.
  destruct v as [| | | |url| |];
    try (split; [discriminate | intros [rest [H _]]; discriminate]).
  pose proof (UrlFacts.https_pattern url) as Hhttps.
  pose proof (UrlFacts.test_class_false false Str.white_ranges url) as Hwhite.
  pose proof (UrlFacts.test_class_false false [(10, 10); (13, 13)] url) as Hnl.
  fold RegExp.White in Hwhite.
  fold UrlValidator.WHITESPACE in Hwhite. fold UrlValidator.NEWLINES in Hnl.
  set (prefix := str "https://") in *.
  split.
  - destruct (Constants.MAX_URL_LENGTH <? N.of_nat (List.length url)) eqn:El;
      [discriminate|].
    destruct (RegExp.test UrlValidator.NEWLINES url); [discriminate|].
    destruct (RegExp.test UrlValidator.WHITESPACE url); [discriminate|].
    destruct (RegExp.test Constants.URL_HTTPS_PATTERN url); [|discriminate].
    intros _. destruct (proj1 Hhttps eq_refl) as [rest [-> [Hne Hall]]].
    exists rest. repeat split; auto.
    apply N.ltb_ge in El. unfold Constants.MAX_URL_LENGTH in El.
    rewrite length_app in El. change (List.length prefix) with 8%nat in El.
    lia.
  - intros [rest [E [Hne [Hlen Hall]]]].
    assert (Eu : url = prefix ++ rest) by (injection E; auto). subst url.
    assert (El : (Constants.MAX_URL_LENGTH
                  <? N.of_nat (List.length (prefix ++ rest))) = false).
    { apply N.ltb_ge. unfold Constants.MAX_URL_LENGTH.
      rewrite length_app. change (List.length prefix) with 8%nat. lia. }
    assert (Hclean : forall c, In c (prefix ++ rest) -> Str.is_white c = false).
    { intros c Hc. apply in_app_or in Hc as [Hc | Hc]; [|now apply Hall].
      simpl in Hc.
      repeat (destruct Hc as [<- | Hc]; [reflexivity|]). destruct Hc. }
    rewrite El.
    assert (En : RegExp.test UrlValidator.NEWLINES (prefix ++ rest) = false).
    { apply Hnl. intros c Hc. specialize (Hclean c Hc).
      unfold RegExp.in_set, Str.in_ranges. simpl.
      unfold Str.is_white, Str.in_ranges in Hclean. simpl in Hclean.
      destruct ((10 <=? c) && (c <=? 10)) eqn:E1.
      { apply andb_true_iff in E1 as [A B]. apply N.leb_le in A, B.
        assert (c = 10) by lia. subst. discriminate. }
      destruct ((13 <=? c) && (c <=? 13)) eqn:E2.
      { apply andb_true_iff in E2 as [A B]. apply N.leb_le in A, B.
        assert (c = 13) by lia. subst. discriminate. }
      reflexivity. }
    rewrite En.
    assert (Ew : RegExp.test UrlValidator.WHITESPACE (prefix ++ rest) = false).
    { apply Hwhite. intros c Hc. unfold RegExp.in_set. simpl.
      exact (Hclean c Hc). }
    rewrite Ew.
    assert (Eh : RegExp.test Constants.URL_HTTPS_PATTERN (prefix ++ rest) = true).
    { apply Hhttps. now exists rest. }
    rewrite Eh. reflexivity.
Qed.

(** ** URL-Validator: messages and the check of several fields *)

Module UrlMessageFacts.
Import UrlValidator.

(** A result of [validateURL] is the plain success or a failure
    whose message starts with the field name. *)
Lemma validateURL_shape newURL v fieldName :
  validateURL newURL v fieldName = ok
  \/ exists tail, tail <> []
                  /\ validateURL newURL v fieldName = fail (fieldName ++ tail).
Proof.
  unfold validateURL.
  destruct (negb (valid (validateURLFormat v))).
  { right. eexists. split; [|reflexivity]. discriminate. }
  destruct (newURL (Value.text v)) as [url|].
  2:{ right. eexists. split; [|reflexivity]. discriminate. }
  destruct (negb (Str.eqb (protocol url) (str "https:"))).
  { right. eexists. split; [|reflexivity]. discriminate. }
  destruct (isBlockedHost (hostname url)).
  { right. eexists. split; [|reflexivity]. discriminate. }
  destruct (match port url with [] => false | _ => true end
            && negb (Str.eqb (port url) (str "443"))).
  { right. eexists. split; [|reflexivity]. discriminate. }
  now left.
Qed.

(** What [validateURLs] makes of a field: the result of [validateURL]
    on the value that [obj[field]] gives, or nothing when that value is
    [undefined] or [null]. *)
Definition checked (newURL : jsstring -> option URL)
           (obj : list (jsstring * JSValue)) (field : jsstring)
  : option Result :=
  check_member newURL (member obj field) field.

Lemma checked_shape newURL obj field r :
  checked newURL obj field = Some r ->
  r = ok \/ exists tail, tail <> [] /\ r = fail (field ++ tail).
Proof.
  unfold checked. destruct (member obj field) as [value| |];
    cbn [check_member]; [| |discriminate].
  - destruct value; try discriminate;
      intros H; injection H as <-; apply validateURL_shape.
  - intros H. injection H as <-. right. eexists.
    split; [|reflexivity]. discriminate.
Qed.

Lemma collect_errors_spec newURL obj urlFields :
  let errs := collect_errors newURL obj urlFields in
  (errs = [] <->
   forall field, In field urlFields ->
                 forall r, checked newURL obj field = Some r -> r = ok)
  /\ (List.length errs <= List.length urlFields)%nat
  /\ (forall e, In e errs ->
                exists field tail,
                  In field urlFields /\ tail <> [] /\ e = field ++ tail
                  /\ checked newURL obj field = Some (fail e)).
Proof.
  induction urlFields as [|field rest IH].
  - simpl. repeat split; auto; try contradiction.
  - destruct IH as [IH1 [IH2 IH3]]. cbv zeta in *.
    cbn [collect_errors]. fold (checked newURL obj field).
    destruct (checked newURL obj field) as [result|] eqn:E.
    + destruct (checked_shape _ _ _ _ E) as [-> | [tail [Hne ->]]];
        cbn [valid error fail ok negb List.length].
      * split; [|split].
        -- rewrite IH1. split.
           ++ intros H f [<- | Hf] r Hr; [congruence | now apply (H f)].
           ++ intros H f Hf. apply H. now right.
        -- lia.
        -- intros e He. destruct (IH3 e He) as [f [t [Hf H]]].
           exists f, t. split; [now right | exact H].
      * split; [|split].
        -- split; [discriminate|]. intros H.
           specialize (H field (or_introl eq_refl) _ E). discriminate.
        -- lia.
        -- intros e [<- | He].
           ++ exists field, tail. split; [now left|].
              split; [exact Hne|]. split; [reflexivity | exact E].
           ++ destruct (IH3 e He) as [f [t [Hf H]]].
              exists f, t. split; [now right | exact H].
    + split; [|split].
      * rewrite IH1. split.
        -- intros H f [<- | Hf] r Hr; [congruence | now apply (H f)].
        -- intros H f Hf. apply H. now right.
      * simpl. lia.
      * intros e He. destruct (IH3 e He) as [f [t [Hf H]]].
        exists f, t. split; [now right | exact H].
Qed.

(** How a field is read. *)
Lemma checked_cases newURL obj field :
  match Value.lookup field obj with
  | Some JUndefined | Some JNull => checked newURL obj field = None
  | Some value =>
      checked newURL obj field = Some (validateURL newURL value field)
  | None =>
      if Str.mem field Value.OBJECT_PROTOTYPE
      then checked newURL obj field
           = Some (fail (field ++ str ": URL must be a string"))
      else checked newURL obj field = None
  end.
Proof.
  unfold checked, member.
  destruct (Value.lookup field obj) as [value|].
  - destruct value; reflexivity.
  - destruct (Str.mem field Value.OBJECT_PROTOTYPE); reflexivity.
Qed.

End UrlMessageFacts.

(** Whatever [new URL] answers, [validateURL] either accepts with
    the plain success object or fails with a message that starts with
    the field name. *)
Theorem validateURL_names_the_field newURL v fieldName :
  UrlValidator.validateURL newURL v fieldName = ok
  \/ exists tail,
       tail <> []
       /\ UrlValidator.validateURL newURL v fieldName
          = fail (fieldName ++ tail).
Proof. apply UrlMessageFacts.validateURL_shape. Qed.

(** [validateURLs] reads each field as [obj[field]]: an own property
    gives its value, and a name that the object does not have but
    inherits from [Object.prototype] ([constructor], [toString], ...)
    gives the inherited member.  A value that is [undefined] or [null] is
    skipped, every other value is handed to [validateURL] under the name
    of the field, and an inherited member fails there as not being a
    string.  The result is valid exactly when every value that was
    handed over passed, and exactly when [errors] is empty; [errors] are
    the messages of the failing fields: no more than there are fields,
    each starting with the name of the field it is about. *)
Theorem validateURLs_checks_present_fields newURL obj urlFields :
  let r := UrlValidator.validateURLs newURL obj urlFields in
  let checked := UrlMessageFacts.checked newURL obj in
  (forall field,
      match Value.lookup field obj with
      | Some JUndefined | Some JNull => checked field = None
      | Some value =>
          checked field = Some (UrlValidator.validateURL newURL value field)
      | None =>
          if Str.mem field Value.OBJECT_PROTOTYPE
          then checked field
               = Some (fail (field ++ str ": URL must be a string"))
          else checked field = None
      end)
  /\ (valid r = true <->
      forall field, In field urlFields ->
                    forall result, checked field = Some result -> result = ok)
  /\ exists errs,
       errors r = Some errs
       /\ (valid r = true <-> errs = [])
       /\ (List.length errs <= List.length urlFields)%nat
       /\ forall e, In e errs ->
            exists field tail,
              In field urlFields /\ tail <> [] /\ e = field ++ tail
              /\ checked field = Some (fail e).
Proof.
  intros r checked. subst r checked. unfold UrlValidator.validateURLs.
  destruct (UrlMessageFacts.collect_errors_spec newURL obj urlFields)
    as [H1 [H2 H3]].
  cbv zeta in *. cbn [valid errors].
  assert (Hv : match UrlValidator.collect_errors newURL obj urlFields with
               | [] => true
               | _ :: _ => false
               end = true
               <-> UrlValidator.collect_errors newURL obj urlFields = []).
  { destruct (UrlValidator.collect_errors newURL obj urlFields);
      split; auto; discriminate. }
  split; [|split].
  - apply UrlMessageFacts.checked_cases.
  - now rewrite Hv.
  - eexists. split; [reflexivity|]. repeat split; auto; apply Hv.
Qed.

(** ** URL-Validator: nothing else is blocked *)

Module BlockedFacts.
Import RegExp RegExpFacts Constants UrlValidator CommonFacts.

Lemma prefix_pattern word h :
  test (mkRegExp true (Lit word) false) h = true
  <-> Str.startsWith h (str word) = true.
Proof.
  unfold test. cbn [anchored_start anchored_end body].
  rewrite accepts_prefix_iff, startsWith_iff. split.
  - intros [s1 [s2 [-> H]]]. apply Matches_Lit_units in H as ->. now exists s2.
  - intros [rest ->]. exists (str word), rest.
    split; [reflexivity | now apply Matches_Lit_units].
Qed.

Lemma Matches_digit lo hi s :
  Matches (Set_ false [range lo hi]) s
  <-> exists c, s = [c] /\ N_of_ascii lo <= c <= N_of_ascii hi.
Proof.
  rewrite Matches_Set. unfold in_set, Str.in_ranges, range. simpl.
  split; intros [c [-> H]]; exists c; split; auto.
  - rewrite orb_false_r, andb_true_iff, !N.leb_le in H. exact H.
  - now rewrite orb_false_r, andb_true_iff, !N.leb_le.
Qed.

(** The second pattern: [172.], a number from 16 to 31, a dot. *)
Lemma private_172 h :
  test (mkRegExp true
          (seq [Lit "172.";
                Alt (Cat (Chr "1") (Set_ false [range "6" "9"]))
                    (Alt (Cat (Chr "2") (Set_ false [range "0" "9"]))
                         (Cat (Chr "3") (Set_ false [range "0" "1"])));
                Chr "."])
          false) h = true
  <-> exists n, 16 <= n <= 31
                /\ Str.startsWith h (str "172." ++ Str.of_N n ++ str ".")
                   = true.
Proof.
  unfold test. cbn [anchored_start anchored_end body].
  rewrite accepts_prefix_iff. split.
  - intros [m [rest [-> H]]].
    apply Matches_seq_cons in H as [a [m1 [-> [Ha H]]]].
    apply Matches_Lit_units in Ha as ->.
    apply Matches_seq_cons in H as [d [m2 [-> [Hd H]]]].
    simpl in H. apply Matches_Chr in H as ->.
    assert (Hn : exists n, 16 <= n <= 31 /\ d = Str.of_N n).
    { apply Matches_Alt in Hd as [Hd | Hd];
        [|apply Matches_Alt in Hd as [Hd | Hd]];
        apply Matches_Cat in Hd as [x [y [-> [Hx Hy]]]];
        apply Matches_Chr in Hx as ->;
        apply Matches_digit in Hy as [c [-> Hc]]; simpl in Hc.
      - assert (Hcases : c = 54 \/ c = 55 \/ c = 56 \/ c = 57) by lia.
        destruct Hcases as [-> | [-> | [-> | ->]]];
          [exists 16 | exists 17 | exists 18 | exists 19];
          (split; [lia | reflexivity]).
      - assert (Hcases : c = 48 \/ c = 49 \/ c = 50 \/ c = 51 \/ c = 52
                         \/ c = 53 \/ c = 54 \/ c = 55 \/ c = 56 \/ c = 57)
          by lia.
        destruct Hcases as
          [-> | [-> | [-> | [-> | [-> | [-> | [-> | [-> | [-> | ->]]]]]]]]];
          [exists 20 | exists 21 | exists 22 | exists 23 | exists 24
           | exists 25 | exists 26 | exists 27 | exists 28 | exists 29];
          (split; [lia | reflexivity]).
      - assert (Hcases : c = 48 \/ c = 49) by lia.
        destruct Hcases as [-> | ->]; [exists 30 | exists 31];
          (split; [lia | reflexivity]). }
    destruct Hn as [n [Hn ->]]. exists n. split; [exact Hn|].
    apply startsWith_iff. exists rest. now rewrite <- !app_assoc.
  - intros [n [Hn H]]. apply startsWith_iff in H as [rest ->].
    exists (str "172." ++ Str.of_N n ++ str "."), rest.
    split; [reflexivity|].
    apply accepts_iff.
    assert (Hcases : n = 16 \/ n = 17 \/ n = 18 \/ n = 19 \/ n = 20
                     \/ n = 21 \/ n = 22 \/ n = 23 \/ n = 24 \/ n = 25
                     \/ n = 26 \/ n = 27 \/ n = 28 \/ n = 29 \/ n = 30
                     \/ n = 31) by lia.
    destruct Hcases as
      [-> | [-> | [-> | [-> | [-> | [-> | [-> | [-> | [-> | [-> | [->
       | [-> | [-> | [-> | [-> | ->]]]]]]]]]]]]]]]; reflexivity.
Qed.

Lemma loopback_pattern h :
  test (mkRegExp true (Lit "::1") true) h = true <-> h = str "::1".
Proof.
  unfold test. cbn [anchored_start anchored_end body].
  rewrite accepts_iff. apply Matches_Lit_units.
Qed.

End BlockedFacts.

(** [isBlockedHost] is true of a host exactly when the host, in lower
    case, is one of the eight blocked names or lies in one of the
    blocked ranges; no other host is blocked.  So the bracketed form
    [[::1]], which is how a URL spells the IPv6 loopback, is not
    blocked, and neither are [172.32.0.1] and [fc01::1]. *)
Theorem isBlockedHost_iff :
  (forall h,
      UrlValidator.isBlockedHost h = true
      <-> In (Str.toLowerCase h) Constants.BLOCKED_HOSTS
          \/ in_blocked_range (Str.toLowerCase h))
  /\ UrlValidator.isBlockedHost (str "[::1]") = false
  /\ UrlValidator.isBlockedHost (str "172.32.0.1") = false
  /\ UrlValidator.isBlockedHost (str "fc01::1") = false.
Proof.
  split; [|repeat split; reflexivity].
  intros h. unfold UrlValidator.isBlockedHost.
  set (l := Str.toLowerCase h).
  assert (Hmem : Str.mem l Constants.BLOCKED_HOSTS = true
                 <-> In l Constants.BLOCKED_HOSTS).
  { unfold Str.mem. rewrite existsb_exists. split.
    - intros [x [Hin H]]. apply Str_eqb_eq in H. now subst.
    - intros H. exists l. split; [exact H | apply Str_eqb_refl]. }
  assert (Hrange : existsb (fun pattern => RegExp.test pattern l)
                           Constants.BLOCKED_IP_PATTERNS = true
                   <-> in_blocked_range l).
  { unfold Constants.BLOCKED_IP_PATTERNS, in_blocked_range.
    cbn [existsb]. rewrite !orb_true_iff.
    rewrite !BlockedFacts.prefix_pattern, BlockedFacts.private_172,
      BlockedFacts.loopback_pattern.
    split.
    - intros [H | [H | [H | [H | [H | [H | [H | [H | [H | [H | H]]]]]]]]]];
        try discriminate; tauto.
    - intros [H | [H | [H | [H | [H | [H | [H | [H | [H | H]]]]]]]]]; tauto. }
  destruct (Str.mem l Constants.BLOCKED_HOSTS) eqn:E.
  - split; [|reflexivity]. intros _. left. now apply Hmem.
  - rewrite Hrange. split; [tauto|]. intros [H | H]; [|exact H].
    apply Hmem in H. discriminate.
Qed.

(** ** Path-Safety: joining plain names to a base *)

Module JoinFacts.
Import Path PathFacts.

(** A name without separator that is not [..]. *)
Definition plain_name (p : jsstring) : Prop :=
  slash_free p = true /\ p <> dotdot.

Definition kept (parts : list jsstring) : list jsstring :=
  filter (fun p => negb (skipped p)) parts.

Lemma fold_all_empty a args S :
  joined args = None -> fold_left (step a) (flat_map segments args) S = S.
Proof.
  revert S. induction args as [|arg rest IH]; intros S; [reflexivity|].
  cbn [joined flat_map].
  destruct arg as [|c arg].
  - intros H. simpl. rewrite (step_skipped _ _ [] eq_refl). now apply IH.
  - destruct (joined rest); discriminate.
Qed.

(** Reading the glued arguments is reading them one after the other. *)
Lemma fold_joined a args :
  forall j S,
    joined args = Some j ->
    fold_left (step a) (segments j) S
    = fold_left (step a) (flat_map segments args) S.
Proof.
  induction args as [|arg rest IH]; intros j S; [discriminate|].
  cbn [joined flat_map]. rewrite fold_left_app.
  destruct arg as [|c arg].
  - intros H. simpl. rewrite (step_skipped _ _ [] eq_refl). now apply IH.
  - destruct (joined rest) as [j'|] eqn:Ej; intros H.
    + assert (Hj : j = (c :: arg) ++ sep ++ j') by (injection H; auto).
      subst j. rewrite segments_app, fold_left_app. now apply IH.
    + injection H as <-. now rewrite (fold_all_empty a rest _ Ej).
Qed.

Lemma isAbsolute_joined base parts j :
  Forall plain_name parts ->
  joined (base :: parts) = Some j -> isAbsolute j = isAbsolute base.
Proof.
  intros Hplain. cbn [joined].
  destruct base as [|c base].
  - induction Hplain as [|p parts [Hp _] _ IH]; [discriminate|].
    cbn [joined]. destruct p as [|c p]; [exact IH|].
    simpl in Hp. apply andb_true_iff in Hp as [Hc _].
    apply negb_true_iff in Hc.
    destruct (joined parts); intros H; injection H as <-; simpl; exact Hc.
  - destruct (joined parts); intros H; injection H as <-; reflexivity.
Qed.

Lemma plain_step a S p :
  plain_name p -> step a S p = if skipped p then S else p :: S.
Proof.
  intros [_ Hne]. unfold step. destruct (skipped p); [reflexivity|].
  apply Str_eqb_neq in Hne. now rewrite Hne.
Qed.

Lemma fold_plain a parts :
  forall S,
    Forall plain_name parts ->
    fold_left (step a) (flat_map segments parts) S = rev (kept parts) ++ S.
Proof.
  induction parts as [|p parts IH]; intros S H; [reflexivity|].
  inversion H as [|? ? Hp Hparts]; subst.
  cbn [flat_map]. rewrite fold_left_app.
  rewrite (segments_of_slash_free p (proj1 Hp)). cbn [fold_left].
  rewrite (plain_step a S p Hp), (IH _ Hparts).
  unfold kept. cbn [filter].
  destruct (skipped p); cbn [negb]; [reflexivity|].
  cbn [rev]. now rewrite <- app_assoc.
Qed.

(** The stack [resolve] ends with for the joined path: the names that
    are kept, on top of the stack of the base. *)
Lemma resolved_stack_join cwd base parts :
  Forall plain_name parts ->
  resolved_stack cwd (join (base :: parts))
  = rev (kept parts) ++ resolved_stack cwd base.
Proof.
  intros Hplain. unfold join.
  destruct (joined (base :: parts)) as [j|] eqn:Ej.
  - pose proof (isAbsolute_joined base parts j Hplain Ej) as Ha.
    unfold resolved_stack. rewrite isAbsolute_normalize, Ha.
    assert (Hfold : forall a S,
               fold_left (step a) (segments j) S
               = rev (kept parts) ++ fold_left (step a) (segments base) S).
    { intros a S. rewrite (fold_joined a _ j S Ej).
      cbn [flat_map]. rewrite fold_left_app. now apply fold_plain. }
    destruct (isAbsolute base) eqn:Eb.
    + rewrite normalize_fold, Ha. simpl negb.
      unfold normalizeStack. rewrite renormalize_absolute. apply Hfold.
    + rewrite normalize_fold, Ha. simpl negb.
      unfold normalizeStack at 1. rewrite renormalize_relative. apply Hfold.
  - assert (Hbase : base = []).
    { cbn [joined] in Ej. destruct base; [reflexivity|].
      destruct (joined parts); discriminate. }
    subst base. cbn [joined] in Ej.
    assert (Hkept : kept parts = []).
    { clear Hplain. induction parts as [|p parts IH]; [reflexivity|].
      cbn [joined] in Ej. destruct p as [|c p].
      - unfold kept. simpl. now apply IH.
      - destruct (joined parts); discriminate. }
    rewrite Hkept. reflexivity.
Qed.

Lemma resolve_absolute cwd x :
  isAbsolute cwd = true ->
  resolve cwd [x] = sep ++ Str.join sep (rev (resolved_stack cwd x)).
Proof.
  intros H. rewrite resolve_single. cbv zeta. now rewrite H, orb_true_r.
Qed.

Lemma join_app_nonempty a b :
  a <> [] -> b <> [] ->
  Str.join sep (a ++ b) = Str.join sep a ++ sep ++ Str.join sep b.
Proof.
  induction a as [|x a IH]; [contradiction|]. intros _ Hb.
  destruct a as [|y a].
  - simpl. destruct b; [contradiction | reflexivity].
  - change ((x :: y :: a) ++ b) with (x :: (y :: a) ++ b).
    change (Str.join sep (x :: (y :: a) ++ b))
      with (x ++ sep ++ Str.join sep ((y :: a) ++ b)).
    rewrite IH by (auto; discriminate).
    change (Str.join sep (x :: y :: a))
      with (x ++ sep ++ Str.join sep (y :: a)).
    now rewrite <- !app_assoc.
Qed.

Lemma kept_head parts p rest :
  Forall plain_name parts -> kept parts = p :: rest ->
  exists c p', p = c :: p' /\ c <> slash.
Proof.
  intros Hplain Hk.
  assert (Hin : In p (kept parts)) by (rewrite Hk; now left).
  apply filter_In in Hin as [Hin Hs].
  rewrite Forall_forall in Hplain. destruct (Hplain p Hin) as [Hsf _].
  destruct p as [|c p']; [discriminate|].
  exists c, p'. split; [reflexivity|].
  simpl in Hsf. apply andb_true_iff in Hsf as [Hc _].
  now apply negb_true_iff, N.eqb_neq in Hc.
Qed.

Lemma join_kept_head parts p rest :
  Forall plain_name parts -> kept parts = p :: rest ->
  exists c t, Str.join sep (kept parts) = c :: t /\ c <> slash.
Proof.
  intros Hplain Hk. destruct (kept_head parts p rest Hplain Hk)
    as [c [p' [-> Hc]]].
  rewrite Hk. destruct rest; simpl; eauto.
Qed.

(** Where the joined path resolves to, against where the base does. *)
Lemma resolve_join cwd base parts :
  isAbsolute cwd = true -> Forall plain_name parts ->
  let resolvedPath := resolve cwd [join (base :: parts)] in
  let resolvedBase := resolve cwd [base] in
  (kept parts = [] -> resolvedPath = resolvedBase)
  /\ (kept parts <> [] -> resolvedBase <> sep ->
      resolvedPath = resolvedBase ++ sep ++ Str.join sep (kept parts))
  /\ (kept parts <> [] -> resolvedBase = sep ->
      Str.startsWith resolvedPath (resolvedBase ++ sep) = false
      /\ resolvedPath <> resolvedBase).
Proof.
  intros Hcwd Hplain resolvedPath resolvedBase.
  subst resolvedPath resolvedBase.
  rewrite !(resolve_absolute cwd _ Hcwd), (resolved_stack_join _ _ _ Hplain).
  rewrite rev_app_distr, rev_involutive.
  set (B := rev (resolved_stack cwd base)).
  split; [|split].
  - intros ->. now rewrite app_nil_r.
  - intros Hk Hb.
    assert (HB : B <> []) by (intros E; rewrite E in Hb; now apply Hb).
    rewrite (join_app_nonempty B (kept parts) HB Hk).
    now rewrite <- !app_assoc.
  - intros Hk Hb.
    assert (HB : Str.join sep B = []).
    { apply (f_equal (skipn 1)) in Hb. exact Hb. }
    assert (HBnil : B = []).
    { destruct cwd as [|c cwd']; [discriminate|].
      unfold B, resolved_stack.
      apply join_nil; [|exact HB].
      apply Forall_rev.
      destruct (isAbsolute base); apply fold_kept;
        [constructor | apply fold_kept; constructor]. }
    rewrite HBnil. cbn [app].
    destruct (kept parts) as [|p rest] eqn:Ek; [contradiction|].
    destruct (join_kept_head parts p rest Hplain Ek) as [c [t [E Hc]]].
    rewrite Ek in E. rewrite E. split.
    + simpl. apply N.eqb_neq in Hc. now rewrite Hc.
    + discriminate.
Qed.

End JoinFacts.

Module FilenameFacts.
Import Path PathFacts JoinFacts.

Lemma includes_unit s c :
  Str.includes s [c] = false -> forallb (fun x => negb (x =? c)) s = true.
Proof.
  assert (Hnil : forall t, Str.startsWith t [] = true)
    by (intros [|? ?]; reflexivity).
  induction s as [|x s IH]; [reflexivity|].
  cbn [Str.includes Str.startsWith forallb].
  rewrite Hnil, andb_true_r. intros H. apply orb_false_iff in H as [Hx Hs].
  rewrite Hx. simpl. now apply IH.
Qed.

(** A name that [validateSafeFilename] accepts is a single path
    segment other than [..]. *)
Lemma valid_is_plain p :
  valid (FileUtils.validateSafeFilename (JStr p)) = true -> plain_name p.
Proof.
  unfold FileUtils.validateSafeFilename.
  destruct (Str.includes p (str "..")) eqn:Edd; [discriminate|].
  destruct (Str.includes p (str "/")) eqn:Esl; [discriminate|].
  intros _. split.
  - now apply includes_unit in Esl.
  - intros ->. discriminate.
Qed.

Lemma first_invalid_none parts :
  Forall (fun p => valid (FileUtils.validateSafeFilename (JStr p)) = true)
         parts ->
  FileUtils.first_invalid (map JStr parts) = None.
Proof.
  induction 1 as [|p parts Hp _ IH]; [reflexivity|].
  cbn [map FileUtils.first_invalid]. now rewrite Hp.
Qed.

Lemma skipped_iff p : skipped p = true <-> p = [] \/ p = dot.
Proof.
  unfold skipped. destruct p as [|c p]; [tauto|].
  rewrite Str_eqb_eq. split; [auto | intros [H | H]; [discriminate | exact H]].
Qed.

Lemma kept_nil parts :
  kept parts = [] <-> Forall (fun p => p = [] \/ p = dot) parts.
Proof.
  unfold kept. induction parts as [|p parts IH]; [split; auto|].
  cbn [filter]. destruct (skipped p) eqn:E; cbn [negb].
  - rewrite IH. split.
    + intros H. constructor; [now apply skipped_iff | exact H].
    + intros H. now inversion H.
  - split; [discriminate|]. intros H. inversion H as [|? ? Hp _]; subst.
    apply skipped_iff in Hp. congruence.
Qed.

End FilenameFacts.

(** Names that [validateSafeFilename] accepts are always joined below
    the base: [safePathJoin] hands back [path.join(baseDir, ...parts)],
    which resolves to the resolved base followed by the names (those
    that are empty or [.] left out).  The one exception is a base that
    resolves to the root [/]: there the containment test looks for the
    prefix [//], and every path that names something is refused as
    escaping. *)
Theorem safePathJoin_accepts_names cwd baseDir parts :
  Path.isAbsolute cwd = true ->
  Forall (fun p => valid (FileUtils.validateSafeFilename (JStr p)) = true)
         parts ->
  let r := FileUtils.safePathJoin cwd baseDir (map JStr parts) in
  let names := filter (fun p => negb (Path.skipped p)) parts in
  (valid r = true
   <-> names = [] \/ Path.resolve cwd [baseDir] <> str "/")
  /\ (valid r = true ->
      r = mkResult true None None None None
            (Some (Path.join (baseDir :: parts)))
      /\ Path.resolve cwd [Path.join (baseDir :: parts)]
         = match names with
           | [] => Path.resolve cwd [baseDir]
           | _ => Path.resolve cwd [baseDir] ++ str "/"
                  ++ Str.join (str "/") names
           end)
  /\ (valid r = false ->
      r = fail (str "Path escapes base directory: "
                ++ Str.join (str "/") parts)).
Proof.
  intros Hcwd Hvalid r names. subst r.
  assert (Hplain : Forall JoinFacts.plain_name parts).
  { eapply Forall_impl; [|exact Hvalid]. apply FilenameFacts.valid_is_plain. }
  unfold FileUtils.safePathJoin.
  rewrite (FilenameFacts.first_invalid_none parts Hvalid), strings_of_strings.
  destruct (JoinFacts.resolve_join cwd baseDir parts Hcwd Hplain)
    as [Hnone [Hsome Hroot]].
  fold (JoinFacts.kept parts) in names. fold names in Hnone, Hsome, Hroot.
  change (str "/") with Path.sep.
  set (resolvedPath := Path.resolve cwd [Path.join (baseDir :: parts)]) in *.
  set (resolvedBase := Path.resolve cwd [baseDir]) in *.
  destruct names as [|n names'] eqn:En.
  - rewrite (Hnone eq_refl), Str_eqb_refl, andb_false_r. cbn [valid].
    repeat split; auto; discriminate.
  - assert (Hne : n :: names' <> []) by discriminate.
    destruct (Str.eqb resolvedBase Path.sep) eqn:Eb.
    + apply Str_eqb_eq in Eb.
      destruct (Hroot Hne Eb) as [Hprefix Hneq].
      apply Str_eqb_neq in Hneq. rewrite Hprefix, Hneq. cbn [negb andb valid].
      split; [|split].
      * split; [discriminate|]. intros [H | H]; [discriminate | contradiction].
      * discriminate.
      * reflexivity.
    + apply Str_eqb_neq in Eb. specialize (Hsome Hne Eb).
      assert (Hp : Str.startsWith resolvedPath (resolvedBase ++ Path.sep)
                   = true)
        by (rewrite Hsome, app_assoc; apply startsWith_app).
      rewrite Hp. cbn [negb andb valid].
      split; [|split].
      * split; auto.
      * intros _. split; [reflexivity | exact Hsome].
      * discriminate.
Qed.

(** The names [tokens] and [a.json] under [data], from [/repo]. *)
Lemma safePathJoin_accepts_names_witness :
  let cwd := str "/repo" in
  let baseDir := str "data" in
  let parts := [str "tokens"; str "a.json"] in
  let r := FileUtils.safePathJoin cwd baseDir (map JStr parts) in
  let names := filter (fun p => negb (Path.skipped p)) parts in
  (valid r = true
   <-> names = [] \/ Path.resolve cwd [baseDir] <> str "/")
  /\ (valid r = true ->
      r = mkResult true None None None None
            (Some (Path.join (baseDir :: parts)))
      /\ Path.resolve cwd [Path.join (baseDir :: parts)]
         = match names with
           | [] => Path.resolve cwd [baseDir]
           | _ => Path.resolve cwd [baseDir] ++ str "/"
                  ++ Str.join (str "/") names
           end)
  /\ (valid r = false ->
      r = fail (str "Path escapes base directory: "
                ++ Str.join (str "/") parts)).
Proof.
  apply (safePathJoin_accepts_names (str "/repo") (str "data")
           [str "tokens"; str "a.json"]).
  - reflexivity.
  - repeat constructor.
Defined.

(** ** Address-Validator: format, rendering and the directory checks *)

(** A hexadecimal digit, in either letter case. *)
Definition is_hex (c : N) : bool :=
  Str.in_ranges c [Constants.range "a" "f"; Constants.range "A" "F";
                   Constants.range "0" "9"].

Module ChecksumFacts.
Import RegExp RegExpFacts Constants AddressValidator.

Lemma Matches_Times_Set n neg rs s :
  Matches (Times n (Set_ neg rs)) s
  <-> List.length s = n /\ forallb (in_set neg rs) s = true.
Proof.
  revert s. induction n as [|n IH]; intros s; cbn [Times].
  - rewrite Matches_Eps. split.
    + intros ->. auto.
    + intros [H _]. now apply length_zero_iff_nil.
  - rewrite Matches_Cat. split.
    + intros [s1 [s2 [-> [H1 H2]]]].
      apply Matches_Set in H1 as [c [-> Hc]]. apply IH in H2 as [Hl Hf].
      simpl. rewrite Hc, Hf, Hl. auto.
    + intros [Hl Hf]. destruct s as [|c s]; [discriminate|].
      simpl in Hl, Hf. apply andb_true_iff in Hf as [Hc Hf].
      exists [c], s. repeat split.
      * apply Matches_Set. now exists c.
      * apply IH. split; [lia | exact Hf].
Qed.

(** What [isValidAddressFormat] accepts; the test of the length adds
    nothing to the pattern. *)
Lemma format_shape v :
  isValidAddressFormat v = true
  <-> exists digits,
        v = JStr (str "0x" ++ digits)
        /\ List.length digits = 40%nat
        /\ forallb is_hex digits = true.
Proof.
  unfold isValidAddressFormat.
  destruct v as [| | | |a| |];
    try (split; [discriminate | intros [d [H _]]; discriminate]).
  unfold test, ADDRESS_PATTERN. cbn [anchored_start anchored_end body].
  split.
  - destruct (negb _); [discriminate|]. rewrite accepts_iff, Matches_Cat.
    intros [p [digits [-> [Hp Hd]]]]. apply Matches_Lit_units in Hp as ->.
    apply Matches_Times_Set in Hd as [Hl Hf]. now exists digits.
  - intros [digits [E [Hl Hf]]].
    assert (Ea : a = str "0x" ++ digits) by (injection E; auto). subst a.
    rewrite length_app, Hl. cbn [negb N.eqb]. simpl negb. cbv iota.
    apply accepts_iff, Matches_Cat. exists (str "0x"), digits.
    repeat split; [now apply Matches_Lit_units|].
    apply Matches_Times_Set. split; [exact Hl | exact Hf].
Qed.

(** A digit or a lower-case hex letter. *)
Definition is_lower_hex (c : N) : bool :=
  Str.in_ranges c [range "0" "9"; range "a" "f"].

Ltac ranges :=
  unfold is_hex, is_lower_hex, Str.in_ranges, range, Str.lower_unit,
    Str.upper_unit in *;
  cbn [existsb fst snd N_of_ascii] in *.

Lemma hex_cases c :
  is_hex c = true <-> (48 <= c <= 57) \/ (65 <= c <= 70) \/ (97 <= c <= 102).
Proof.
  ranges. simpl. rewrite !orb_true_iff, !andb_true_iff, !N.leb_le. lia.
Qed.

Lemma lower_hex_cases c :
  is_lower_hex c = true <-> (48 <= c <= 57) \/ (97 <= c <= 102).
Proof.
  ranges. simpl. rewrite !orb_true_iff, !andb_true_iff, !N.leb_le. lia.
Qed.

Lemma lower_unit_cases c :
  (65 <= c <= 70 -> Str.lower_unit c = c + 32)
  /\ (48 <= c <= 57 \/ 97 <= c <= 102 -> Str.lower_unit c = c).
Proof.
  unfold Str.lower_unit. split; intros H.
  - assert (E : (65 <=? c) && (c <=? 90) = true)
      by (rewrite andb_true_iff, !N.leb_le; lia).
    now rewrite E.
  - assert (E1 : (65 <=? c) && (c <=? 90) = false)
      by (rewrite andb_false_iff, !N.leb_gt; lia).
    assert (E2 : (192 <=? c) = false) by (rewrite N.leb_gt; lia).
    now rewrite E1, E2.
Qed.

Lemma upper_unit_cases c :
  (97 <= c <= 102 -> Str.upper_unit c = c - 32)
  /\ (48 <= c <= 57 -> Str.upper_unit c = c).
Proof.
  unfold Str.upper_unit. split; intros H.
  - assert (E : (97 <=? c) && (c <=? 122) = true)
      by (rewrite andb_true_iff, !N.leb_le; lia).
    now rewrite E.
  - assert (E : (97 <=? c) && (c <=? 122) = false)
      by (rewrite andb_false_iff, !N.leb_gt; lia).
    now rewrite E.
Qed.

Lemma lower_is_lower_hex c :
  is_hex c = true -> is_lower_hex (Str.lower_unit c) = true.
Proof.
  rewrite hex_cases, lower_hex_cases. intros [H | [H | H]].
  - rewrite (proj2 (lower_unit_cases c)) by lia. lia.
  - rewrite (proj1 (lower_unit_cases c)) by lia. lia.
  - rewrite (proj2 (lower_unit_cases c)) by lia. lia.
Qed.

(** The casing of one digit, undone by lower-casing. *)
Lemma cased c (b : bool) :
  is_lower_hex c = true ->
  let c' := if b then Str.upper_unit c else c in
  is_hex c' = true /\ Str.lower_unit c' = c.
Proof.
  rewrite lower_hex_cases. intros H c'. subst c'. rewrite hex_cases.
  destruct b.
  - destruct H as [H | H].
    + rewrite (proj2 (upper_unit_cases c)) by lia.
      rewrite (proj2 (lower_unit_cases c)) by lia. lia.
    + rewrite (proj1 (upper_unit_cases c)) by lia.
      rewrite (proj1 (lower_unit_cases (c - 32))) by lia. lia.
  - rewrite (proj2 (lower_unit_cases c)) by lia. lia.
Qed.

Lemma lower_hex_fixed chars :
  forallb is_lower_hex chars = true ->
  forallb is_hex chars = true /\ map Str.lower_unit chars = chars.
Proof.
  induction chars as [|c chars IH]; [auto|].
  cbn [forallb map]. intros H. apply andb_true_iff in H as [Hc H].
  destruct (cased c false Hc) as [A1 A2]. cbv zeta beta iota in A1, A2.
  destruct (IH H) as [I1 I2]. now rewrite A1, A2, I1, I2.
Qed.

Lemma apply_case_spec n :
  forall chars hashed,
    (List.length chars <= n)%nat ->
    forallb is_lower_hex chars = true ->
    let out := Ethers.apply_case chars hashed in
    List.length out = List.length chars
    /\ forallb is_hex out = true
    /\ map Str.lower_unit out = chars.
Proof.
  induction n as [|n IH]; intros chars hashed Hn Hc out; subst out.
  - destruct chars; [|simpl in Hn; lia]. now destruct hashed.
  - assert (Hdone : Ethers.apply_case chars hashed = chars ->
                    List.length (Ethers.apply_case chars hashed)
                    = List.length chars
                    /\ forallb is_hex (Ethers.apply_case chars hashed) = true
                    /\ map Str.lower_unit (Ethers.apply_case chars hashed)
                       = chars).
    { intros ->. split; [reflexivity|]. now apply lower_hex_fixed. }
    destruct chars as [|c1 [|c2 chars]]; try (apply Hdone; reflexivity).
    destruct hashed as [|h hashed]; [apply Hdone; reflexivity|].
    clear Hdone. cbn [Ethers.apply_case].
    cbn [forallb] in Hc. apply andb_true_iff in Hc as [Hc1 Hc].
    apply andb_true_iff in Hc as [Hc2 Hc].
    assert (Hlen : (List.length chars <= n)%nat) by (simpl in Hn; lia).
    destruct (IH chars hashed Hlen Hc) as [I1 [I2 I3]].
    destruct (cased c1 (8 <=? N.shiftr h 4) Hc1) as [A1 A2].
    destruct (cased c2 (8 <=? N.land h 15) Hc2) as [B1 B2].
    cbv zeta in *. cbn [List.length forallb map].
    now rewrite I1, I2, I3, A1, A2, B1, B2.
Qed.

Lemma lower_of_format digits :
  forallb is_hex digits = true ->
  Str.toLowerCase (str "0x" ++ digits) = str "0x" ++ Str.toLowerCase digits
  /\ forallb is_lower_hex (Str.toLowerCase digits) = true.
Proof.
  intros H. split.
  - unfold Str.toLowerCase. now rewrite map_app.
  - unfold Str.toLowerCase. rewrite forallb_forall in *.
    intros c Hc. apply in_map_iff in Hc as [d [<- Hd]].
    now apply lower_is_lower_hex, H.
Qed.

(** The rendering of a well-formed address: well-formed, equal to the
    address up to letter case, and its own rendering. *)
Lemma checksum_of_format a :
  isValidAddressFormat (JStr a) = true ->
  let c := Ethers.getChecksumAddress a in
  isValidAddressFormat (JStr c) = true
  /\ Str.toLowerCase c = Str.toLowerCase a
  /\ Ethers.getChecksumAddress c = c.
Proof.
  intros Hf c.
  apply format_shape in Hf as [digits [E [Hl Hh]]].
  assert (Ea : a = str "0x" ++ digits) by (injection E; auto). subst a.
  destruct (lower_of_format digits Hh) as [Hlow Hlh].
  assert (Hc : c = str "0x"
                   ++ Ethers.apply_case (Str.toLowerCase digits)
                        (Keccak.keccak256 (Str.toLowerCase digits))).
  { unfold c, Ethers.getChecksumAddress. rewrite Hlow. reflexivity. }
  destruct (apply_case_spec (List.length (Str.toLowerCase digits))
              (Str.toLowerCase digits)
              (Keccak.keccak256 (Str.toLowerCase digits))
              (Nat.le_refl _) Hlh) as [S1 [S2 S3]].
  cbv zeta in S1, S2, S3.
  set (out := Ethers.apply_case (Str.toLowerCase digits)
                (Keccak.keccak256 (Str.toLowerCase digits))) in *.
  assert (Hlc : Str.toLowerCase c = str "0x" ++ Str.toLowerCase digits).
  { rewrite Hc. unfold Str.toLowerCase at 1. rewrite map_app.
    now rewrite S3. }
  split; [|split].
  - apply format_shape. exists out. split; [now rewrite Hc|].
    split; [|exact S2].
    rewrite S1. unfold Str.toLowerCase. now rewrite length_map.
  - now rewrite Hlc, Hlow.
  - unfold Ethers.getChecksumAddress at 1. rewrite Hlc.
    change (skipn 2 (str "0x" ++ Str.toLowerCase digits))
      with (Str.toLowerCase digits).
    fold out. now rewrite Hc.
Qed.

Lemma lower_zero l :
  Str.toLowerCase l = repeat 48 (List.length l) -> l = repeat 48 (List.length l).
Proof.
  induction l as [|c l IH]; [reflexivity|].
  simpl. intros H. injection H as Hc Hl. rewrite <- (IH Hl) at 1. f_equal.
  revert Hc. unfold Str.lower_unit.
  destruct (((65 <=? c) && (c <=? 90))
            || ((192 <=? c) && (c <=? 222) && negb (c =? 215))) eqn:E;
    [|auto].
  intros Hc. exfalso.
  apply orb_true_iff in E as [E | E].
  - apply andb_true_iff in E as [E1 E2]. apply N.leb_le in E1. lia.
  - apply andb_true_iff in E as [E _]. apply andb_true_iff in E as [E1 _].
    apply N.leb_le in E1. lia.
Qed.

(** Only the all-zero address has the all-zero rendering. *)
Lemma checksum_not_zero a :
  isValidAddressFormat (JStr a) = true ->
  a <> ZERO_ADDRESS -> Ethers.getChecksumAddress a <> ZERO_ADDRESS.
Proof.
  intros Hf Hz Hc.
  destruct (checksum_of_format a Hf) as [_ [Hlow _]]. cbv zeta in Hlow.
  rewrite Hc in Hlow.
  apply format_shape in Hf as [digits [E [Hl Hh]]].
  assert (Ea : a = str "0x" ++ digits) by (injection E; auto). subst a.
  unfold Str.toLowerCase in Hlow at 2. rewrite map_app in Hlow.
  change (Str.toLowerCase ZERO_ADDRESS) with (str "0x" ++ repeat 48 40%nat)
    in Hlow.
  change (map Str.lower_unit (str "0x")) with (str "0x") in Hlow.
  apply app_inv_head in Hlow. symmetry in Hlow.
  fold (Str.toLowerCase digits) in Hlow. rewrite <- Hl in Hlow.
  apply lower_zero in Hlow. rewrite Hl in Hlow.
  apply Hz. rewrite Hlow. reflexivity.
Qed.

(** When [validateEIP55Checksum] accepts, and what it answers then. *)
Lemma checksum_accepts a context :
  isValidAddressFormat (JStr a) = true ->
  a <> ZERO_ADDRESS -> a = Ethers.getChecksumAddress a ->
  validateEIP55Checksum (JStr a) context
  = mkResult true None None None (Some a) None.
Proof.
  intros Hf Hz Hc. unfold validateEIP55Checksum.
  rewrite Hf. cbn [negb]. change (Value.text (JStr a)) with a.
  apply Str_eqb_neq in Hz. rewrite Hz.
  rewrite (AddressFacts.getAddress_valid_format a Hf), <- Hc.
  rewrite Str_eqb_refl, orb_true_r. cbv iota beta.
  now rewrite Str_eqb_refl.
Qed.

Lemma checksum_valid v context :
  valid (validateEIP55Checksum v context) = true ->
  exists a, v = JStr a /\ isValidAddressFormat (JStr a) = true
            /\ a <> ZERO_ADDRESS /\ a = Ethers.getChecksumAddress a.
Proof.
  unfold validateEIP55Checksum.
  destruct (isValidAddressFormat v) eqn:Hf; cbn [negb]; [|discriminate].
  destruct v as [| | | |a| |]; try discriminate.
  change (Value.text (JStr a)) with a.
  rewrite (AddressFacts.getAddress_valid_format a Hf).
  destruct (Str.eqb a ZERO_ADDRESS) eqn:Ez; [discriminate|].
  apply Str_eqb_neq in Ez.
  destruct (Str.eqb (Ethers.getChecksumAddress a) a) eqn:Ec.
  - apply Str_eqb_eq in Ec. intros _. exists a. repeat split; auto.
  - apply Str_eqb_neq in Ec. rewrite orb_false_r.
    assert (Ec' : Str.eqb a (Ethers.getChecksumAddress a) = false)
      by (apply Str_eqb_neq; congruence).
    destruct (negb (test Ethers.MIXED_CASE a)); cbn [negb valid].
    + rewrite Ec'. discriminate.
    + discriminate.
Qed.

End ChecksumFacts.

(** [isValidAddressFormat] accepts exactly the strings made of [0x]
    and forty hexadecimal digits; the comparison of the length with
    [ADDRESS_LENGTH] never decides. *)
Theorem isValidAddressFormat_iff v :
  AddressValidator.isValidAddressFormat v = true
  <-> exists digits,
        v = JStr (str "0x" ++ digits)
        /\ List.length digits = 40%nat
        /\ forallb is_hex digits = true.
Proof. apply ChecksumFacts.format_shape. Qed.

(** The rendering that [validateEIP55Checksum] works with is a fixed
    point: for a well-formed address other than the all-zero one, the
    EIP-55 rendering is well-formed, differs from the address in letter
    case only, and is accepted by [validateEIP55Checksum], which reports
    it as [checksummed].  Taking the suggested rendering always ends the
    complaint. *)
Theorem checksummed_is_accepted a context :
  AddressValidator.isValidAddressFormat (JStr a) = true ->
  a <> AddressValidator.ZERO_ADDRESS ->
  let c := Ethers.getChecksumAddress a in
  Str.toLowerCase c = Str.toLowerCase a
  /\ Ethers.getChecksumAddress c = c
  /\ AddressValidator.validateEIP55Checksum (JStr c) context
     = mkResult true None None None (Some c) None.
Proof.
  intros Hf Hz c.
  destruct (ChecksumFacts.checksum_of_format a Hf) as [Hcf [Hlow Hfix]].
  fold c in Hcf, Hlow, Hfix.
  pose proof (ChecksumFacts.checksum_not_zero a Hf Hz) as Hcz. fold c in Hcz.
  split; [exact Hlow|]. split; [exact Hfix|].
  unfold AddressValidator.validateEIP55Checksum.
  rewrite Hcf. cbn [negb]. change (Value.text (JStr c)) with c.
  apply Str_eqb_neq in Hcz. rewrite Hcz.
  rewrite (AddressFacts.getAddress_valid_format c Hcf), Hfix.
  rewrite Str_eqb_refl, orb_true_r. cbv iota beta.
  now rewrite Str_eqb_refl.
Qed.

(** At the lower-case form of the address of the test suite. *)
Lemma checksummed_is_accepted_witness :
  let c := Ethers.getChecksumAddress
             (str "0x00c1e515ea9579856304198efb15f525a0bb50f6") in
  Str.toLowerCase c
  = Str.toLowerCase (str "0x00c1e515ea9579856304198efb15f525a0bb50f6")
  /\ Ethers.getChecksumAddress c = c
  /\ AddressValidator.validateEIP55Checksum (JStr c) (str "token")
     = mkResult true None None None (Some c) None.
Proof.
  apply (checksummed_is_accepted
           (str "0x00c1e515ea9579856304198efb15f525a0bb50f6") (str "token")).
  - reflexivity.
  - vm_compute. discriminate.
Defined.

(** ** Address-Validator: directories and the whole pipeline *)

Module DirectoryFacts.
Import Path PathFacts JoinFacts ChecksumFacts AddressValidator.

Lemma hex_or_x_excludes a sub :
  isValidAddressFormat (JStr a) = true ->
  (exists c, In c sub /\ is_hex c = false /\ c <> 120) ->
  Str.includes a sub = false.
Proof.
  intros Hf [c [Hin [Hc Hx]]].
  destruct (Str.includes a sub) eqn:E; [|reflexivity]. exfalso.
  apply includes_iff in E as [pre [post E]].
  apply format_shape in Hf as [digits [Ea [_ Hh]]].
  assert (Ha : a = str "0x" ++ digits) by (injection Ea; auto).
  assert (Hca : In c a).
  { rewrite E. apply in_or_app. right. apply in_or_app. now left. }
  rewrite Ha in Hca. apply in_app_or in Hca as [Hca | Hca].
  - simpl in Hca. destruct Hca as [<- | [<- | []]]; [discriminate | auto].
  - rewrite forallb_forall in Hh. rewrite (Hh c Hca) in Hc. discriminate.
Qed.

(** A well-formed address is a plain name that [normalize] keeps. *)
Lemma format_is_name a :
  isValidAddressFormat (JStr a) = true ->
  Str.includes a (str "..") = false
  /\ Str.includes a (str "/") = false
  /\ Str.includes a (str "\") = false
  /\ plain_name a /\ kept [a] = [a].
Proof.
  intros Hf.
  assert (H1 : Str.includes a (str "..") = false).
  { apply hex_or_x_excludes; [exact Hf|]. exists 46. simpl.
    repeat split; auto; discriminate. }
  assert (H2 : Str.includes a (str "/") = false).
  { apply hex_or_x_excludes; [exact Hf|]. exists 47. simpl.
    repeat split; auto; discriminate. }
  assert (H3 : Str.includes a (str "\") = false).
  { apply hex_or_x_excludes; [exact Hf|]. exists 92. simpl.
    repeat split; auto; discriminate. }
  repeat split; auto.
  - now apply FilenameFacts.includes_unit in H2.
  - intros ->. discriminate.
  - apply format_shape in Hf as [digits [Ea _]].
    assert (Ha : a = str "0x" ++ digits) by (injection Ea; auto).
    subst a. reflexivity.
Qed.

(** The answers of [validateAddressDirectory]. *)
Lemma directory_cases cwd dirName parentPath :
  isAbsolute cwd = true ->
  let out := validateAddressDirectory cwd dirName parentPath in
  (isValidAddressFormat dirName = false /\
   out = match Value.ToString dirName with
         | Throws e => Throws e
         | Returns printed =>
             Returns (fail (str "Invalid address format in directory name: "
                            ++ printed))
         end)
  \/ (isValidAddressFormat dirName = true
      /\ resolve cwd [parentPath] = sep /\
      out = Returns (fail (str "Directory escapes parent path: "
                           ++ Value.text dirName)))
  \/ (isValidAddressFormat dirName = true
      /\ resolve cwd [parentPath] <> sep
      /\ resolve cwd [join [parentPath; Value.text dirName]]
         = resolve cwd [parentPath] ++ sep ++ Value.text dirName
      /\ out = Returns ok).
Proof.
  intros Hcwd r. subst r. unfold validateAddressDirectory.
  destruct (isValidAddressFormat dirName) eqn:Hf; cbn [negb]; [|now left].
  right.
  destruct dirName as [| | | |a| |]; try discriminate.
  change (Value.text (JStr a)) with a.
  destruct (format_is_name a Hf) as [H1 [H2 [H3 [Hplain Hkept]]]].
  rewrite H1, H2, H3. cbn [orb].
  assert (Hall : Forall plain_name [a]) by (constructor; auto).
  destruct (resolve_join cwd parentPath [a] Hcwd Hall) as [_ [Hsome Hroot]].
  rewrite Hkept in Hsome, Hroot. cbn [Str.join] in Hsome.
  assert (Hne : [a] <> []) by discriminate.
  destruct (Str.eqb (resolve cwd [parentPath]) sep) eqn:Eb.
  - apply Str_eqb_eq in Eb. left.
    destruct (Hroot Hne Eb) as [Hprefix _]. rewrite Hprefix. cbn [negb].
    repeat split; auto.
  - apply Str_eqb_neq in Eb. right. specialize (Hsome Hne Eb).
    assert (Hp : Str.startsWith (resolve cwd [join [parentPath; a]])
                   (resolve cwd [parentPath] ++ sep) = true)
      by (rewrite Hsome, app_assoc; apply startsWith_app).
    rewrite Hp. cbn [negb]. repeat split; auto.
Qed.

End DirectoryFacts.

(** [validateAddressDirectory] accepts a directory name exactly when
    the name is a well-formed address and the parent does not resolve to
    the root [/]; the directory then resolves to the parent followed by
    the name.  A well-formed address holds no dot, slash or backslash,
    so the path-traversal answer is never given; under the root every
    name is answered as escaping, since no path starts with [//].  What
    is not a well-formed address is printed into the error message, and
    the call throws exactly when that conversion throws. *)
Theorem validateAddressDirectory_iff cwd dirName parentPath :
  Path.isAbsolute cwd = true ->
  let out :=
    AddressValidator.validateAddressDirectory cwd dirName parentPath in
  ((exists r, out = Returns r /\ valid r = true)
   <-> AddressValidator.isValidAddressFormat dirName = true
       /\ Path.resolve cwd [parentPath] <> str "/")
  /\ (forall r,
         out = Returns r -> valid r = true ->
         r = ok
         /\ Path.resolve cwd [Path.join [parentPath; Value.text dirName]]
            = Path.resolve cwd [parentPath] ++ str "/"
              ++ Value.text dirName)
  /\ (forall r,
         out = Returns r -> valid r = false ->
         if AddressValidator.isValidAddressFormat dirName
         then r = fail (str "Directory escapes parent path: "
                        ++ Value.text dirName)
         else exists printed,
                Value.ToString dirName = Returns printed
                /\ r = fail (str "Invalid address format in directory name: "
                             ++ printed))
  /\ (forall e, out = Throws e <-> Value.ToString dirName = Throws e).
Proof.
  intros Hcwd out.
  assert (Hthrows : forall e,
             out = Throws e <-> Value.ToString dirName = Throws e)
    by exact (ContractFacts.validateAddressDirectory_throws
                cwd dirName parentPath).
  destruct (DirectoryFacts.directory_cases cwd dirName parentPath Hcwd)
    as [[Hf Hr] | [[Hf [Hroot Hr]] | [Hf [Hroot [Hres Hr]]]]];
    fold out in Hr; rewrite Hf; split; [|split; [|split]|
                                        |split; [|split]|
                                        |split; [|split]];
    try exact Hthrows; rewrite Hr.
  - split; [|intros [H _]; discriminate].
    intros [r [H Hv]]. destruct (Value.ToString dirName); [|discriminate].
    injection H as <-. discriminate.
  - intros r H Hv. destruct (Value.ToString dirName); [|discriminate].
    injection H as <-. discriminate.
  - intros r H _. destruct (Value.ToString dirName) as [printed|];
      [|discriminate].
    injection H as <-. now exists printed.
  - split; [|intros [_ H]; contradiction].
    intros [r [H Hv]]. injection H as <-. discriminate.
  - intros r H Hv. injection H as <-. discriminate.
  - intros r H _. injection H as <-. reflexivity.
  - split; [auto|]. intros _. exists ok. auto.
  - intros r H _. injection H as <-. auto.
  - intros r H Hv. injection H as <-. discriminate.
Qed.

(** In the working directory [/repo], under [tokens]. *)
Lemma validateAddressDirectory_iff_witness :
  (exists r,
      AddressValidator.validateAddressDirectory (str "/repo")
        (JStr (str "0x00c1E515EA9579856304198EFb15f525A0bb50f6"))
        (str "tokens") = Returns r
      /\ valid r = true)
  <-> AddressValidator.isValidAddressFormat
        (JStr (str "0x00c1E515EA9579856304198EFb15f525A0bb50f6")) = true
      /\ Path.resolve (str "/repo") [str "tokens"] <> str "/".
Proof.
  exact (proj1 (validateAddressDirectory_iff (str "/repo")
                  (JStr (str "0x00c1E515EA9579856304198EFb15f525A0bb50f6"))
                  (str "tokens") eq_refl)).
Defined.

(** [validateTokenAddress] accepts exactly when the address and the
    directory name are one and the same string, that string is a
    well-formed address other than the all-zero one and is its own
    EIP-55 rendering, and the directory of the scripts does not resolve
    to the root; the result then carries the address as [checksummed]. *)
Theorem validateTokenAddress_iff cwd scripts_dir address dirName context :
  Path.isAbsolute cwd = true ->
  let out := AddressValidator.validateTokenAddress cwd scripts_dir
               address dirName context in
  (exists r, out = Returns r /\ valid r = true)
  <-> exists a,
        address = JStr a /\ dirName = JStr a
        /\ AddressValidator.isValidAddressFormat (JStr a) = true
        /\ a <> AddressValidator.ZERO_ADDRESS
        /\ a = Ethers.getChecksumAddress a
        /\ Path.resolve cwd [scripts_dir] <> str "/"
        /\ out = Returns (mkResult true None None None (Some a) None).
Proof.
  intros Hcwd out. subst out. unfold AddressValidator.validateTokenAddress.
  destruct (DirectoryFacts.directory_cases cwd dirName scripts_dir Hcwd)
    as [[Hf Hr] | [[Hf [Hroot Hr]] | [Hf [Hroot [_ Hr]]]]];
    cbv zeta in Hr; rewrite Hr; cbn [valid fail ok negb].
  - split.
    + intros [r [H Hv]]. destruct (Value.ToString dirName); [|discriminate].
      cbn [valid fail negb] in H. injection H as <-. discriminate.
    + intros [a [_ [-> [H _]]]]. congruence.
  - split.
    + intros [r [H Hv]]. injection H as <-. discriminate.
    + intros [a [_ [_ [_ [_ [_ [H _]]]]]]]. contradiction.
  - case_eq (valid (AddressValidator.validateEIP55Checksum address context));
      intros Ev; cbn [negb].
    + destruct (ChecksumFacts.checksum_valid address context Ev)
        as [a [-> [Hfa [Hz Hc]]]].
      rewrite (ChecksumFacts.checksum_accepts a context Hfa Hz Hc).
      cbn [checksummed].
      unfold AddressValidator.validateAddressMatchesDirectory.
      change (Value.text (JStr a)) with a.
      destruct (Str.eqb a (Value.text dirName)) eqn:Em; cbn [negb valid].
      * apply Str_eqb_eq in Em.
        destruct dirName as [| | | |d| |]; try discriminate.
        change (Value.text (JStr d)) with d in Em. subst d.
        split.
        -- intros _. exists a. repeat split; auto.
        -- intros _. eexists. split; reflexivity.
      * apply Str_eqb_neq in Em. split.
        -- intros [r [H Hv]]. injection H as <-. discriminate.
        -- intros [a' [E [-> _]]]. injection E as <-.
           exfalso. exact (Em eq_refl).
    + split.
      * intros [r [H Hv]]. injection H as <-. congruence.
      * intros [a [-> [_ [Hfa [Hz [Hc _]]]]]].
        rewrite (ChecksumFacts.checksum_accepts a context Hfa Hz Hc) in Ev.
        discriminate.
Qed.

(** In the working directory [/repo], with the scripts in
    [/repo/scripts]. *)
Lemma validateTokenAddress_iff_witness :
  (exists r,
      AddressValidator.validateTokenAddress (str "/repo")
        (str "/repo/scripts")
        (JStr (str "0x00c1E515EA9579856304198EFb15f525A0bb50f6"))
        (JStr (str "0x00c1E515EA9579856304198EFb15f525A0bb50f6"))
        (str "VINU") = Returns r
      /\ valid r = true)
  <-> exists a,
        JStr (str "0x00c1E515EA9579856304198EFb15f525A0bb50f6") = JStr a
        /\ JStr (str "0x00c1E515EA9579856304198EFb15f525A0bb50f6") = JStr a
        /\ AddressValidator.isValidAddressFormat (JStr a) = true
        /\ a <> AddressValidator.ZERO_ADDRESS
        /\ a = Ethers.getChecksumAddress a
        /\ Path.resolve (str "/repo") [str "/repo/scripts"] <> str "/"
        /\ AddressValidator.validateTokenAddress (str "/repo")
             (str "/repo/scripts")
             (JStr (str "0x00c1E515EA9579856304198EFb15f525A0bb50f6"))
             (JStr (str "0x00c1E515EA9579856304198EFb15f525A0bb50f6"))
             (str "VINU")
           = Returns (mkResult true None None None (Some a) None).
Proof.
  exact (validateTokenAddress_iff (str "/repo") (str "/repo/scripts")
           (JStr (str "0x00c1E515EA9579856304198EFb15f525A0bb50f6"))
           (JStr (str "0x00c1E515EA9579856304198EFb15f525A0bb50f6"))
           (str "VINU") eq_refl).
Defined.

(** ** File names: contract names and failed reads *)

Definition is_upper (c : N) : bool :=
  Str.in_ranges c [Constants.range "A" "Z"].
Definition is_alnum (c : N) : bool :=
  Str.in_ranges c [Constants.range "a" "z"; Constants.range "A" "Z";
                   Constants.range "0" "9"].

Module ContractNameFacts.
Import RegExp RegExpFacts Constants FileUtils.

Lemma name_shape v :
  valid (validateContractName v) = true
  <-> exists c rest,
        v = JStr (c :: rest) /\ is_upper c = true
        /\ forallb is_alnum rest = true.
Proof.
  unfold validateContractName.
  destruct v as [| | | |name| |];
    try (split; [discriminate | intros [c [rest [H _]]]; discriminate]).
  assert (Hpat : test SAFE_CONTRACT_NAME_PATTERN name = true
                 <-> exists c rest, name = c :: rest /\ is_upper c = true
                                    /\ forallb is_alnum rest = true).
  { unfold test, SAFE_CONTRACT_NAME_PATTERN.
    cbn [anchored_start anchored_end body].
    rewrite accepts_iff, Matches_Cat. split.
    - intros [s1 [s2 [-> [H1 H2]]]].
      apply Matches_Set in H1 as [c [-> Hc]].
      apply Matches_Star_Set in H2. now exists c, s2.
    - intros [c [rest [-> [Hc Hrest]]]]. exists [c], rest.
      repeat split; [apply Matches_Set; now exists c|].
      now apply Matches_Star_Set. }
  destruct (test SAFE_CONTRACT_NAME_PATTERN name); cbn [negb valid].
  - split; [|auto]. intros _.
    destruct (proj1 Hpat eq_refl) as [c [rest [-> H]]]. now exists c, rest.
  - split; [discriminate|]. intros [c [rest [E H]]].
    assert (Hn : name = c :: rest) by (injection E; auto).
    apply Hpat. now exists c, rest.
Qed.

Lemma alnum_cases c :
  is_alnum c = true
  -> (97 <= c <= 122) \/ (65 <= c <= 90) \/ (48 <= c <= 57).
Proof.
  unfold is_alnum, Str.in_ranges, range. simpl.
  rewrite !orb_true_iff, !andb_true_iff, !N.leb_le. lia.
Qed.

Lemma upper_alnum c : is_upper c = true -> is_alnum c = true.
Proof.
  unfold is_upper, is_alnum, Str.in_ranges, range. simpl.
  rewrite !orb_true_iff, !andb_true_iff, !N.leb_le. lia.
Qed.

(** Putting letters and digits in front of a text adds no occurrence
    of a word that starts with another character. *)
Lemma includes_after name text x word :
  forallb is_alnum name = true -> is_alnum x = false ->
  Str.includes (name ++ text) (x :: word) = Str.includes text (x :: word).
Proof.
  intros Hname Hx. induction name as [|c name IH]; [reflexivity|].
  cbn [forallb] in Hname. apply andb_true_iff in Hname as [Hc Hname].
  cbn [app Str.includes Str.startsWith].
  assert (E : (c =? x) = false).
  { apply N.eqb_neq. intros ->. congruence. }
  rewrite E. cbn [andb orb]. now apply IH.
Qed.

End ContractNameFacts.

(** [validateContractName] accepts exactly the strings that start
    with a capital letter and go on with letters and digits.  Such a
    name is always a safe file name, also with an extension: when
    [validateSafeFilename] accepts a suffix it accepts the name followed
    by that suffix. *)
Theorem validateContractName_safe v :
  (valid (FileUtils.validateContractName v) = true
   <-> exists c rest,
         v = JStr (c :: rest) /\ is_upper c = true
         /\ forallb is_alnum rest = true)
  /\ (valid (FileUtils.validateContractName v) = true ->
      forall suffix,
        valid (FileUtils.validateSafeFilename (JStr suffix)) = true ->
        valid (FileUtils.validateSafeFilename
                 (JStr (Value.text v ++ suffix))) = true).
Proof.
  split; [apply ContractNameFacts.name_shape|].
  intros Hv suffix.
  apply ContractNameFacts.name_shape in Hv as [c [rest [-> [Hc Hrest]]]].
  change (Value.text (JStr (c :: rest))) with (c :: rest).
  assert (Hname : forallb is_alnum (c :: rest) = true).
  { cbn [forallb]. now rewrite (ContractNameFacts.upper_alnum c Hc). }
  unfold FileUtils.validateSafeFilename.
  assert (H1 : Str.includes ((c :: rest) ++ suffix) (str "..")
               = Str.includes suffix (str ".."))
    by exact (ContractNameFacts.includes_after _ suffix 46 [46] Hname eq_refl).
  assert (H2 : Str.includes ((c :: rest) ++ suffix) (str "/")
               = Str.includes suffix (str "/"))
    by exact (ContractNameFacts.includes_after _ suffix 47 [] Hname eq_refl).
  assert (H3 : Str.includes ((c :: rest) ++ suffix) (str "\")
               = Str.includes suffix (str "\"))
    by exact (ContractNameFacts.includes_after _ suffix 92 [] Hname eq_refl).
  assert (H4 : Str.includes ((c :: rest) ++ suffix) [0]
               = Str.includes suffix [0])
    by exact (ContractNameFacts.includes_after _ suffix 0 [] Hname eq_refl).
  rewrite H1, H2, H3, H4.
  destruct (Str.includes suffix (str "..") || Str.includes suffix (str "/")
            || Str.includes suffix (str "\")); [discriminate|].
  destruct (Str.includes suffix [0]); [discriminate|].
  destruct (RegExp.test FileUtils.CONTROL_CHARACTERS suffix) eqn:Ectl;
    [discriminate|].
  intros _.
  assert (E : RegExp.test FileUtils.CONTROL_CHARACTERS ((c :: rest) ++ suffix)
              = false).
  { unfold FileUtils.CONTROL_CHARACTERS in *.
    apply UrlFacts.test_class_false. intros x Hx.
    apply in_app_or in Hx as [Hx | Hx].
    - rewrite forallb_forall in Hname.
      pose proof (ContractNameFacts.alnum_cases x (Hname x Hx)) as Hcases.
      unfold RegExp.in_set, Str.in_ranges. simpl.
      rewrite orb_false_r. apply orb_false_iff.
      split; apply andb_false_iff; rewrite !N.leb_gt; lia.
    - exact (proj1 (UrlFacts.test_class_false _ _ _) Ectl x Hx). }
  now rewrite E.
Qed.

(** ** Guarded reads *)

Module ReadFacts.
Import Path.

Lemma untilSeparator_free s :
  forallb (fun c => negb (c =? slash)) (untilSeparator s) = true.
Proof.
  induction s as [|c s IH]; [reflexivity|].
  simpl. destruct (c =? slash) eqn:E; [reflexivity|].
  simpl. now rewrite E.
Qed.

(** The base name holds no separator. *)
Lemma basename_free p :
  forallb (fun c => negb (c =? slash)) (basename p) = true.
Proof.
  unfold basename. apply forallb_forall. intros c Hc.
  apply in_rev in Hc.
  pose proof (untilSeparator_free (dropSeparators (rev p))) as H.
  rewrite forallb_forall in H. now apply H.
Qed.

Lemma dropSeparators_split s :
  exists t, s = t ++ dropSeparators s /\ forallb (fun c => c =? slash) t = true.
Proof.
  induction s as [|c s [t [E Ht]]]; [now exists []|].
  simpl. destruct (c =? slash) eqn:Ec.
  - exists (c :: t). split; [simpl; now f_equal|]. simpl. now rewrite Ec.
  - now exists [].
Qed.

Lemma untilSeparator_split s :
  exists v, s = untilSeparator s ++ v
            /\ (v = [] \/ exists v', v = slash :: v').
Proof.
  induction s as [|c s [v [E Hv]]]; [exists []; auto|].
  simpl. destruct (c =? slash) eqn:Ec.
  - apply N.eqb_eq in Ec. subst c. exists (slash :: s). split; eauto.
  - exists v. split; [simpl; now f_equal | exact Hv].
Qed.

(** The base name is the last component of the path: what stands
    between the last separator before it and the trailing separators. *)
Lemma basename_split p :
  exists dir trail,
    p = dir ++ basename p ++ trail
    /\ forallb (fun c => c =? slash) trail = true
    /\ (dir = [] \/ exists dir', dir = dir' ++ [slash]).
Proof.
  unfold basename.
  destruct (dropSeparators_split (rev p)) as [t [Et Ht]].
  destruct (untilSeparator_split (dropSeparators (rev p))) as [v [Ev Hv]].
  exists (rev v), (rev t). split; [|split].
  - rewrite <- !rev_app_distr, <- app_assoc, <- Ev, <- Et.
    now rewrite rev_involutive.
  - apply forallb_forall. intros c Hc. apply in_rev in Hc.
    rewrite forallb_forall in Ht. now apply Ht.
  - destruct Hv as [-> | [v' ->]]; [now left|].
    right. exists (rev v'). reflexivity.
Qed.

End ReadFacts.

(** [safeReadFile] and [safeReadDir] answer every call with a result:
    a success carries what was read and no error, a failure carries an
    error and nothing else.  A path that is missing or unreadable
    ([ENOENT], [EACCES]) is reported by its last component only, which
    holds no separator: the directories above it are not shown. *)
Theorem guarded_reads_contract fs p encoding :
  let file := FileUtils.safeReadFile fs p encoding in
  let dir := FileUtils.safeReadDir fs p in
  let last := Path.basename p in
  (ReadResult.success file = true
   <-> exists text, readFileSync fs p encoding = inr text
                    /\ file = ReadResult.mk true (Some text) None None)
  /\ (ReadResult.success dir = true
      <-> exists names, readdirSync fs p = inr names
                        /\ dir = ReadResult.mk true None (Some names) None)
  /\ (forall e,
         readFileSync fs p encoding = inl e ->
         exists m,
           file = ReadResult.mk false None None (Some m)
           /\ (code e = str "ENOENT" -> m = str "File not found: " ++ last)
           /\ (code e = str "EACCES" -> m = str "Permission denied: " ++ last)
           /\ (code e <> str "ENOENT" -> code e <> str "EACCES" ->
               m = str "Error reading file: " ++ message e))
  /\ (forall e,
         readdirSync fs p = inl e ->
         exists m,
           dir = ReadResult.mk false None None (Some m)
           /\ (code e = str "ENOENT"
               -> m = str "Directory not found: " ++ last)
           /\ (code e = str "EACCES" -> m = str "Permission denied: " ++ last)
           /\ (code e <> str "ENOENT" -> code e <> str "EACCES" ->
               m = str "Error reading directory: " ++ message e))
  /\ (forall c, In c last -> c <> Path.slash)
  /\ exists above trail,
       p = above ++ last ++ trail
       /\ (forall c, In c trail -> c = Path.slash)
       /\ (above = [] \/ exists above', above = above' ++ [Path.slash]).
Proof.
  intros file dir last. subst file dir last.
  unfold FileUtils.safeReadFile, FileUtils.safeReadDir.
  assert (Hcode : forall e : FsError,
             (Str.eqb (code e) (str "ENOENT") = true
              <-> code e = str "ENOENT")
             /\ (Str.eqb (code e) (str "EACCES") = true
                 <-> code e = str "EACCES")).
  { intros e. split; apply Str_eqb_eq. }
  split; [|split; [|split; [|split; [|split]]]].
  - destruct (readFileSync fs p encoding) as [e|text]; cbn.
    + split; [discriminate|]. intros [t [H _]]. discriminate.
    + split; [|auto]. intros _. now exists text.
  - destruct (readdirSync fs p) as [e|names]; cbn.
    + split; [discriminate|]. intros [t [H _]]. discriminate.
    + split; [|auto]. intros _. now exists names.
  - intros e ->. eexists. split; [reflexivity|].
    destruct (Hcode e) as [H1 H2].
    destruct (Str.eqb (code e) (str "ENOENT")) eqn:E1;
      [|destruct (Str.eqb (code e) (str "EACCES")) eqn:E2].
    + repeat split; auto.
      * intros H. rewrite (proj1 H1 eq_refl) in H. discriminate.
      * intros H. exfalso. apply H. now apply H1.
    + repeat split; auto.
      * intros H. apply H1 in H. discriminate.
      * intros _ H. exfalso. apply H. now apply H2.
    + repeat split; auto.
      * intros H. apply H1 in H. discriminate.
      * intros H. apply H2 in H. discriminate.
  - intros e ->. eexists. split; [reflexivity|].
    destruct (Hcode e) as [H1 H2].
    destruct (Str.eqb (code e) (str "ENOENT")) eqn:E1;
      [|destruct (Str.eqb (code e) (str "EACCES")) eqn:E2].
    + repeat split; auto.
      * intros H. rewrite (proj1 H1 eq_refl) in H. discriminate.
      * intros H. exfalso. apply H. now apply H1.
    + repeat split; auto.
      * intros H. apply H1 in H. discriminate.
      * intros _ H. exfalso. apply H. now apply H2.
    + repeat split; auto.
      * intros H. apply H1 in H. discriminate.
      * intros H. apply H2 in H. discriminate.
  - intros c Hc.
    pose proof (ReadFacts.basename_free p) as H.
    rewrite forallb_forall in H. specialize (H c Hc).
    now apply negb_true_iff, N.eqb_neq in H.
  - destruct (ReadFacts.basename_split p) as [above [trail [E [Ht Ha]]]].
    exists above, trail. repeat split; auto.
    intros c Hc. rewrite forallb_forall in Ht. now apply N.eqb_eq, Ht.
Qed.

(** ** Structural-Validator: where an ABI fails *)

(** The result is a success, or a failure whose message starts with
    [prefix]. *)
Definition located (prefix : jsstring) (r : Result) : Prop :=
  valid r = true \/ exists tail, r = fail (prefix ++ tail).

Module LocationFacts.
Import AbiValidator.

Lemma located_fail prefix tail : located prefix (fail (prefix ++ tail)).
Proof. right. now exists tail. Qed.

Lemma located_ok prefix : located prefix ok.
Proof. now left. Qed.

Lemma located_longer prefix more r :
  located (prefix ++ more) r -> located prefix r.
Proof.
  intros [H | [tail ->]]; [now left|]. right. exists (more ++ tail).
  now rewrite app_assoc.
Qed.

Lemma located_each_indexed prefix f l :
  (forall x, In x l -> forall j, located prefix (f x j)) ->
  forall i, located prefix (each_indexed f l i).
Proof.
  induction l as [|x l IH]; intros Hf i; simpl; [apply located_ok|].
  destruct (negb (valid (f x i))).
  - apply Hf. now left.
  - apply IH. intros y Hy. apply Hf. now right.
Qed.

Lemma located_with_prop prefix k props absent present :
  located prefix absent ->
  (forall kv, In kv props -> located prefix (present (snd kv))) ->
  located prefix (with_prop k props absent present).
Proof.
  intros Ha Hp. unfold with_prop.
  induction props as [|kv props IH]; [exact Ha|].
  destruct (Str.eqb k (fst kv)).
  - apply Hp. now left.
  - apply IH. intros kv' Hin. apply Hp. now right.
Qed.

Ltac here :=
  first [ apply located_ok
        | apply located_fail
        | rewrite <- !app_assoc; apply located_fail ].

Lemma located_parameter_nested param :
  (forall context, located context (validateABIParameter param context))
  /\ (forall comps,
        param = JArr comps ->
        Forall (fun c => forall context,
                    located context (validateABIParameter c context))
               comps).
Proof.
  induction param using JSValue_nested_ind;
    (split; [|try discriminate]); try (intros context; here).
  - intros comps E. injection E as <-.
    eapply Forall_impl; [|exact H]. intros c Hc. apply Hc.
  - intros context. rewrite ContractFacts.validateABIParameter_unfold. cbv zeta.
    repeat match goal with
           | |- located _ (if ?b then _ else _) => destruct b; try here
           end.
    apply located_with_prop; [here|].
    intros kv Hin. rewrite Forall_forall in H.
    destruct (H kv Hin) as [_ Hcomps].
    destruct (Value.truthy (snd kv)); [|here].
    destruct (snd kv) as [| | | | |comps|]; try here.
    apply located_each_indexed. intros c Hc j.
    specialize (Hcomps comps eq_refl). rewrite Forall_forall in Hcomps.
    eapply located_longer. now apply Hcomps.
Qed.

(** Every failure of [validateABIParameter] starts with its context. *)
Lemma located_parameter param context :
  located context (validateABIParameter param context).
Proof. apply located_parameter_nested. Qed.

Lemma located_parameters params context :
  located context (validateABIParameters params context).
Proof.
  unfold validateABIParameters. destruct params; try here.
  apply located_each_indexed. intros c Hc j.
  eapply located_longer. apply located_parameter.
Qed.

Definition item_prefix (index : nat) : jsstring :=
  str "ABI item " ++ Str.of_nat index.

(** All warnings start with [prefix]. *)
Definition all_start (prefix : jsstring) (ws : list jsstring) : Prop :=
  Forall (fun w => exists tail, w = prefix ++ tail) ws.

Lemma check_params_located item k index missing ws :
  (exists tail, missing = item_prefix index ++ tail) ->
  all_start (item_prefix index) ws ->
  match check_params item k index missing ws with
  | inl r => exists tail, r = fail (item_prefix index ++ tail)
  | inr ws' => all_start (item_prefix index) ws'
  end.
Proof.
  intros Hm Hws. unfold check_params.
  destruct (negb (Value.truthy (Value.get item k))).
  - apply Forall_app. split; [exact Hws | now constructor].
  - destruct (located_parameters (Value.get item k)
                (str "ABI item " ++ Str.of_nat index ++ str "." ++ k))
      as [Hv | [tail Hr]].
    + now rewrite Hv.
    + rewrite Hr. cbn [valid fail negb]. exists (str "." ++ k ++ tail).
      unfold item_prefix. now rewrite <- !app_assoc.
Qed.

(** [validateABIItem] fails with a message that starts with [ABI item]
    and the index, or succeeds with warnings that all start so, or
    throws what the conversion of the [stateMutability] throws. *)
Definition answer (index : nat) (item : JSValue) (out : Thrown Result)
  : Prop :=
  (exists tail, out = Returns (fail (item_prefix index ++ tail)))
  \/ (exists ws, out = Returns (ok_warnings ws)
                 /\ all_start (item_prefix index) ws)
  \/ (exists e,
         out = Throws e
         /\ Value.ToString (Value.get item (str "stateMutability"))
            = Throws e).

Lemma item_located item index :
  answer index item (validateABIItem item index).
Proof.
  unfold validateABIItem. cbv zeta.
  assert (Hfail : forall tail,
             answer index item
               (Returns (fail (str "ABI item " ++ Str.of_nat index ++ tail)))).
  { intros tail. left. exists tail. unfold item_prefix.
    now rewrite <- app_assoc. }
  repeat match goal with
         | |- answer _ _ (if ?b then Returns (fail _) else _) =>
             destruct b; [apply Hfail|]
         end.
  assert (Hmissing : forall tail,
             exists t, str "ABI item " ++ Str.of_nat index ++ tail
                       = item_prefix index ++ t).
  { intros tail. exists tail. unfold item_prefix. now rewrite <- app_assoc. }
  assert (Hopt : forall (b : bool) k missing ws,
             (exists tail, missing = item_prefix index ++ tail) ->
             all_start (item_prefix index) ws ->
             match (if b then check_params item k index missing ws
                    else inr ws) with
             | inl r => exists tail, r = fail (item_prefix index ++ tail)
             | inr ws' => all_start (item_prefix index) ws'
             end).
  { intros [] k missing ws Hm Hws; [now apply check_params_located | exact Hws]. }
  assert (Hnil : all_start (item_prefix index) []) by constructor.
  match goal with
  | |- answer _ _ (match (if ?b then check_params item ?k index
                                       (_ ++ _ ++ ?tail) ?ws
                          else _) with _ => _ end) =>
      pose proof (Hopt b k _ ws (Hmissing tail) Hnil) as H1
  end.
  match goal with
  | |- answer _ _ (match ?x with _ => _ end) =>
      destruct x as [r1 | ws1];
        [destruct H1 as [t1 ->]; left; now exists t1|]
  end.
  match goal with
  | |- answer _ _ (match (if ?b then check_params item ?k index
                                       (_ ++ _ ++ ?tail) ?ws
                          else _) with _ => _ end) =>
      pose proof (Hopt b k _ ws (Hmissing tail) H1) as H2
  end.
  match goal with
  | |- answer _ _ (match ?x with _ => _ end) =>
      destruct x as [r2 | ws2];
        [destruct H2 as [t2 ->]; left; now exists t2|]
  end.
  match goal with
  | |- answer _ _ (if ?b then _ else _) => destruct b
  end.
  { destruct (Value.ToString (Value.get item (str "stateMutability")))
      as [printed|e] eqn:Es.
    - apply Hfail.
    - right. right. now exists e. }
  match goal with
  | |- answer _ _ (match (if ?b then check_params item ?k index
                                       (_ ++ _ ++ ?tail) ?ws
                          else _) with _ => _ end) =>
      pose proof (Hopt b k _ ws (Hmissing tail) H2) as H3
  end.
  match goal with
  | |- answer _ _ (match ?x with _ => _ end) =>
      destruct x as [r3 | ws3];
        [destruct H3 as [t3 ->]; left; now exists t3|]
  end.
  right. left. now exists ws3.
Qed.

End LocationFacts.

(** The item is accepted, or refused, at the index. *)
Definition accepts (i : nat) (item : JSValue) : Prop :=
  exists r, AbiValidator.validateABIItem item i = Returns r /\ valid r = true.

Definition refuses (i : nat) (item : JSValue) : Prop :=
  exists r, AbiValidator.validateABIItem item i = Returns r /\ valid r = false.

Module ItemsFacts.
Import AbiValidator LocationFacts.

Lemma validate_items_spec contractName items :
  forall i ws,
    match validate_items contractName items i ws with
    | Returns (inl failure) =>
        exists k item tail,
          nth_error items k = Some item
          /\ refuses (i + k) item
          /\ (forall j item', (j < k)%nat -> nth_error items j = Some item' ->
                              accepts (i + j) item')
          /\ failure = fail (contractName ++ str ": " ++ item_prefix (i + k)
                             ++ tail)
    | Returns (inr ws') =>
        (forall k item, nth_error items k = Some item ->
                        accepts (i + k) item)
        /\ exists new,
             ws' = ws ++ new
             /\ all_start (contractName ++ str ": ABI item ") new
    | Throws e =>
        exists k item,
          nth_error items k = Some item
          /\ validateABIItem item (i + k) = Throws e
          /\ Value.ToString (Value.get item (str "stateMutability"))
             = Throws e
          /\ (forall j item', (j < k)%nat -> nth_error items j = Some item' ->
                              accepts (i + j) item')
    end.
Proof.
  induction items as [|item items IH]; intros i ws.
  - simpl. split; [intros [|k] x; discriminate|].
    exists []. split; [now rewrite app_nil_r | constructor].
  - cbn [validate_items].
    destruct (item_located item i)
      as [[tail E] | [[iws [E Hiws]] | [e [E He]]]]; rewrite E;
      cbn [valid error warnings fail ok_warnings negb].
    + exists 0%nat, item, tail. rewrite Nat.add_0_r. repeat split.
      * eexists. split; [exact E | reflexivity].
      * intros j x Hj. lia.
    + assert (Hitem : accepts i item)
        by (eexists; split; [exact E | reflexivity]).
      specialize (IH (S i)
                     (ws ++ map (fun w => contractName ++ str ": " ++ w) iws)).
      destruct (validate_items contractName items (S i) _)
        as [[failure | ws']|e].
      * destruct IH as [k [x [tail [Hk [Hx [Hbefore ->]]]]]].
        exists (S k), x, tail. rewrite Nat.add_succ_r. repeat split; auto.
        intros [|j] y Hj Hy.
        -- injection Hy as <-. now rewrite Nat.add_0_r.
        -- rewrite Nat.add_succ_r. apply Hbefore; [lia | exact Hy].
      * destruct IH as [Hall [new [-> Hnew]]]. split.
        -- intros [|k] x Hx.
           ++ injection Hx as <-. now rewrite Nat.add_0_r.
           ++ rewrite Nat.add_succ_r. now apply Hall.
        -- exists (map (fun w => contractName ++ str ": " ++ w) iws ++ new).
           split; [now rewrite app_assoc|].
           apply Forall_app. split; [|exact Hnew].
           apply Forall_forall. intros w Hw.
           apply in_map_iff in Hw as [w0 [<- Hw0]].
           unfold all_start in Hiws. rewrite Forall_forall in Hiws.
           destruct (Hiws w0 Hw0) as [tail ->].
           exists (Str.of_nat i ++ tail). unfold item_prefix.
           now rewrite <- !app_assoc.
      * destruct IH as [k [x [Hk [Hx [Hs Hbefore]]]]].
        exists (S k), x. rewrite Nat.add_succ_r. repeat split; auto.
        intros [|j] y Hj Hy.
        -- injection Hy as <-. now rewrite Nat.add_0_r.
        -- rewrite Nat.add_succ_r. apply Hbefore; [lia | exact Hy].
    + exists 0%nat, item. rewrite Nat.add_0_r. repeat split; auto.
      intros j x Hj. lia.
Qed.

End ItemsFacts.

(** On an array that is not empty, [validateABI] goes by the first item
    that [validateABIItem] does not accept at its index.  It accepts
    exactly when there is none.  When that item is refused, [validateABI]
    refuses with an error that starts with the contract name and
    [ABI item i], where [i] is the index of the item; down to a parameter
    in nested tuple components, every error of an item starts with
    [ABI item i].  When [validateABIItem] throws on that item, which it
    does on a [stateMutability] that cannot be printed, [validateABI]
    throws the same error.  When the ABI is accepted every warning starts
    with the contract name, too. *)
Theorem validateABI_names_first_refused_item items contractName :
  items <> [] ->
  let out := AbiValidator.validateABI (JArr items) contractName in
  ((exists r, out = Returns r /\ valid r = true)
   <-> forall i item, nth_error items i = Some item -> accepts i item)
  /\ (forall r,
         out = Returns r -> valid r = false ->
         exists i item tail,
           nth_error items i = Some item
           /\ refuses i item
           /\ (forall j item', (j < i)%nat -> nth_error items j = Some item' ->
                               accepts j item')
           /\ r = fail (contractName ++ str ": ABI item " ++ Str.of_nat i
                        ++ tail))
  /\ (forall r,
         out = Returns r -> valid r = true ->
         exists ws,
           r = ok_warnings ws
           /\ forall w, In w ws ->
                        Str.startsWith w (contractName ++ str ": ABI ") = true)
  /\ (forall e,
         out = Throws e ->
         exists i item,
           nth_error items i = Some item
           /\ AbiValidator.validateABIItem item i = Throws e
           /\ Value.ToString (Value.get item (str "stateMutability"))
              = Throws e
           /\ (forall j item', (j < i)%nat -> nth_error items j = Some item' ->
                               accepts j item')).
Proof.
  intros Hne out. subst out. unfold AbiValidator.validateABI.
  destruct items as [|x items]; [contradiction|].
  pose proof (ItemsFacts.validate_items_spec contractName (x :: items) 0 [])
    as Hspec.
  destruct (AbiValidator.validate_items contractName (x :: items) 0 [])
    as [[failure | ws]|e].
  - destruct Hspec as [k [item [tail [Hk [Hitem [Hbefore ->]]]]]].
    cbn [Nat.add] in *. split; [|split; [|split]].
    + split.
      * intros [r [H Hv]]. injection H as <-. discriminate.
      * intros H. destruct (H k item Hk) as [r [Hr Hv]].
        destruct Hitem as [r' [Hr' Hv']]. congruence.
    + intros r H _. injection H as <-. exists k, item, tail.
      repeat split; auto.
    + intros r H Hv. injection H as <-. discriminate.
    + discriminate.
  - destruct Hspec as [Hall [new [-> Hnew]]]. cbn [Nat.add app] in *.
    assert (Hstart : forall w, In w new ->
                Str.startsWith w (contractName ++ str ": ABI ") = true).
    { intros w Hw. unfold LocationFacts.all_start in Hnew.
      rewrite Forall_forall in Hnew. destruct (Hnew w Hw) as [tail ->].
      apply startsWith_iff. exists (str "item " ++ tail).
      now rewrite <- !app_assoc. }
    match goal with
    | |- context [if ?b then _ else _] => destruct b
    end; (split; [|split; [|split]]); try discriminate.
    + split; [auto|]. intros _. eexists. split; reflexivity.
    + intros r H Hv. injection H as <-. discriminate.
    + intros r H _. injection H as <-. eexists. split; [reflexivity|].
      intros w Hw. apply in_app_or in Hw as [Hw | [<- | []]]; [now apply Hstart|].
      apply startsWith_iff. eexists. rewrite <- !app_assoc.
      do 2 f_equal. reflexivity.
    + split; [auto|]. intros _. eexists. split; reflexivity.
    + intros r H Hv. injection H as <-. discriminate.
    + intros r H _. injection H as <-. eexists. split; [reflexivity|].
      exact Hstart.
  - destruct Hspec as [k [item [Hk [Hitem [Hs Hbefore]]]]].
    cbn [Nat.add] in *. split; [|split; [|split]]; try discriminate.
    + split.
      * intros [r [H _]]. discriminate.
      * intros H. destruct (H k item Hk) as [r [Hr _]]. congruence.
    + intros e' H. injection H as <-. exists k, item. auto.
Qed.

(** At the ABI of one function with a parameter named [__proto__]. *)
Lemma validateABI_names_first_refused_item_witness :
  exists i item tail,
    nth_error [Examples.function_item] i = Some item
    /\ refuses i item
    /\ (forall j item', (j < i)%nat ->
                        nth_error [Examples.function_item] j = Some item' ->
                        accepts j item')
    /\ fail (str "Token: ABI item 0.inputs[0]: parameter name '__proto__' is not allowed (security risk)")
       = fail (str "Token" ++ str ": ABI item " ++ Str.of_nat i ++ tail).
Proof.
  exact (proj1 (proj2 (validateABI_names_first_refused_item
                         [Examples.function_item] (str "Token")
                         ltac:(discriminate)))
               _ eq_refl eq_refl).
Defined.

(** ** Structural-Validator: the parameters that are accepted *)

(** A name that a parameter may carry: none, the empty string, or an
    identifier that is not reserved. *)
Definition name_accepted (name : JSValue) : Prop :=
  name = JUndefined
  \/ exists s,
       name = JStr s
       /\ (s = []
           \/ (RegExp.test Constants.ABI_FUNCTION_NAME_PATTERN s = true
               /\ ~ In s AbiValidator.dangerousNames)).

(** A parameter as [validateABIParameter] wants it: an object whose
    [type] is a string of the permitted characters and whose [name] is
    acceptable; when the type starts with [tuple] and the object has
    [components] that are not falsy, they are an array of such
    parameters. *)
Inductive Accepted : JSValue -> Prop :=
| accepted props type :
    Value.get (JObj props) (str "type") = JStr type ->
    RegExp.test AbiValidator.PARAMETER_TYPE_PATTERN type = true ->
    name_accepted (Value.get (JObj props) (str "name")) ->
    (Str.startsWith type (str "tuple") = true ->
     forall components,
       Value.lookup (str "components") props = Some components ->
       Value.truthy components = true ->
       exists comps, components = JArr comps /\ Forall Accepted comps) ->
    Accepted (JObj props).

Module AcceptFacts.
Import AbiValidator.

Lemma each_indexed_valid f l :
  forall i,
    valid (each_indexed f l i) = true
    <-> forall k c, nth_error l k = Some c -> valid (f c (i + k)%nat) = true.
Proof.
  induction l as [|x l IH]; intros i; simpl.
  - split; [intros _ [|k] c; discriminate | reflexivity].
  - destruct (valid (f x i)) eqn:E; cbn [negb].
    + rewrite IH. split.
      * intros H [|k] c Hk.
        -- injection Hk as <-. now rewrite Nat.add_0_r.
        -- rewrite Nat.add_succ_r. now apply H.
      * intros H k c Hk. specialize (H (S k) c Hk).
        now rewrite Nat.add_succ_r in H.
    + rewrite E. split; [discriminate|]. intros H.
      specialize (H 0%nat x eq_refl). rewrite Nat.add_0_r in H. congruence.
Qed.

Lemma lookup_In k props v :
  Value.lookup k props = Some v -> exists k', In (k', v) props.
Proof.
  induction props as [|[k' v'] props IH]; [discriminate|]. simpl.
  destruct (Str.eqb k k').
  - intros H. injection H as ->. exists k'. now left.
  - intros H. destruct (IH H) as [k'' Hin]. exists k''. now right.
Qed.

(** The checks on the name. *)
Lemma name_checks name :
  (negb (is_undefined name) && negb (Value.eq_str name [])
   && negb (Value.typeof_string name) = false
   /\ (Value.truthy name && negb (Value.eq_str name []))
      && negb (RegExp.test Constants.ABI_FUNCTION_NAME_PATTERN
                           (Value.text name)) = false
   /\ (Value.truthy name && negb (Value.eq_str name []))
      && Value.in_strings name dangerousNames = false)
  <-> name_accepted name.
Proof.
  unfold name_accepted.
  destruct name as [| |b|n|s|l|o];
    try (split; [intros [H _]; discriminate
                | intros [H | [s [H _]]]; discriminate]).
  - split; [now left | auto].
  - cbn [is_undefined Value.eq_str Value.typeof_string Value.truthy
         Value.text Value.in_strings negb andb].
    destruct s as [|c s].
    + split; [|auto]. intros _. right. exists []. auto.
    + cbn [Str.eqb negb andb].
      destruct (RegExp.test Constants.ABI_FUNCTION_NAME_PATTERN (c :: s)) eqn:Ep;
        cbn [negb].
      * destruct (Str.mem (c :: s) dangerousNames) eqn:Ed.
        -- split; [intros [_ [_ H]]; discriminate|].
           intros [H | [s' [E [H | [_ H]]]]]; try discriminate.
           ++ injection E as <-. discriminate.
           ++ injection E as <-. exfalso. apply H.
              unfold Str.mem in Ed. apply existsb_exists in Ed as [x [Hx Hxe]].
              apply Str_eqb_eq in Hxe. now subst.
        -- split; [|auto]. intros _. right. exists (c :: s).
           split; [reflexivity|]. right. split; [exact Ep|].
           intros Hin. unfold Str.mem in Ed.
           assert (Ht : existsb (Str.eqb (c :: s)) dangerousNames = true).
           { apply existsb_exists. exists (c :: s).
             split; [exact Hin | apply Str_eqb_refl]. }
           congruence.
      * split; [intros [_ [H _]]; discriminate|].
        intros [H | [s' [E [H | [H _]]]]]; try discriminate.
        -- injection E as <-. discriminate.
        -- injection E as <-. congruence.
Qed.

Lemma accepted_nested param :
  (forall context,
      valid (validateABIParameter param context) = true <-> Accepted param)
  /\ (forall comps,
        param = JArr comps ->
        Forall (fun c => forall context,
                    valid (validateABIParameter c context) = true
                    <-> Accepted c)
               comps).
Proof.
  induction param using JSValue_nested_ind;
    (split; [|try discriminate]);
    try (intros context; split; [discriminate | intros Ha; inversion Ha]).
  - intros comps E. injection E as <-.
    eapply Forall_impl; [|exact H]. intros c Hc. apply Hc.
  - intros context. rewrite ContractFacts.validateABIParameter_unfold.
    cbv zeta. cbn [Value.typeof_object is_null negb orb].
    set (type := Value.get (JObj props) (str "type")).
    set (name := Value.get (JObj props) (str "name")).
    pose proof (name_checks name) as Hname.
    assert (Hcomponents :
                valid (with_prop (str "components") props ok
                         (fun components =>
                            if Value.truthy components
                            then match components with
                                 | JArr comps =>
                                     each_indexed
                                       (fun c i =>
                                          validateABIParameter c
                                            (context ++ str ".components["
                                             ++ Str.of_nat i ++ str "]"))
                                       comps 0
                                 | _ => fail (context
                                              ++ str ": tuple components must be an array")
                                 end
                            else ok)) = true
                <-> (forall components,
                        Value.lookup (str "components") props = Some components ->
                        Value.truthy components = true ->
                        exists comps, components = JArr comps
                                      /\ Forall Accepted comps)).
    { rewrite AbiFacts.with_prop_lookup.
      destruct (Value.lookup (str "components") props) as [v|] eqn:El.
      2:{ split; [intros _ c Hc; discriminate | reflexivity]. }
      destruct (lookup_In _ _ _ El) as [k' Hin].
      rewrite Forall_forall in H. destruct (H (k', v) Hin) as [_ Hcomps].
      cbn [snd] in Hcomps.
      destruct (Value.truthy v) eqn:Et.
      2:{ split; [|reflexivity]. intros _ c Hc Htc.
          injection Hc as <-. congruence. }
      destruct v as [| | | | |comps|];
        try (split; [discriminate|];
             intros Hc; destruct (Hc _ eq_refl Et) as [comps [E _]];
             discriminate).
      specialize (Hcomps comps eq_refl). rewrite Forall_forall in Hcomps.
      rewrite each_indexed_valid. split.
      - intros Hall c Hc _. injection Hc as <-. exists comps.
        split; [reflexivity|]. apply Forall_forall. intros c Hc.
        destruct (In_nth_error _ _ Hc) as [k Hk].
        apply (Hcomps c Hc (context ++ str ".components["
                            ++ Str.of_nat (0 + k) ++ str "]")).
        now apply Hall.
      - intros Hc k c Hk. destruct (Hc _ eq_refl Et) as [comps' [E Hall]].
        injection E as <-. rewrite Forall_forall in Hall.
        apply nth_error_In in Hk. now apply Hcomps, Hall. }
    split.
    + intros Hv.
      destruct (negb (Value.truthy type) || negb (Value.typeof_string type))
        eqn:Etype; [discriminate|].
      apply orb_false_iff in Etype as [Ett Ets].
      apply negb_false_iff in Ett, Ets.
      destruct type as [| | | |t| |] eqn:EType; try discriminate.
      change (Value.text (JStr t)) with t in Hv.
      destruct (negb (is_undefined name) && negb (Value.eq_str name [])
                && negb (Value.typeof_string name)) eqn:E1; [discriminate|].
      destruct ((Value.truthy name && negb (Value.eq_str name []))
                && negb (RegExp.test Constants.ABI_FUNCTION_NAME_PATTERN
                           (Value.text name))) eqn:E2; [discriminate|].
      destruct ((Value.truthy name && negb (Value.eq_str name []))
                && Value.in_strings name dangerousNames) eqn:E3;
        [discriminate|].
      destruct (RegExp.test PARAMETER_TYPE_PATTERN t) eqn:Ep;
        [|discriminate].
      cbn [negb] in Hv.
      apply (accepted props t); auto.
      * apply Hname. auto.
      * intros Htuple. rewrite Htuple in Hv. now apply Hcomponents.
    + intros Ha. inversion Ha as [props' t Ht Hp Hn Hc E]; subst.
      fold type in Ht. fold name in Hn. rewrite Ht.
      change (Value.text (JStr t)) with t.
      assert (Hne : Value.truthy (JStr t) = true).
      { destruct t; [discriminate | reflexivity]. }
      rewrite Hne. cbn [Value.typeof_string negb orb].
      apply Hname in Hn as [E1 [E2 E3]]. rewrite E1, E2, E3, Hp.
      cbn [negb].
      destruct (Str.startsWith t (str "tuple")) eqn:Etuple; [|reflexivity].
      apply Hcomponents. now apply Hc.
Qed.

End AcceptFacts.

(** [validateABIParameter] accepts exactly the parameters described by
    [Accepted], whatever the context it is given: the context shows in
    messages only. *)
Theorem validateABIParameter_accepts_iff param context :
  valid (AbiValidator.validateABIParameter param context) = true
  <-> Accepted param.
Proof. apply AcceptFacts.accepted_nested. Qed.

(** ** Safe-Parse: values without reserved keys, files and schemas *)

(** No [undefined] occurs in the value, at any depth: it is a value of
    the JSON data model. *)
Inductive Defined : JSValue -> Prop :=
| DefinedNull : Defined JNull
| DefinedBool b : Defined (JBool b)
| DefinedNum n : Defined (JNum n)
| DefinedStr s : Defined (JStr s)
| DefinedArr elems : Forall Defined elems -> Defined (JArr elems)
| DefinedObj props :
    Forall (fun kv => Defined (snd kv)) props -> Defined (JObj props).

Module ParseFacts.
Import Json.

Definition defined_result (r : Parsed JSValue) : Prop :=
  match r with
  | Parse v _ => Defined v
  | _ => True
  end.

Lemma set_prop_defined k v acc :
  Defined v -> Forall (fun kv => Defined (snd kv)) acc ->
  Forall (fun kv => Defined (snd kv)) (set_prop k v acc).
Proof.
  intros Hv. induction 1 as [|[k' v'] acc Hkv Hacc IH]; simpl.
  - repeat constructor. exact Hv.
  - destruct (Str.eqb k k'); constructor; auto.
Qed.

(** The parser builds values of the JSON data model. *)
Lemma parse_defined fuel :
  (forall s, defined_result (parse_value fuel s))
  /\ (forall s acc, Forall Defined acc ->
                    defined_result (parse_elements fuel s acc))
  /\ (forall s acc, Forall (fun kv => Defined (snd kv)) acc ->
                    defined_result (parse_members fuel s acc)).
Proof.
  induction fuel as [|fuel [IHv [IHe IHm]]]; [repeat split; intros; exact I|].
  split; [|split].
  - intros s. cbn [parse_value].
    destruct (skip_ws s) as [|c s']; [exact I|].
    destruct (c =? 123).
    { destruct (skip_ws s') as [|x t]; [apply IHm; constructor|].
      destruct (N.eq_dec x 125) as [->|Hx]; [repeat constructor|].
      destruct x as [|q]; [apply IHm; constructor|].
      repeat (destruct q as [q|q|]; try (apply IHm; constructor)).
      contradiction. }
    destruct (c =? 91).
    { destruct (skip_ws s') as [|x t]; [apply IHe; constructor|].
      destruct (N.eq_dec x 93) as [->|Hx]; [repeat constructor|].
      destruct x as [|q]; [apply IHe; constructor|].
      repeat (destruct q as [q|q|]; try (apply IHe; constructor)).
      contradiction. }
    destruct (c =? 34).
    { destruct (parse_chars s') as [[d r]|]; [constructor | exact I]. }
    destruct (Str.startsWith (c :: s') (str "true")); [constructor|].
    destruct (Str.startsWith (c :: s') (str "false")); [constructor|].
    destruct (Str.startsWith (c :: s') (str "null")); [constructor|].
    destruct (parse_number (c :: s')) as [[n r]|]; [constructor | exact I].
  - intros s acc Hacc. cbn [parse_elements].
    specialize (IHv s).
    destruct (parse_value fuel s) as [v rest| |]; simpl in IHv; try exact I.
    destruct (skip_ws rest) as [|x t]; [exact I|].
    destruct (N.eq_dec x 44) as [->|H44]; [apply IHe; now constructor|].
    destruct (N.eq_dec x 93) as [->|H93].
    { simpl. constructor. apply Forall_app. split.
      - now apply Forall_rev.
      - repeat constructor. exact IHv. }
    destruct x as [|q]; [exact I|].
    repeat (destruct q as [q|q|]; try exact I); contradiction.
  - intros s acc Hacc. cbn [parse_members].
    destruct (skip_ws s) as [|x s1]; [exact I|].
    destruct (N.eq_dec x 34) as [->|H34];
      [|destruct x as [|q]; [exact I|];
        repeat (destruct q as [q|q|]; try exact I); contradiction].
    destruct (parse_chars s1) as [[key s2]|]; [|exact I].
    destruct (skip_ws s2) as [|y s3]; [exact I|].
    destruct (N.eq_dec y 58) as [->|H58];
      [|destruct y as [|q]; [exact I|];
        repeat (destruct q as [q|q|]; try exact I); contradiction].
    specialize (IHv s3).
    destruct (parse_value fuel s3) as [v rest| |]; simpl in IHv; try exact I.
    destruct (skip_ws rest) as [|z t]; [exact I|].
    destruct (N.eq_dec z 44) as [->|H44];
      [apply IHm; now apply set_prop_defined|].
    destruct (N.eq_dec z 125) as [->|H125].
    { simpl. constructor. now apply set_prop_defined. }
    destruct z as [|q]; [exact I|].
    repeat (destruct q as [q|q|]; try exact I); contradiction.
Qed.

Lemma parse_text_defined text v rest :
  parse_text text = Parse v rest -> Defined v /\ rest = [].
Proof.
  unfold parse_text.
  pose proof (proj1 (parse_defined (2 * List.length text + 2)) text) as H.
  destruct (parse_value _ text) as [v' rest'| |]; try discriminate.
  simpl in H. destruct (skip_ws rest'); [|discriminate].
  intros E. injection E as <- <-. auto.
Qed.

(** The decimal rendering of a number starts with a digit. *)
Lemma digits_head fuel :
  forall n acc,
    (acc = [] -> fuel <> 0%nat) ->
    (forall c t, acc = c :: t -> 48 <= c <= 57) ->
    exists c t, Str.digits_fuel fuel n acc = c :: t /\ 48 <= c <= 57.
Proof.
  induction fuel as [|fuel IH]; intros n acc Hne Hacc.
  - destruct acc as [|c t]; [now contradiction Hne|].
    exists c, t. split; [reflexivity | now apply (Hacc c t)].
  - cbn [Str.digits_fuel].
    assert (Hd : 48 <= 48 + n mod 10 <= 57).
    { pose proof (N.mod_upper_bound n 10) as Hm.
      assert (H10 : 10 <> 0) by discriminate. specialize (Hm H10).
      revert Hm. generalize (n mod 10). intros m Hm. lia. }
    destruct (n / 10 =? 0).
    + eexists _, _. split; [reflexivity | exact Hd].
    + apply IH; [discriminate|]. intros c t E. injection E as <- _. exact Hd.
Qed.

Lemma index_not_dangerous i : SafeJson.dangerous (Str.of_nat i) = false.
Proof.
  unfold Str.of_nat, Str.of_N.
  destruct (digits_head (S (N.to_nat (N.log2 (N.of_nat i)))) (N.of_nat i) [])
    as [c [t [E Hc]]]; [discriminate | discriminate |].
  rewrite E. unfold SafeJson.dangerous, Str.mem. cbn [existsb str].
  simpl.
  assert (E1 : (c =? 95) = false) by (apply N.eqb_neq; lia).
  assert (E2 : (c =? 99) = false) by (apply N.eqb_neq; lia).
  assert (E3 : (c =? 112) = false) by (apply N.eqb_neq; lia).
  now rewrite E1, E2, E3.
Qed.

Lemma map_indexed_id (f : nat -> JSValue -> JSValue) l :
  forall i, (forall j x, In x l -> f j x = x) -> map_indexed f i l = l.
Proof.
  induction l as [|x l IH]; intros i H; [reflexivity|].
  simpl. rewrite H by now left. f_equal. apply IH.
  intros j y Hy. apply H. now right.
Qed.

(** The walk of the reviver gives a value without reserved keys back
    as it is. *)
Lemma internalize_identity v :
  Defined v ->
  (forall k, SafeJson.KeyIn k v -> SafeJson.dangerous k = false) ->
  forall name, SafeJson.dangerous name = false ->
               internalize SafeJson.reviver name v = v.
Proof.
  induction v using JSValue_nested_ind; intros Hdef Hkeys name Hname;
    rewrite internalize_unfold;
    match goal with
    | |- SafeJson.reviver ?a ?b = _ =>
        destruct (reviver_cases a b) as [[Hd _] | [_ ->]]; [congruence|]
    end; try reflexivity.
  - f_equal. apply map_indexed_id. intros j x Hx.
    rewrite Forall_forall in H. inversion Hdef as [| | | |? Hall|]; subst.
    rewrite Forall_forall in Hall.
    apply H; auto.
    + intros k Hk. apply Hkeys. now apply SafeJson.KeyInElement with x.
    + apply index_not_dangerous.
  - f_equal. inversion Hdef as [| | | | |? Hall]; subst.
    clear Hdef. induction props as [|[k v] props IH]; [reflexivity|].
    inversion H as [|? ? Hv Hprops]; inversion Hall as [|? ? Dv Dprops]; subst.
    cbn [flat_map fst snd] in *.
    rewrite Hv; auto.
    + rewrite IH; auto.
      * destruct v; try reflexivity. inversion Dv.
      * intros k' Hk'. apply Hkeys.
        inversion Hk' as [? v' Hin | ? k'' v' Hin Hsub |]; subst.
        -- apply SafeJson.KeyHere with v'. now right.
        -- apply SafeJson.KeyInMember with k'' v'; [now right | exact Hsub].
    + intros k' Hk'. apply Hkeys.
      apply SafeJson.KeyInMember with k v; [now left | exact Hk'].
    + apply Hkeys. apply SafeJson.KeyHere with v. now left.
Qed.

Lemma delete_absent x props :
  (forall v, ~ In (x, v) props) ->
  SafeJson.delete x (JObj props) = JObj props.
Proof.
  intros H. simpl. f_equal. induction props as [|[k v] props IH];
    [reflexivity|].
  simpl. destruct (Str.eqb k x) eqn:E.
  - apply Str_eqb_eq in E. subst. exfalso. apply (H v). now left.
  - simpl. f_equal. apply IH. intros v' Hin. apply (H v'). now right.
Qed.

(** What [safeParse] hands back has no reserved key. *)
Lemma safeParse_clean text realm v rest realm' :
  SafeJson.safeParse text realm = (Parse v rest, realm') ->
  realm' = realm
  /\ forall k, SafeJson.KeyIn k v -> SafeJson.dangerous k = false.
Proof.
  unfold SafeJson.safeParse, parse.
  destruct (parse_text text) as [v0 rest0| |]; try discriminate.
  intros E. injection E as <- <- <-. split; [reflexivity|].
  intros k HK.
  destruct (Value.typeof_object _ && negb _).
  - do 3 apply delete_KeyIn in HK. now apply internalize_clean in HK.
  - now apply internalize_clean in HK.
Qed.

End ParseFacts.

(** A text whose value has none of the three reserved keys, at any
    depth, is parsed by [safeParse] to exactly what [JSON.parse] gives
    without a reviver: nothing else is removed or changed. *)
Theorem safeParse_keeps_values_without_reserved_keys text v realm :
  Json.parse_text text = Parse v [] ->
  (forall k, SafeJson.KeyIn k v -> SafeJson.dangerous k = false) ->
  SafeJson.safeParse text realm = (Parse v [], realm).
Proof.
  intros Hparse Hkeys.
  destruct (ParseFacts.parse_text_defined text v [] Hparse) as [Hdef _].
  unfold SafeJson.safeParse, Json.parse. rewrite Hparse.
  rewrite (ParseFacts.internalize_identity v Hdef Hkeys [] eq_refl).
  destruct v as [| | | | | |props]; try reflexivity.
  cbn [Value.typeof_object SafeJson.is_null negb andb].
  assert (Habsent : forall x, SafeJson.dangerous x = true ->
                              forall v, ~ In (x, v) props).
  { intros x Hx v Hin.
    rewrite (Hkeys x (SafeJson.KeyHere x props v Hin)) in Hx. discriminate. }
  rewrite !ParseFacts.delete_absent; auto.
Qed.

(** At the text [{"data":{"kept":1}}]. *)
Lemma safeParse_keeps_values_without_reserved_keys_witness :
  SafeJson.safeParse
    (str "{" ++ Examples.quoted "data" ++ str ":{" ++ Examples.quoted "kept"
     ++ str ":1}}")
    (mkRealm [])
  = (Parse (JObj [(str "data", JObj [(str "kept", JNum (mkNumber 1 0))])]) [],
     mkRealm []).
Proof.
  apply (safeParse_keeps_values_without_reserved_keys
           (str "{" ++ Examples.quoted "data" ++ str ":{"
            ++ Examples.quoted "kept" ++ str ":1}}")
           (JObj [(str "data", JObj [(str "kept", JNum (mkNumber 1 0))])])
           (mkRealm [])).
  - reflexivity.
  - intros k HK.
    inversion HK as [? v Hin | ? k' v Hin Hsub |]; subst.
    + destruct Hin as [E | []]. injection E as <- _. reflexivity.
    + destruct Hin as [E | []]. injection E as _ <-.
      inversion Hsub as [? v Hin | ? k'' v Hin Hsub' |]; subst.
      * destruct Hin as [E | []]. injection E as <- _. reflexivity.
      * destruct Hin as [E | []]. injection E as _ <-. inversion Hsub'.
Defined.

(** [safeReadJSON] hands back a value only for a file that exists,
    whose size and whose text are both within [maxSize], and whose text
    is JSON; the value is what [safeParse] makes of the text, so it has
    no reserved key at any depth.  A file that does not exist is
    answered [File not found], and one that is too large is answered
    [File too large] without being read. *)
Theorem safeReadJSON_guards fs syntax_message filePath maxSize realm :
  let r := fst (SafeJson.safeReadJSON fs syntax_message filePath maxSize
                  realm) in
  (forall v,
      r = Returns v ->
      existsSync fs filePath = true
      /\ (exists size,
             statSync_size fs filePath = inr size /\ size <= maxSize)
      /\ (exists text rest,
             readFileSync fs filePath (str "utf8") = inr text
             /\ N.of_nat (List.length text) <= maxSize
             /\ fst (SafeJson.safeParse text realm) = Parse v rest)
      /\ forall k, SafeJson.KeyIn k v -> SafeJson.dangerous k = false)
  /\ (existsSync fs filePath = false ->
      r = Throws (str "File not found: " ++ filePath))
  /\ (forall size,
         existsSync fs filePath = true ->
         statSync_size fs filePath = inr size -> maxSize < size ->
         r = Throws (str "File too large: " ++ Str.of_N size
                     ++ str " bytes (max: " ++ Str.of_N maxSize
                     ++ str " bytes). File: " ++ filePath))
  /\ snd (SafeJson.safeReadJSON fs syntax_message filePath maxSize realm)
     = realm.
Proof.
  intros r. subst r. unfold SafeJson.safeReadJSON.
  destruct (existsSync fs filePath); cbn [negb].
  2:{ repeat split; try discriminate; auto. }
  destruct (statSync_size fs filePath) as [e|size].
  { repeat split; try discriminate. }
  destruct (maxSize <? size) eqn:Esize.
  { apply N.ltb_lt in Esize. repeat split; try discriminate.
    intros size' _ E _. injection E as <-. reflexivity. }
  apply N.ltb_ge in Esize.
  destruct (readFileSync fs filePath (str "utf8")) as [e|text].
  { repeat split; try discriminate. intros size' _ E H. injection E as <-. lia. }
  destruct (maxSize <? N.of_nat (List.length text)) eqn:Etext.
  { repeat split; try discriminate. intros size' _ E H. injection E as <-. lia. }
  apply N.ltb_ge in Etext.
  destruct (SafeJson.safeParse text realm) as [parsed realm'] eqn:Eparse.
  assert (Hrealm : realm' = realm).
  { unfold SafeJson.safeParse in Eparse.
    destruct (Json.parse SafeJson.reviver text); now injection Eparse. }
  subst realm'.
  destruct parsed as [v rest| |]; cbn [fst snd];
    (split; [|split; [|split]]); try discriminate; try reflexivity;
    try (intros size' _ E H; injection E as <-; lia).
  intros v' E. injection E as <-.
  split; [reflexivity|]. split; [now exists size|].
  split; [exists text, rest; rewrite Eparse; auto|].
  now apply (ParseFacts.safeParse_clean text realm v rest realm).
Qed.

(** [loadSchema] never throws and never hands back a primitive or
    [null]: it comes back with an object or an array, free of reserved
    keys, or it ends the process with status 2 after three lines on
    [console.error], the first naming the schema and the second its
    path. *)
Theorem loadSchema_returns_or_exits fs syntax_message schemaPath schemaName
        realm :
  match fst (SafeJson.loadSchema fs syntax_message schemaPath schemaName
               realm) with
  | SafeJson.Done schema =>
      existsSync fs schemaPath = true
      /\ ((exists props, schema = JObj props)
          \/ (exists elems, schema = JArr elems))
      /\ (forall k, SafeJson.KeyIn k schema -> SafeJson.dangerous k = false)
  | SafeJson.Exit status stderr =>
      status = 2
      /\ exists reason,
           stderr = [ [27] ++ str "[31mFATAL: Failed to load " ++ schemaName
                      ++ [27] ++ str "[0m";
                      str "Path: " ++ schemaPath;
                      str "Error: " ++ reason ]
  end.
Proof.
  unfold SafeJson.loadSchema.
  destruct (existsSync fs schemaPath); cbn [negb fst].
  2:{ split; [reflexivity | eexists; reflexivity]. }
  destruct (readFileSync fs schemaPath (str "utf8")) as [e|text]; cbn [fst].
  { split; [reflexivity | eexists; reflexivity]. }
  destruct (SafeJson.safeParse text realm) as [parsed realm'] eqn:Eparse.
  destruct parsed as [schema rest| |]; cbn [fst];
    try (split; [reflexivity | eexists; reflexivity]).
  destruct (ParseFacts.safeParse_clean text realm schema rest realm' Eparse)
    as [_ Hclean].
  destruct schema; cbn [Value.typeof_object SafeJson.is_null negb orb fst];
    try (split; [reflexivity | eexists; reflexivity]).
  - split; [reflexivity|]. split; [right; eauto | exact Hclean].
  - split; [reflexivity|]. split; [left; eauto | exact Hclean].
Qed.

(** ** Email-Validator *)

Module EmailFacts.
Import RegExp RegExpFacts Constants EmailValidator.

(** Every class of the pattern lies within [ok]. *)
Fixpoint alphabet (ok : N -> bool) (r : regex) : Prop :=
  match r with
  | Fail | Eps => True
  | Set_ neg rs => forall c, in_set neg rs c = true -> ok c = true
  | Cat r1 r2 | Alt r1 r2 => alphabet ok r1 /\ alphabet ok r2
  | Star r1 => alphabet ok r1
  end.

Lemma Matches_alphabet ok r s :
  alphabet ok r -> Matches r s -> forallb ok s = true.
Proof.
  intros Ha HM. induction HM; simpl in Ha; try reflexivity.
  - simpl. now rewrite (Ha c H).
  - rewrite forallb_app. destruct Ha as [H1 H2].
    now rewrite IHHM1, IHHM2.
  - apply IHHM, Ha.
  - apply IHHM, Ha.
  - rewrite forallb_app. now rewrite IHHM1, IHHM2.
Qed.

Lemma alphabet_UpTo ok n r : alphabet ok r -> alphabet ok (UpTo n r).
Proof. intros H. induction n; simpl; auto. Qed.

(** What a class admits is decided on the class. *)
Lemma class_within (ok : N -> bool) rs :
  (forall lo hi, In (lo, hi) rs ->
                 forall c, lo <= c <= hi -> ok c = true) ->
  alphabet ok (Set_ false rs).
Proof.
  intros H c Hc. unfold in_set, Str.in_ranges in Hc. simpl in Hc.
  apply existsb_exists in Hc as [[lo hi] [Hin Hr]]. simpl in Hr.
  apply andb_true_iff in Hr as [H1 H2]. apply N.leb_le in H1, H2.
  now apply (H lo hi Hin).
Qed.

(** A unit of a domain: a letter, a digit, a hyphen or a dot. *)
Definition domain_unit (c : N) : bool :=
  Str.in_ranges c [range "a" "z"; range "A" "Z"; range "0" "9";
                   one "-"; one "."].

Definition not_at (c : N) : bool := negb (c =? 64).

Ltac within :=
  apply class_within; simpl;
  intros lo hi Hin c Hc;
  repeat (destruct Hin as [Hin | Hin];
          [injection Hin as <- <-;
           unfold domain_unit, not_at, Str.in_ranges, range, one; simpl;
           try (rewrite ?orb_true_iff, ?andb_true_iff, ?N.leb_le; lia);
           try (apply negb_true_iff, N.eqb_neq; lia)|]);
  destruct Hin.

Lemma local_alphabet : alphabet not_at local_class.
Proof. unfold local_class. within. Qed.

Lemma alnum_alphabet : alphabet domain_unit alnum.
Proof. unfold alnum. within. Qed.

Lemma alnum_hyphen_alphabet : alphabet domain_unit alnum_hyphen.
Proof. unfold alnum_hyphen. within. Qed.

Lemma dot_alphabet : alphabet domain_unit (Chr ".").
Proof. unfold Chr. within. Qed.

Lemma label_alphabet : alphabet domain_unit label.
Proof.
  unfold label, Opt. cbn [alphabet].
  split; [apply alnum_alphabet|]. split; [|exact I].
  split; [apply alphabet_UpTo, alnum_hyphen_alphabet | apply alnum_alphabet].
Qed.

Lemma domain_alphabet :
  alphabet domain_unit (Cat label (Star (Cat (Chr ".") label))).
Proof.
  cbn [alphabet]. split; [apply label_alphabet|].
  split; [apply dot_alphabet | apply label_alphabet].
Qed.

Lemma domain_unit_not_at c : domain_unit c = true -> not_at c = true.
Proof.
  unfold domain_unit, not_at, Str.in_ranges, range, one. simpl.
  rewrite !orb_true_iff, !andb_true_iff, !N.leb_le.
  intros H. apply negb_true_iff, N.eqb_neq. lia.
Qed.

Lemma label_nonempty s : Matches label s -> s <> [].
Proof.
  unfold label. rewrite Matches_Cat. intros [s1 [s2 [-> [H1 _]]]].
  apply Matches_Set in H1 as [c [-> _]]. discriminate.
Qed.

(** The shape of what [isValidEmailFormat] accepts: one [@], between a
    local part and a domain that hold none. *)
Lemma email_shape email :
  isValidEmailFormat (JStr email) = true ->
  exists local domain,
    email = local ++ [64] ++ domain
    /\ local <> [] /\ domain <> []
    /\ forallb not_at local = true
    /\ forallb domain_unit domain = true.
Proof.
  unfold isValidEmailFormat, test, emailRegex.
  cbn [anchored_start anchored_end body]. rewrite accepts_iff.
  intros H.
  apply Matches_seq_cons in H as [l [r1 [-> [Hl H]]]].
  apply Matches_seq_cons in H as [a [r2 [-> [Ha H]]]].
  cbn [seq] in H.
  assert (Eat : a = [64]).
  { unfold Chr in Ha. apply Matches_Set in Ha as [c [-> Hc]].
    unfold in_set, Str.in_ranges in Hc. simpl in Hc.
    rewrite orb_false_r, andb_true_iff, !N.leb_le in Hc.
    assert (c = 64) by lia. now subst. }
  subst a. exists l, r2. repeat split.
  - unfold Plus in Hl. apply Matches_Cat in Hl as [s1 [s2 [-> [H1 _]]]].
    apply Matches_Set in H1 as [c [-> _]]. discriminate.
  - pose proof H as H'. apply Matches_Cat in H' as [s1 [s2 [-> [H1 _]]]].
    apply label_nonempty in H1. destruct s1; [contradiction | discriminate].
  - apply (Matches_alphabet not_at (Plus local_class)); [|exact Hl].
    cbn [alphabet Plus]. split; apply local_alphabet.
  - exact (Matches_alphabet _ _ _ domain_alphabet H).
Qed.

Lemma split_plain s :
  forallb not_at s = true -> split 64 s = [s].
Proof.
  induction s as [|c s IH]; [reflexivity|].
  cbn [forallb]. intros H. apply andb_true_iff in H as [Hc Hs].
  unfold not_at in Hc. apply negb_true_iff in Hc.
  cbn [split]. now rewrite Hc, (IH Hs).
Qed.

Lemma split_at local domain :
  forallb not_at local = true -> forallb not_at domain = true ->
  split 64 (local ++ [64] ++ domain) = [local; domain].
Proof.
  intros Hl Hd. induction local as [|c local IH].
  - cbn [app split]. simpl. now rewrite (split_plain domain Hd).
  - cbn [forallb] in Hl. apply andb_true_iff in Hl as [Hc Hl].
    unfold not_at in Hc. apply negb_true_iff in Hc.
    cbn [app split]. rewrite Hc. cbn [app] in IH. now rewrite (IH Hl).
Qed.

Lemma domain_not_at domain :
  forallb domain_unit domain = true -> forallb not_at domain = true.
Proof.
  rewrite !forallb_forall. intros H c Hc. now apply domain_unit_not_at, H.
Qed.

(** [extractDomain] on what passes the format check. *)
Lemma extractDomain_format email :
  isValidEmailFormat (JStr email) = true ->
  exists local domain,
    email = local ++ [64] ++ domain
    /\ local <> [] /\ domain <> []
    /\ forallb not_at local = true
    /\ forallb domain_unit domain = true
    /\ extractDomain (JStr email) = Some (Str.toLowerCase domain).
Proof.
  intros Hf. destruct (email_shape email Hf)
    as [local [domain [-> [Hl [Hd [Hla Hda]]]]]].
  exists local, domain. repeat split; auto.
  unfold extractDomain. rewrite Hf. cbn [negb Value.text].
  now rewrite (split_at local domain Hla (domain_not_at domain Hda)).
Qed.

End EmailFacts.

(** [extractDomain] answers [null] exactly for what fails the format
    check.  An address that passes has a single [@], between a local
    part and a domain that are not empty and hold no [@], so the test
    on the number of parts never decides; the answer is the domain in
    lower case. *)
Theorem extractDomain_spec v :
  (EmailValidator.extractDomain v = None
   <-> EmailValidator.isValidEmailFormat v = false)
  /\ (forall domain,
         EmailValidator.extractDomain v = Some domain ->
         exists local d,
           v = JStr (local ++ str "@" ++ d)
           /\ local <> [] /\ d <> []
           /\ ~ In 64 local /\ ~ In 64 d
           /\ domain = Str.toLowerCase d).
Proof.
  assert (Hnot : forall s, forallb EmailFacts.not_at s = true -> ~ In 64 s).
  { intros s H Hin. rewrite forallb_forall in H. specialize (H 64 Hin).
    discriminate. }
  destruct (EmailValidator.isValidEmailFormat v) eqn:Hf.
  - destruct v as [| | | |email| |]; try discriminate.
    destruct (EmailFacts.extractDomain_format email Hf)
      as [local [d [-> [Hl [Hd [Hla [Hda He]]]]]]].
    rewrite He. split; [split; discriminate|].
    intros domain E. injection E as <-. exists local, d.
    repeat split; auto. now apply Hnot, EmailFacts.domain_not_at.
  - unfold EmailValidator.extractDomain. rewrite Hf. cbn [negb].
    split; [tauto | discriminate].
Qed.

Module EmailListFacts.
Import Constants EmailValidator EmailFacts CommonFacts.

Lemma listed domain l :
  domain <> [] ->
  match Some domain with
  | None | Some [] => false
  | Some d => Str.mem d l
  end = Str.mem domain l.
Proof. destruct domain; [contradiction | reflexivity]. Qed.

Lemma assoc_some k table v : assoc k table = Some v -> In (k, v) table.
Proof.
  induction table as [|[k' v'] table IH]; [discriminate|]. simpl.
  destruct (Str.eqb k k') eqn:E.
  - apply Str_eqb_eq in E. subst. intros H. injection H as ->. now left.
  - intros H. right. now apply IH.
Qed.

Lemma assoc_none k table : assoc k table = None -> ~ In k (map fst table).
Proof.
  induction table as [|[k' v'] table IH]; [auto|]. simpl.
  destruct (Str.eqb k k') eqn:E; [discriminate|].
  apply Str_eqb_neq in E. intros H [Hk | Hin]; [congruence | now apply IH].
Qed.

(** A unit of a domain in lower case. *)
Definition lower_domain_unit (c : N) : bool :=
  Str.in_ranges c [range "a" "z"; range "0" "9"; one "-"; one "."].

Lemma domain_unit_cases d :
  domain_unit d = true
  -> (97 <= d <= 122) \/ (65 <= d <= 90) \/ (48 <= d <= 57)
     \/ d = 45 \/ d = 46.
Proof.
  unfold domain_unit, Str.in_ranges, range, one. simpl.
  rewrite orb_false_r, !orb_true_iff, !andb_true_iff, !N.leb_le. lia.
Qed.

Lemma lower_domain_unit_cases c :
  (97 <= c <= 122) \/ (48 <= c <= 57) \/ c = 45 \/ c = 46
  -> lower_domain_unit c = true.
Proof.
  unfold lower_domain_unit, Str.in_ranges, range, one. simpl.
  rewrite orb_false_r, !orb_true_iff, !andb_true_iff, !N.leb_le. lia.
Qed.

Lemma lower_domain domain :
  forallb domain_unit domain = true ->
  forallb lower_domain_unit (Str.toLowerCase domain) = true.
Proof.
  rewrite !forallb_forall. intros H c Hc.
  apply in_map_iff in Hc as [d [<- Hd]].
  pose proof (domain_unit_cases d (H d Hd)) as Hcases.
  apply lower_domain_unit_cases. unfold Str.lower_unit.
  destruct (((65 <=? d) && (d <=? 90))
            || ((192 <=? d) && (d <=? 222) && negb (d =? 215))) eqn:E.
  - apply orb_true_iff in E as [E | E].
    + apply andb_true_iff in E as [E1 E2]. apply N.leb_le in E1, E2. lia.
    + apply andb_true_iff in E as [E _]. apply andb_true_iff in E as [E1 _].
      apply N.leb_le in E1. lia.
  - apply orb_false_iff in E as [E _].
    apply andb_false_iff in E. rewrite !N.leb_gt in E. lia.
Qed.

(** Of the members that [commonTypos] inherits, a domain can only name
    [constructor]: the other names hold a capital letter or an
    underscore. *)
Lemma inherited_lookup domain :
  forallb lower_domain_unit domain = true ->
  assoc domain inherited
  = if Str.eqb domain (str "constructor") then Some (native "Object")
    else None.
Proof.
  intros H. unfold inherited. cbn [assoc].
  destruct (Str.eqb domain (str "constructor")); [reflexivity|].
  repeat match goal with
         | |- context [Str.eqb domain ?k] =>
             let E := fresh "E" in
             destruct (Str.eqb domain k) eqn:E;
             [apply Str_eqb_eq in E; subst domain; discriminate H|]
         end.
  reflexivity.
Qed.

End EmailListFacts.

(** [validateEmail] accepts exactly the addresses that pass the format
    check and whose domain, in lower case, is in neither list; an
    address of a listed domain is refused whatever the letter case of
    the domain.  The three failures are told apart by their messages,
    which start with the field name. *)
Theorem validateEmail_iff v fieldName :
  let r := EmailValidator.validateEmail v fieldName in
  (valid r = true
   <-> exists domain,
         EmailValidator.extractDomain v = Some domain
         /\ ~ In domain Constants.DISPOSABLE_EMAIL_DOMAINS
         /\ ~ In domain Constants.RESERVED_EMAIL_DOMAINS)
  /\ (EmailValidator.extractDomain v = None ->
      r = fail (fieldName ++ str " has invalid format"))
  /\ (forall domain,
         EmailValidator.extractDomain v = Some domain ->
         In domain Constants.DISPOSABLE_EMAIL_DOMAINS ->
         r = fail (fieldName
                   ++ str " uses disposable email service (not allowed)"))
  /\ (forall domain,
         EmailValidator.extractDomain v = Some domain ->
         In domain Constants.RESERVED_EMAIL_DOMAINS ->
         r = fail (fieldName
                   ++ str " uses reserved/test domain (not allowed)")).
Proof.
  intros r. subst r. unfold EmailValidator.validateEmail.
  unfold EmailValidator.isDisposableEmail, EmailValidator.isReservedEmail.
  destruct (EmailValidator.isValidEmailFormat v) eqn:Hf; cbn [negb].
  - destruct v as [| | | |email| |]; try discriminate.
    destruct (EmailFacts.extractDomain_format email Hf)
      as [local [d [_ [_ [Hd [_ [Hda He]]]]]]].
    rewrite He.
    assert (Hne : Str.toLowerCase d <> []).
    { destruct d; [contradiction | discriminate]. }
    set (domain := Str.toLowerCase d) in *.
    rewrite !(EmailListFacts.listed domain _ Hne).
    pose proof (CommonFacts.mem_iff domain Constants.DISPOSABLE_EMAIL_DOMAINS)
      as Hdis.
    pose proof (CommonFacts.mem_iff domain Constants.RESERVED_EMAIL_DOMAINS)
      as Hres.
    assert (Hdisjoint : In domain Constants.DISPOSABLE_EMAIL_DOMAINS ->
                        In domain Constants.RESERVED_EMAIL_DOMAINS -> False).
    { simpl. intros H1 H2.
      repeat (destruct H1 as [<- | H1];
              [repeat (destruct H2 as [H2 | H2]; [discriminate H2|]);
               exact H2|]).
      exact H1. }
    destruct (Str.mem domain Constants.DISPOSABLE_EMAIL_DOMAINS) eqn:E1.
    { assert (H1 : In domain Constants.DISPOSABLE_EMAIL_DOMAINS)
        by now apply Hdis.
      cbn [valid fail]. split; [|split; [|split]].
      - split; [discriminate|]. intros [x [E [H _]]]. injection E as <-.
        contradiction.
      - discriminate.
      - reflexivity.
      - intros x E H. injection E as <-. exfalso. now apply Hdisjoint. }
    assert (H1 : ~ In domain Constants.DISPOSABLE_EMAIL_DOMAINS).
    { intros H. apply Hdis in H. congruence. }
    destruct (Str.mem domain Constants.RESERVED_EMAIL_DOMAINS) eqn:E2.
    { assert (H2 : In domain Constants.RESERVED_EMAIL_DOMAINS)
        by now apply Hres.
      cbn [valid fail]. split; [|split; [|split]].
      - split; [discriminate|]. intros [x [E [_ H]]]. injection E as <-.
        contradiction.
      - discriminate.
      - intros x E H. injection E as <-. contradiction.
      - reflexivity. }
    assert (H2 : ~ In domain Constants.RESERVED_EMAIL_DOMAINS).
    { intros H. apply Hres in H. congruence. }
    cbn [valid ok_warnings]. split; [|split; [|split]].
    + split; [|reflexivity]. intros _. now exists domain.
    + discriminate.
    + intros x E H. injection E as <-. contradiction.
    + intros x E H. injection E as <-. contradiction.
  - assert (He : EmailValidator.extractDomain v = None).
    { unfold EmailValidator.extractDomain. now rewrite Hf. }
    rewrite He. cbn [valid fail]. split; [|split; [|split]].
    + split; [discriminate|]. intros [x [E _]]. discriminate.
    + reflexivity.
    + intros x E. discriminate.
    + intros x E. discriminate.
Qed.

(** An accepted address carries at most one warning.  The warning is
    given for the six misspelt domains of the table, with the domain
    meant; it is also given for the domain [constructor], which the
    table inherits from [Object.prototype]: the domain meant is then
    printed as the text of the function [Object].  No other domain is
    warned about. *)
Theorem validateEmail_warnings v fieldName domain :
  valid (EmailValidator.validateEmail v fieldName) = true ->
  EmailValidator.extractDomain v = Some domain ->
  exists ws,
    EmailValidator.validateEmail v fieldName = ok_warnings ws
    /\ ((exists meant,
            In (domain, meant) EmailValidator.commonTypos
            /\ ws = [str "Possible typo in domain: did you mean " ++ meant
                     ++ str "?"])
        \/ (domain = str "constructor"
            /\ ws = [str "Possible typo in domain: did you mean "
                     ++ str "function Object() { [native code] }"
                     ++ str "?"])
        \/ (~ In domain (map fst EmailValidator.commonTypos)
            /\ domain <> str "constructor" /\ ws = [])).
Proof.
  intros Hv He.
  unfold EmailValidator.validateEmail in *.
  destruct (negb (EmailValidator.isValidEmailFormat v)) eqn:Hf;
    [discriminate|].
  destruct (EmailValidator.isDisposableEmail v); [discriminate|].
  destruct (EmailValidator.isReservedEmail v); [discriminate|].
  eexists. split; [reflexivity|].
  apply negb_false_iff in Hf.
  destruct v as [| | | |email| |]; try discriminate.
  destruct (EmailFacts.extractDomain_format email Hf)
    as [local [d [_ [_ [_ [_ [Hda He']]]]]]].
  rewrite He' in He. injection He as <-. rewrite He'.
  pose proof (EmailListFacts.lower_domain d Hda) as Hlow.
  set (domain := Str.toLowerCase d) in *.
  unfold EmailValidator.suggestion.
  destruct (EmailValidator.assoc domain EmailValidator.commonTypos)
    as [meant|] eqn:Et.
  - left. exists meant. split; [|reflexivity].
    now apply EmailListFacts.assoc_some.
  - rewrite (EmailListFacts.inherited_lookup domain Hlow).
    apply EmailListFacts.assoc_none in Et.
    destruct (Str.eqb domain (str "constructor")) eqn:Ec.
    + apply Str_eqb_eq in Ec. right. left. split; [exact Ec | reflexivity].
    + apply Str_eqb_neq in Ec. right. right. auto.
Qed.

(** At [a@constructor] and at [user@GMAIL.co]. *)
Lemma validateEmail_warnings_witness :
  (exists ws,
      EmailValidator.validateEmail (JStr (str "a@constructor")) (str "email")
      = ok_warnings ws
      /\ ((exists meant,
              In (str "constructor", meant) EmailValidator.commonTypos
              /\ ws = [str "Possible typo in domain: did you mean " ++ meant
                       ++ str "?"])
          \/ (str "constructor" = str "constructor"
              /\ ws = [str "Possible typo in domain: did you mean "
                       ++ str "function Object() { [native code] }"
                       ++ str "?"])
          \/ (~ In (str "constructor") (map fst EmailValidator.commonTypos)
              /\ str "constructor" <> str "constructor" /\ ws = []))).
Proof.
  apply (validateEmail_warnings (JStr (str "a@constructor")) (str "email")
           (str "constructor")); reflexivity.
Defined.

(** ** Logger *)

Module LoggerFacts.
Import Logger.

(** The error that printing the message of a call throws, if any. *)
Definition unprintable (message : JSValue) : option jsstring :=
  match SafeJson.sanitizeForTerminal message with
  | Returns _ => None
  | Throws e => Some e
  end.

Definition printable (message : JSValue) : bool :=
  match unprintable message with None => true | Some _ => false end.

Section Platform.
Variable logFormat : jsstring.
Variable env_DEBUG : JSValue.
Variable stringify : JSValue -> jsstring.
Variable toISOString : nat -> jsstring.

Local Abbreviation log := (log logFormat stringify toISOString).
Local Abbreviation call := (call logFormat env_DEBUG stringify toISOString).
Local Abbreviation run := (run logFormat env_DEBUG stringify toISOString).

Definition same_counters (a b : State) : Prop :=
  errorCount a = errorCount b /\ warningCount a = warningCount b
  /\ infoCount a = infoCount b.

(** [log] throws what printing the message throws, before it writes;
    it never touches a counter. *)
Lemma log_outcome level message metadata st :
  match unprintable message with
  | Some e => log level message metadata st = (st, Some e)
  | None =>
      snd (log level message metadata st) = None
      /\ same_counters (fst (log level message metadata st)) st
  end.
Proof.
  unfold Logger.log, unprintable.
  destruct (SafeJson.sanitizeForTerminal message); [|reflexivity].
  destruct (Str.eqb logFormat (str "json")).
  - repeat split.
  - destruct metadata; repeat split.
Qed.

Lemma printed_string s : unprintable (JStr s) = None.
Proof. reflexivity. Qed.

Lemma section_outcome title st :
  match unprintable title with
  | Some e => section logFormat stringify toISOString title st = (st, Some e)
  | None =>
      snd (section logFormat stringify toISOString title st) = None
      /\ same_counters
           (fst (section logFormat stringify toISOString title st)) st
  end.
Proof.
  unfold section, unprintable.
  destruct (SafeJson.sanitizeForTerminal title) as [sanitized|];
    [|reflexivity].
  destruct (Str.eqb logFormat (str "json")).
  - exact (log_outcome INFO (JStr sanitized)
             [(str "type", JStr (str "section"))] st).
  - repeat split.
Qed.

Lemma summary_outcome st :
  snd (summary logFormat stringify toISOString st) = None
  /\ same_counters (fst (summary logFormat stringify toISOString st)) st.
Proof.
  unfold summary.
  pose proof (section_outcome (JStr (str "Validation Summary")) st) as Hs.
  rewrite printed_string in Hs.
  destruct (section logFormat stringify toISOString
              (JStr (str "Validation Summary")) st) as [st1 thrown].
  cbn [fst snd] in Hs. destruct Hs as [-> [H1 [H2 H3]]].
  destruct (Str.eqb logFormat (str "json")).
  - match goal with
    | |- context [Logger.log _ _ _ ?l ?m ?md ?s] =>
        pose proof (log_outcome l m md s) as Hl
    end.
    rewrite printed_string in Hl. destruct Hl as [Hl [L1 [L2 L3]]].
    split; [exact Hl|]. repeat split; congruence.
  - repeat split; assumption.
Qed.

(** The calls that count: those of [error], [warn] and [info] whose
    message can be printed. *)
Definition is_error (c : Call) : bool :=
  match c with CallError message _ => printable message | _ => false end.
Definition is_warn (c : Call) : bool :=
  match c with CallWarn message _ => printable message | _ => false end.
Definition is_info (c : Call) : bool :=
  match c with CallInfo message _ => printable message | _ => false end.

(** What a call throws. *)
Definition thrown (c : Call) : option jsstring :=
  match c with
  | CallError message _ | CallWarn message _ | CallInfo message _
  | CallSuccess message _ | CallSection message => unprintable message
  | CallDebug message _ =>
      if Value.truthy env_DEBUG then unprintable message else None
  | CallSummary => None
  end.

Definition tally (b : bool) : N := if b then 1 else 0.

Lemma call_outcome c st :
  match thrown c with
  | Some e => call c st = (st, Some e)
  | None => snd (call c st) = None
  end
  /\ errorCount (fst (call c st)) = errorCount st + tally (is_error c)
  /\ warningCount (fst (call c st)) = warningCount st + tally (is_warn c)
  /\ infoCount (fst (call c st)) = infoCount st + tally (is_info c).
Proof.
  assert (Hlog : forall level message metadata,
             match unprintable message with
             | Some e => log level message metadata st = (st, Some e)
             | None =>
                 exists st1,
                   log level message metadata st = (st1, None)
                   /\ same_counters st1 st
             end).
  { intros level message metadata.
    pose proof (log_outcome level message metadata st) as H.
    destruct (unprintable message); [exact H|].
    destruct (log level message metadata st) as [st1 t]. cbn [fst snd] in H.
    destruct H as [-> H]. now exists st1. }
  destruct c as [m md|m md|m md|m md|m md|title|];
    cbn [Logger.call thrown is_error is_warn is_info];
    unfold error, warn, info, success, debug, printable.
  - specialize (Hlog ERROR m md). destruct (unprintable m).
    + rewrite Hlog. cbn [fst tally]. repeat split; lia.
    + destruct Hlog as [st1 [-> [H1 [H2 H3]]]].
      cbn [fst snd errorCount warningCount infoCount tally].
      repeat split; lia.
  - specialize (Hlog WARN m md). destruct (unprintable m).
    + rewrite Hlog. cbn [fst tally]. repeat split; lia.
    + destruct Hlog as [st1 [-> [H1 [H2 H3]]]].
      cbn [fst snd errorCount warningCount infoCount tally].
      repeat split; lia.
  - specialize (Hlog INFO m md). destruct (unprintable m).
    + rewrite Hlog. cbn [fst tally]. repeat split; lia.
    + destruct Hlog as [st1 [-> [H1 [H2 H3]]]].
      cbn [fst snd errorCount warningCount infoCount tally].
      repeat split; lia.
  - specialize (Hlog SUCCESS m md). destruct (unprintable m).
    + rewrite Hlog. cbn [fst tally]. repeat split; lia.
    + destruct Hlog as [st1 [-> [H1 [H2 H3]]]].
      cbn [fst snd tally]. repeat split; lia.
  - destruct (Value.truthy env_DEBUG).
    + specialize (Hlog DEBUG m md). destruct (unprintable m).
      * rewrite Hlog. cbn [fst tally]. repeat split; lia.
      * destruct Hlog as [st1 [-> [H1 [H2 H3]]]].
        cbn [fst snd tally]. repeat split; lia.
    + cbn [fst snd tally]. repeat split; lia.
  - pose proof (section_outcome title st) as H.
    destruct (unprintable title).
    + rewrite H. cbn [fst tally]. repeat split; lia.
    + destruct H as [Hs [H1 [H2 H3]]]. cbn [tally].
      repeat split; auto; lia.
  - destruct (summary_outcome st) as [Hs [H1 [H2 H3]]]. cbn [tally].
    repeat split; auto; lia.
Qed.

Definition count (p : Call -> bool) (calls : list Call) : N :=
  N.of_nat (List.length (filter p calls)).

Lemma count_cons p c calls : count p (c :: calls) = tally (p c) + count p calls.
Proof.
  unfold count. cbn [filter]. destruct (p c); cbn [tally List.length]; lia.
Qed.

Lemma run_counters calls :
  forall st,
    errorCount (run calls st) = errorCount st + count is_error calls
    /\ warningCount (run calls st) = warningCount st + count is_warn calls
    /\ infoCount (run calls st) = infoCount st + count is_info calls.
Proof.
  induction calls as [|c calls IH]; intros st.
  - unfold count. simpl. repeat split; lia.
  - unfold Logger.run in *. cbn [fold_left].
    destruct (IH (fst (call c st))) as [H1 [H2 H3]].
    destruct (call_outcome c st) as [_ [C1 [C2 C3]]].
    rewrite H1, H2, H3, C1, C2, C3, !count_cons. repeat split; lia.
Qed.

End Platform.
End LoggerFacts.


(** In the human format the line written for a string is the colour of
    the level, the icon, a space, the sanitized message and the reset
    code, so that the only codes of the line are the logger's own:
    sanitizing the line gives the icon, the space and the sanitized
    message.  A message that is not a string is converted and not
    sanitized: an array holding one string is written with the codes the
    string holds. *)
Theorem log_human_line logFormat stringify toISOString level st :
  Str.eqb logFormat (str "json") = false ->
  (forall message,
      exists line clean,
        Logger.log logFormat stringify toISOString level (JStr message) [] st
        = (Logger.write line st, None)
        /\ Logger.console (Logger.write line st) = Logger.console st ++ [line]
        /\ SafeJson.sanitizeForTerminal (JStr message) = Returns clean
        /\ SafeJson.sanitizeForTerminal (JStr line)
           = Returns (Logger.ICONS level ++ str " " ++ clean))
  /\ (forall s,
         Logger.console
           (fst (Logger.log logFormat stringify toISOString level
                   (JArr [JStr s]) [] st))
         = Logger.console st
           ++ [Logger.levelToColor level ++ Logger.ICONS level ++ str " " ++ s
               ++ Logger.RESET]).
Proof.
  intros Hformat. unfold Logger.log. split.
  - intros message. cbn [SafeJson.sanitizeForTerminal]. rewrite Hformat.
    cbv zeta. eexists. eexists.
    split; [reflexivity|]. split; [reflexivity|]. split; [reflexivity|].
    set (clean := filter (fun c => negb (SafeJson.is_control c))
                         (SafeJson.remove_codes 0 message)).
    assert (Hclean : forallb (fun c => negb (SafeJson.is_control c)) clean
                     = true)
      by apply SanitizeFacts.filter_is_clean.
    assert (Hicon : forallb (fun c => negb (SafeJson.is_control c))
                            (Logger.ICONS level ++ str " ") = true)
      by (destruct level; reflexivity).
    assert (Hcolour : exists parameters,
               forallb SafeJson.in_code parameters = true
               /\ Logger.levelToColor level = render (Colour parameters)).
    { destruct level; eexists; (split; [|reflexivity]); reflexivity. }
    destruct Hcolour as [parameters [Hparameters Ecolour]].
    rewrite Ecolour.
    transitivity
      (SafeJson.sanitizeForTerminal
         (JStr (List.concat
                  (map render
                     [Colour parameters;
                      Text ((Logger.ICONS level ++ str " ") ++ clean);
                      Colour (str "0")])))).
    { do 2 f_equal. cbn [map List.concat]. rewrite app_nil_r.
      cbn [render]. unfold Logger.RESET, Logger.colour.
      now rewrite <- !app_assoc. }
    rewrite SanitizeFacts.sanitize_pieces.
    + cbn [map List.concat plain]. cbn [app]. rewrite app_nil_r.
      now rewrite <- app_assoc.
    + repeat constructor; try assumption.
      cbn [proper]. rewrite forallb_app, Hicon, Hclean. reflexivity.
  - intros s. cbn [SafeJson.sanitizeForTerminal Value.ToString].
    rewrite Hformat. reflexivity.
Qed.

(** The line of an error in the human format. *)
Lemma log_human_line_witness :
  (forall message,
      exists line clean,
        Logger.log (str "human") (fun _ => []) (fun _ => []) Logger.ERROR
          (JStr message) [] (Logger.mkState 0 0 0 [] 0)
        = (Logger.write line (Logger.mkState 0 0 0 [] 0), None)
        /\ Logger.console (Logger.write line (Logger.mkState 0 0 0 [] 0))
           = Logger.console (Logger.mkState 0 0 0 [] 0) ++ [line]
        /\ SafeJson.sanitizeForTerminal (JStr message) = Returns clean
        /\ SafeJson.sanitizeForTerminal (JStr line)
           = Returns (Logger.ICONS Logger.ERROR ++ str " " ++ clean))
  /\ (forall s,
         Logger.console
           (fst (Logger.log (str "human") (fun _ => []) (fun _ => [])
                   Logger.ERROR (JArr [JStr s]) []
                   (Logger.mkState 0 0 0 [] 0)))
         = Logger.console (Logger.mkState 0 0 0 [] 0)
           ++ [Logger.levelToColor Logger.ERROR ++ Logger.ICONS Logger.ERROR
               ++ str " " ++ s ++ Logger.RESET]).
Proof.
  apply (log_human_line (str "human") (fun _ => []) (fun _ => [])
           Logger.ERROR (Logger.mkState 0 0 0 [] 0)).
  reflexivity.
Defined.
